(** * RAIMan: grid model, wrap tunnels, reorg shift, level validation and
      the Pac-Rogue generator, embedded from the TypeScript sources.

    Numbers that the sources use as tile coordinates, sizes and counters are
    integers there and are [Z] here.  Arrays are lists, indexed with stdpp's
    lookup and insert.  Objects mutated in place ([level.tileMatrix], the
    generator's [grid], the closure state of a random generator) are passed
    and returned explicitly. *)

From Stdlib Require Import ZArith List String Ascii Lia Bool DecimalString.
From Stdlib Require Import PrimFloat SpecFloat FloatOps Uint63.
From stdpp Require Import base list.

Local Open Scope Z_scope.

(** ** Two-dimensional arrays (row-major lists of rows) *)

Module Grid2.
Section Grid2.
Context {A : Type}.

(** [m[r][c]], [None] when either index is out of range. *)
Definition lookup2 (m : list (list A)) (r c : nat) : option A :=
  match m !! r with
  | Some row => row !! c
  | None => None
  end.

(** [m[r][c] = v]; nothing changes when either index is out of range. *)
Definition insert2 (m : list (list A)) (r c : nat) (v : A) : list (list A) :=
  match m !! r with
  | Some row => <[r := <[c := v]> row]> m
  | None => m
  end.

(** Every row of [m] has [w] cells and there are [h] rows. *)
Definition shape (h w : nat) (m : list (list A)) : Prop :=
  length m = h /\ Forall (fun row => length row = w) m.

(** Number of cells satisfying [p]. *)
Definition count2 (p : A -> bool) (m : list (list A)) : nat :=
  list_sum (map (fun row => length (filter (fun c => p c = true) row)) m).

End Grid2.
End Grid2.

(** ** levelTypes.ts *)

Inductive TileType : Set :=
  | wall | pellet | power | playerStart | ghostStart | empty.

#[global] Instance TileType_eq_dec : EqDecision TileType.
Proof. solve_decision. Defined.

Record GridPos : Set := mkGridPos { pos_x : Z; pos_y : Z }.

#[global] Instance GridPos_eq_dec : EqDecision GridPos.
Proof. solve_decision. Defined.

Record ParsedLevel : Type := mkParsedLevel {
  level_id : option string;
  width : Z;
  height : Z;
  rawGrid : list string;
  tileMatrix : list (list TileType);
  startPos : option GridPos;
  playerStartCount : Z;
  playerStarts : list GridPos;
  ghostStarts : list GridPos;
  pelletCount : Z;
  powerCount : Z;
  pelletPositions : list GridPos;
  bombPickupPositions : list GridPos;
  boxPositions : list GridPos;
  fruitSpawnPositions : list GridPos
}.

(** The level with its tile matrix replaced: the only field that the
    mutation engine writes. *)
Definition with_tileMatrix (level : ParsedLevel) (m : list (list TileType)) : ParsedLevel :=
  mkParsedLevel (level_id level) (width level) (height level) (rawGrid level) m
    (startPos level) (playerStartCount level) (playerStarts level) (ghostStarts level)
    (pelletCount level) (powerCount level) (pelletPositions level)
    (bombPickupPositions level) (boxPositions level) (fruitSpawnPositions level).

(** [LEVEL_LEGEND]: the tile of a legend character, [None] for any other
    character. *)
Definition LEVEL_LEGEND (ch : ascii) : option TileType :=
  match ch with
  | "#"%char => Some wall
  | "."%char => Some pellet
  | "o"%char => Some power
  | "P"%char => Some playerStart
  | "G"%char => Some ghostStart
  | " "%char => Some empty
  | "A"%char => Some empty
  | "B"%char => Some empty
  | "5"%char => Some empty
  | _ => None
  end.

Definition isWalkable (tile : TileType) : bool :=
  negb (bool_decide (tile = wall)).

(** The invariant of a [ParsedLevel]: [height] rows of [width] tiles. *)
Definition wf_level (level : ParsedLevel) : Prop :=
  0 <= width level /\ 0 <= height level /\
  Grid2.shape (Z.to_nat (height level)) (Z.to_nat (width level)) (tileMatrix level).

Definition in_bounds (level : ParsedLevel) (x y : Z) : bool :=
  (0 <=? x) && (0 <=? y) && (x <? width level) && (y <? height level).

(** [level.tileMatrix[y]![x]!].  A column index outside the row reads
    [undefined] in the source, which every test of this code base
    ([isWalkable], [=== "wall"], the pellet and start tests) treats as it
    treats [empty]; a row index outside the matrix raises a [TypeError]
    there.  On a level satisfying [wf_level] neither happens for an
    in-bounds tile. *)
Definition tileAt (level : ParsedLevel) (x y : Z) : TileType :=
  if (x <? 0) || (y <? 0) then empty
  else default empty (Grid2.lookup2 (tileMatrix level) (Z.to_nat y) (Z.to_nat x)).

(** [level.tileMatrix[y]![x] = t] *)
Definition setTile (level : ParsedLevel) (x y : Z) (t : TileType) : ParsedLevel :=
  if (x <? 0) || (y <? 0) then level
  else with_tileMatrix level (Grid2.insert2 (tileMatrix level) (Z.to_nat y) (Z.to_nat x) t).

(** ** directions.ts *)

Module Direction.
Inductive t : Set := None | Up | Down | Left | Right.
End Direction.

#[global] Instance Direction_eq_dec : EqDecision Direction.t.
Proof. solve_decision. Defined.

Definition vec (direction : Direction.t) : Z * Z :=
  match direction with
  | Direction.Up => (0, -1)
  | Direction.Down => (0, 1)
  | Direction.Left => (-1, 0)
  | Direction.Right => (1, 0)
  | Direction.None => (0, 0)
  end.

(** ** wrapTunnels.ts *)

Definition isAllowedBorderTunnelChar (ch : ascii) : bool :=
  match ch with
  | " "%char | "."%char | "o"%char | "A"%char | "5"%char => true
  | _ => false
  end.

Definition getWrapDestination (level : ParsedLevel) (tileX tileY : Z) (dir : Direction.t)
  : option GridPos :=
  if bool_decide (dir = Direction.None) then None else
  let v := vec dir in
  let nx := tileX + fst v in
  let ny := tileY + snd v in
  (* Normal in-bounds move isn't a "wrap". *)
  if (0 <=? nx) && (0 <=? ny) && (nx <? width level) && (ny <? height level) then None else
  if bool_decide (dir = Direction.Left) && (tileX =? 0) then
    let destX := width level - 1 in
    if negb (isWalkable (tileAt level tileX tileY)) then None else
    if negb (isWalkable (tileAt level destX tileY)) then None else
    Some (mkGridPos destX tileY)
  else if bool_decide (dir = Direction.Right) && (tileX =? width level - 1) then
    let destX := 0 in
    if negb (isWalkable (tileAt level tileX tileY)) then None else
    if negb (isWalkable (tileAt level destX tileY)) then None else
    Some (mkGridPos destX tileY)
  else if bool_decide (dir = Direction.Up) && (tileY =? 0) then
    let destY := height level - 1 in
    if negb (isWalkable (tileAt level tileX tileY)) then None else
    if negb (isWalkable (tileAt level tileX destY)) then None else
    Some (mkGridPos tileX destY)
  else if bool_decide (dir = Direction.Down) && (tileY =? height level - 1) then
    let destY := 0 in
    if negb (isWalkable (tileAt level tileX tileY)) then None else
    if negb (isWalkable (tileAt level tileX destY)) then None else
    Some (mkGridPos tileX destY)
  else None.

Definition nextTileWithWrap (level : ParsedLevel) (tileX tileY : Z) (dir : Direction.t)
  : option GridPos :=
  if bool_decide (dir = Direction.None) then None else
  let v := vec dir in
  let nx := tileX + fst v in
  let ny := tileY + snd v in
  if (0 <=? nx) && (0 <=? ny) && (nx <? width level) && (ny <? height level) then
    if negb (isWalkable (tileAt level nx ny)) then None
    else Some (mkGridPos nx ny)
  else
    match getWrapDestination level tileX tileY dir with
    | None => None
    | Some wrap => Some wrap
    end.

(** ** rng.ts *)

(** The [Rng] interface.  The object holds its state in a closure; here each
    method takes the state and returns the next one. *)
Record Rng (S : Type) : Type := mkRng {
  nextUint32 : S -> Z * S;
  nextFloat : S -> float * S;
  nextInt : Z -> Z -> S -> Z * S
}.
Arguments nextUint32 {S} _ _.
Arguments nextFloat {S} _ _.
Arguments nextInt {S} _ _ _ _.

(** 32-bit unsigned arithmetic of JavaScript's bit operators, on the bit
    pattern taken as a number in [0, 2^32). *)
Definition u32 (z : Z) : Z := z mod 4294967296.
Definition imul (a b : Z) : Z := u32 (a * b).
Definition shl32 (a n : Z) : Z := u32 (Z.shiftl a n).
Definition shr32 (a n : Z) : Z := Z.shiftr a n.

(** UTF-16 code units of a string; the strings of this model hold 8-bit
    characters. *)
Definition charCodes (s : string) : list Z :=
  map (fun c => Z.of_N (N_of_ascii c)) (list_ascii_of_string s).

(** A JavaScript number holding an integer in [0, 2^63), as a binary64. *)
Definition float_of_Z (z : Z) : float :=
  if z <? 0 then PrimFloat.opp (PrimFloat.of_uint63 (Uint63.of_Z (- z)))
  else PrimFloat.of_uint63 (Uint63.of_Z z).

(** [Math.floor] of a finite binary64, as an integer. *)
Definition floor_float (f : float) : Z :=
  match Prim2SF f with
  | S754_finite false m e =>
      if 0 <=? e then Z.pos m * 2 ^ e else Z.pos m / 2 ^ (- e)
  | S754_finite true m e =>
      if 0 <=? e then - (Z.pos m * 2 ^ e) else - ((Z.pos m + 2 ^ (- e) - 1) / 2 ^ (- e))
  | _ => 0
  end.

(** xmur3: string -> 32-bit seed *)
Definition stringToSeed32 (str : string) : Z :=
  let h0 := Z.lxor 1779033703 (Z.of_nat (String.length str)) in
  let h1 := fold_left (fun h c =>
              let h := imul (Z.lxor h c) 3432918353 in
              Z.lor (shl32 h 13) (shr32 h 19)) (charCodes str) h0 in
  let h2 := imul (Z.lxor h1 (shr32 h1 16)) 2246822507 in
  let h3 := imul (Z.lxor h2 (shr32 h2 13)) 3266489909 in
  let h4 := Z.lxor h3 (shr32 h3 16) in
  u32 h4.

(** mulberry32: one call of the returned closure on state [a]. *)
Definition mulberry32_next (a : Z) : float * Z :=
  let a := u32 (a + 1831565813) in
  let t := imul (Z.lxor a (shr32 a 15)) (Z.lor a 1) in
  let t := Z.lxor t (u32 (t + imul (Z.lxor t (shr32 t 7)) (Z.lor t 61))) in
  (PrimFloat.div (float_of_Z (u32 (Z.lxor t (shr32 t 14)))) (float_of_Z 4294967296), a).

Definition mulberry32 (seed : Z) : Z := u32 seed.

Definition createRng_ops : Rng Z :=
  mkRng Z
    (fun st => let '(f, st') := mulberry32_next st in
               (u32 (floor_float (PrimFloat.mul f (float_of_Z 4294967296))), st'))
    (fun st => mulberry32_next st)
    (fun minInclusive maxExclusive st =>
       let min := minInclusive in
       let max := maxExclusive in
       if max <=? min then (min, st)
       else let '(f, st') := mulberry32_next st in
            (min + floor_float (PrimFloat.mul f (float_of_Z (max - min))), st')).

(** [createRng(seedString)]: the methods and the initial closure state. *)
Definition createRng (seedString : string) : Rng Z * Z :=
  let seed := stringToSeed32 seedString in
  (createRng_ops, mulberry32 seed).

(** ** vibeReorgShift.ts *)

Record ReorgShiftConfig : Set := mkReorgShiftConfig {
  mutations : Z;
  maxTriesPerMutation : Z;
  softlockMaxSteps : Z
}.

Record SwapCandidate : Set := mkSwapCandidate { ax : Z; ay : Z; bx : Z; by_ : Z }.

Definition isMutableWalkable (tile : TileType) : bool :=
  isWalkable tile && negb (bool_decide (tile = playerStart)) && negb (bool_decide (tile = ghostStart)).

(** [Boolean(mask[y]?.[x])] *)
Definition hasProtected (mask : list (list bool)) (x y : Z) : bool :=
  if (x <? 0) || (y <? 0) then false
  else default false (Grid2.lookup2 mask (Z.to_nat y) (Z.to_nat x)).

(** The key of a tile in a [Set<string>]: the string [`${x},${y}`] in the
    source, the pair here (the two determine each other for integers). *)
Definition tileKey (x y : Z) : Z * Z := (x, y).

(** A JavaScript [Set] of tile keys: membership, and insertion keeping the
    order of first insertion. *)
Definition set_has (s : list (Z * Z)) (k : Z * Z) : bool := bool_decide (k ∈ s).
Definition set_add (s : list (Z * Z)) (k : Z * Z) : list (Z * Z) :=
  if set_has s k then s else s ++ [k].

Definition collectAdjacentSwapCandidates (level : ParsedLevel) (protectedMask : list (list bool))
    (used : list (Z * Z)) : list SwapCandidate :=
  y ← seqZ 0 (height level);
  x ← seqZ 0 (width level);
  if set_has used (tileKey x y) then [] else
  if hasProtected protectedMask x y then [] else
  d ← [(1, 0); (0, 1)];
  let nx := x + fst d in
  let ny := y + snd d in
  if (nx <? 0) || (ny <? 0) || (width level <=? nx) || (height level <=? ny) then [] else
  if set_has used (tileKey nx ny) then [] else
  if hasProtected protectedMask nx ny then [] else
  let a := tileAt level x y in
  let b := tileAt level nx ny in
  let aWall := bool_decide (a = wall) in
  let bWall := bool_decide (b = wall) in
  if Bool.eqb aWall bWall then [] else
  let aWalk := isMutableWalkable a in
  let bWalk := isMutableWalkable b in
  if negb aWalk && negb bWalk then [] else
  [mkSwapCandidate x y nx ny].

Definition swapTiles (level : ParsedLevel) (a b : GridPos) : ParsedLevel :=
  let tA := tileAt level (pos_x a) (pos_y a) in
  let tB := tileAt level (pos_x b) (pos_y b) in
  let level := setTile level (pos_x a) (pos_y a) tB in
  setTile level (pos_x b) (pos_y b) tA.

(** The [visited] arrays of the searches. *)
Definition new_visited (level : ParsedLevel) : list (list bool) :=
  replicate (Z.to_nat (height level)) (replicate (Z.to_nat (width level)) false).

Definition is_visited (visited : list (list bool)) (x y : Z) : bool :=
  if (x <? 0) || (y <? 0) then false
  else default false (Grid2.lookup2 visited (Z.to_nat y) (Z.to_nat x)).

Definition mark_visited (visited : list (list bool)) (x y : Z) : list (list bool) :=
  if (x <? 0) || (y <? 0) then visited
  else Grid2.insert2 visited (Z.to_nat y) (Z.to_nat x) true.

Definition search_dirs : list Direction.t :=
  [Direction.Right; Direction.Left; Direction.Down; Direction.Up].

(** One turn of the [for (const d of dirs)] loop of the flood fill. *)
Definition flood_visit (level : ParsedLevel) (cur : GridPos)
    (st : list (list bool) * list GridPos) (d : Direction.t) : list (list bool) * list GridPos :=
  match nextTileWithWrap level (pos_x cur) (pos_y cur) d with
  | None => st
  | Some next =>
      if is_visited (fst st) (pos_x next) (pos_y next) then st
      else (mark_visited (fst st) (pos_x next) (pos_y next), snd st ++ [next])
  end.

(** The [while (queue.length > 0)] loop shared by [reachableFromStart] and
    the validator's [pelletsReachableFromStart].  Each turn removes one tile
    from the queue and every tile enters it at most once, so
    [width * height + 1] turns always empty it: see [flood_loop_fuel]. *)
Fixpoint flood_loop (fuel : nat) (level : ParsedLevel) (visited : list (list bool))
    (queue : list GridPos) : list (list bool) :=
  match fuel with
  | O => visited
  | S fuel' =>
      match queue with
      | [] => visited
      | cur :: rest =>
          let '(visited', queue') := fold_left (flood_visit level cur) search_dirs (visited, rest) in
          flood_loop fuel' level visited' queue'
      end
  end.

Definition flood_fuel (level : ParsedLevel) (queue : list GridPos) : nat :=
  (Z.to_nat (width level) * Z.to_nat (height level) + length queue + 1)%nat.

Definition reachableFromStart (level : ParsedLevel) (start : GridPos) : list (list bool) :=
  let visited := new_visited level in
  if (pos_x start <? 0) || (pos_y start <? 0) || (width level <=? pos_x start)
     || (height level <=? pos_y start)
     || negb (isWalkable (tileAt level (pos_x start) (pos_y start)))
  then visited
  else
    let visited := mark_visited visited (pos_x start) (pos_y start) in
    let queue := [mkGridPos (pos_x start) (pos_y start)] in
    flood_loop (flood_fuel level queue) level visited queue.

Definition neighborCount (level : ParsedLevel) (x y : Z) : Z :=
  fold_left (fun count d =>
               match nextTileWithWrap level x y d with
               | Some _ => count + 1
               | None => count
               end)
    [Direction.Up; Direction.Down; Direction.Left; Direction.Right] 0.

(** Queue entries of [hasNearbyBranch]: a tile and its distance in steps. *)
Definition branch_visit (level : ParsedLevel) (cur : GridPos) (steps : Z)
    (st : list (list bool) * list (GridPos * Z)) (d : Direction.t)
  : list (list bool) * list (GridPos * Z) :=
  match nextTileWithWrap level (pos_x cur) (pos_y cur) d with
  | None => st
  | Some next =>
      if is_visited (fst st) (pos_x next) (pos_y next) then st
      else (mark_visited (fst st) (pos_x next) (pos_y next), snd st ++ [(next, steps + 1)])
  end.

Fixpoint branch_loop (fuel : nat) (level : ParsedLevel) (maxSteps : Z)
    (visited : list (list bool)) (queue : list (GridPos * Z)) : bool :=
  match fuel with
  | O => false
  | S fuel' =>
      match queue with
      | [] => false
      | (cur, steps) :: rest =>
          if (0 <? steps) && (3 <=? neighborCount level (pos_x cur) (pos_y cur)) then true
          else if maxSteps <=? steps then branch_loop fuel' level maxSteps visited rest
          else
            let '(visited', queue') :=
              fold_left (branch_visit level cur steps) search_dirs (visited, rest) in
            branch_loop fuel' level maxSteps visited' queue'
      end
  end.

Definition hasNearbyBranch (level : ParsedLevel) (start : GridPos) (maxSteps : Z) : bool :=
  let visited := new_visited level in
  let queue := [(mkGridPos (pos_x start) (pos_y start), 0)] in
  let visited := mark_visited visited (pos_x start) (pos_y start) in
  branch_loop (flood_fuel level [] + 1) level maxSteps visited queue.

Definition out_of_level (level : ParsedLevel) (p : GridPos) : bool :=
  (pos_x p <? 0) || (pos_y p <? 0) || (width level <=? pos_x p) || (height level <=? pos_y p).

Definition passesChecks (level : ParsedLevel) (starts critical : list GridPos)
    (softlockMaxSteps : Z) : bool :=
  match starts with
  | [] => false
  | start0 :: _ =>
      let visited := reachableFromStart level start0 in
      (* Ensure remaining pellets/powers stay reachable. *)
      forallb (fun y => forallb (fun x =>
          let t := tileAt level x y in
          if negb (bool_decide (t = pellet)) && negb (bool_decide (t = power)) then true
          else is_visited visited x y) (seqZ 0 (width level))) (seqZ 0 (height level))
      (* All player tiles must remain connected to the primary. *)
      && forallb (fun s =>
           negb (out_of_level level s)
           && isWalkable (tileAt level (pos_x s) (pos_y s))
           && is_visited visited (pos_x s) (pos_y s)) starts
      && forallb (fun pos =>
           if out_of_level level pos then true
           else isWalkable (tileAt level (pos_x pos) (pos_y pos))
                && is_visited visited (pos_x pos) (pos_y pos)) critical
      (* No-softlock: each start tile should not be a deep dead-end. *)
      && forallb (fun s =>
           if out_of_level level s then true
           else if negb (isWalkable (tileAt level (pos_x s) (pos_y s))) then false
           else
             let deg := neighborCount level (pos_x s) (pos_y s) in
             if deg =? 0 then false
             else if 2 <=? deg then true
             else hasNearbyBranch level s softlockMaxSteps) starts
  end.

(** What a call of [applyReorgShift] ends with: the returned object, or the
    [TypeError] of reading [pick.ax] when [rng.nextInt] hands back an index
    outside the candidate list. *)
Inductive Outcome : Set :=
  | Returned (ok : bool) (mutatedTiles : list GridPos)
  | Threw.

Inductive Attempt (S : Type) : Type :=
  | Applied (level : ParsedLevel) (rng : S) (a b : GridPos)
  | NotApplied (level : ParsedLevel) (rng : S)
  | AttemptThrew (level : ParsedLevel) (rng : S).
Arguments Applied {S} _ _ _ _.
Arguments NotApplied {S} _ _.
Arguments AttemptThrew {S} _ _.

(** [candidates[i]] for a number [i]. *)
Definition lookupZ {A : Type} (l : list A) (i : Z) : option A :=
  if i <? 0 then None else l !! Z.to_nat i.

Section ReorgShift.
Context {S : Type} (R : Rng S).

(** The [for (let attempt = 0; attempt < cfg.maxTriesPerMutation; attempt++)]
    loop, [tries] turns of it being left. *)
Fixpoint tryMutation (tries : nat) (level : ParsedLevel) (rng : S)
    (protectedMask : list (list bool)) (used : list (Z * Z))
    (starts critical : list GridPos) (softlockMaxSteps : Z) : Attempt S :=
  match tries with
  | O => NotApplied level rng
  | Datatypes.S tries' =>
      let candidates := collectAdjacentSwapCandidates level protectedMask used in
      if bool_decide (candidates = []) then NotApplied level rng else
      let '(i, rng) := nextInt R 0 (Z.of_nat (length candidates)) rng in
      match lookupZ candidates i with
      | None => AttemptThrew level rng
      | Some pick =>
          let a := mkGridPos (ax pick) (ay pick) in
          let b := mkGridPos (bx pick) (by_ pick) in
          let tA := tileAt level (pos_x a) (pos_y a) in
          let tB := tileAt level (pos_x b) (pos_y b) in
          (* Enforce wall <-> walkable swap. *)
          let okPair :=
            (bool_decide (tA = wall) && isMutableWalkable tB)
            || (bool_decide (tB = wall) && isMutableWalkable tA) in
          if negb okPair then
            tryMutation tries' level rng protectedMask used starts critical softlockMaxSteps
          else
            let level := swapTiles level a b in
            if passesChecks level starts critical softlockMaxSteps then Applied level rng a b
            else
              let level := swapTiles level a b in
              tryMutation tries' level rng protectedMask used starts critical softlockMaxSteps
      end
  end.

(** The [for (let i = 0; i < cfg.mutations; i++)] loop, [n] turns of it
    being left, followed by the construction of the result. *)
Fixpoint shiftLoop (n : nat) (cfg : ReorgShiftConfig) (level : ParsedLevel) (rng : S)
    (protectedMask : list (list bool)) (starts critical : list GridPos)
    (used : list (Z * Z)) (accepted : list (GridPos * GridPos)) (mutatedKeys : list (Z * Z))
  : ParsedLevel * S * Outcome :=
  match n with
  | O =>
      (level, rng, Returned true (map (fun k => mkGridPos (fst k) (snd k)) mutatedKeys))
  | Datatypes.S n' =>
      match tryMutation (Z.to_nat (maxTriesPerMutation cfg)) level rng protectedMask used
              starts critical (softlockMaxSteps cfg) with
      | Applied level rng a b =>
          let accepted := accepted ++ [(a, b)] in
          let used := set_add used (tileKey (pos_x a) (pos_y a)) in
          let used := set_add used (tileKey (pos_x b) (pos_y b)) in
          let mutatedKeys := set_add mutatedKeys (tileKey (pos_x a) (pos_y a)) in
          let mutatedKeys := set_add mutatedKeys (tileKey (pos_x b) (pos_y b)) in
          shiftLoop n' cfg level rng protectedMask starts critical used accepted mutatedKeys
      | NotApplied level rng =>
          (* Revert full shift to keep maze stable. *)
          let level := fold_left (fun lv ab => swapTiles lv (fst ab) (snd ab)) (rev accepted) level in
          (level, rng, Returned false [])
      | AttemptThrew level rng => (level, rng, Threw)
      end
  end.

(** [applyReorgShift]: the level and the generator state it leaves behind,
    and how the call ended. *)
Definition applyReorgShift (level : ParsedLevel) (rng : S) (cfg : ReorgShiftConfig)
    (protectedMask : list (list bool)) (starts critical : list GridPos)
  : ParsedLevel * S * Outcome :=
  shiftLoop (Z.to_nat (mutations cfg)) cfg level rng protectedMask starts critical [] [] [].

End ReorgShift.

(** ** levelParser.ts *)

Record LevelJson : Set := mkLevelJson {
  json_id : option string;
  grid : list string
}.

(** A number in a template literal. *)
Definition show_Z (z : Z) : string := NilZero.string_of_int (Z.to_int z).

Definition str_length (s : string) : Z := Z.of_nat (String.length s).

(** [row[x]]; a read outside the row gives [undefined] in the source and the
    NUL character here, which is no legend character either. *)
Definition char_at (row : string) (x : Z) : ascii :=
  if x <? 0 then "000"%char else default "000"%char (String.get (Z.to_nat x) row).

Definition isLegendChar (value : ascii) : bool :=
  match LEVEL_LEGEND value with Some _ => true | None => false end.

Definition printable (ch : ascii) : string :=
  match ch with
  | "009"%char => "\t"
  | "010"%char => "\n"
  | "013"%char => "\r"
  | _ => String ch EmptyString
  end.

Definition err_rows_empty : string := "Level.grid rows must not be empty.".
Definition err_row_length (y len w : Z) : string :=
  ("Level.grid[" ++ show_Z y ++ "] length " ++ show_Z len ++ " does not match width "
    ++ show_Z w ++ ".")%string.
Definition err_invalid_char (ch : ascii) (x y : Z) : string :=
  ("Invalid char '" ++ printable ch ++ "' at (" ++ show_Z x ++ ", " ++ show_Z y ++ ").")%string.

(** The errors of one row: the body of the [for (let y ...)] loop. *)
Definition row_errors (w : Z) (y : Z) (row : string) : list string :=
  (if bool_decide (str_length row = w) then [] else [err_row_length y (str_length row) w])
  ++ concat (imap (fun x ch =>
               if isLegendChar ch then [] else [err_invalid_char ch (Z.of_nat x) y])
             (list_ascii_of_string row)).

(** The errors collected before the [if (errors.length > 0) throw]. *)
Definition parse_errors (rawGrid : list string) (w : Z) : list string :=
  (if w =? 0 then [err_rows_empty] else [])
  ++ concat (imap (fun y row => row_errors w (Z.of_nat y) row) rawGrid).

(** The tiles [(x, y)], in scanning order, whose character satisfies [p]. *)
Definition positions_where (rawGrid : list string) (w h : Z) (p : ascii -> bool) : list GridPos :=
  y ← seqZ 0 h;
  x ← seqZ 0 w;
  if p (char_at (default EmptyString (rawGrid !! Z.to_nat y)) x) then [mkGridPos x y] else [].

(** [parseLevel], for a [level.grid] that is an array of strings: [inl errors]
    stands for [throw new LevelParseError(errors)]. *)
Definition parseLevel (level : LevelJson) : list string + ParsedLevel :=
  match grid level with
  | [] => inl ["Level.grid must be a non-empty string array."%string]
  | row0 :: _ =>
      let rawGrid := grid level in
      let h := Z.of_nat (length rawGrid) in
      let w := str_length row0 in
      let errors := parse_errors rawGrid w in
      if negb (bool_decide (errors = [])) then inl errors else
      let is_ch c := fun ch : ascii => Ascii.eqb ch c in
      let tileMatrix :=
        map (fun y => map (fun x =>
               default empty (LEVEL_LEGEND (char_at (default EmptyString (rawGrid !! Z.to_nat y)) x)))
             (seqZ 0 w)) (seqZ 0 h) in
      let playerStarts := positions_where rawGrid w h (is_ch "P"%char) in
      inr (mkParsedLevel (json_id level) w h rawGrid tileMatrix
             (head playerStarts)
             (Z.of_nat (length playerStarts))
             playerStarts
             (positions_where rawGrid w h (is_ch "G"%char))
             (Z.of_nat (length (positions_where rawGrid w h (is_ch "."%char))))
             (Z.of_nat (length (positions_where rawGrid w h (is_ch "o"%char))))
             (positions_where rawGrid w h (fun ch => is_ch "."%char ch || is_ch "o"%char ch))
             (positions_where rawGrid w h (is_ch "A"%char))
             (positions_where rawGrid w h (is_ch "B"%char))
             (positions_where rawGrid w h (is_ch "5"%char)))
  end.

(** ** levelValidation.ts *)

Inductive Axis : Set := horizontal | vertical.

Definition show_axis (a : Axis) : string :=
  match a with horizontal => "horizontal" | vertical => "vertical" end.

Definition show_char (c : ascii) : string := String c EmptyString.

Definition err_too_small (w h : Z) : string :=
  ("Level must be at least 3x3, got " ++ show_Z w ++ "x" ++ show_Z h ++ ".")%string.
Definition err_tunnel_mismatch (axis : Axis) (a : ascii) (ax ay : Z) (b : ascii) (bx by_ : Z)
  : string :=
  ("Tunnel mismatch (" ++ show_axis axis ++ "): (" ++ show_Z ax ++ ", " ++ show_Z ay ++ ") is '"
    ++ show_char a ++ "', but (" ++ show_Z bx ++ ", " ++ show_Z by_ ++ ") is '" ++ show_char b
    ++ "' (both must be wall or tunnel).")%string.
Definition err_invalid_tunnel (a : ascii) (ax ay : Z) : string :=
  ("Invalid tunnel tile at (" ++ show_Z ax ++ ", " ++ show_Z ay ++ "): '" ++ show_char a
    ++ "'. Use ' ' or '.', 'o', 'A', '5'.")%string.
Definition err_player_count (n : Z) : string :=
  ("Expected 1 or 2 PlayerStart 'P', found " ++ show_Z n ++ ".")%string.
Definition err_no_pellet : string := "Expected at least 1 Pellet '.'.".
Definition err_no_ghost : string := "Expected at least 1 GhostStart 'G'.".
Definition err_unreachable (x y : Z) : string :=
  ("Pellet at (" ++ show_Z x ++ ", " ++ show_Z y ++ ") is not reachable from PlayerStart.")%string.

(** The errors that one call of [checkPair] pushes. *)
Definition checkPair (a : ascii) (ax ay : Z) (b : ascii) (bx by_ : Z) (axis : Axis) : list string :=
  let aWall := Ascii.eqb a "#"%char in
  let bWall := Ascii.eqb b "#"%char in
  if aWall && bWall then [] else
  if negb (Bool.eqb aWall bWall) then [err_tunnel_mismatch axis a ax ay b bx by_] else
  (if isAllowedBorderTunnelChar a then [] else [err_invalid_tunnel a ax ay])
  ++ (if isAllowedBorderTunnelChar b then [] else [err_invalid_tunnel b bx by_]).

Definition grid_row (g : list string) (y : Z) : string :=
  if y <? 0 then EmptyString else default EmptyString (g !! Z.to_nat y).

Definition borderRules (g : list string) (w h : Z) : list string :=
  if (w <? 3) || (h <? 3) then [err_too_small w h] else
  (* Left/right pairing per row. *)
  concat (map (fun y =>
            let row := grid_row g y in
            checkPair (char_at row 0) 0 y (char_at row (w - 1)) (w - 1) y horizontal)
          (seqZ 0 h))
  (* Top/bottom pairing per column. *)
  ++ concat (map (fun x =>
               checkPair (char_at (grid_row g 0) x) x 0
                         (char_at (grid_row g (h - 1)) x) x (h - 1) vertical)
             (seqZ 0 w)).

(** The start of the search of [pelletsReachableFromStart]: the [visited]
    array and the queue once the player starts are entered. *)
Definition pellets_seed (parsed : ParsedLevel) (starts : list GridPos)
  : list (list bool) * list GridPos :=
  let h := Z.of_nat (length (tileMatrix parsed)) in
  let w := Z.of_nat (length (default [] (head (tileMatrix parsed)))) in
  let visited := replicate (Z.to_nat h) (replicate (Z.to_nat w) false) in
  fold_left (fun (st : list (list bool) * list GridPos) start =>
               if (pos_x start <? 0) || (pos_y start <? 0) || (w <=? pos_x start)
                  || (h <=? pos_y start) then st
               else if is_visited (fst st) (pos_x start) (pos_y start) then st
               else (mark_visited (fst st) (pos_x start) (pos_y start),
                     snd st ++ [mkGridPos (pos_x start) (pos_y start)]))
    starts (visited, []).

(** The [visited] array at the end of the [while] loop. *)
Definition pellets_visited (parsed : ParsedLevel) (starts : list GridPos) : list (list bool) :=
  let '(visited, queue) := pellets_seed parsed starts in
  flood_loop (flood_fuel parsed queue) parsed visited queue.

Definition pelletsReachableFromStart (parsed : ParsedLevel) (starts pelletPositions : list GridPos)
  : list string :=
  let visited := pellets_visited parsed starts in
  concat (map (fun pellet_ =>
            if is_visited visited (pos_x pellet_) (pos_y pellet_) then []
            else [err_unreachable (pos_x pellet_) (pos_y pellet_)]) pelletPositions).

Record ValidationResult : Set := mkValidationResult {
  ok : bool;
  errors : list string
}.

Definition validateLevel (level : LevelJson) : ValidationResult :=
  match parseLevel level with
  | inl errs => mkValidationResult false errs
  | inr parsed =>
      let errors :=
        borderRules (rawGrid parsed) (width parsed) (height parsed)
        ++ (if (playerStartCount parsed <? 1) || (2 <? playerStartCount parsed)
            then [err_player_count (playerStartCount parsed)] else [])
        ++ (if pelletCount parsed <? 1 then [err_no_pellet] else [])
        ++ (if Z.of_nat (length (ghostStarts parsed)) <? 1 then [err_no_ghost] else [])
        ++ (if (0 <? Z.of_nat (length (playerStarts parsed))) && (0 <? pelletCount parsed)
            then pelletsReachableFromStart parsed (playerStarts parsed) (pelletPositions parsed)
            else []) in
      mkValidationResult (bool_decide (errors = [])) errors
  end.

(** ** settings.ts *)

Inductive Difficulty : Set := easy | normal | hard.

Definition show_difficulty (d : Difficulty) : string :=
  match d with easy => "easy" | normal => "normal" | hard => "hard" end.

(** ** pacRogue.ts *)

Module PacRogue.

Inductive Dir : Set := north | south | east | west.

Inductive Shape : Set :=
  | plus | triNorth | triSouth | triEast | triWest
  | cornerNE | cornerSE | cornerNW | cornerSW
  | lineV | lineH | empty.

Definition Shape_eqb (a b : Shape) : bool :=
  match a, b with
  | plus, plus | triNorth, triNorth | triSouth, triSouth | triEast, triEast
  | triWest, triWest | cornerNE, cornerNE | cornerSE, cornerSE | cornerNW, cornerNW
  | cornerSW, cornerSW | lineV, lineV | lineH, lineH | empty, empty => true
  | _, _ => false
  end.

Record PacRogueParams : Set := mkPacRogueParams {
  seed : string;
  difficulty : Difficulty;
  param_width : option Z;
  param_height : option Z
}.

Definition TILE_GROUP_DIM : Z := 3.

(** Codes: 1 = occupied (wall), 0 = walkable.
    Order is: C, NW, N, NE, W, E, SW, S, SE. *)
Definition INCORRECT_BIG_C : string := "111110111".
Definition INCORRECT_SMALL_C : string := "101100011".
Definition INCORRECT_TL : string := "111100011".
Definition INCORRECT_CRANE : string := "101100111".
Definition INCORRECT_BIG_C_REVERSE : string := "111101111".
Definition INCORRECT_SMALL_C_REVERSE : string := "111000110".
Definition INCORRECT_TL_REVERSE : string := "111100110".
Definition INCORRECT_CRANE_REVERSE : string := "111000111".
Definition INCORRECT_U : string := "110111111".
Definition INCORRECT_U_UPSIDEDOWN : string := "111111101".
Definition INCORRECT_OCCUPIED : string := "101000010".

Definition ALL_SHAPES : list Shape :=
  [plus; triNorth; triSouth; triEast; triWest; cornerNE; cornerSE; cornerNW; cornerSW;
   lineV; lineH; empty].

Definition CONNECTIONS (d : Dir) : list Shape :=
  match d with
  | north => [plus; triNorth; triEast; triWest; cornerNE; cornerNW; lineV]
  | south => [plus; triSouth; triEast; triWest; cornerSE; cornerSW; lineV]
  | east => [plus; triNorth; triSouth; triEast; cornerNE; cornerSE; lineH]
  | west => [plus; triNorth; triSouth; triWest; cornerNW; cornerSW; lineH]
  end.

(** [set.has(s)] for a set of shapes. *)
Definition has_shape (set_ : list Shape) (s : Shape) : bool := existsb (Shape_eqb s) set_.

(** [set.has(`${x},${y}`)] for a set of tile keys. *)
Definition has_key (set_ : list (Z * Z)) (x y : Z) : bool :=
  existsb (fun k => (fst k =? x) && (snd k =? y)) set_.

Definition add_key (set_ : list (Z * Z)) (x y : Z) : list (Z * Z) :=
  if has_key set_ x y then set_ else set_ ++ [(x, y)].

(** [clampInt], for a finite [value]. *)
Definition clampInt (value min_ max_ : Z) : Z := Z.max min_ (Z.min max_ value).

(** *** The random stream *)

(** The state that [seededRng] starts from: FNV-1a of the seed. *)
Definition seededRng (seed_ : string) : Z :=
  let x := fold_left (fun x c => u32 (imul (Z.lxor x c) 16777619)) (charCodes seed_) 2166136261 in
  if x =? 0 then 305419896 else x.

(** One call of the closure that [seededRng] returns: xorshift32. *)
Definition rng_next (x : Z) : float * Z :=
  let x := Z.lxor x (shl32 x 13) in
  let x := Z.lxor x (shr32 x 17) in
  let x := Z.lxor x (shl32 x 5) in
  let x := u32 x in
  (PrimFloat.div (float_of_Z x) (float_of_Z 4294967295), x).

(** *** Strings *)

Definition is_space (c : ascii) : bool :=
  let n := N_of_ascii c in
  ((9 <=? n) && (n <=? 13) || (n =? 32) || (n =? 160))%N.

Fixpoint trim_start (l : list ascii) : list ascii :=
  match l with
  | c :: l' => if is_space c then trim_start l' else l
  | [] => []
  end.

Definition trim (s : string) : string :=
  string_of_list_ascii (rev (trim_start (rev (trim_start (list_ascii_of_string s))))).

Definition lower_char (c : ascii) : ascii :=
  let n := N_of_ascii c in
  if ((65 <=? n) && (n <=? 90) || (192 <=? n) && (n <=? 222) && negb (n =? 215))%N
  then ascii_of_N (n + 32) else c.

Definition toLowerCase (s : string) : string :=
  string_of_list_ascii (map lower_char (list_ascii_of_string s)).

(** [\w] *)
Definition is_word_char (c : ascii) : bool :=
  let n := N_of_ascii c in
  ((48 <=? n) && (n <=? 57) || (65 <=? n) && (n <=? 90) || (97 <=? n) && (n <=? 122)
   || (n =? 95))%N.

(** [s.split(/[^\w]+/g).filter(Boolean)]: the maximal runs of word
    characters. *)
Fixpoint word_tokens (l : list ascii) (cur : list ascii) : list string :=
  match l with
  | [] => match cur with [] => [] | _ => [string_of_list_ascii (rev cur)] end
  | c :: l' =>
      if is_word_char c then word_tokens l' (c :: cur)
      else match cur with
           | [] => word_tokens l' []
           | _ => string_of_list_ascii (rev cur) :: word_tokens l' []
           end
  end.

Fixpoint join_with (sep : string) (l : list string) : string :=
  match l with
  | [] => EmptyString
  | [s] => s
  | s :: l' => (s ++ sep ++ join_with sep l')%string
  end.

Definition buildId (prefix : string) (d : Difficulty) (seed_ : string) : string :=
  let compact :=
    join_with "-" (take 3 (word_tokens (list_ascii_of_string (toLowerCase (trim seed_))) [])) in
  (prefix ++ "-" ++ show_difficulty d
     ++ (if String.eqb compact EmptyString then EmptyString else "-" ++ compact))%string.

(** *** Tile groups *)

Definition opposite (d : Dir) : Dir :=
  match d with north => south | south => north | east => west | west => east end.

Definition nonConnections (d : Dir) : list Shape :=
  filter (fun s => has_shape (CONNECTIONS d) s = false) ALL_SHAPES.

Definition invalidNeighborShapes (current : Shape) (neighborDir : Dir) : list Shape :=
  let needsBackConnection := has_shape (CONNECTIONS neighborDir) current in
  let opp := opposite neighborDir in
  if needsBackConnection then nonConnections opp else CONNECTIONS opp.

(** The shapes invalid for every current possibility. *)
Definition intersectRemovals (currentOptions : list Shape) (requiredNeighborDir : Dir)
  : list Shape :=
  filter (fun shape =>
            let count := length (filter (fun s =>
                           has_shape (invalidNeighborShapes s requiredNeighborDir) shape = true)
                         currentOptions) in
            (0 <? count)%nat && (count =? length currentOptions)%nat = true)
    ALL_SHAPES.

Definition removeAll (target toRemove : list Shape) : list Shape :=
  filter (fun s => has_shape toRemove s = false) target.

(** [options[x][y]] *)
Definition opt_get (options : list (list (list Shape))) (x y : Z) : list Shape :=
  if (x <? 0) || (y <? 0) then []
  else default [] (Grid2.lookup2 options (Z.to_nat x) (Z.to_nat y)).

Definition opt_set (options : list (list (list Shape))) (x y : Z) (v : list Shape)
  : list (list (list Shape)) :=
  if (x <? 0) || (y <? 0) then options
  else Grid2.insert2 options (Z.to_nat x) (Z.to_nat y) v.

Section TileGroups.
Variables (groupWidth groupHeight : Z).

Definition inBoundsG (x y : Z) : bool :=
  (0 <=? x) && (0 <=? y) && (x <? groupWidth) && (y <? groupHeight).

(** One turn of the [for (const n of neighbors)] loop of
    [updateNeighbors]. *)
Definition update_neighbor (currentOpts : list Shape)
    (st : list (list (list Shape)) * list (Z * Z)) (n : Dir * Z * Z)
  : list (list (list Shape)) * list (Z * Z) :=
  let '(dir, nx, ny) := n in
  let '(options, queue) := st in
  if negb (inBoundsG nx ny) then st else
  let nextOpts := opt_get options nx ny in
  if (length nextOpts <=? 1)%nat then st else
  let prevLen := length nextOpts in
  let intersectionRemove := intersectRemovals currentOpts (opposite dir) in
  if (length intersectionRemove =? 0)%nat then st else
  let reduced := removeAll nextOpts intersectionRemove in
  if (length reduced =? 0)%nat || (length reduced =? prevLen)%nat then st else
  (opt_set options nx ny reduced, queue ++ [(nx, ny)]).

(** The [while (queue.length > 0)] loop of [updateNeighbors].  A tile enters
    the queue only when its option list has become strictly shorter, so the
    sum of the lengths of all option lists plus the queue length bounds the
    number of turns. *)
Fixpoint updateNeighbors_loop (fuel : nat) (options : list (list (list Shape)))
    (queue : list (Z * Z)) : list (list (list Shape)) :=
  match fuel with
  | O => options
  | S fuel' =>
      match queue with
      | [] => options
      | (cx, cy) :: rest =>
          let currentOpts := opt_get options cx cy in
          let neighbors :=
            [(north, cx, cy + 1); (south, cx, cy - 1); (east, cx + 1, cy); (west, cx - 1, cy)] in
          let '(options', queue') :=
            fold_left (update_neighbor currentOpts) neighbors (options, rest) in
          updateNeighbors_loop fuel' options' queue'
      end
  end.

Definition options_size (options : list (list (list Shape))) : nat :=
  list_sum (map (fun col => list_sum (map (fun cell => length cell) col)) options).

Definition updateNeighbors (options : list (list (list Shape))) (x y : Z)
  : list (list (list Shape)) :=
  updateNeighbors_loop (options_size options + 2) options [(x, y)].

(** One turn of the border-constraint loops: the three [if]s and the final
    [if (changed) updateNeighbors(x, y)]. *)
Definition border_constraint (options : list (list (list Shape))) (xy : Z * Z)
  : list (list (list Shape)) :=
  let '(x, y) := xy in
  let restrict (cond : bool) (d : Dir) (st : list (list (list Shape)) * bool) :=
    if cond then
      let before := opt_get (fst st) x y in
      let after := removeAll before (CONNECTIONS d) in
      if (0 <? length after)%nat && negb (length after =? length before)%nat
      then (opt_set (fst st) x y after, true) else st
    else st in
  let st := restrict (x =? 0) west (options, false) in
  let st := restrict (y =? 0) south st in
  let st := restrict (y =? groupHeight - 1) north st in
  if snd st then updateNeighbors (fst st) x y else fst st.

End TileGroups.

Definition shape_weight_base (shape : Shape) : float :=
  match shape with
  | empty => 0.25%float
  | plus => 1.35%float
  | lineV | lineH => 1.15%float
  | _ => 1%float
  end.

Definition emptyFactor (d : Difficulty) : float :=
  match d with easy => 0.25%float | hard => 1.3%float | normal => 0.7%float end.

(** The [for] loop at the end of [pickWeightedShape]. *)
Fixpoint pick_by_weight (r : float) (available : list Shape) (weights : list float)
    (last_ : Shape) : Shape :=
  match available, weights with
  | s :: available', w :: weights' =>
      let r := PrimFloat.sub r w in
      if PrimFloat.leb r 0%float then s else pick_by_weight r available' weights' last_
  | _, _ => last_
  end.

Definition pickWeightedShape (d : Difficulty) (available : list Shape) (rng : Z) : Shape * Z :=
  let weights := map (fun s =>
                   let w := shape_weight_base s in
                   if Shape_eqb s empty then PrimFloat.mul w (emptyFactor d) else w) available in
  let total := fold_left PrimFloat.add weights 0%float in
  if PrimFloat.leb total 0%float then
    let '(f, rng) := rng_next rng in
    (default empty
       (lookupZ available (floor_float (PrimFloat.mul f (float_of_Z (Z.of_nat (length available)))))),
     rng)
  else
    let '(f, rng) := rng_next rng in
    let r := PrimFloat.mul f total in
    (pick_by_weight r available weights (default empty (last available)), rng).

(** The [while (remaining.length > 0)] loop of [generateTileGroups]; [n] is
    the length of [remaining].  [None]: the [TypeError] of destructuring
    [remaining.splice(idx, 1)[0]] when [idx] is not an index of
    [remaining]. *)
Fixpoint resolve_remaining (groupWidth groupHeight : Z) (d : Difficulty) (n : nat)
    (remaining : list (Z * Z)) (options : list (list (list Shape))) (rng : Z)
  : option (list (list (list Shape)) * Z) :=
  match n with
  | O => Some (options, rng)
  | S n' =>
      let '(f, rng) := rng_next rng in
      let idx := floor_float (PrimFloat.mul f (float_of_Z (Z.of_nat (length remaining)))) in
      match lookupZ remaining idx with
      | None => None
      | Some (x, y) =>
          let remaining := delete (Z.to_nat idx) remaining in
          let cur := opt_get options x y in
          if (1 <? length cur)%nat then
            let '(pick, rng) := pickWeightedShape d cur rng in
            let options := opt_set options x y [pick] in
            let options := updateNeighbors groupWidth groupHeight options x y in
            resolve_remaining groupWidth groupHeight d n' remaining options rng
          else resolve_remaining groupWidth groupHeight d n' remaining options rng
      end
  end.

Definition generateTileGroups (groupWidth groupHeight : Z) (d : Difficulty) (rng : Z)
  : option (list (list Shape) * Z) :=
  let options :=
    replicate (Z.to_nat groupWidth) (replicate (Z.to_nat groupHeight) ALL_SHAPES) in
  let cells := x ← seqZ 0 groupWidth; y ← seqZ 0 groupHeight; [(x, y)] in
  (* Border constraints. *)
  let options := fold_left (border_constraint groupWidth groupHeight) cells options in
  match resolve_remaining groupWidth groupHeight d (length cells) cells options rng with
  | None => None
  | Some (options, rng) =>
      Some (map (fun col => map (fun cell => default empty (head cell)) col) options, rng)
  end.

(** 3x3, indexed as [x][y], y grows upward. *)
Definition shapeDefinition (shape : Shape) : list (list bool) :=
  let col (v0 v1 v2 : bool) := [v0; v1; v2] in
  match shape with
  | plus => [col false true false; col true true true; col false true false]
  | triNorth => [col false true false; col false true true; col false true false]
  | triSouth => [col false true false; col true true false; col false true false]
  | triEast => [col false false false; col true true true; col false true false]
  | triWest => [col false true false; col true true true; col false false false]
  | cornerNE => [col false false false; col false true true; col false true false]
  | cornerSE => [col false false false; col true true false; col false true false]
  | cornerNW => [col false true false; col false true true; col false false false]
  | cornerSW => [col false true false; col true true false; col false false false]
  | lineV => [col false false false; col true true true; col false false false]
  | lineH => [col false true false; col false true false; col false true false]
  | empty => [col false false false; col false false false; col false false false]
  end.

(** *** The grid and its closures *)

Section GridOps.
Variables (width height : Z).

(** [grid]: rows from top to bottom, while the generator's origin is at the
    bottom left (x right, y up). *)
Definition out_of_grid (x y : Z) : bool :=
  (x <? 0) || (y <? 0) || (width <=? x) || (height <=? y).

Definition get (grid : list (list ascii)) (x y : Z) : option ascii :=
  if out_of_grid x y then None
  else Grid2.lookup2 grid (Z.to_nat (height - 1 - y)) (Z.to_nat x).

Definition set (grid : list (list ascii)) (x y : Z) (v : ascii) : list (list ascii) :=
  if out_of_grid x y then grid
  else Grid2.insert2 grid (Z.to_nat (height - 1 - y)) (Z.to_nat x) v.

(** [get(x, y) === c] *)
Definition get_is (grid : list (list ascii)) (x y : Z) (c : ascii) : bool :=
  match get grid x y with
  | Some c' => Ascii.eqb c' c
  | None => false
  end.

(** [v !== undefined] *)
Definition is_defined (v : option ascii) : bool :=
  match v with Some _ => true | None => false end.

Definition isGhostSpace (ghostSpace : list (Z * Z)) (x y : Z) : bool := has_key ghostSpace x y.

Definition isWall (grid : list (list ascii)) (x y : Z) : bool := get_is grid x y "#".

Definition setPellet (grid : list (list ascii)) (x y : Z) : list (list ascii) :=
  match get grid x y with
  | None => grid
  | Some c => if Ascii.eqb c "#" then set grid x y "." else grid
  end.

(** The cells of a loop nest [for x ... for y]. *)
Definition cells_xy (x0 x1 y0 y1 : Z) : list (Z * Z) :=
  x ← seqZ x0 (x1 - x0); y ← seqZ y0 (y1 - y0); [(x, y)].

(** The cells of a loop nest [for y ... for x]. *)
Definition cells_yx (x0 x1 y0 y1 : Z) : list (Z * Z) :=
  y ← seqZ y0 (y1 - y0); x ← seqZ x0 (x1 - x0); [(x, y)].

(** Step 2: expand the group shapes into pellet and wall tiles. *)
Definition expandGroups (groupWidth groupHeight : Z) (groupDefs : list (list Shape))
    (grid : list (list ascii)) : list (list ascii) :=
  fold_left (fun grid g =>
      let '(gx, gy) := g in
      let def := shapeDefinition
                   (default empty (if (gx <? 0) || (gy <? 0) then None
                                   else Grid2.lookup2 groupDefs (Z.to_nat gx) (Z.to_nat gy))) in
      fold_left (fun grid l =>
          let '(lx, ly) := l in
          let x := lx + gx * TILE_GROUP_DIM in
          let y := ly + gy * TILE_GROUP_DIM in
          if out_of_grid x y then grid
          else set grid x y
                 (if default false (Grid2.lookup2 def (Z.to_nat lx) (Z.to_nat ly))
                  then "."%char else "#"%char))
        (cells_xy 0 TILE_GROUP_DIM 0 TILE_GROUP_DIM) grid)
    (cells_xy 0 groupWidth 0 groupHeight) grid.

Definition mirrorLeftToRight (grid : list (list ascii)) : list (list ascii) :=
  fold_left (fun grid c =>
      let '(x, y) := c in
      let mx := width - 1 - x in
      if mx <? x then grid else
      match get grid x y with
      | None => grid
      | Some v => set grid mx y v
      end)
    (cells_yx 0 width 0 height) grid.

Definition enforceBorderWalls (grid : list (list ascii)) : list (list ascii) :=
  let grid := fold_left (fun grid x => set (set grid x 0 "#") x (height - 1) "#")
                (seqZ 0 width) grid in
  fold_left (fun grid y => set (set grid 0 y "#") (width - 1) y "#") (seqZ 0 height) grid.

Record GhostBox : Set := mkGhostBox { x0 : Z; y0 : Z; x1 : Z; y1 : Z }.

(** The rectangle that [carveGhostBox] computes. *)
Definition ghostBoxOf : GhostBox :=
  let boxWidth := clampInt 14 7 (Z.max 7 (width - 2)) in
  let boxHeight := clampInt 11 7 (Z.max 7 (height - 2)) in
  let halfHeight := (height - 1) / 2 in
  let halfWidth := width / 2 in
  let ghostBoxHalfHeight := (boxHeight - 1) / 2 in
  let ghostBoxHalfWidth := boxWidth / 2 in
  let startX := halfWidth - ghostBoxHalfWidth in
  let startY := halfHeight - ghostBoxHalfHeight + 1 in
  mkGhostBox (clampInt startX 1 (width - 2)) (clampInt startY 1 (height - 2))
    (clampInt (startX + boxWidth - 1) 1 (width - 2))
    (clampInt (startY + boxHeight - 1) 1 (height - 2)).

Definition inGhostBox (ghostBox : GhostBox) (x y : Z) : bool :=
  (x0 ghostBox <=? x) && (x <=? x1 ghostBox) && (y0 ghostBox <=? y) && (y <=? y1 ghostBox).

(** [carveGhostBox]: the grid, the ghost-space set and the rectangle. *)
Definition carveGhostBox (grid : list (list ascii)) (ghostSpace : list (Z * Z))
  : list (list ascii) * list (Z * Z) * GhostBox :=
  let b := ghostBoxOf in
  let '(grid, ghostSpace) :=
    fold_left (fun (st : list (list ascii) * list (Z * Z)) c =>
        let '(x, y) := c in
        let onBorder := (x =? x0 b) || (x =? x1 b) || (y =? y0 b) || (y =? y1 b) in
        (set (fst st) x y (if onBorder then "#"%char else " "%char),
         if onBorder then snd st else add_key (snd st) x y))
      (cells_yx (x0 b) (x1 b + 1) (y0 b) (y1 b + 1)) (grid, ghostSpace) in
  (* Door opening (top edge), plus a short corridor above it. *)
  let doorX := (x0 b + x1 b) / 2 in
  let grid := set grid doorX (y1 b) " " in
  let grid := set grid doorX (y1 b + 1) "." in
  let grid := set grid doorX (y1 b + 2) "." in
  (grid, ghostSpace, b).

Definition determineTileCode (grid : list (list ascii)) (x y : Z) : string :=
  let coords :=
    [(x, y); (x - 1, y + 1); (x, y + 1); (x + 1, y + 1); (x - 1, y); (x + 1, y);
     (x - 1, y - 1); (x, y - 1); (x + 1, y - 1)] in
  string_of_list_ascii
    (map (fun c => if out_of_grid (fst c) (snd c) then "1"%char
                   else if isWall grid (fst c) (snd c) then "1"%char else "0"%char) coords).

Definition code_in (code : string) (codes : list string) : bool :=
  existsb (String.eqb code) codes.

(** One sweep of the [for x ... for y] loops of [addPelletsToWidth]: the
    grid and [reUpdate]. *)
Definition width_sweep (grid : list (list ascii)) : list (list ascii) * bool :=
  fold_left (fun (st : list (list ascii) * bool) c =>
      let '(x, y) := c in
      let grid := fst st in
      if negb (isWall grid x y) then st else
      let code := determineTileCode grid x y in
      if String.eqb code INCORRECT_BIG_C then
        (setPellet (setPellet grid x y) (x - 1) y, true)
      else if code_in code [INCORRECT_SMALL_C; INCORRECT_TL; INCORRECT_CRANE] then
        (setPellet grid x y, snd st)
      else if String.eqb code INCORRECT_BIG_C_REVERSE then
        (setPellet (setPellet grid x y) (x + 1) y, snd st)
      else if code_in code [INCORRECT_SMALL_C_REVERSE; INCORRECT_TL_REVERSE;
                            INCORRECT_CRANE_REVERSE] then
        (setPellet grid x y, snd st)
      else st)
    (cells_xy 0 width 0 height) (grid, false).

(** [do { ... } while (reUpdate)] of [addPelletsToWidth].  A sweep that sets
    [reUpdate] has turned a wall into a pellet, and no sweep builds a wall, so
    there are at most [width * height + 1] sweeps. *)
Fixpoint addPelletsToWidth (fuel : nat) (grid : list (list ascii)) : list (list ascii) :=
  match fuel with
  | O => grid
  | S fuel' =>
      let '(grid, reUpdate) := width_sweep grid in
      if reUpdate then addPelletsToWidth fuel' grid else grid
  end.

(** The [while (true)] loop under [INCORRECT_U]: [cy] goes down by one per
    turn and the loop is left when [cy - 1 <= 0]. *)
Fixpoint open_southward (fuel : nat) (grid : list (list ascii)) (x cy : Z)
  : list (list ascii) :=
  match fuel with
  | O => grid
  | S fuel' =>
      let sy := cy - 1 in
      if sy <=? 0 then grid else
      let inside := is_defined (get grid x sy) && is_defined (get grid (x + 1) sy)
                    && is_defined (get grid (x - 1) sy) in
      if negb inside then grid else
      let allOccupied := isWall grid x sy && isWall grid (x + 1) sy && isWall grid (x - 1) sy in
      let grid := setPellet grid x sy in
      if negb allOccupied then grid else open_southward fuel' grid x (cy - 1)
  end.

(** The [while (true)] loop under [INCORRECT_U_UPSIDEDOWN]: [cy] goes up by
    one per turn and the loop is left when [cy + 1 >= height - 1]. *)
Fixpoint open_northward (fuel : nat) (grid : list (list ascii)) (x cy : Z)
  : list (list ascii) :=
  match fuel with
  | O => grid
  | S fuel' =>
      let ny := cy + 1 in
      if height - 1 <=? ny then grid else
      let inside := is_defined (get grid x ny) && is_defined (get grid (x + 1) ny)
                    && is_defined (get grid (x - 1) ny) in
      if negb inside then grid else
      let allOccupied := isWall grid x ny && isWall grid (x + 1) ny && isWall grid (x - 1) ny in
      let grid := setPellet grid x ny in
      if negb allOccupied then grid else open_northward fuel' grid x (cy + 1)
  end.

Definition height_sweep (grid : list (list ascii)) : list (list ascii) * bool :=
  fold_left (fun (st : list (list ascii) * bool) c =>
      let '(x, y) := c in
      let grid := fst st in
      if negb (isWall grid x y) then st else
      let code := determineTileCode grid x y in
      if String.eqb code INCORRECT_U then
        (open_southward (Z.to_nat height) (setPellet grid x y) x y, true)
      else if String.eqb code INCORRECT_U_UPSIDEDOWN then
        (open_northward (Z.to_nat height) (setPellet grid x y) x y, true)
      else st)
    (cells_xy 0 width 0 height) (grid, false).

Fixpoint addPelletsToHeight (fuel : nat) (grid : list (list ascii)) : list (list ascii) :=
  match fuel with
  | O => grid
  | S fuel' =>
      let '(grid, reUpdate) := height_sweep grid in
      if reUpdate then addPelletsToHeight fuel' grid else grid
  end.

Definition sweep_fuel : nat := S (Z.to_nat (width * height)).

Definition addMissingPellets (grid : list (list ascii)) : list (list ascii) :=
  addPelletsToHeight sweep_fuel (addPelletsToWidth sweep_fuel grid).

Definition removeIncorrectTiles (grid : list (list ascii)) (ghostSpace : list (Z * Z))
  : list (list ascii) :=
  let add (toOpen : list (Z * Z)) (x y : Z) :=
    if out_of_grid x y then toOpen else add_key toOpen x y in
  let toOpen :=
    fold_left (fun toOpen c =>
        let '(x, y) := c in
        if negb (isWall grid x y) then toOpen else
        if negb (String.eqb (determineTileCode grid x y) INCORRECT_OCCUPIED) then toOpen else
        add (add (add toOpen x y) x (y + 1)) x (y - 1))
      (cells_xy 0 width 0 height) [] in
  fold_left (fun grid k =>
      let '(x, y) := k in
      let ghostTile := isGhostSpace ghostSpace (x + 1) y || isGhostSpace ghostSpace (x - 1) y in
      if ghostTile then grid else
      if get_is grid x y "#" then set grid x y "." else grid)
    toOpen grid.

(** *** Connectivity *)

Definition dirVec (dir : Dir) : Z * Z :=
  match dir with
  | north => (0, 1)
  | south => (0, -1)
  | east => (1, 0)
  | west => (-1, 0)
  end.

Definition on_or_outside_border (x y : Z) : bool :=
  (x <=? 0) || (y <=? 0) || (width - 1 <=? x) || (height - 1 <=? y).

(** The set [visited] of [checkForConnectedPath] is only asked for
    membership; it is kept as an array of booleans over the grid. *)
Definition component_visit (grid : list (list ascii))
    (st : list (list bool) * list (Z * Z) * list (Z * Z)) (n : Z * Z)
  : list (list bool) * list (Z * Z) * list (Z * Z) :=
  let '(visited, comp, q) := st in
  let '(nx, ny) := n in
  if on_or_outside_border nx ny then st else
  if isWall grid nx ny then st else
  if is_visited visited nx ny then st else
  (mark_visited visited nx ny, comp ++ [(nx, ny)], q ++ [(nx, ny)]).

(** The [while (q.length > 0)] loop of [findComponent]; every tile enters
    the queue at most once. *)
Fixpoint findComponent_loop (fuel : nat) (grid : list (list ascii)) (visited : list (list bool))
    (comp q : list (Z * Z)) : list (list bool) * list (Z * Z) :=
  match fuel with
  | O => (visited, comp)
  | S fuel' =>
      match q with
      | [] => (visited, comp)
      | (x, y) :: rest =>
          let neigh := [(x, y + 1); (x, y - 1); (x + 1, y); (x - 1, y)] in
          let '(visited, comp, q) :=
            fold_left (component_visit grid) neigh (visited, comp, rest) in
          findComponent_loop fuel' grid visited comp q
      end
  end.

(** [findComponent]: the component, in insertion order, and [visited]. *)
Definition findComponent (grid : list (list ascii)) (visited : list (list bool)) (sx sy : Z)
  : list (list bool) * list (Z * Z) :=
  findComponent_loop (Z.to_nat (width * height) + 2) grid (mark_visited visited sx sy)
    [(sx, sy)] [(sx, sy)].

(** [validate] of [placePelletsForDisconnectedPath], from the tile [(nx, ny)]
    on: the number of walls up to the first open tile, and that tile. *)
Fixpoint validate_from (fuel : nat) (grid : list (list ascii)) (v : Z * Z) (nx ny : Z)
    (length_ : Z) : option (Z * (Z * Z)) :=
  match fuel with
  | O => None
  | S fuel' =>
      if out_of_grid nx ny then None
      else if isWall grid nx ny then validate_from fuel' grid v (nx + fst v) (ny + snd v) (length_ + 1)
      else Some (length_, (nx, ny))
  end.

Definition validate (grid : list (list ascii)) (x y : Z) (dir : Dir) : option (Z * (Z * Z)) :=
  let v := dirVec dir in
  validate_from (Z.to_nat (width + height) + 1) grid v (x + fst v) (y + snd v) 0.

(** [mirrorAndPellet] *)
Definition mirrorAndPellet (grid : list (list ascii)) (x y : Z) : list (list ascii) :=
  let mx := width - 1 - x in
  if get_is grid mx y "#" then setPellet grid mx y else grid.

(** [candidates.sort((a, b) => a.length - b.length)[0]]: the first candidate
    of least length (the sort is stable). *)
Definition best_candidate (candidates : list (Dir * Z)) : option (Dir * Z) :=
  fold_left (fun best c =>
               match best with
               | None => Some c
               | Some b => if snd c <? snd b then Some c else best
               end) candidates None.

Definition fallbackConnectComponents (grid : list (list ascii)) (connected disconnected : list (Z * Z))
  : list (list ascii) * bool :=
  let connectedList := take 250 connected in
  let disconnectedList := take 250 disconnected in
  match connectedList, disconnectedList with
  | a0 :: _, b0 :: _ =>
      let '(bestA, bestB, _) :=
        fold_left (fun best a =>
            fold_left (fun (best : (Z * Z) * (Z * Z) * option Z) b =>
                let d := Z.abs (fst a - fst b) + Z.abs (snd a - snd b) in
                match snd best with
                | Some bestD => if d <? bestD then (a, b, Some d) else best
                | None => (a, b, Some d)
                end) disconnectedList best)
          connectedList (a0, b0, None) in
      let carve (st : list (list ascii) * bool) (c : Z * Z) :=
        let '(x, y) := c in
        if on_or_outside_border x y then st
        else if get_is (fst st) x y "#" then
          (mirrorAndPellet (setPellet (fst st) x y) x y, true)
        else st in
      let stepX := if fst bestA <=? fst bestB then 1 else -1 in
      let stepY := if snd bestA <=? snd bestB then 1 else -1 in
      let xs := map (fun i => (fst bestA + stepX * i, snd bestA))
                  (seqZ 1 (Z.abs (fst bestB - fst bestA))) in
      let ys := map (fun i => (fst bestB, snd bestA + stepY * i))
                  (seqZ 1 (Z.abs (snd bestB - snd bestA))) in
      fold_left carve (xs ++ ys) (grid, false)
  | _, _ => (grid, false)
  end.

Definition placePelletsForDisconnectedPath (grid : list (list ascii))
    (connected disconnected : list (Z * Z)) : list (list ascii) * bool :=
  let eligible :=
    filter (fun k =>
        let '(x, y) := k in
        let halfGrid :=
          PrimFloat.ltb (float_of_Z x)
            (PrimFloat.sub (PrimFloat.mul (float_of_Z width) 0.5%float) 1%float) in
        let centerPellet := (x mod TILE_GROUP_DIM =? 1) && (y mod TILE_GROUP_DIM =? 1) in
        let edge := isWall grid (x - 1) y || isWall grid (x + 1) y
                    || isWall grid x (y - 1) || isWall grid x (y + 1) in
        halfGrid && centerPellet && edge = true) connected in
  let '(grid, changed) :=
    fold_left (fun (st : list (list ascii) * bool) start =>
        let '(sx, sy) := start in
        let candidates :=
          dir ← [north; south; east; west];
          match validate (fst st) sx sy dir with
          | Some (len, (ex, ey)) =>
              if len <=? 0 then []
              else if negb (has_key disconnected ex ey) then []
              else [(dir, len)]
          | None => []
          end in
        match best_candidate candidates with
        | None => st
        | Some (bestDir, bestLen) =>
            let v := dirVec bestDir in
            fold_left (fun (st : list (list ascii) * bool) i =>
                let x := sx + fst v * i in
                let y := sy + snd v * i in
                if on_or_outside_border x y then st else
                let st := if get_is (fst st) x y "#" then (setPellet (fst st) x y, true) else st in
                let mx := width - 1 - x in
                if (mx <=? 0) || (width - 1 <=? mx) then st else
                if get_is (fst st) mx y "#" then (mirrorAndPellet (fst st) x y, true) else st)
              (seqZ 1 bestLen) st
        end)
      eligible (grid, false) in
  if changed then (grid, true)
  else fallbackConnectComponents grid connected disconnected.

(** The scan of [checkForConnectedPath] over the inner tiles, [connected]
    being the first component once it is found: the grid and
    [result.connected]. *)
Fixpoint connected_scan (cells : list (Z * Z)) (grid : list (list ascii))
    (visited : list (list bool)) (connected : option (list (Z * Z)))
  : list (list ascii) * bool :=
  match cells with
  | [] => (grid, true)
  | (x, y) :: cells' =>
      if is_visited visited x y then connected_scan cells' grid visited connected
      else if isWall grid x y then connected_scan cells' grid visited connected
      else
        match connected with
        | None =>
            let '(visited, comp) := findComponent grid visited x y in
            connected_scan cells' grid visited (Some comp)
        | Some conn =>
            let '(visited, disconnected) := findComponent grid visited x y in
            (fst (placePelletsForDisconnectedPath grid conn disconnected), false)
        end
  end.

Definition checkForConnectedPath (grid : list (list ascii)) : list (list ascii) * bool :=
  connected_scan (cells_yx 1 (width - 1) 1 (height - 1)) grid
    (replicate (Z.to_nat height) (replicate (Z.to_nat width) false)) None.

(** The [while (guard++ < 80)] loop of step 5. *)
Fixpoint connect_loop (guard : nat) (grid : list (list ascii)) (ghostSpace : list (Z * Z))
  : list (list ascii) :=
  match guard with
  | O => grid
  | S guard' =>
      let '(grid, connected) := checkForConnectedPath grid in
      let grid := removeIncorrectTiles grid ghostSpace in
      if connected then grid else connect_loop guard' grid ghostSpace
  end.

(** *** Power pellets, pellets and spawns *)

Definition placeMirrored (grid : list (list ascii)) (x y : Z) : list (list ascii) :=
  let mx := width - 1 - x in
  let grid := if get_is grid x y "." then set grid x y "o" else grid in
  if get_is grid mx y "." then set grid mx y "o" else grid.

(** A band of [placePowerPellets]: the first pellet outside the ghost box,
    rows in the order [ys], becomes a power pellet with its mirror. *)
Definition place_power_band (grid : list (list ascii)) (ghostBox : GhostBox) (ys : list Z)
  : list (list ascii) :=
  let cells := y ← ys; x ← seqZ 1 (width / 2 - 1); [(x, y)] in
  match filter (fun c => negb (inGhostBox ghostBox (fst c) (snd c))
                         && get_is grid (fst c) (snd c) "." = true) cells with
  | (x, y) :: _ => placeMirrored grid x y
  | [] => grid
  end.

Definition placePowerPellets (grid : list (list ascii)) (ghostBox : GhostBox) : list (list ascii) :=
  (* Bottom power pellets (search upward a bit). *)
  let grid := place_power_band grid ghostBox (seqZ 2 (Z.min (height - 2) 8 - 2)) in
  (* Top power pellets (search downward a bit). *)
  place_power_band grid ghostBox
    (map (fun i => height - 3 - i) (seqZ 0 (height - 3 - Z.max 1 (height - 9)))).

Definition fillPelletsOutsideGhostBox (grid : list (list ascii)) (ghostBox : GhostBox)
  : list (list ascii) :=
  fold_left (fun grid c =>
      let '(x, y) := c in
      if inGhostBox ghostBox x y then grid else
      if get_is grid x y " " || get_is grid x y "." then set grid x y "." else grid)
    (cells_yx 1 (width - 1) 1 (height - 1)) grid.

(** The tile that [placeSpawns] chooses for the player. *)
Definition playerSpawn (grid : list (list ascii)) (ghostBox : GhostBox) : Z * Z :=
  let cx := width / 2 in
  let open_ x y := match get grid x y with Some c => negb (Ascii.eqb c "#") | None => false end in
  let not_wall x y := negb (get_is grid x y "#") in
  let p :=
    match filter (fun y => open_ cx y = true) (seqZ 1 (Z.max 2 (y0 ghostBox) - 1)) with
    | y :: _ => (cx, y)
    | [] => (cx, 1)
    end in
  let p :=
    if get_is grid (fst p) (snd p) "#" then
      (* Find any walkable near bottom center. *)
      match filter (fun c => negb ((fst c <=? 0) || (width - 1 <=? fst c))
                             && not_wall (fst c) (snd c) = true)
              (y ← seqZ 1 (Z.min (height - 2) 8 - 1); dx ← seqZ (-8) 17; [(cx + dx, y)]) with
      | c :: _ => c
      | [] => p
      end
    else p in
  if get_is grid (fst p) (snd p) "#" then
    (* Fallback: find any open tile outside the ghost box. *)
    match filter (fun c => negb (inGhostBox ghostBox (fst c) (snd c))
                           && not_wall (fst c) (snd c) = true)
            (cells_yx 1 (width - 1) 1 (height - 1)) with
    | c :: _ => c
    | [] => p
    end
  else p.

Definition wantedGhosts (d : Difficulty) : Z :=
  match d with easy => 1 | hard => 3 | normal => 2 end.

Definition ghostSlots (ghostBox : GhostBox) : list (Z * Z) :=
  let gx := (x0 ghostBox + x1 ghostBox) / 2 in
  let gy := (y0 ghostBox + y1 ghostBox) / 2 in
  [(gx - 1, gy); (gx, gy); (gx + 1, gy); (gx, gy - 1)].

Definition placeSpawns (grid : list (list ascii)) (d : Difficulty) (ghostBox : GhostBox)
  : list (list ascii) :=
  let p := playerSpawn grid ghostBox in
  let grid := set grid (fst p) (snd p) "P" in
  (* Ghosts: inside the ghost box. *)
  let wanted := wantedGhosts d in
  let '(grid, placed) :=
    fold_left (fun (st : list (list ascii) * Z) p =>
        if wanted <=? snd st then st
        else if get_is (fst st) (fst p) (snd p) "#" then st
        else (set (fst st) (fst p) (snd p) "G", snd st + 1))
      (ghostSlots ghostBox) (grid, 0) in
  if placed =? 0 then
    let gx := (x0 ghostBox + x1 ghostBox) / 2 in
    let gy := (y0 ghostBox + y1 ghostBox) / 2 in
    if negb (get_is grid gx gy "#") then set grid gx gy "G" else grid
  else grid.

(** Everything that [generatePacRogueLevel] does to the grid once the group
    shapes are known. *)
Definition buildGrid (groupWidth groupHeight : Z) (groupDefs : list (list Shape))
    (d : Difficulty) : list (list ascii) :=
  let grid := replicate (Z.to_nat height) (replicate (Z.to_nat width) "#"%char) in
  let grid := expandGroups groupWidth groupHeight groupDefs grid in
  let grid := mirrorLeftToRight grid in
  let grid := enforceBorderWalls grid in
  let '(grid, ghostSpace, ghostBox) := carveGhostBox grid [] in
  let grid := addMissingPellets grid in
  let grid := removeIncorrectTiles grid ghostSpace in
  let grid := connect_loop 80 grid ghostSpace in
  let grid := removeIncorrectTiles grid ghostSpace in
  let grid := placePowerPellets grid ghostBox in
  let grid := fillPelletsOutsideGhostBox grid ghostBox in
  let grid := placeSpawns grid d ghostBox in
  enforceBorderWalls grid.

End GridOps.

(** [generatePacRogueLevel]; [None] stands for the [TypeError] that
    [generateTileGroups] can raise. *)
Definition generatePacRogueLevel (params : PacRogueParams) : option LevelJson :=
  let width := clampInt (default 22 (param_width params)) 15 41 in
  let height := clampInt (default 31 (param_height params)) 15 45 in
  let rng := seededRng
               (toLowerCase (trim (show_difficulty (difficulty params) ++ "|" ++ seed params)))%string in
  let groupWidth :=
    Z.max 1 (floor_float (PrimFloat.mul (PrimFloat.div (float_of_Z width)
                                           (float_of_Z TILE_GROUP_DIM)) 0.5%float)) in
  let groupHeight :=
    Z.max 1 (floor_float (PrimFloat.div (float_of_Z height) (float_of_Z TILE_GROUP_DIM))) in
  match generateTileGroups groupWidth groupHeight (difficulty params) rng with
  | None => None
  | Some (groupDefs, _) =>
      let grid := buildGrid width height groupWidth groupHeight groupDefs (difficulty params) in
      Some (mkLevelJson (Some (buildId "ai-rogue" (difficulty params) (seed params)))
              (map string_of_list_ascii grid))
  end.

End PacRogue.

(** ** directions.ts: the other helpers *)

Module Directions.

Definition opposite (direction : Direction.t) : Direction.t :=
  match direction with
  | Direction.Up => Direction.Down
  | Direction.Down => Direction.Up
  | Direction.Left => Direction.Right
  | Direction.Right => Direction.Left
  | Direction.None => Direction.None
  end.

Definition isHorizontal (direction : Direction.t) : bool :=
  bool_decide (direction = Direction.Left) || bool_decide (direction = Direction.Right).

Definition isVertical (direction : Direction.t) : bool :=
  bool_decide (direction = Direction.Up) || bool_decide (direction = Direction.Down).

End Directions.

(** ** GameScene.ts: the mask of a reorg shift *)

Module GameScene.

(** What [buildProtectedMaskForShift] reads of the scene: the tiles named by
    the keys of the four maps of dynamic objects, the tile of the active
    fruit, and the tiles on which the entities stand.  Keys are written as
    [`${x},${y}`] from tile coordinates and [worldToTile] floors, so these
    are integers. *)
Record Scene : Set := mkScene {
  bombPickups : list GridPos;
  activeBombs : list GridPos;
  boxes : list GridPos;
  fruitPickups : list GridPos;
  activeFruit : option GridPos;
  player : option GridPos;
  coopPlayer : option GridPos;
  ghosts : list GridPos
}.

(** [mask[y]![x] = true] for a tile of the mask. *)
Definition setMask (mask : list (list bool)) (x y : Z) : list (list bool) :=
  Grid2.insert2 mask (Z.to_nat y) (Z.to_nat x) true.

Definition markProtected (mask : list (list bool)) (level : ParsedLevel) (x y : Z)
  : list (list bool) :=
  if (x <? 0) || (y <? 0) || (width level <=? x) || (height level <=? y) then mask
  else setMask mask x y.

(** The tiles marked for the dynamic objects and the entities, in the order
    of the source. *)
Definition sceneTiles (scene : Scene) : list GridPos :=
  bombPickups scene ++ activeBombs scene ++ boxes scene ++ fruitPickups scene
  ++ option_list (activeFruit scene)
  ++ option_list (player scene) ++ option_list (coopPlayer scene) ++ ghosts scene.

(** The block around tightly clustered ghost starts. *)
Definition ghostHouse (level : ParsedLevel) : list GridPos :=
  match ghostStarts level with
  | g0 :: _ :: _ =>
      let minX := fold_left (fun m g => Z.min m (pos_x g)) (ghostStarts level) (pos_x g0) in
      let minY := fold_left (fun m g => Z.min m (pos_y g)) (ghostStarts level) (pos_y g0) in
      let maxX := fold_left (fun m g => Z.max m (pos_x g)) (ghostStarts level) (pos_x g0) in
      let maxY := fold_left (fun m g => Z.max m (pos_y g)) (ghostStarts level) (pos_y g0) in
      let spanX := maxX - minX in
      let spanY := maxY - minY in
      if (spanX <=? 6) && (spanY <=? 6) then
        let pad := 2 in
        y ← seqZ (minY - pad) (maxY + pad - (minY - pad) + 1);
        x ← seqZ (minX - pad) (maxX + pad - (minX - pad) + 1);
        [mkGridPos x y]
      else []
  | _ => []
  end.

(** [buildProtectedMaskForShift].  [None] stands for the two cases in which
    the border loops leave the mask: on a level with columns but no row the
    write to [mask[0]![x]] is a [TypeError], and on a level with rows but no
    column the second loop grows the rows.  [parseLevel] returns neither. *)
Definition buildProtectedMaskForShift (scene : Scene) (level : ParsedLevel)
  : option (list (list bool)) :=
  let w := width level in
  let h := height level in
  if ((0 <? w) && (h <=? 0)) || ((w <=? 0) && (0 <? h)) then None else
  let mask := replicate (Z.to_nat h) (replicate (Z.to_nat w) false) in
  (* Outer border must never be modified (keeps tunnels/wrap stable). *)
  let mask := fold_left (fun m x => setMask (setMask m x 0) x (h - 1)) (seqZ 0 w) mask in
  let mask := fold_left (fun m y => setMask (setMask m 0 y) (w - 1) y) (seqZ 0 h) mask in
  let mark := fun m (p : GridPos) => markProtected m level (pos_x p) (pos_y p) in
  (* Start markers. *)
  let mask := fold_left mark (playerStarts level) mask in
  let mask := match startPos level with Some p => mark mask p | None => mask end in
  let mask := fold_left mark (ghostStarts level) mask in
  (* Dynamic objects and entity tiles. *)
  let mask := fold_left mark (sceneTiles scene) mask in
  (* Heuristic ghost house protection. *)
  Some (fold_left mark (ghostHouse level) mask).

End GameScene.

(** ** pelletSystem.ts *)

Module PelletSystem.

Inductive CollectedItem : Set := item_pellet | item_power | item_null.

Record CollectResult : Set := mkCollectResult {
  collected : CollectedItem;
  scoreDelta : Z;
  remainingCount : Z;
  remainingPellets : Z;
  remainingPowers : Z
}.

(** The fields of a [PelletSystem] that its methods read and write; the
    level is the object that the scene shares with it. *)
Record t : Set := mkPelletSystem {
  level : ParsedLevel;
  pellets : Z;
  powers : Z
}.

Definition with_pelletPositions (lv : ParsedLevel) (l : list GridPos) : ParsedLevel :=
  mkParsedLevel (level_id lv) (width lv) (height lv) (rawGrid lv) (tileMatrix lv)
    (startPos lv) (playerStartCount lv) (playerStarts lv) (ghostStarts lv)
    (pelletCount lv) (powerCount lv) l
    (bombPickupPositions lv) (boxPositions lv) (fruitSpawnPositions lv).

Definition countRemaining (tileMatrix : list (list TileType)) : Z * Z :=
  fold_left (fun acc row =>
      fold_left (fun (acc : Z * Z) tile =>
          if bool_decide (tile = pellet) then (fst acc + 1, snd acc)
          else if bool_decide (tile = power) then (fst acc, snd acc + 1)
          else acc) row acc)
    tileMatrix (0, 0).

(** The constructor, without the graphics object. *)
Definition create (lv : ParsedLevel) : t :=
  let counts := countRemaining (tileMatrix lv) in
  mkPelletSystem lv (fst counts) (snd counts).

Definition getRemainingPellets (s : t) : Z := pellets s.
Definition getRemainingPowers (s : t) : Z := powers s.
Definition getRemainingCount (s : t) : Z := pellets s + powers s.

(** [this.level.tileMatrix[tileY]?.[tileX]] for indexes that are not
    negative. *)
Definition tileOrUndefined (lv : ParsedLevel) (tileX tileY : Z) : option TileType :=
  Grid2.lookup2 (tileMatrix lv) (Z.to_nat tileY) (Z.to_nat tileX).

Definition outside (lv : ParsedLevel) (tileX tileY : Z) : bool :=
  (tileX <? 0) || (tileY <? 0) || (width lv <=? tileX) || (height lv <=? tileY).

(** [tryCollectAt]: the result ([None] for [null]) and the system
    afterwards. *)
Definition tryCollectAt (s : t) (tileX tileY : Z) : option CollectResult * t :=
  if outside (level s) tileX tileY then (None, s) else
  match tileOrUndefined (level s) tileX tileY with
  | Some pellet =>
      let lv := setTile (level s) tileX tileY empty in
      let s := mkPelletSystem lv (Z.max 0 (pellets s - 1)) (powers s) in
      (Some (mkCollectResult item_pellet 10 (getRemainingCount s) (pellets s) (powers s)), s)
  | Some power =>
      let lv := setTile (level s) tileX tileY empty in
      let s := mkPelletSystem lv (pellets s) (Z.max 0 (powers s - 1)) in
      (Some (mkCollectResult item_power 50 (getRemainingCount s) (pellets s) (powers s)), s)
  | _ => (None, s)
  end.

Definition spawnPowerPelletAt (s : t) (tileX tileY : Z) : bool * t :=
  if outside (level s) tileX tileY then (false, s) else
  match tileOrUndefined (level s) tileX tileY with
  | None => (false, s)
  | Some current =>
      if bool_decide (current = power) then (false, s) else
      (* Boxes occupy a temporary "wall" tile; allow spawning there after destruction. *)
      if negb (bool_decide (current = empty)) && negb (bool_decide (current = wall)) then (false, s)
      else
        let lv := setTile (level s) tileX tileY power in
        let exists_ :=
          existsb (fun p => (pos_x p =? tileX) && (pos_y p =? tileY)) (pelletPositions lv) in
        let lv := if exists_ then lv
                  else with_pelletPositions lv (pelletPositions lv ++ [mkGridPos tileX tileY]) in
        (true, mkPelletSystem lv (pellets s) (powers s + 1))
  end.

End PelletSystem.

(** ** ghostAI.ts *)

Module GhostAI.

Inductive Mode : Set := normal | frightened.

#[global] Instance Mode_eq_dec : EqDecision Mode.
Proof. solve_decision. Defined.


Definition canMove (level : ParsedLevel) (tile : GridPos) (direction : Direction.t) : bool :=
  match nextTileWithWrap level (pos_x tile) (pos_y tile) direction with
  | Some _ => true
  | None => false
  end.

Definition availableDirections (level : ParsedLevel) (tile : GridPos) : list Direction.t :=
  d ← [Direction.Up; Direction.Down; Direction.Left; Direction.Right];
  if canMove level tile d then [d] else [].







End GhostAI.

(** * Properties *)

(** ** Two-dimensional arrays *)

Module Grid2Facts.
Import Grid2.
Section Grid2Facts.
Context {A : Type}.
Implicit Types (m : list (list A)) (r c : nat) (v : A).

Lemma lookup2_insert2_eq m r c v :
  is_Some (lookup2 m r c) -> lookup2 (insert2 m r c v) r c = Some v.
Proof.
  unfold lookup2, insert2. destruct (m !! r) as [row|] eqn:Hr; [|intros [? ?]; discriminate].
  intros [old Hold].
  rewrite list_lookup_insert_eq by (eapply lookup_lt_Some; eauto).
  apply list_lookup_insert_eq. eapply lookup_lt_Some; eauto.
Qed.

Lemma lookup2_insert2_ne m r c r' c' v :
  (r, c) <> (r', c') -> lookup2 (insert2 m r c v) r' c' = lookup2 m r' c'.
Proof.
  intros Hne. unfold lookup2, insert2. destruct (m !! r) as [row|] eqn:Hr; [|reflexivity].
  destruct (decide (r = r')) as [->|Hrr].
  - rewrite list_lookup_insert_eq by (eapply lookup_lt_Some; eauto).
    rewrite Hr. apply list_lookup_insert_ne. congruence.
  - rewrite list_lookup_insert_ne by done. reflexivity.
Qed.

Lemma shape_insert2 h w m r c v : shape h w m -> shape h w (insert2 m r c v).
Proof.
  intros [Hl Hall]. unfold insert2. destruct (m !! r) as [row|] eqn:Hr; [|split; done].
  split.
  - rewrite length_insert. done.
  - rewrite Forall_lookup in Hall |- *. intros i row' Hi.
    destruct (decide (r = i)) as [->|Hne].
    + rewrite list_lookup_insert_eq in Hi by (eapply lookup_lt_Some; eauto).
      injection Hi as <-. rewrite length_insert. eapply Hall; eauto.
    + rewrite list_lookup_insert_ne in Hi by done. eapply Hall; eauto.
Qed.

Lemma lookup2_shape h w m r c :
  shape h w m -> (r < h)%nat -> (c < w)%nat -> is_Some (lookup2 m r c).
Proof.
  intros [Hl Hall] Hr Hc. unfold lookup2.
  destruct (lookup_lt_is_Some_2 m r) as [row Hrow]; [lia|]. rewrite Hrow.
  apply lookup_lt_is_Some_2. rewrite Forall_lookup in Hall.
  rewrite (Hall r row Hrow). done.
Qed.

Lemma lookup2_Some_lt h w m r c v :
  shape h w m -> lookup2 m r c = Some v -> (r < h)%nat /\ (c < w)%nat.
Proof.
  intros [Hl Hall] Hlk. unfold lookup2 in Hlk.
  destruct (m !! r) as [row|] eqn:Hrow; [|discriminate]. split.
  - rewrite <- Hl. eapply lookup_lt_Some; eauto.
  - rewrite Forall_lookup in Hall. rewrite <- (Hall r row Hrow).
    eapply lookup_lt_Some; eauto.
Qed.

(** Two arrays of one shape with the same cells are equal. *)
Lemma shape_ext h w m m' :
  shape h w m -> shape h w m' ->
  (forall r c, lookup2 m r c = lookup2 m' r c) -> m = m'.
Proof.
  intros [Hl Hall] [Hl' Hall'] Heq. apply list_eq. intros r.
  specialize (fun c => Heq r c). unfold lookup2 in Heq.
  destruct (m !! r) as [row|] eqn:Hr; destruct (m' !! r) as [row'|] eqn:Hr'.
  - f_equal. apply list_eq. exact Heq.
  - apply lookup_lt_Some in Hr. apply lookup_ge_None in Hr'. lia.
  - apply lookup_lt_Some in Hr'. apply lookup_ge_None in Hr. lia.
  - reflexivity.
Qed.

Lemma shape_replicate h w v : shape h w (replicate h (replicate w v)).
Proof.
  split; [apply length_replicate|].
  rewrite Forall_lookup. intros i row Hi.
  apply lookup_replicate in Hi as [-> _]. apply length_replicate.
Qed.

Lemma lookup2_replicate h w v r c :
  (r < h)%nat -> (c < w)%nat -> lookup2 (replicate h (replicate w v)) r c = Some v.
Proof.
  intros Hr Hc. unfold lookup2. rewrite lookup_replicate_2 by done.
  apply lookup_replicate_2. done.
Qed.

Definition b2n (b : bool) : nat := if b then 1%nat else 0%nat.

Lemma count_row_insert (p : A -> bool) (row : list A) c old v :
  row !! c = Some old ->
  (length (filter (fun x => p x = true) (<[c := v]> row)) + b2n (p old)
   = length (filter (fun x => p x = true) row) + b2n (p v))%nat.
Proof.
  revert c. induction row as [|x row IH]; intros c Hc; [discriminate|].
  destruct c as [|c]; simpl in *.
  - injection Hc as ->. rewrite !filter_cons.
    destruct (p old) eqn:Ho, (p v) eqn:Hv; repeat case_decide; simpl; try lia; congruence.
  - rewrite !filter_cons. specialize (IH c Hc).
    case_decide; simpl; lia.
Qed.

Lemma count2_insert2 (p : A -> bool) m r c old v :
  lookup2 m r c = Some old ->
  (count2 p (insert2 m r c v) + b2n (p old) = count2 p m + b2n (p v))%nat.
Proof.
  unfold lookup2, insert2, count2. destruct (m !! r) as [row|] eqn:Hr; [|discriminate].
  intros Hc. revert r Hr. induction m as [|row0 m IH]; intros r Hr; [discriminate|].
  destruct r as [|r]; simpl in *.
  - injection Hr as ->. pose proof (count_row_insert p row c old v Hc). lia.
  - specialize (IH r Hr). lia.
Qed.

End Grid2Facts.
End Grid2Facts.

(** ** Tiles of a well-formed level *)

Lemma in_bounds_spec level x y :
  in_bounds level x y = true <-> 0 <= x < width level /\ 0 <= y < height level.
Proof. unfold in_bounds. rewrite !andb_true_iff. lia. Qed.

Lemma with_tileMatrix_same level : with_tileMatrix level (tileMatrix level) = level.
Proof. destruct level; reflexivity. Qed.

Lemma with_tileMatrix_twice level m m' :
  with_tileMatrix (with_tileMatrix level m) m' = with_tileMatrix level m'.
Proof. reflexivity. Qed.

Lemma tileAt_lookup level x y :
  wf_level level -> in_bounds level x y = true ->
  Grid2.lookup2 (tileMatrix level) (Z.to_nat y) (Z.to_nat x) = Some (tileAt level x y).
Proof.
  intros (Hw & Hh & Hs) Hb. apply in_bounds_spec in Hb.
  destruct (Grid2Facts.lookup2_shape _ _ _ (Z.to_nat y) (Z.to_nat x) Hs) as [t Ht]; [lia..|].
  unfold tileAt. replace ((x <? 0) || (y <? 0)) with false by lia. rewrite Ht. reflexivity.
Qed.

Lemma setTile_width level x y t : width (setTile level x y t) = width level.
Proof. unfold setTile. destruct ((x <? 0) || (y <? 0)); reflexivity. Qed.

Lemma setTile_height level x y t : height (setTile level x y t) = height level.
Proof. unfold setTile. destruct ((x <? 0) || (y <? 0)); reflexivity. Qed.

Lemma wf_setTile level x y t : wf_level level -> wf_level (setTile level x y t).
Proof.
  intros (Hw & Hh & Hs). unfold wf_level. rewrite setTile_width, setTile_height.
  split; [done|]. split; [done|]. unfold setTile.
  destruct ((x <? 0) || (y <? 0)); [done|]. simpl. apply Grid2Facts.shape_insert2. done.
Qed.

Lemma in_bounds_setTile level x y t x' y' :
  in_bounds (setTile level x y t) x' y' = in_bounds level x' y'.
Proof. unfold in_bounds. rewrite setTile_width, setTile_height. reflexivity. Qed.

Lemma tileAt_setTile_eq level x y t :
  wf_level level -> in_bounds level x y = true -> tileAt (setTile level x y t) x y = t.
Proof.
  intros Hwf Hb. pose proof (tileAt_lookup level x y Hwf Hb) as Hlk.
  apply in_bounds_spec in Hb. unfold tileAt, setTile.
  replace ((x <? 0) || (y <? 0)) with false by lia. simpl.
  rewrite Grid2Facts.lookup2_insert2_eq by (rewrite Hlk; eauto). reflexivity.
Qed.

Lemma tileAt_setTile_ne level x y t x' y' :
  (x, y) <> (x', y') -> tileAt (setTile level x y t) x' y' = tileAt level x' y'.
Proof.
  intros Hne. unfold tileAt, setTile.
  destruct ((x' <? 0) || (y' <? 0)) eqn:Hneg'; [reflexivity|].
  destruct ((x <? 0) || (y <? 0)) eqn:Hneg; [reflexivity|]. simpl.
  rewrite Grid2Facts.lookup2_insert2_ne; [reflexivity|].
  intros Heq. apply Hne. injection Heq as Hy Hx. f_equal; lia.
Qed.

(** Levels that differ at most in their tiles are equal when all tiles are. *)
Lemma level_ext level m :
  wf_level level ->
  Grid2.shape (Z.to_nat (height level)) (Z.to_nat (width level)) m ->
  (forall x y, in_bounds level x y = true -> tileAt (with_tileMatrix level m) x y = tileAt level x y) ->
  with_tileMatrix level m = level.
Proof.
  intros Hwf Hs Heq. rewrite <- (with_tileMatrix_same level) at 2. f_equal.
  destruct Hwf as (Hw & Hh & Hs0).
  eapply Grid2Facts.shape_ext; [exact Hs|exact Hs0|]. intros r c.
  destruct (decide (r < Z.to_nat (height level) /\ c < Z.to_nat (width level))%nat) as [[Hr Hc]|Hout].
  - assert (Hb : in_bounds level (Z.of_nat c) (Z.of_nat r) = true) by (apply in_bounds_spec; lia).
    specialize (Heq _ _ Hb). unfold tileAt in Heq.
    replace ((Z.of_nat c <? 0) || (Z.of_nat r <? 0)) with false in Heq by lia.
    simpl in Heq. rewrite !Nat2Z.id in Heq.
    destruct (Grid2Facts.lookup2_shape _ _ _ r c Hs Hr Hc) as [t Ht].
    destruct (Grid2Facts.lookup2_shape _ _ _ r c Hs0 Hr Hc) as [t0 Ht0].
    rewrite Ht, Ht0 in Heq |- *. simpl in Heq. congruence.
  - destruct (Grid2.lookup2 m r c) as [t|] eqn:Ht.
    { apply (Grid2Facts.lookup2_Some_lt _ _ _ _ _ _ Hs) in Ht. lia. }
    destruct (Grid2.lookup2 (tileMatrix level) r c) as [t|] eqn:Ht0; [|reflexivity].
    apply (Grid2Facts.lookup2_Some_lt _ _ _ _ _ _ Hs0) in Ht0. lia.
Qed.

(** ** wrapTunnels.ts: legality of moves *)

(** The tile on the opposite edge of the same row or column. *)
Definition mirror_tile (level : ParsedLevel) (x y : Z) (dir : Direction.t) : GridPos :=
  match dir with
  | Direction.Left => mkGridPos (width level - 1) y
  | Direction.Right => mkGridPos 0 y
  | Direction.Up => mkGridPos x (height level - 1)
  | Direction.Down => mkGridPos x 0
  | Direction.None => mkGridPos x y
  end.

(** What the specification asks of a move from the tile [(x, y)]. *)
Definition legal_move (level : ParsedLevel) (x y : Z) (dir : Direction.t) : option GridPos :=
  match dir with
  | Direction.None => None
  | _ =>
      let nx := x + fst (vec dir) in
      let ny := y + snd (vec dir) in
      if in_bounds level nx ny then
        if isWalkable (tileAt level nx ny) then Some (mkGridPos nx ny) else None
      else
        let dest := mirror_tile level x y dir in
        if isWalkable (tileAt level x y) && isWalkable (tileAt level (pos_x dest) (pos_y dest))
        then Some dest else None
  end.

Ltac split_ifs :=
  repeat match goal with
         | |- context [if ?c then _ else _] => destruct c eqn:?; simpl
         end.

Ltac settle_walkable :=
  repeat match goal with
         | H : context [isWalkable ?t] |- _ => destruct (isWalkable t); simpl in H
         end;
  simpl in *; try discriminate; try reflexivity; try lia.

Lemma nextTileWithWrap_legal level x y dir :
  in_bounds level x y = true -> nextTileWithWrap level x y dir = legal_move level x y dir.
Proof.
  intros Hb. apply in_bounds_spec in Hb. unfold nextTileWithWrap, legal_move, getWrapDestination, in_bounds.
  destruct dir; simpl; try reflexivity; split_ifs; settle_walkable.
Qed.

Lemma getWrapDestination_legal level x y dir :
  in_bounds level x y = true ->
  getWrapDestination level x y dir =
    if in_bounds level (x + fst (vec dir)) (y + snd (vec dir)) then None
    else legal_move level x y dir.
Proof.
  intros Hb. apply in_bounds_spec in Hb. unfold legal_move, getWrapDestination, in_bounds.
  destruct dir; simpl; try reflexivity; split_ifs; settle_walkable.
Qed.

(** A move keeps to the grid. *)
Lemma nextTileWithWrap_in_bounds level x y dir next :
  in_bounds level x y = true -> nextTileWithWrap level x y dir = Some next ->
  in_bounds level (pos_x next) (pos_y next) = true.
Proof.
  intros Hb. rewrite nextTileWithWrap_legal by done. apply in_bounds_spec in Hb.
  unfold legal_move. destruct dir; try discriminate; simpl;
    repeat match goal with
           | |- context [if ?c then _ else _] => destruct c eqn:?; simpl; try discriminate
           end;
    intros [= <-]; simpl;
    try match goal with H : in_bounds _ _ _ = true |- _ => exact H end;
    apply in_bounds_spec; lia.
Qed.

(** The tile a move arrives at is walkable. *)
Lemma nextTileWithWrap_walkable level x y dir next :
  in_bounds level x y = true -> nextTileWithWrap level x y dir = Some next ->
  isWalkable (tileAt level (pos_x next) (pos_y next)) = true.
Proof.
  intros Hb. rewrite nextTileWithWrap_legal by done.
  unfold legal_move. destruct dir; try discriminate; simpl;
    repeat match goal with
           | |- context [if ?c then _ else _] => destruct c eqn:?; simpl; try discriminate
           end;
    intros [= <-]; simpl in *; try done;
    match goal with H : _ && _ = true |- _ => apply andb_true_iff in H as [_ ?]; done end.
Qed.

(** C7 (wrap-around move legality).  On a parsed level, from a tile of the
    grid: a move that stays inside the grid succeeds exactly when the tile it
    reaches is walkable, and is no wrap; a move that leaves the grid lands on
    the mirrored tile of the opposite edge, in the same row or column, exactly
    when the edge tile it leaves and the edge tile it reaches are both
    walkable, and is refused ([null]) by [getWrapDestination] and
    [nextTileWithWrap] otherwise; the direction [None] moves nowhere. *)
Theorem wrap_move_legality (level : ParsedLevel) (x y : Z) (dir : Direction.t) :
  wf_level level -> in_bounds level x y = true ->
  let nx := x + fst (vec dir) in
  let ny := y + snd (vec dir) in
  let dest := mirror_tile level x y dir in
  (dir = Direction.None ->
     getWrapDestination level x y dir = None /\ nextTileWithWrap level x y dir = None)
  /\ (dir <> Direction.None -> in_bounds level nx ny = true ->
        getWrapDestination level x y dir = None
        /\ nextTileWithWrap level x y dir =
             (if isWalkable (tileAt level nx ny) then Some (mkGridPos nx ny) else None))
  /\ (dir <> Direction.None -> in_bounds level nx ny = false ->
        nextTileWithWrap level x y dir = getWrapDestination level x y dir
        /\ (getWrapDestination level x y dir = Some dest <->
              isWalkable (tileAt level x y) = true
              /\ isWalkable (tileAt level (pos_x dest) (pos_y dest)) = true)
        /\ (getWrapDestination level x y dir = None <->
              ~ (isWalkable (tileAt level x y) = true
                 /\ isWalkable (tileAt level (pos_x dest) (pos_y dest)) = true))
        /\ (pos_x dest = x /\ (pos_y dest = 0 \/ pos_y dest = height level - 1)
            \/ pos_y dest = y /\ (pos_x dest = 0 \/ pos_x dest = width level - 1))).
Proof.
  intros Hwf Hb nx ny dest.
  pose proof (nextTileWithWrap_legal level x y dir Hb) as Hn.
  pose proof (getWrapDestination_legal level x y dir Hb) as Hg.
  fold nx ny in Hg. split; [|split].
  - intros ->. split; reflexivity.
  - intros Hdir Hin. rewrite Hg, Hn, Hin. split; [reflexivity|].
    unfold legal_move. fold nx ny. rewrite Hin. destruct dir; try reflexivity. congruence.
  - intros Hdir Hout. rewrite Hg, Hn, Hout. split; [reflexivity|].
    assert (Hl : legal_move level x y dir =
                   if isWalkable (tileAt level x y)
                      && isWalkable (tileAt level (pos_x dest) (pos_y dest))
                   then Some dest else None).
    { unfold legal_move. fold nx ny dest. rewrite Hout. destruct dir; try reflexivity. congruence. }
    rewrite Hl. split; [|split].
    + destruct (isWalkable (tileAt level x y)), (isWalkable (tileAt level (pos_x dest) (pos_y dest)));
        simpl; split; try tauto; try discriminate; intros [? ?]; discriminate.
    + destruct (isWalkable (tileAt level x y)), (isWalkable (tileAt level (pos_x dest) (pos_y dest)));
        simpl; split; try tauto; try discriminate; try (intros _ [? ?]; discriminate).
    + subst dest. destruct dir; simpl; try congruence; lia.
Qed.

Definition tunnel_level : ParsedLevel :=
  match parseLevel (mkLevelJson None ["#####"; "#P.G#"; " .#. "; "#...#"; "#####"]%string) with
  | inr p => p
  | inl _ => mkParsedLevel None 0 0 [] [] None 0 [] [] 0 0 [] [] [] []
  end.

Lemma wf_tunnel_level : wf_level tunnel_level.
Proof.
  unfold wf_level. split; [vm_compute; discriminate|]. split; [vm_compute; discriminate|].
  split; [reflexivity|]. vm_compute. repeat constructor.
Qed.

(** The move to the left from [(0, 2)] of [tunnel_level] wraps to [(4, 2)]. *)
Lemma wrap_move_legality_witness :
  nextTileWithWrap tunnel_level 0 2 Direction.Left = getWrapDestination tunnel_level 0 2 Direction.Left
  /\ getWrapDestination tunnel_level 0 2 Direction.Left = Some (mkGridPos 4 2).
Proof.
  destruct (wrap_move_legality tunnel_level 0 2 Direction.Left wf_tunnel_level eq_refl)
    as (_ & _ & H).
  destruct (H ltac:(discriminate) eq_refl) as (H1 & H2 & _).
  split; [exact H1|]. apply H2. split; reflexivity.
Defined.

(** ** vibeReorgShift.ts: swaps *)

Lemma swapTiles_width level a b : width (swapTiles level a b) = width level.
Proof. unfold swapTiles. rewrite !setTile_width. reflexivity. Qed.

Lemma swapTiles_height level a b : height (swapTiles level a b) = height level.
Proof. unfold swapTiles. rewrite !setTile_height. reflexivity. Qed.

Lemma in_bounds_swapTiles level a b x y :
  in_bounds (swapTiles level a b) x y = in_bounds level x y.
Proof. unfold in_bounds. rewrite swapTiles_width, swapTiles_height. reflexivity. Qed.

Lemma wf_swapTiles level a b : wf_level level -> wf_level (swapTiles level a b).
Proof. intros H. unfold swapTiles. apply wf_setTile, wf_setTile, H. Qed.

(** The tiles after a swap of two tiles of the grid. *)
Lemma tileAt_swapTiles level a b x y :
  wf_level level ->
  in_bounds level (pos_x a) (pos_y a) = true ->
  in_bounds level (pos_x b) (pos_y b) = true ->
  tileAt (swapTiles level a b) x y =
    if bool_decide ((x, y) = (pos_x b, pos_y b)) then tileAt level (pos_x a) (pos_y a)
    else if bool_decide ((x, y) = (pos_x a, pos_y a)) then tileAt level (pos_x b) (pos_y b)
    else tileAt level x y.
Proof.
  intros Hwf Ha Hb. unfold swapTiles.
  case_bool_decide as Hxb.
  - injection Hxb as -> ->. apply tileAt_setTile_eq.
    + apply wf_setTile, Hwf.
    + rewrite in_bounds_setTile. exact Hb.
  - rewrite tileAt_setTile_ne by congruence.
    case_bool_decide as Hxa.
    + injection Hxa as -> ->. apply tileAt_setTile_eq; assumption.
    + apply tileAt_setTile_ne. congruence.
Qed.

Lemma swapTiles_as_matrix level a b :
  exists m, swapTiles level a b = with_tileMatrix level m.
Proof.
  unfold swapTiles, setTile.
  repeat match goal with |- context [if ?c then _ else _] => destruct c end;
    simpl; eauto using eq_sym, with_tileMatrix_same.
Qed.

(** Swapping the same two tiles twice restores the level. *)
Lemma swapTiles_involutive level a b :
  wf_level level ->
  in_bounds level (pos_x a) (pos_y a) = true ->
  in_bounds level (pos_x b) (pos_y b) = true ->
  swapTiles (swapTiles level a b) a b = level.
Proof.
  intros Hwf Ha Hb.
  assert (Hwf1 : wf_level (swapTiles level a b)) by (apply wf_swapTiles, Hwf).
  assert (Hwf2 : wf_level (swapTiles (swapTiles level a b) a b)) by (apply wf_swapTiles, Hwf1).
  destruct (swapTiles_as_matrix level a b) as [m1 Hm1].
  destruct (swapTiles_as_matrix (swapTiles level a b) a b) as [m2 Hm2].
  rewrite Hm1 in Hm2 at 2. rewrite with_tileMatrix_twice in Hm2.
  rewrite Hm2. apply level_ext; [exact Hwf|..].
  - rewrite Hm2 in Hwf2. destruct Hwf2 as (_ & _ & Hs). exact Hs.
  - intros x y Hxy. rewrite <- Hm2.
    rewrite tileAt_swapTiles by (rewrite ?in_bounds_swapTiles; assumption).
    rewrite !tileAt_swapTiles by assumption.
    repeat case_bool_decide; simplify_eq; try reflexivity; try congruence.
Qed.

(** Number of tiles of one type. *)
Definition countTile (t : TileType) (level : ParsedLevel) : nat :=
  Grid2.count2 (fun u => bool_decide (u = t)) (tileMatrix level).

Lemma countTile_setTile t level x y u :
  wf_level level -> in_bounds level x y = true ->
  (countTile t (setTile level x y u) + Grid2Facts.b2n (bool_decide (tileAt level x y = t))
   = countTile t level + Grid2Facts.b2n (bool_decide (u = t)))%nat.
Proof.
  intros Hwf Hb. pose proof (tileAt_lookup level x y Hwf Hb) as Hlk.
  apply in_bounds_spec in Hb. unfold countTile, setTile.
  replace ((x <? 0) || (y <? 0)) with false by lia. simpl.
  apply (Grid2Facts.count2_insert2 (fun u => bool_decide (u = t)) _ _ _ _ u Hlk).
Qed.

(** A swap keeps the number of tiles of every type. *)
Lemma countTile_swapTiles t level a b :
  wf_level level ->
  in_bounds level (pos_x a) (pos_y a) = true ->
  in_bounds level (pos_x b) (pos_y b) = true ->
  countTile t (swapTiles level a b) = countTile t level.
Proof.
  intros Hwf Ha Hb. unfold swapTiles.
  set (tA := tileAt level (pos_x a) (pos_y a)).
  set (tB := tileAt level (pos_x b) (pos_y b)).
  pose proof (countTile_setTile t level (pos_x a) (pos_y a) tB Hwf Ha) as H1.
  pose proof (countTile_setTile t (setTile level (pos_x a) (pos_y a) tB) (pos_x b) (pos_y b) tA
                (wf_setTile _ _ _ _ Hwf)) as H2.
  rewrite in_bounds_setTile in H2. specialize (H2 Hb). fold tA in H1.
  destruct (decide ((pos_x a, pos_y a) = (pos_x b, pos_y b))) as [Heq|Hne].
  - injection Heq as Hx Hy. rewrite <- Hx, <- Hy in H2.
    rewrite tileAt_setTile_eq in H2 by assumption.
    assert (tB = tA) by (unfold tA, tB; rewrite Hx, Hy; reflexivity).
    rewrite <- Hx, <- Hy. subst tB. lia.
  - rewrite tileAt_setTile_ne in H2 by exact Hne. fold tB in H2. lia.
Qed.

(** ** vibeReorgShift.ts: candidates *)

Lemma collect_spec level mask used c :
  c ∈ collectAdjacentSwapCandidates level mask used ->
  in_bounds level (ax c) (ay c) = true /\ in_bounds level (bx c) (by_ c) = true
  /\ hasProtected mask (ax c) (ay c) = false /\ hasProtected mask (bx c) (by_ c) = false
  /\ set_has used (tileKey (ax c) (ay c)) = false /\ set_has used (tileKey (bx c) (by_ c)) = false
  /\ (ax c, ay c) <> (bx c, by_ c)
  /\ ((bx c = ax c + 1 /\ by_ c = ay c) \/ (bx c = ax c /\ by_ c = ay c + 1))
  /\ ((tileAt level (ax c) (ay c) = wall /\ isMutableWalkable (tileAt level (bx c) (by_ c)) = true)
      \/ (tileAt level (bx c) (by_ c) = wall /\ isMutableWalkable (tileAt level (ax c) (ay c)) = true)).
Proof.
  unfold collectAdjacentSwapCandidates. intros Hc.
  apply list_elem_of_bind in Hc as (y & Hc & Hy).
  apply list_elem_of_bind in Hc as (x & Hc & Hx).
  apply elem_of_seqZ in Hy, Hx.
  destruct (set_has used (tileKey x y)) eqn:Hu; [inversion Hc|].
  destruct (hasProtected mask x y) eqn:Hp; [inversion Hc|].
  apply list_elem_of_bind in Hc as (d & Hc & Hd).
  destruct (_ || _ || _ || _) eqn:Hoob in Hc; [inversion Hc|].
  destruct (set_has used (tileKey (x + d.1) (y + d.2))) eqn:Hu'; [inversion Hc|].
  destruct (hasProtected mask (x + d.1) (y + d.2)) eqn:Hp'; [inversion Hc|].
  destruct (Bool.eqb _ _) eqn:Heqb in Hc; [inversion Hc|].
  destruct (negb _ && negb _) eqn:Hwalk in Hc; [inversion Hc|].
  apply list_elem_of_singleton in Hc. subst c. simpl.
  repeat split; try assumption.
  - apply in_bounds_spec. lia.
  - apply in_bounds_spec. lia.
  - intros Heq. injection Heq as Hx' Hy'.
    apply list_elem_of_In in Hd. simpl in Hd. destruct Hd as [<-|[<-|[]]]; simpl in *; lia.
  - apply list_elem_of_In in Hd. simpl in Hd. destruct Hd as [<-|[<-|[]]]; simpl in *; lia.
  - apply eqb_false_iff in Heqb.
    destruct (decide (tileAt level x y = wall)) as [Ha|Ha];
      destruct (decide (tileAt level (x + d.1) (y + d.2) = wall)) as [Hb|Hb].
    + rewrite !bool_decide_eq_true_2 in Heqb by assumption. congruence.
    + left. split; [assumption|]. rewrite Ha in Hwalk. simpl in Hwalk.
      destruct (isMutableWalkable _); [reflexivity|discriminate].
    + right. split; [assumption|]. rewrite Hb in Hwalk.
      destruct (isMutableWalkable (tileAt level x y)); [reflexivity|].
      simpl in Hwalk. discriminate.
    + rewrite !bool_decide_eq_false_2 in Heqb by assumption. congruence.
Qed.

Lemma lookupZ_elem_of {A} (l : list A) i x : lookupZ l i = Some x -> x ∈ l.
Proof.
  unfold lookupZ. destruct (i <? 0); [discriminate|]. apply list_elem_of_lookup_2.
Qed.

(** ** vibeReorgShift.ts: the batch *)

Definition swap_pair (level : ParsedLevel) (ab : GridPos * GridPos) : ParsedLevel :=
  swapTiles level (fst ab) (snd ab).

(** The swaps of [accepted] applied in order. *)
Definition apply_swaps (accepted : list (GridPos * GridPos)) (level : ParsedLevel) : ParsedLevel :=
  fold_left swap_pair accepted level.

(** The second tile is the right or the lower neighbour of the first. *)
Definition adjacent (a b : GridPos) : Prop :=
  (pos_x b = pos_x a + 1 /\ pos_y b = pos_y a) \/ (pos_x b = pos_x a /\ pos_y b = pos_y a + 1).

(** Both tiles of a pair are neighbouring tiles of the grid that the mask
    leaves free. *)
Definition free_pair (level : ParsedLevel) (mask : list (list bool)) (ab : GridPos * GridPos) : Prop :=
  in_bounds level (pos_x (fst ab)) (pos_y (fst ab)) = true
  /\ in_bounds level (pos_x (snd ab)) (pos_y (snd ab)) = true
  /\ hasProtected mask (pos_x (fst ab)) (pos_y (fst ab)) = false
  /\ hasProtected mask (pos_x (snd ab)) (pos_y (snd ab)) = false
  /\ adjacent (fst ab) (snd ab).

Lemma apply_swaps_app acc ab level :
  apply_swaps (acc ++ [ab]) level = swap_pair (apply_swaps acc level) ab.
Proof. unfold apply_swaps. rewrite fold_left_app. reflexivity. Qed.

Lemma apply_swaps_dims acc level :
  width (apply_swaps acc level) = width level /\ height (apply_swaps acc level) = height level.
Proof.
  revert level. induction acc as [|ab acc IH]; intros level; [done|].
  simpl. destruct (IH (swap_pair level ab)) as [-> ->].
  unfold swap_pair. rewrite swapTiles_width, swapTiles_height. done.
Qed.

Lemma in_bounds_apply_swaps acc level x y :
  in_bounds (apply_swaps acc level) x y = in_bounds level x y.
Proof. unfold in_bounds. destruct (apply_swaps_dims acc level) as [-> ->]. reflexivity. Qed.

Lemma wf_apply_swaps acc level : wf_level level -> wf_level (apply_swaps acc level).
Proof.
  revert level. induction acc as [|ab acc IH]; intros level Hwf; [done|].
  simpl. apply IH. apply wf_swapTiles, Hwf.
Qed.

(** Undoing the accepted swaps, last one first, restores the level. *)
Lemma revert_swaps level mask acc :
  wf_level level -> Forall (free_pair level mask) acc ->
  fold_left swap_pair (rev acc) (apply_swaps acc level) = level.
Proof.
  intros Hwf. induction acc as [|ab acc IH] using rev_ind; intros Hall; [reflexivity|].
  apply Forall_app in Hall as [Hall Hab]. rewrite Forall_singleton in Hab.
  unfold free_pair in Hab.
  destruct Hab as (Ha & Hb & _).
  rewrite rev_unit, apply_swaps_app. simpl. unfold swap_pair at 2 3.
  rewrite swapTiles_involutive.
  - apply IH, Hall.
  - apply wf_apply_swaps, Hwf.
  - rewrite in_bounds_apply_swaps. exact Ha.
  - rewrite in_bounds_apply_swaps. exact Hb.
Qed.

Lemma countTile_apply_swaps t level mask acc :
  wf_level level -> Forall (free_pair level mask) acc ->
  countTile t (apply_swaps acc level) = countTile t level.
Proof.
  intros Hwf. induction acc as [|ab acc IH] using rev_ind; intros Hall; [reflexivity|].
  apply Forall_app in Hall as [Hall Hab]. rewrite Forall_singleton in Hab.
  unfold free_pair in Hab.
  destruct Hab as (Ha & Hb & _).
  rewrite apply_swaps_app. unfold swap_pair. rewrite countTile_swapTiles.
  - apply IH, Hall.
  - apply wf_apply_swaps, Hwf.
  - rewrite in_bounds_apply_swaps. exact Ha.
  - rewrite in_bounds_apply_swaps. exact Hb.
Qed.

(** Swaps of free pairs leave every protected tile as it was. *)
Lemma tileAt_apply_swaps level mask acc x y :
  wf_level level -> Forall (free_pair level mask) acc ->
  hasProtected mask x y = true ->
  tileAt (apply_swaps acc level) x y = tileAt level x y.
Proof.
  intros Hwf. induction acc as [|ab acc IH] using rev_ind; intros Hall Hp; [reflexivity|].
  apply Forall_app in Hall as [Hall Hab]. rewrite Forall_singleton in Hab.
  unfold free_pair in Hab.
  destruct Hab as (Ha & Hb & Hpa & Hpb & _).
  rewrite apply_swaps_app. unfold swap_pair. rewrite tileAt_swapTiles.
  - repeat case_bool_decide; simplify_eq; try congruence. apply IH; assumption.
  - apply wf_apply_swaps, Hwf.
  - rewrite in_bounds_apply_swaps. exact Ha.
  - rewrite in_bounds_apply_swaps. exact Hb.
Qed.

Section ReorgShiftFacts.
Context {S : Type} (R : Rng S).

(** What one mutation slot does to the level. *)
Lemma tryMutation_spec tries level rng mask used starts critical steps :
  wf_level level ->
  match tryMutation R tries level rng mask used starts critical steps with
  | Applied level' _ a b =>
      level' = swapTiles level a b /\ free_pair level mask (a, b)
      /\ passesChecks level' starts critical steps = true
  | NotApplied level' _ => level' = level
  | AttemptThrew level' _ => level' = level
  end.
Proof.
  intros Hwf. revert level rng Hwf.
  induction tries as [|tries IH]; intros level rng Hwf; simpl; [reflexivity|].
  case_bool_decide as Hnil; [reflexivity|].
  destruct (nextInt R 0 _ rng) as [i rng'].
  destruct (lookupZ _ i) as [pick|] eqn:Hpick; [|reflexivity].
  apply lookupZ_elem_of, collect_spec in Hpick.
  destruct Hpick as (Ha & Hb & Hpa & Hpb & _ & _ & _ & Hadj & _).
  destruct (negb _) eqn:Hok; [apply IH, Hwf|].
  destruct (passesChecks _ _ _ _) eqn:Hpass.
  - split; [reflexivity|]. split; [|exact Hpass]. repeat split; assumption.
  - rewrite swapTiles_involutive by assumption. apply IH, Hwf.
Qed.

(** The state of the level at the end of a call. *)
Lemma shiftLoop_spec n cfg level0 level rng mask starts critical used accepted keys level' rng' out :
  wf_level level0 -> Forall (free_pair level0 mask) accepted ->
  level = apply_swaps accepted level0 ->
  shiftLoop R n cfg level rng mask starts critical used accepted keys = (level', rng', out) ->
  (exists acc', Forall (free_pair level0 mask) acc' /\ level' = apply_swaps acc' level0)
  /\ (forall tiles, out = Returned false tiles -> level' = level0 /\ tiles = []).
Proof.
  intros Hwf. revert level rng used accepted keys.
  induction n as [|n IH]; intros level rng used accepted keys Hall Hlevel; simpl.
  - intros [= <- <- <-]. split; [eauto|]. intros tiles [=].
  - assert (Hwfl : wf_level level) by (subst level; apply wf_apply_swaps, Hwf).
    pose proof (tryMutation_spec (Z.to_nat (maxTriesPerMutation cfg)) level rng mask used
                  starts critical (softlockMaxSteps cfg) Hwfl) as Hspec.
    destruct (tryMutation _ _ _ _ _ _ _ _ _) as [l1 rng1 a b|l1 rng1|l1 rng1].
    + destruct Hspec as (-> & Hfree & _). apply IH.
      * apply Forall_app. split; [exact Hall|]. apply Forall_singleton.
        unfold free_pair in *. rewrite Hlevel, !in_bounds_apply_swaps in Hfree. exact Hfree.
      * rewrite apply_swaps_app, Hlevel. reflexivity.
    + subst l1. intros [= <- <- <-]. split.
      * exists []. split; [constructor|]. rewrite Hlevel. apply (revert_swaps level0 mask); assumption.
      * intros tiles [= <-]. split; [|reflexivity].
        rewrite Hlevel. apply (revert_swaps level0 mask); assumption.
    + subst l1. intros [= <- <- <-]. split; [eauto|]. intros tiles [=].
Qed.

(** After a successful batch of at least one mutation the checks hold. *)
Lemma shiftLoop_checks n cfg level rng mask starts critical used accepted keys level' rng' tiles :
  wf_level level ->
  shiftLoop R n cfg level rng mask starts critical used accepted keys = (level', rng', Returned true tiles) ->
  (n = 0%nat /\ level' = level) \/ passesChecks level' starts critical (softlockMaxSteps cfg) = true.
Proof.
  revert level rng used accepted keys.
  induction n as [|n IH]; intros level rng used accepted keys Hwf; simpl.
  - intros [= <- <- <-]. left. done.
  - pose proof (tryMutation_spec (Z.to_nat (maxTriesPerMutation cfg)) level rng mask used
                  starts critical (softlockMaxSteps cfg) Hwf) as Hspec.
    destruct (tryMutation _ _ _ _ _ _ _ _ _) as [l1 rng1 a b|l1 rng1|l1 rng1]; [|discriminate..].
    destruct Hspec as (Hl1 & _ & Hpass). intros Hloop. right.
    apply IH in Hloop as [[_ ->]|Hp]; [exact Hpass|exact Hp|].
    subst l1. apply wf_swapTiles, Hwf.
Qed.

End ReorgShiftFacts.

(** ** vibeReorgShift.ts: atomicity and the tile multiset *)

Definition shift_cfg (n : Z) : ReorgShiftConfig := mkReorgShiftConfig n 50 20.

(** The mask of the game scene for [tunnel_level]: the border ring. *)
Definition ring_mask : list (list bool) :=
  [[true; true; true; true; true];
   [true; false; false; false; true];
   [true; false; false; false; true];
   [true; false; false; false; true];
   [true; true; true; true; true]].

(** C1 (mutation atomicity).  When [applyReorgShift] returns [ok: false] the
    level is the level it was given, tile for tile, and [mutatedTiles] is
    empty. *)
Theorem reorg_shift_atomic (S : Type) (R : Rng S) (level : ParsedLevel) (rng : S)
    (cfg : ReorgShiftConfig) (protectedMask : list (list bool)) (starts critical : list GridPos)
    (level' : ParsedLevel) (rng' : S) (mutatedTiles : list GridPos) :
  wf_level level ->
  applyReorgShift R level rng cfg protectedMask starts critical
    = (level', rng', Returned false mutatedTiles) ->
  tileMatrix level' = tileMatrix level /\ level' = level /\ mutatedTiles = [].
Proof.
  intros Hwf Hcall. unfold applyReorgShift in Hcall.
  eapply shiftLoop_spec in Hcall as [_ Hfalse]; [|exact Hwf|constructor|reflexivity].
  destruct (Hfalse mutatedTiles eq_refl) as [-> ->]. done.
Qed.

(** A batch of two mutations on [tunnel_level]: the first swap is accepted,
    the second slot finds no candidate, and the first swap is undone. *)
Lemma reorg_shift_atomic_witness :
  let call := applyReorgShift createRng_ops tunnel_level (snd (createRng "abc")) (shift_cfg 2)
                ring_mask [mkGridPos 1 1] [mkGridPos 3 1] in
  snd call = Returned false [] /\ tileMatrix (fst (fst call)) = tileMatrix tunnel_level.
Proof.
  split; [vm_compute; reflexivity|].
  refine (proj1 (reorg_shift_atomic Z createRng_ops tunnel_level (snd (createRng "abc"))
                   (shift_cfg 2) ring_mask [mkGridPos 1 1] [mkGridPos 3 1]
                   _ 3624471395 [] wf_tunnel_level _)).
  vm_compute. reflexivity.
Defined.

(** C10 (tile multiset).  Whatever the call ends with, the level it leaves is
    the level it was given with a sequence of exchanges of two neighbouring
    tiles of the grid applied, and the number of tiles of every type is
    unchanged. *)
Theorem reorg_shift_keeps_tile_counts (S : Type) (R : Rng S) (level : ParsedLevel) (rng : S)
    (cfg : ReorgShiftConfig) (protectedMask : list (list bool)) (starts critical : list GridPos)
    (level' : ParsedLevel) (rng' : S) (out : Outcome) :
  wf_level level ->
  applyReorgShift R level rng cfg protectedMask starts critical = (level', rng', out) ->
  (exists swaps,
      Forall (fun ab => in_bounds level (pos_x (fst ab)) (pos_y (fst ab)) = true
                        /\ in_bounds level (pos_x (snd ab)) (pos_y (snd ab)) = true
                        /\ adjacent (fst ab) (snd ab)) swaps
      /\ level' = apply_swaps swaps level)
  /\ forall t : TileType, countTile t level' = countTile t level.
Proof.
  intros Hwf Hcall. unfold applyReorgShift in Hcall.
  eapply shiftLoop_spec in Hcall as [(acc & Hall & ->) _]; [|exact Hwf|constructor|reflexivity].
  split.
  - exists acc. split; [|reflexivity].
    eapply Forall_impl; [exact Hall|]. intros ab (Ha & Hb & _ & _ & Hadj). done.
  - intros t. eapply countTile_apply_swaps; eassumption.
Qed.

(** One accepted mutation on [tunnel_level]: six pellets before and after. *)
Lemma reorg_shift_keeps_tile_counts_witness :
  let call := applyReorgShift createRng_ops tunnel_level (snd (createRng "abc")) (shift_cfg 1)
                ring_mask [mkGridPos 1 1] [mkGridPos 3 1] in
  snd call = Returned true [mkGridPos 2 2; mkGridPos 2 3]
  /\ countTile pellet (fst (fst call)) = 6%nat
  /\ countTile pellet (fst (fst call)) = countTile pellet tunnel_level.
Proof.
  split; [vm_compute; reflexivity|]. split; [vm_compute; reflexivity|].
  refine (proj2 (reorg_shift_keeps_tile_counts Z createRng_ops tunnel_level (snd (createRng "abc"))
                   (shift_cfg 1) ring_mask [mkGridPos 1 1] [mkGridPos 3 1]
                   _ 3624471395 (Returned true [mkGridPos 2 2; mkGridPos 2 3])
                   wf_tunnel_level _) pellet).
  vm_compute. reflexivity.
Defined.

(** ** Reachability: what the searches compute *)

(** One legal move, wrap-around included. *)
Definition step (level : ParsedLevel) (p q : GridPos) : Prop :=
  exists d, nextTileWithWrap level (pos_x p) (pos_y p) d = Some q.

(** [path level n p q]: [q] is reached from [p] in [n] legal moves. *)
Inductive path (level : ParsedLevel) : nat -> GridPos -> GridPos -> Prop :=
  | path_here p : path level 0 p p
  | path_step n p q r : path level n p q -> step level q r -> path level (Datatypes.S n) p r.

Definition reachable (level : ParsedLevel) (p q : GridPos) : Prop :=
  exists n, path level n p q.

Lemma reachable_refl level p : reachable level p p.
Proof. exists 0%nat. constructor. Qed.

Lemma reachable_step level p q r : reachable level p q -> step level q r -> reachable level p r.
Proof. intros [n Hn] Hs. exists (Datatypes.S n). econstructor; eauto. Qed.

Lemma GridPos_eta p : mkGridPos (pos_x p) (pos_y p) = p.
Proof. destruct p; reflexivity. Qed.

Lemma is_visited_mark visited x y x' y' :
  is_visited (mark_visited visited x y) x' y' = true ->
  (x', y') = (x, y) \/ is_visited visited x' y' = true.
Proof.
  unfold is_visited, mark_visited.
  destruct ((x' <? 0) || (y' <? 0)) eqn:Hn'; [discriminate|].
  destruct ((x <? 0) || (y <? 0)) eqn:Hn; [auto|].
  destruct (decide ((Z.to_nat y, Z.to_nat x) = (Z.to_nat y', Z.to_nat x'))) as [Heq|Hne].
  - left. injection Heq as Hy Hx. f_equal; lia.
  - rewrite Grid2Facts.lookup2_insert2_ne by exact Hne. auto.
Qed.

Lemma is_visited_mark_mono visited x y x' y' :
  is_visited visited x' y' = true -> is_visited (mark_visited visited x y) x' y' = true.
Proof.
  unfold is_visited, mark_visited.
  destruct ((x' <? 0) || (y' <? 0)) eqn:Hn'; [discriminate|].
  destruct ((x <? 0) || (y <? 0)) eqn:Hn; [auto|].
  destruct (decide ((Z.to_nat y, Z.to_nat x) = (Z.to_nat y', Z.to_nat x'))) as [Heq|Hne].
  - injection Heq as <- <-.
    destruct (Grid2.lookup2 visited (Z.to_nat y) (Z.to_nat x)) as [b|] eqn:Hlk; [|discriminate].
    rewrite Grid2Facts.lookup2_insert2_eq by (rewrite Hlk; eauto). reflexivity.
  - rewrite Grid2Facts.lookup2_insert2_ne by exact Hne. auto.
Qed.

Lemma is_visited_replicate h w x y :
  is_visited (replicate h (replicate w false)) x y = false.
Proof.
  unfold is_visited. destruct ((x <? 0) || (y <? 0)); [reflexivity|].
  unfold Grid2.lookup2. destruct (replicate h (replicate w false) !! Z.to_nat y) as [row|] eqn:Hr;
    [|reflexivity].
  apply lookup_replicate in Hr as [-> _].
  destruct (replicate w false !! Z.to_nat x) as [b|] eqn:Hc; [|reflexivity].
  apply lookup_replicate in Hc as [-> _]. reflexivity.
Qed.

Section FloodSound.
Context (level : ParsedLevel) (P : GridPos -> Prop).
Context (P_step : forall p q, P p -> step level p q -> P q).

(** Every visited tile and every queued tile satisfies [P]. *)
Definition flood_inv (st : list (list bool) * list GridPos) : Prop :=
  (forall x y, is_visited (fst st) x y = true -> P (mkGridPos x y))
  /\ Forall P (snd st).

Lemma flood_visit_inv cur st d :
  P cur -> flood_inv st -> flood_inv (flood_visit level cur st d).
Proof.
  intros Hcur [Hv Hq]. unfold flood_visit.
  destruct (nextTileWithWrap level (pos_x cur) (pos_y cur) d) as [next|] eqn:Hnext; [|done].
  destruct (is_visited st.1 (pos_x next) (pos_y next)); [done|].
  assert (Hn : P next) by (eapply P_step; [exact Hcur|exists d; exact Hnext]).
  split; simpl.
  - intros x y Hxy. apply is_visited_mark in Hxy as [[= -> ->]|Hxy]; [|auto].
    rewrite GridPos_eta. exact Hn.
  - apply Forall_app. split; [exact Hq|]. apply Forall_singleton. exact Hn.
Qed.

Lemma flood_visits_inv cur dirs st :
  P cur -> flood_inv st -> flood_inv (fold_left (flood_visit level cur) dirs st).
Proof.
  intros Hcur. revert st. induction dirs as [|d dirs IH]; intros st Hst; [done|].
  simpl. apply IH. apply flood_visit_inv; assumption.
Qed.

Lemma flood_loop_sound fuel visited queue x y :
  flood_inv (visited, queue) ->
  is_visited (flood_loop fuel level visited queue) x y = true -> P (mkGridPos x y).
Proof.
  revert visited queue. induction fuel as [|fuel IH]; intros visited queue [Hv Hq]; cbn [flood_loop].
  - apply Hv.
  - destruct queue as [|cur rest]; [apply Hv|].
    apply Forall_cons in Hq as [Hcur Hrest].
    pose proof (flood_visits_inv cur search_dirs (visited, rest) Hcur (conj Hv Hrest)) as Hinv.
    destruct (fold_left (flood_visit level cur) search_dirs (visited, rest)) as [visited' queue'].
    apply IH. exact Hinv.
Qed.

End FloodSound.

(** Every tile that [reachableFromStart] marks is reachable from [start]. *)
Lemma reachableFromStart_sound level start x y :
  is_visited (reachableFromStart level start) x y = true -> reachable level start (mkGridPos x y).
Proof.
  unfold reachableFromStart, new_visited.
  destruct (_ || _ || _ || _ || _).
  - rewrite is_visited_replicate. discriminate.
  - apply (flood_loop_sound level (reachable level start)).
    + intros p q. apply reachable_step.
    + split; simpl.
      * intros x' y' Hxy. apply is_visited_mark in Hxy as [[= -> ->]|Hxy].
        -- rewrite GridPos_eta. apply reachable_refl.
        -- rewrite is_visited_replicate in Hxy. discriminate.
      * apply Forall_singleton. rewrite GridPos_eta. apply reachable_refl.
Qed.

Lemma neighborCount_nonneg level x y : 0 <= neighborCount level x y.
Proof.
  unfold neighborCount. simpl.
  repeat match goal with |- context [match ?o with Some _ => _ | None => _ end] => destruct o end; lia.
Qed.

Section BranchSound.
Context (level : ParsedLevel) (start : GridPos) (maxSteps : Z).

(** Every queued tile lies at its recorded distance from [start], within
    the step budget. *)
Definition branch_inv (queue : list (GridPos * Z)) : Prop :=
  Forall (fun e => exists n : nat, snd e = Z.of_nat n /\ path level n start (fst e)
                                   /\ (n = 0%nat \/ snd e <= maxSteps)) queue.

Lemma branch_visits_inv cur steps n dirs st :
  steps = Z.of_nat n -> path level n start cur -> steps < maxSteps ->
  branch_inv (snd st) -> branch_inv (snd (fold_left (branch_visit level cur steps) dirs st)).
Proof.
  intros Hsteps Hpath Hlt. revert st. induction dirs as [|d dirs IH]; intros st Hst; [done|].
  simpl. apply IH. unfold branch_visit.
  destruct (nextTileWithWrap level (pos_x cur) (pos_y cur) d) as [next|] eqn:Hnext; [|done].
  destruct (is_visited st.1 (pos_x next) (pos_y next)); [done|]. simpl.
  apply Forall_app. split; [exact Hst|]. apply Forall_singleton. simpl.
  exists (Datatypes.S n). split; [lia|]. split; [|right; lia].
  econstructor; [exact Hpath|]. exists d. exact Hnext.
Qed.

Lemma branch_loop_sound fuel visited queue :
  branch_inv queue -> branch_loop fuel level maxSteps visited queue = true ->
  exists (n : nat) (t : GridPos),
    (1 <= n)%nat /\ Z.of_nat n <= maxSteps /\ path level n start t
    /\ 3 <= neighborCount level (pos_x t) (pos_y t).
Proof.
  revert visited queue. induction fuel as [|fuel IH]; intros visited queue Hq; cbn [branch_loop]; [discriminate|].
  destruct queue as [|[cur steps] rest]; [discriminate|].
  apply Forall_cons in Hq as [(n & Hn & Hpath & Hle) Hrest]. simpl in Hn, Hpath, Hle.
  destruct ((0 <? steps) && (3 <=? neighborCount level (pos_x cur) (pos_y cur))) eqn:Hdeg.
  - intros _. apply andb_true_iff in Hdeg as [Hpos Hdeg]. exists n, cur.
    split; [lia|]. split; [lia|]. split; [exact Hpath|lia].
  - destruct (maxSteps <=? steps) eqn:Hmax; [apply IH, Hrest|].
    pose proof (branch_visits_inv cur steps n search_dirs (visited, rest) Hn Hpath
                  ltac:(lia) Hrest) as Hinv.
    destruct (fold_left (branch_visit level cur steps) search_dirs (visited, rest)) as [visited' queue'].
    apply IH. exact Hinv.
Qed.

End BranchSound.

Lemma hasNearbyBranch_sound level start maxSteps :
  hasNearbyBranch level start maxSteps = true ->
  exists (n : nat) (t : GridPos),
    (1 <= n)%nat /\ Z.of_nat n <= maxSteps /\ path level n start t
    /\ 3 <= neighborCount level (pos_x t) (pos_y t).
Proof.
  unfold hasNearbyBranch. apply branch_loop_sound.
  apply Forall_singleton. exists 0%nat. simpl.
  split; [reflexivity|]. split; [|left; reflexivity]. rewrite GridPos_eta. constructor.
Qed.

(** ** The fairness invariants of the mutation engine *)

Definition tile_of (level : ParsedLevel) (p : GridPos) : TileType :=
  tileAt level (pos_x p) (pos_y p).

Definition degree (level : ParsedLevel) (p : GridPos) : Z :=
  neighborCount level (pos_x p) (pos_y p).

Definition no_softlock (level : ParsedLevel) (s : GridPos) (maxSteps : Z) : Prop :=
  1 <= degree level s
  /\ (degree level s = 1 ->
      exists (n : nat) (t : GridPos),
        (1 <= n)%nat /\ Z.of_nat n <= maxSteps /\ path level n s t /\ 3 <= degree level t).

Definition fair (level : ParsedLevel) (starts critical : list GridPos) (maxSteps : Z) : Prop :=
  exists start0 rest,
    starts = start0 :: rest
    (* every remaining pellet or power tile is reachable from the primary start *)
    /\ (forall x y, in_bounds level x y = true ->
          tileAt level x y = pellet \/ tileAt level x y = power ->
          reachable level start0 (mkGridPos x y))
    (* every player tile is a walkable tile of the grid, reachable *)
    /\ (forall s, s ∈ starts ->
          in_bounds level (pos_x s) (pos_y s) = true
          /\ isWalkable (tile_of level s) = true /\ reachable level start0 s)
    (* every critical tile of the grid is walkable and reachable *)
    /\ (forall c, c ∈ critical -> in_bounds level (pos_x c) (pos_y c) = true ->
          isWalkable (tile_of level c) = true /\ reachable level start0 c)
    (* no start tile is a deep dead end *)
    /\ (forall s, s ∈ starts -> no_softlock level s maxSteps).

Lemma out_of_level_false level p :
  out_of_level level p = false <-> in_bounds level (pos_x p) (pos_y p) = true.
Proof.
  unfold out_of_level. rewrite in_bounds_spec, !orb_false_iff. lia.
Qed.

Lemma passesChecks_fair level starts critical maxSteps :
  passesChecks level starts critical maxSteps = true -> fair level starts critical maxSteps.
Proof.
  unfold passesChecks. destruct starts as [|start0 rest]; [discriminate|].
  set (starts := start0 :: rest). set (visited := reachableFromStart level start0).
  rewrite !andb_true_iff. intros [[[Hpel Hst] Hcrit] Hsoft].
  rewrite forallb_forall in Hpel, Hst, Hcrit, Hsoft.
  exists start0, rest. split; [reflexivity|].
  assert (Hvis : forall p, is_visited visited (pos_x p) (pos_y p) = true -> reachable level start0 p).
  { intros p Hp. apply reachableFromStart_sound in Hp. rewrite GridPos_eta in Hp. exact Hp. }
  split; [|split; [|split]].
  - intros x y Hb Htile. apply in_bounds_spec in Hb.
    assert (Hy : In y (seqZ 0 (height level))) by (apply list_elem_of_In, elem_of_seqZ; lia).
    specialize (Hpel y Hy). rewrite forallb_forall in Hpel.
    assert (Hx : In x (seqZ 0 (width level))) by (apply list_elem_of_In, elem_of_seqZ; lia).
    specialize (Hpel x Hx). simpl in Hpel.
    apply (Hvis (mkGridPos x y)). simpl.
    destruct Htile as [Ht|Ht]; rewrite Ht in Hpel; exact Hpel.
  - intros s Hs. apply list_elem_of_In in Hs. specialize (Hst s Hs).
    rewrite !andb_true_iff, negb_true_iff, out_of_level_false in Hst.
    destruct Hst as [[Hb Hw] Hv]. auto.
  - intros c Hc Hb. apply list_elem_of_In in Hc. specialize (Hcrit c Hc).
    apply out_of_level_false in Hb. rewrite Hb, andb_true_iff in Hcrit.
    destruct Hcrit as [Hw Hv]. auto.
  - intros s Hs. apply list_elem_of_In in Hs. specialize (Hsoft s Hs).
    specialize (Hst s Hs). rewrite !andb_true_iff, negb_true_iff in Hst.
    destruct Hst as [[Hb Hw] _]. rewrite Hb, Hw in Hsoft. simpl in Hsoft.
    pose proof (neighborCount_nonneg level (pos_x s) (pos_y s)) as Hnn.
    unfold no_softlock, degree.
    destruct (neighborCount level (pos_x s) (pos_y s) =? 0) eqn:H0; [discriminate|].
    destruct (2 <=? neighborCount level (pos_x s) (pos_y s)) eqn:H2.
    + split; [lia|]. intros H1. lia.
    + split; [lia|]. intros _. apply hasNearbyBranch_sound. exact Hsoft.
Qed.

(** ** The searches end before their fuel does *)

(** Number of tiles not yet visited. *)
Definition unvisited (visited : list (list bool)) : nat :=
  Grid2.count2 negb visited.

Lemma count2_le {A} (p : A -> bool) h w (m : list (list A)) :
  Grid2.shape h w m -> (Grid2.count2 p m <= h * w)%nat.
Proof.
  intros [<- Hall]. unfold Grid2.count2. induction Hall as [|row m Hrow Hall IH]; simpl; [lia|].
  pose proof (length_filter (fun c => p c = true) row). lia.
Qed.

Lemma unvisited_mark h w visited x y :
  Grid2.shape h w visited -> 0 <= x < Z.of_nat w -> 0 <= y < Z.of_nat h ->
  is_visited visited x y = false ->
  (unvisited (mark_visited visited x y) + 1 = unvisited visited)%nat.
Proof.
  intros Hs Hx Hy. unfold is_visited, mark_visited, unvisited.
  replace ((x <? 0) || (y <? 0)) with false by lia.
  destruct (Grid2Facts.lookup2_shape h w visited (Z.to_nat y) (Z.to_nat x) Hs) as [b Hb]; [lia..|].
  rewrite Hb. simpl. intros ->.
  pose proof (Grid2Facts.count2_insert2 negb visited _ _ false true Hb) as Hc. simpl in Hc. lia.
Qed.

Lemma shape_mark h w visited x y :
  Grid2.shape h w visited -> Grid2.shape h w (mark_visited visited x y).
Proof.
  intros Hs. unfold mark_visited. destruct ((x <? 0) || (y <? 0)); [done|].
  apply Grid2Facts.shape_insert2, Hs.
Qed.

Section FloodFuel.
Context (level : ParsedLevel).
Let h := Z.to_nat (height level).
Let w := Z.to_nat (width level).

Definition in_level (p : GridPos) : Prop := in_bounds level (pos_x p) (pos_y p) = true.

(** The state of a search: a [visited] array of the level's size and a queue
    of tiles of the grid. *)
Definition flood_ok (st : list (list bool) * list GridPos) : Prop :=
  Grid2.shape h w (fst st) /\ Forall in_level (snd st).

Definition flood_measure (st : list (list bool) * list GridPos) : nat :=
  (unvisited (fst st) + length (snd st))%nat.

Lemma flood_visit_measure cur st d :
  in_level cur -> flood_ok st ->
  flood_ok (flood_visit level cur st d)
  /\ flood_measure (flood_visit level cur st d) = flood_measure st.
Proof.
  intros Hcur [Hs Hq]. unfold flood_visit.
  destruct (nextTileWithWrap level (pos_x cur) (pos_y cur) d) as [next|] eqn:Hnext; [|done].
  destruct (is_visited st.1 (pos_x next) (pos_y next)) eqn:Hv; [done|].
  pose proof (nextTileWithWrap_in_bounds _ _ _ _ _ Hcur Hnext) as Hin.
  split.
  - split; simpl; [apply shape_mark, Hs|].
    apply Forall_app. split; [exact Hq|]. apply Forall_singleton. exact Hin.
  - unfold flood_measure. simpl. rewrite length_app. simpl.
    apply in_bounds_spec in Hin.
    pose proof (unvisited_mark h w st.1 (pos_x next) (pos_y next) Hs) as Hm.
    unfold h, w in Hm. rewrite !Z2Nat.id in Hm by lia. specialize (Hm ltac:(lia) ltac:(lia) Hv). lia.
Qed.

Lemma flood_visits_measure cur dirs st :
  in_level cur -> flood_ok st ->
  flood_ok (fold_left (flood_visit level cur) dirs st)
  /\ flood_measure (fold_left (flood_visit level cur) dirs st) = flood_measure st.
Proof.
  intros Hcur. revert st. induction dirs as [|d dirs IH]; intros st Hst; [done|].
  simpl. destruct (flood_visit_measure cur st d Hcur Hst) as [Hok Hm].
  destruct (IH _ Hok) as [Hok' Hm']. split; [exact Hok'|]. lia.
Qed.

(** Fuel beyond the number of unvisited tiles plus the queue length is
    never used: any two such amounts give the same [visited] array. *)
Lemma flood_loop_fuel fuel1 fuel2 visited queue :
  flood_ok (visited, queue) ->
  (flood_measure (visited, queue) < fuel1)%nat ->
  (flood_measure (visited, queue) < fuel2)%nat ->
  flood_loop fuel1 level visited queue = flood_loop fuel2 level visited queue.
Proof.
  revert fuel2 visited queue.
  induction fuel1 as [|fuel1 IH]; intros fuel2 visited queue Hok H1 H2; [lia|].
  destruct fuel2 as [|fuel2]; [lia|]. cbn [flood_loop].
  destruct queue as [|cur rest]; [reflexivity|].
  destruct Hok as [Hs Hq]. simpl in Hq. apply Forall_cons in Hq as [Hcur Hrest].
  destruct (flood_visits_measure cur search_dirs (visited, rest) Hcur (conj Hs Hrest)) as [Hok Hm].
  destruct (fold_left (flood_visit level cur) search_dirs (visited, rest)) as [visited' queue'].
  unfold flood_measure in *. cbn [fst snd length] in *.
  apply IH; [exact Hok|lia..].
Qed.

(** The fuel that the model gives a search always exceeds that bound. *)
Lemma flood_fuel_enough visited queue :
  flood_ok (visited, queue) ->
  (flood_measure (visited, queue) < flood_fuel level queue)%nat.
Proof.
  intros [Hs _]. unfold flood_measure, flood_fuel. simpl in *.
  pose proof (count2_le negb h w visited Hs) as Hle. unfold unvisited, h, w in *. lia.
Qed.

Definition branch_ok (st : list (list bool) * list (GridPos * Z)) : Prop :=
  Grid2.shape h w (fst st) /\ Forall (fun e => in_level (fst e)) (snd st).

Definition branch_measure (st : list (list bool) * list (GridPos * Z)) : nat :=
  (unvisited (fst st) + length (snd st))%nat.

Lemma branch_visits_measure cur steps dirs st :
  in_level cur -> branch_ok st ->
  branch_ok (fold_left (branch_visit level cur steps) dirs st)
  /\ branch_measure (fold_left (branch_visit level cur steps) dirs st) = branch_measure st.
Proof.
  intros Hcur. revert st. induction dirs as [|d dirs IH]; intros st Hst; [done|].
  simpl.
  assert (Hone : branch_ok (branch_visit level cur steps st d)
                 /\ branch_measure (branch_visit level cur steps st d) = branch_measure st).
  { destruct Hst as [Hs Hq]. unfold branch_visit.
    destruct (nextTileWithWrap level (pos_x cur) (pos_y cur) d) as [next|] eqn:Hnext; [|done].
    destruct (is_visited st.1 (pos_x next) (pos_y next)) eqn:Hv; [done|].
    pose proof (nextTileWithWrap_in_bounds _ _ _ _ _ Hcur Hnext) as Hin.
    split.
    - split; simpl; [apply shape_mark, Hs|].
      apply Forall_app. split; [exact Hq|]. apply Forall_singleton. exact Hin.
    - unfold branch_measure. simpl. rewrite length_app. simpl.
      apply in_bounds_spec in Hin.
      pose proof (unvisited_mark h w st.1 (pos_x next) (pos_y next) Hs) as Hm.
      unfold h, w in Hm. rewrite !Z2Nat.id in Hm by lia. specialize (Hm ltac:(lia) ltac:(lia) Hv). lia. }
  destruct Hone as [Hok Hm]. destruct (IH _ Hok) as [Hok' Hm']. split; [exact Hok'|]. lia.
Qed.

Lemma branch_loop_fuel fuel1 fuel2 maxSteps visited queue :
  branch_ok (visited, queue) ->
  (branch_measure (visited, queue) < fuel1)%nat ->
  (branch_measure (visited, queue) < fuel2)%nat ->
  branch_loop fuel1 level maxSteps visited queue = branch_loop fuel2 level maxSteps visited queue.
Proof.
  revert fuel2 visited queue.
  induction fuel1 as [|fuel1 IH]; intros fuel2 visited queue Hok H1 H2; [lia|].
  destruct fuel2 as [|fuel2]; [lia|]. cbn [branch_loop].
  destruct queue as [|[cur steps] rest]; [reflexivity|].
  destruct Hok as [Hs Hq]. simpl in Hq. apply Forall_cons in Hq as [Hcur Hrest]. simpl in Hcur.
  destruct (_ && _); [reflexivity|].
  destruct (maxSteps <=? steps).
  - unfold branch_measure in *. cbn [fst snd length] in *.
    apply IH; [split; assumption|lia..].
  - destruct (branch_visits_measure cur steps search_dirs (visited, rest) Hcur (conj Hs Hrest))
      as [Hok Hm].
    destruct (fold_left (branch_visit level cur steps) search_dirs (visited, rest))
      as [visited' queue'].
    unfold branch_measure in *. cbn [fst snd length] in *.
    apply IH; [exact Hok|lia..].
Qed.

End FloodFuel.

Lemma shape_new_visited level :
  Grid2.shape (Z.to_nat (height level)) (Z.to_nat (width level)) (new_visited level).
Proof. apply Grid2Facts.shape_replicate. Qed.

(** [reachableFromStart] does not depend on the fuel of its loop. *)
Lemma reachableFromStart_fuel level start fuel :
  (flood_fuel level [start] <= fuel)%nat ->
  in_bounds level (pos_x start) (pos_y start) = true ->
  isWalkable (tileAt level (pos_x start) (pos_y start)) = true ->
  reachableFromStart level start =
    flood_loop fuel level (mark_visited (new_visited level) (pos_x start) (pos_y start)) [start].
Proof.
  intros Hfuel Hb Hw. unfold reachableFromStart.
  pose proof Hb as Hb'. apply in_bounds_spec in Hb'.
  replace (_ || _ || _ || _ || _) with false
    by (rewrite Hw; simpl; symmetry; rewrite !orb_false_iff; lia).
  rewrite GridPos_eta.
  assert (Hok : flood_ok level (mark_visited (new_visited level) (pos_x start) (pos_y start), [start])).
  { split; simpl; [apply shape_mark, shape_new_visited|]. apply Forall_singleton. exact Hb. }
  pose proof (flood_fuel_enough level _ _ Hok).
  apply flood_loop_fuel; [exact Hok|lia..].
Qed.

(** [hasNearbyBranch] does not depend on the fuel of its loop. *)
Lemma hasNearbyBranch_fuel level start maxSteps fuel :
  (flood_fuel level [] + 1 <= fuel)%nat ->
  in_bounds level (pos_x start) (pos_y start) = true ->
  hasNearbyBranch level start maxSteps =
    branch_loop fuel level maxSteps
      (mark_visited (new_visited level) (pos_x start) (pos_y start)) [(start, 0)].
Proof.
  intros Hfuel Hb. unfold hasNearbyBranch. rewrite GridPos_eta.
  assert (Hs : Grid2.shape (Z.to_nat (height level)) (Z.to_nat (width level))
                 (mark_visited (new_visited level) (pos_x start) (pos_y start)))
    by apply shape_mark, shape_new_visited.
  pose proof (count2_le negb _ _ _ Hs) as Hle.
  unfold flood_fuel in *. simpl in *.
  apply branch_loop_fuel.
  - split; [exact Hs|]. apply Forall_singleton. exact Hb.
  - unfold branch_measure, unvisited. simpl. lia.
  - unfold branch_measure, unvisited. simpl. lia.
Qed.

(** ** vibeReorgShift.ts: fairness of an accepted batch *)

(** C2, as amended (mutation fairness preservation).  When [cfg.mutations]
    is at least one and [applyReorgShift] returns [ok: true], the level it
    leaves satisfies the fairness invariants: every pellet and power tile is
    reachable from the primary start by legal moves, wrap-around included;
    every supplied player tile is a walkable, reachable tile of the grid;
    every supplied critical tile inside the grid is walkable and reachable;
    and every player tile has a neighbour, and one with a single neighbour has
    a tile of degree three or more within [softlockMaxSteps] moves. *)
Theorem reorg_shift_fair (S : Type) (R : Rng S) (level : ParsedLevel) (rng : S)
    (cfg : ReorgShiftConfig) (protectedMask : list (list bool)) (starts critical : list GridPos)
    (level' : ParsedLevel) (rng' : S) (mutatedTiles : list GridPos) :
  wf_level level ->
  1 <= mutations cfg ->
  applyReorgShift R level rng cfg protectedMask starts critical
    = (level', rng', Returned true mutatedTiles) ->
  fair level' starts critical (softlockMaxSteps cfg).
Proof.
  intros Hwf Hn Hcall. unfold applyReorgShift in Hcall.
  apply shiftLoop_checks in Hcall as [[H0 _]|Hpass]; [lia| |exact Hwf].
  apply passesChecks_fair, Hpass.
Qed.

Lemma reorg_shift_fair_witness :
  let call := applyReorgShift createRng_ops tunnel_level (snd (createRng "abc")) (shift_cfg 1)
                ring_mask [mkGridPos 1 1] [mkGridPos 3 1] in
  snd call = Returned true [mkGridPos 2 2; mkGridPos 2 3]
  /\ fair (fst (fst call)) [mkGridPos 1 1] [mkGridPos 3 1] 20.
Proof.
  split; [vm_compute; reflexivity|].
  refine (reorg_shift_fair Z createRng_ops tunnel_level (snd (createRng "abc"))
            (shift_cfg 1) ring_mask [mkGridPos 1 1] [mkGridPos 3 1]
            _ 3624471395 [mkGridPos 2 2; mkGridPos 2 3] wf_tunnel_level _ _).
  - vm_compute. discriminate.
  - vm_compute. reflexivity.
Defined.

(** A level whose only pellet is walled off from the player. *)
Definition sealed_level : ParsedLevel :=
  match parseLevel (mkLevelJson None ["#####"; "#P#.#"; "#####"]%string) with
  | inr p => p
  | inl _ => mkParsedLevel None 0 0 [] [] None 0 [] [] 0 0 [] [] [] []
  end.

(** C2 as stated fails: with [mutations = 0] the call returns [ok: true]
    without a check, here on a level whose player tile has no neighbour and
    whose pellet cannot be reached. *)
Lemma reorg_shift_fair_counterexample :
  let call := applyReorgShift createRng_ops sealed_level (snd (createRng "abc")) (shift_cfg 0)
                [] [mkGridPos 1 1] [] in
  snd call = Returned true []
  /\ fst (fst call) = sealed_level
  /\ tileAt sealed_level 3 1 = pellet
  /\ ~ reachable sealed_level (mkGridPos 1 1) (mkGridPos 3 1)
  /\ ~ fair (fst (fst call)) [mkGridPos 1 1] [] 20.
Proof.
  assert (Hstuck : forall n q, path sealed_level n (mkGridPos 1 1) q -> q = mkGridPos 1 1).
  { induction n as [|n IH]; intros q Hp; inversion Hp; subst; [reflexivity|].
    match goal with H : path _ n _ _ |- _ => apply IH in H; subst end.
    match goal with H : step _ _ _ |- _ => destruct H as [d Hd] end.
    destruct d; vm_compute in Hd; discriminate. }
  split; [vm_compute; reflexivity|]. split; [vm_compute; reflexivity|].
  split; [vm_compute; reflexivity|]. split.
  - intros [n Hn]. apply Hstuck in Hn. discriminate.
  - intros (start0 & rest & Heq & _ & _ & _ & Hsoft).
    destruct (Hsoft (mkGridPos 1 1)) as [Hdeg _]; [apply list_elem_of_here|].
    vm_compute in Hdeg. apply Hdeg. reflexivity.
Qed.

(** Tiles under the mask are never written, whatever the call ends with. *)
Lemma reorg_shift_keeps_protected (S : Type) (R : Rng S) level rng cfg mask starts critical
    level' rng' out x y :
  wf_level level ->
  applyReorgShift R level rng cfg mask starts critical = (level', rng', out) ->
  hasProtected mask x y = true ->
  tileAt level' x y = tileAt level x y.
Proof.
  intros Hwf Hcall Hp. unfold applyReorgShift in Hcall.
  eapply shiftLoop_spec in Hcall as [(acc & Hall & ->) _]; [|exact Hwf|constructor|reflexivity].
  eapply tileAt_apply_swaps; eassumption.
Qed.

Lemma reorg_shift_dims (S : Type) (R : Rng S) level rng cfg mask starts critical level' rng' out :
  wf_level level ->
  applyReorgShift R level rng cfg mask starts critical = (level', rng', out) ->
  width level' = width level /\ height level' = height level /\ wf_level level'.
Proof.
  intros Hwf Hcall. unfold applyReorgShift in Hcall.
  eapply shiftLoop_spec in Hcall as [(acc & Hall & ->) _]; [|exact Hwf|constructor|reflexivity].
  destruct (apply_swaps_dims acc level) as [-> ->]. split; [done|]. split; [done|].
  apply wf_apply_swaps, Hwf.
Qed.

(** ** levelParser.ts and levelValidation.ts: what the error lists hold *)

Lemma elem_of_concat_imap {A B} (f : nat -> A -> list B) (l : list A) i y x :
  l !! i = Some y -> x ∈ f i y -> x ∈ concat (imap f l).
Proof.
  intros Hl Hx. apply list_elem_of_In, in_concat. exists (f i y). split.
  - apply list_elem_of_In, elem_of_lookup_imap. eauto.
  - apply list_elem_of_In, Hx.
Qed.

Lemma elem_of_concat_map {A B} (f : A -> list B) (l : list A) y x :
  y ∈ l -> x ∈ f y -> x ∈ concat (map f l).
Proof.
  intros Hl Hx. apply list_elem_of_In, in_concat. exists (f y). split.
  - apply in_map, list_elem_of_In, Hl.
  - apply list_elem_of_In, Hx.
Qed.

(** Every row of the wrong length and every character outside the legend
    has its entry in the errors of [parseLevel]. *)
Lemma parseLevel_errors_complete level errs row0 rest :
  grid level = row0 :: rest ->
  parseLevel level = inl errs ->
  (forall (y : nat) row, grid level !! y = Some row ->
     str_length row <> str_length row0 ->
     err_row_length (Z.of_nat y) (str_length row) (str_length row0) ∈ errs)
  /\ (forall (y x : nat) row ch, grid level !! y = Some row ->
        list_ascii_of_string row !! x = Some ch -> isLegendChar ch = false ->
        err_invalid_char ch (Z.of_nat x) (Z.of_nat y) ∈ errs).
Proof.
  intros Hgrid. unfold parseLevel. rewrite Hgrid. cbv zeta.
  destruct (negb _); [|discriminate]. intros [= <-]. rewrite <- Hgrid. unfold parse_errors. split.
  - intros y row Hrow Hlen. apply elem_of_app. right.
    eapply elem_of_concat_imap; [exact Hrow|]. unfold row_errors.
    apply elem_of_app. left. rewrite bool_decide_eq_false_2 by exact Hlen.
    apply list_elem_of_here.
  - intros y x row ch Hrow Hch Hbad. apply elem_of_app. right.
    eapply elem_of_concat_imap; [exact Hrow|]. unfold row_errors.
    apply elem_of_app. right.
    eapply elem_of_concat_imap; [exact Hch|]. rewrite Hbad. apply list_elem_of_here.
Qed.

(** The fields of a parsed level that validation reads. *)
Lemma parseLevel_fields level parsed :
  parseLevel level = inr parsed ->
  rawGrid parsed = grid level /\ height parsed = Z.of_nat (length (grid level))
  /\ 0 <= width parsed /\ wf_level parsed.
Proof.
  unfold parseLevel. destruct (grid level) as [|row0 rest] eqn:Hgrid; [discriminate|].
  destruct (negb _); [discriminate|]. intros [= <-]. simpl.
  split; [reflexivity|]. split; [reflexivity|].
  assert (Hw : 0 <= str_length row0) by (unfold str_length; lia).
  split; [exact Hw|]. unfold wf_level. simpl. split; [exact Hw|]. split; [lia|].
  split.
  - rewrite length_map, length_seqZ. reflexivity.
  - rewrite Forall_forall. intros row Hin. rewrite list_elem_of_In in Hin.
    apply in_map_iff in Hin as (y & <- & _).
    rewrite length_map, length_seqZ. reflexivity.
Qed.

(** A violation of the pairing rule for the two tiles [a] and [b] of
    opposite edges has its entry among the errors of [checkPair]. *)
Definition pair_entries (errs : list string) (a : ascii) (ax ay : Z) (b : ascii) (bx by_ : Z)
    (axis : Axis) : Prop :=
  (Ascii.eqb a "#" <> Ascii.eqb b "#" -> err_tunnel_mismatch axis a ax ay b bx by_ ∈ errs)
  /\ (Ascii.eqb a "#" = false -> Ascii.eqb b "#" = false ->
      (isAllowedBorderTunnelChar a = false -> err_invalid_tunnel a ax ay ∈ errs)
      /\ (isAllowedBorderTunnelChar b = false -> err_invalid_tunnel b bx by_ ∈ errs)).

Lemma checkPair_entries a ax ay b bx by_ axis :
  pair_entries (checkPair a ax ay b bx by_ axis) a ax ay b bx by_ axis.
Proof.
  unfold pair_entries, checkPair.
  destruct (Ascii.eqb a "#"), (Ascii.eqb b "#"); simpl; split; try congruence.
  - intros _. apply list_elem_of_here.
  - intros _. apply list_elem_of_here.
  - intros _ _. split; intros ->.
    + apply list_elem_of_here.
    + apply elem_of_app. right. apply list_elem_of_here.
Qed.

Lemma pair_entries_mono errs errs' a ax ay b bx by_ axis :
  (forall e, e ∈ errs -> e ∈ errs') ->
  pair_entries errs a ax ay b bx by_ axis -> pair_entries errs' a ax ay b bx by_ axis.
Proof.
  intros Hsub [H1 H2]. split.
  - intros H. apply Hsub, H1, H.
  - intros Ha Hb. destruct (H2 Ha Hb) as [H3 H4]. split; intros H; apply Hsub; auto.
Qed.

Lemma borderRules_entries g w h :
  3 <= w -> 3 <= h ->
  (forall y, 0 <= y < h ->
     pair_entries (borderRules g w h) (char_at (grid_row g y) 0) 0 y
       (char_at (grid_row g y) (w - 1)) (w - 1) y horizontal)
  /\ (forall x, 0 <= x < w ->
        pair_entries (borderRules g w h) (char_at (grid_row g 0) x) x 0
          (char_at (grid_row g (h - 1)) x) x (h - 1) vertical).
Proof.
  intros Hw Hh. unfold borderRules. replace ((w <? 3) || (h <? 3)) with false by lia.
  split.
  - intros y Hy. eapply pair_entries_mono; [|apply checkPair_entries].
    intros e He. apply elem_of_app. left.
    eapply (elem_of_concat_map _ _ y); [apply elem_of_seqZ; lia|exact He].
  - intros x Hx. eapply pair_entries_mono; [|apply checkPair_entries].
    intros e He. apply elem_of_app. right.
    eapply (elem_of_concat_map _ _ x); [apply elem_of_seqZ; lia|exact He].
Qed.

(** Every tile that the validator's search marks is reachable from one of
    the starts. *)
Lemma pellets_visited_sound parsed starts x y :
  is_visited (pellets_visited parsed starts) x y = true ->
  exists s, s ∈ starts /\ reachable parsed s (mkGridPos x y).
Proof.
  unfold pellets_visited, pellets_seed.
  set (h := Z.of_nat (length (tileMatrix parsed))).
  set (w := Z.of_nat (length (default [] (head (tileMatrix parsed))))).
  set (P := fun q => exists s, s ∈ starts /\ reachable parsed s q).
  set (f := fun (st : list (list bool) * list GridPos) start => _).
  assert (Hinit : forall l st, (forall s, s ∈ l -> s ∈ starts) ->
                    flood_inv P st -> flood_inv P (fold_left f l st)).
  { induction l as [|s l IH]; intros st Hl Hst; [exact Hst|].
    simpl. apply IH; [intros s' Hs'; apply Hl; right; exact Hs'|].
    unfold f. destruct (_ || _ || _ || _); [exact Hst|].
    destruct (is_visited st.1 (pos_x s) (pos_y s)); [exact Hst|].
    assert (Hs : P (mkGridPos (pos_x s) (pos_y s))).
    { exists s. split; [apply Hl; left|]. rewrite GridPos_eta. apply reachable_refl. }
    destruct Hst as [Hv Hq]. split; simpl.
    - intros x' y' Hxy. apply is_visited_mark in Hxy as [[= -> ->]|Hxy]; [exact Hs|auto].
    - apply Forall_app. split; [exact Hq|]. apply Forall_singleton. exact Hs. }
  specialize (Hinit starts (replicate (Z.to_nat h) (replicate (Z.to_nat w) false), [])
                ltac:(auto)).
  destruct (fold_left f starts _) as [visited queue].
  apply (flood_loop_sound parsed P).
  - intros p q (s & Hs & Hr) Hstep. exists s. split; [exact Hs|]. eapply reachable_step; eauto.
  - apply Hinit. split; simpl; [|constructor].
    intros x' y'. rewrite is_visited_replicate. discriminate.
Qed.

(** The starts leave a [visited] array of the level's size and a queue of
    tiles of the grid. *)
Lemma pellets_seed_ok parsed starts :
  wf_level parsed -> flood_ok parsed (pellets_seed parsed starts).
Proof.
  intros (Hw & Hh & Hlen & Hrows). unfold pellets_seed.
  set (h := Z.of_nat (length (tileMatrix parsed))).
  set (w := Z.of_nat (length (default [] (head (tileMatrix parsed))))).
  assert (Hh' : h = height parsed) by (unfold h; lia).
  assert (Hw' : 0 < h -> w = width parsed).
  { unfold h, w. destruct (tileMatrix parsed) as [|row m]; [simpl; lia|]. intros _.
    apply Forall_cons in Hrows as [Hrow _]. simpl. lia. }
  set (f := fun (st : list (list bool) * list GridPos) start => _).
  assert (Hstep : forall l st, flood_ok parsed st -> flood_ok parsed (fold_left f l st)).
  { induction l as [|s l IH]; intros st Hst; [exact Hst|]. cbn [fold_left]. apply IH.
    unfold f. destruct (_ || _ || _ || _) eqn:Hout; [exact Hst|].
    destruct (is_visited st.1 (pos_x s) (pos_y s)); [exact Hst|].
    destruct Hst as [Hs Hq]. rewrite !orb_false_iff in Hout. split; cbn [fst snd].
    - apply shape_mark, Hs.
    - apply Forall_app. split; [exact Hq|]. apply Forall_singleton.
      unfold in_level. cbn [pos_x pos_y]. apply in_bounds_spec. lia. }
  apply Hstep. split; cbn [fst snd]; [|constructor].
  destruct (Z.eq_dec h 0) as [H0|H0].
  - rewrite H0. split; [simpl; lia|constructor].
  - rewrite Hw' by lia. rewrite Hh'. apply Grid2Facts.shape_replicate.
Qed.

(** The [while] loop of [pelletsReachableFromStart] runs to its end: more
    turns than [pellets_visited] allows change nothing. *)
Lemma pellets_visited_fuel parsed starts k :
  wf_level parsed ->
  flood_loop (flood_fuel parsed (snd (pellets_seed parsed starts)) + k) parsed
    (fst (pellets_seed parsed starts)) (snd (pellets_seed parsed starts))
  = pellets_visited parsed starts.
Proof.
  intros Hwf. unfold pellets_visited. pose proof (pellets_seed_ok parsed starts Hwf) as Hok.
  destruct (pellets_seed parsed starts) as [visited queue]. cbn [fst snd].
  pose proof (flood_fuel_enough parsed visited queue Hok).
  apply flood_loop_fuel; [exact Hok|lia|lia].
Qed.

Lemma pelletsReachableFromStart_entries parsed starts pellets p :
  p ∈ pellets ->
  (forall s, s ∈ starts -> ~ reachable parsed s p) ->
  err_unreachable (pos_x p) (pos_y p) ∈ pelletsReachableFromStart parsed starts pellets.
Proof.
  intros Hp Hunreach. unfold pelletsReachableFromStart.
  eapply (elem_of_concat_map _ _ p); [exact Hp|].
  destruct (is_visited _ _ _) eqn:Hv; [|apply list_elem_of_here].
  apply pellets_visited_sound in Hv as (s & Hs & Hr). rewrite GridPos_eta in Hr.
  exfalso. eapply Hunreach; eauto.
Qed.

(** C8, as amended (complete error collection).  For a grid that is a
    non-empty array of strings: the errors of a [ParseError] hold an entry for
    every row of the wrong length and for every character outside the
    legend, and [validateLevel] then returns exactly these errors; when the
    level parses, the errors of [validateLevel] hold the size error of a grid
    under 3x3, or else an entry for every violated pairing of border tiles;
    the entry of a violated start count, pellet minimum and ghost minimum;
    and, when there is a player start and a pellet ['.'], an entry for every
    pellet or power tile that no player start reaches. *)
Theorem error_collection_complete (level : LevelJson) (row0 : string) (rest : list string) :
  grid level = row0 :: rest ->
  let errs := errors (validateLevel level) in
  (forall perrs, parseLevel level = inl perrs ->
     validateLevel level = mkValidationResult false perrs
     /\ (forall (y : nat) row, grid level !! y = Some row ->
           str_length row <> str_length row0 ->
           err_row_length (Z.of_nat y) (str_length row) (str_length row0) ∈ perrs)
     /\ (forall (y x : nat) row ch, grid level !! y = Some row ->
           list_ascii_of_string row !! x = Some ch -> isLegendChar ch = false ->
           err_invalid_char ch (Z.of_nat x) (Z.of_nat y) ∈ perrs))
  /\ (forall parsed, parseLevel level = inr parsed ->
        let g := grid level in
        let w := width parsed in
        let h := height parsed in
        (ok (validateLevel level) = false <-> errs <> [])
        /\ (w < 3 \/ h < 3 -> err_too_small w h ∈ errs)
        /\ (3 <= w -> 3 <= h ->
            (forall y, 0 <= y < h ->
               pair_entries errs (char_at (grid_row g y) 0) 0 y
                 (char_at (grid_row g y) (w - 1)) (w - 1) y horizontal)
            /\ (forall x, 0 <= x < w ->
                  pair_entries errs (char_at (grid_row g 0) x) x 0
                    (char_at (grid_row g (h - 1)) x) x (h - 1) vertical))
        /\ (playerStartCount parsed < 1 \/ 2 < playerStartCount parsed ->
            err_player_count (playerStartCount parsed) ∈ errs)
        /\ (pelletCount parsed < 1 -> err_no_pellet ∈ errs)
        /\ (ghostStarts parsed = [] -> err_no_ghost ∈ errs)
        /\ (playerStarts parsed <> [] -> 1 <= pelletCount parsed ->
            forall p, p ∈ pelletPositions parsed ->
              (forall s, s ∈ playerStarts parsed -> ~ reachable parsed s p) ->
              err_unreachable (pos_x p) (pos_y p) ∈ errs)).
Proof.
  intros Hgrid errs. split.
  - intros perrs Hparse. split.
    + unfold validateLevel. rewrite Hparse. reflexivity.
    + eapply parseLevel_errors_complete; eassumption.
  - intros parsed Hparse g w h.
    destruct (parseLevel_fields level parsed Hparse) as (Hraw & _ & _ & _).
    subst errs. unfold validateLevel. rewrite Hparse. simpl. rewrite Hraw. fold g w h.
    set (border := borderRules g w h).
    split; [|split; [|split; [|split; [|split; [|split]]]]].
    + case_bool_decide; split; congruence.
    + intros Hsmall. apply elem_of_app. left. subst border. unfold borderRules.
      replace ((w <? 3) || (h <? 3)) with true by lia. apply list_elem_of_here.
    + intros Hw Hh. destruct (borderRules_entries g w h Hw Hh) as [Hrows Hcols]. split.
      * intros y Hy. eapply pair_entries_mono; [|apply Hrows, Hy].
        intros e He. apply elem_of_app. left. exact He.
      * intros x Hx. eapply pair_entries_mono; [|apply Hcols, Hx].
        intros e He. apply elem_of_app. left. exact He.
    + intros Hcount. apply elem_of_app. right. apply elem_of_app. left.
      replace ((playerStartCount parsed <? 1) || (2 <? playerStartCount parsed)) with true by lia.
      apply list_elem_of_here.
    + intros Hcount. do 2 (apply elem_of_app; right). apply elem_of_app. left.
      replace (pelletCount parsed <? 1) with true by lia. apply list_elem_of_here.
    + intros Hnone. do 3 (apply elem_of_app; right). apply elem_of_app. left.
      rewrite Hnone. simpl. apply list_elem_of_here.
    + intros Hstarts Hpel p Hp Hunreach. do 4 (apply elem_of_app; right).
      replace ((0 <? Z.of_nat (length (playerStarts parsed))) && (0 <? pelletCount parsed))
        with true by (destruct (playerStarts parsed); [congruence|simpl; lia]).
      apply pelletsReachableFromStart_entries; assumption.
Qed.

Definition broken_grid : LevelJson :=
  mkLevelJson None ["#####"; "#PxG#"; "#.#.."; "#.#o"; "#####"]%string.

(** A grid with a bad character and a short row: both are reported. *)
Lemma error_collection_complete_witness :
  errors (validateLevel broken_grid)
    = ["Invalid char 'x' at (2, 1)."; "Level.grid[3] length 4 does not match width 5."]%string
  /\ err_row_length 3 4 5 ∈ errors (validateLevel broken_grid)
  /\ err_invalid_char "x" 2 1 ∈ errors (validateLevel broken_grid).
Proof.
  split; [vm_compute; reflexivity|].
  destruct (error_collection_complete broken_grid "#####"
              ["#PxG#"; "#.#.."; "#.#o"; "#####"]%string eq_refl) as [Hparse _].
  destruct (Hparse (errors (validateLevel broken_grid)) ltac:(vm_compute; reflexivity))
    as (Hv & Hrows & Hchars).
  split.
  - exact (Hrows 3%nat "#.#o"%string eq_refl ltac:(vm_compute; discriminate)).
  - exact (Hchars 1%nat 2%nat "#PxG#"%string "x"%char eq_refl eq_refl eq_refl).
Defined.

(** A grid with a bad character and no player start. *)
Definition no_player_grid : LevelJson :=
  mkLevelJson None ["#####"; "#x.G#"; "#####"]%string.

(** A power pellet walled off from the player, and no pellet ['.']. *)
Definition sealed_power_grid : LevelJson :=
  mkLevelJson None ["#####"; "#P#o#"; "#G###"; "#####"]%string.

Definition sealed_power_level : ParsedLevel :=
  match parseLevel sealed_power_grid with
  | inr p => p
  | inl _ => mkParsedLevel None 0 0 [] [] None 0 [] [] 0 0 [] [] [] []
  end.

(** A 2x2 grid whose top row pairs a wall with a pellet. *)
Definition tiny_grid : LevelJson := mkLevelJson None ["#."; "PG"]%string.

Ltac not_in_list H :=
  repeat (apply elem_of_cons in H as [H|H]; [discriminate H|]); inversion H.

(** C8 as stated fails on three counts.  When the grid does not parse,
    [validateLevel] returns the parse errors alone: the missing player start
    of [no_player_grid] has no entry.  The reachability check is skipped when
    no pellet ['.'] is counted: the unreachable power pellet of
    [sealed_power_grid] has no entry.  Under 3x3 the pairing of border tiles
    is not checked: the wall facing a pellet in [tiny_grid] has no entry. *)
Lemma error_collection_complete_counterexample :
  (ok (validateLevel no_player_grid) = false
   /\ positions_where (grid no_player_grid) 5 3 (fun ch => Ascii.eqb ch "P") = []
   /\ err_player_count 0 ∉ errors (validateLevel no_player_grid))
  /\ (ok (validateLevel sealed_power_grid) = false
      /\ parseLevel sealed_power_grid = inr sealed_power_level
      /\ playerStarts sealed_power_level = [mkGridPos 1 1]
      /\ mkGridPos 3 1 ∈ pelletPositions sealed_power_level
      /\ ~ reachable sealed_power_level (mkGridPos 1 1) (mkGridPos 3 1)
      /\ err_unreachable 3 1 ∉ errors (validateLevel sealed_power_grid))
  /\ (ok (validateLevel tiny_grid) = false
      /\ char_at (grid_row (grid tiny_grid) 0) 0 = "#"%char
      /\ char_at (grid_row (grid tiny_grid) 0) 1 = "."%char
      /\ err_tunnel_mismatch horizontal "#" 0 0 "." 1 0 ∉ errors (validateLevel tiny_grid)).
Proof.
  split; [|split].
  - split; [vm_compute; reflexivity|]. split; [vm_compute; reflexivity|].
    intros H. vm_compute in H. not_in_list H.
  - split; [vm_compute; reflexivity|]. split; [vm_compute; reflexivity|].
    split; [vm_compute; reflexivity|].
    split; [vm_compute; apply list_elem_of_here|]. split.
    + assert (Hinv : forall n q, path sealed_power_level n (mkGridPos 1 1) q ->
                       q = mkGridPos 1 1 \/ q = mkGridPos 1 2).
      { induction n as [|n IH]; intros q Hp; inversion Hp; subst; [left; reflexivity|].
        match goal with H : path _ n _ _ |- _ => apply IH in H as [->| ->] end;
          match goal with H : step _ _ _ |- _ => destruct H as [d Hd] end;
          destruct d; vm_compute in Hd; try discriminate; injection Hd as <-; auto. }
      intros [n Hn]. apply Hinv in Hn as [Hn|Hn]; discriminate.
    + intros H. vm_compute in H. not_in_list H.
  - split; [vm_compute; reflexivity|]. split; [vm_compute; reflexivity|].
    split; [vm_compute; reflexivity|].
    intros H. vm_compute in H. not_in_list H.
Qed.

(** ** The two random generators *)

Lemma u32_range z : 0 <= u32 z < 4294967296.
Proof. unfold u32. apply Z.mod_pos_bound. lia. Qed.

Lemma u32_small z : 0 <= z < 4294967296 -> u32 z = z.
Proof. intros H. unfold u32. apply Z.mod_small. exact H. Qed.

Lemma lxor_range a b : 0 <= a < 2 ^ 32 -> 0 <= b < 2 ^ 32 -> 0 <= Z.lxor a b < 2 ^ 32.
Proof.
  intros Ha Hb. split; [apply Z.lxor_nonneg; lia|].
  destruct (Z.eq_dec (Z.lxor a b) 0) as [->|Hne]; [lia|].
  apply Z.log2_lt_pow2; [pose proof (Z.lxor_nonneg a b); lia|].
  eapply Z.le_lt_trans; [apply Z.log2_lxor; lia|].
  apply Z.max_lub_lt.
  - destruct (Z.eq_dec a 0) as [->|]; [simpl; lia|]. apply Z.log2_lt_pow2; lia.
  - destruct (Z.eq_dec b 0) as [->|]; [simpl; lia|]. apply Z.log2_lt_pow2; lia.
Qed.

(** [x ^ (x << s)] is not zero for a non-zero 32-bit [x]: [2^s - 1] is
    odd. *)
Lemma xorshift_left_nonzero x s :
  0 < x < 2 ^ 32 -> Z.gcd (2 ^ 32) (2 ^ s - 1) = 1 -> 0 <= s ->
  Z.lxor x (shl32 x s) <> 0.
Proof.
  intros Hx Hgcd Hs Heq. apply Z.lxor_eq in Heq.
  unfold shl32, u32 in Heq. rewrite Z.shiftl_mul_pow2 in Heq by exact Hs.
  assert (Hdiv : (2 ^ 32 | (2 ^ s - 1) * x)).
  { exists ((x * 2 ^ s) / 2 ^ 32).
    pose proof (Z.div_mod (x * 2 ^ s) (2 ^ 32) ltac:(lia)) as Hdm.
    change 4294967296 with (2 ^ 32) in Heq. lia. }
  apply Z.gauss in Hdiv; [|exact Hgcd].
  destruct Hdiv as [k Hk]. assert (k = 0 \/ 1 <= k \/ k <= -1) as [->|[?|?]] by lia; nia.
Qed.

Lemma xorshift_right_nonzero x s :
  0 < x -> 0 < s -> Z.lxor x (shr32 x s) <> 0.
Proof.
  intros Hx Hs Heq. apply Z.lxor_eq in Heq. unfold shr32 in Heq.
  rewrite Z.shiftr_div_pow2 in Heq by lia.
  assert (2 <= 2 ^ s) by (change 2 with (2 ^ 1) at 1; apply Z.pow_le_mono_r; lia).
  pose proof (Z.div_lt x (2 ^ s) ltac:(lia) ltac:(lia)). lia.
Qed.

Lemma shl32_range x s : 0 <= shl32 x s < 2 ^ 32.
Proof. unfold shl32. apply u32_range. Qed.

Lemma shr32_range x s : 0 <= x < 2 ^ 32 -> 0 <= s -> 0 <= shr32 x s < 2 ^ 32.
Proof.
  intros Hx Hs. unfold shr32. rewrite Z.shiftr_div_pow2 by exact Hs.
  assert (0 < 2 ^ s) by (apply Z.pow_pos_nonneg; lia).
  split; [apply Z.div_pos; lia|].
  eapply Z.le_lt_trans; [apply Z.div_le_upper_bound with (q := x); nia|lia].
Qed.

(** The state of the generator's stream is never zero. *)
Lemma rng_next_state x :
  0 < x < 2 ^ 32 -> 0 < snd (PacRogue.rng_next x) < 2 ^ 32.
Proof.
  intros Hx. unfold PacRogue.rng_next. cbv zeta. cbn [snd].
  set (x1 := Z.lxor x (shl32 x 13)).
  assert (H1 : 0 < x1 < 2 ^ 32).
  { pose proof (lxor_range x (shl32 x 13) ltac:(lia) (shl32_range x 13)).
    pose proof (xorshift_left_nonzero x 13 Hx eq_refl ltac:(lia)). unfold x1. lia. }
  set (x2 := Z.lxor x1 (shr32 x1 17)).
  assert (H2 : 0 < x2 < 2 ^ 32).
  { pose proof (lxor_range x1 (shr32 x1 17) ltac:(lia) (shr32_range x1 17 ltac:(lia) ltac:(lia))).
    pose proof (xorshift_right_nonzero x1 17 ltac:(lia) ltac:(lia)). unfold x2. lia. }
  set (x3 := Z.lxor x2 (shl32 x2 5)).
  assert (H3 : 0 < x3 < 2 ^ 32).
  { pose proof (lxor_range x2 (shl32 x2 5) ltac:(lia) (shl32_range x2 5)).
    pose proof (xorshift_left_nonzero x2 5 H2 eq_refl ltac:(lia)). unfold x3. lia. }
  rewrite u32_small by (change 4294967296 with (2 ^ 32); lia). exact H3.
Qed.

Lemma seededRng_state seed_ : 0 < PacRogue.seededRng seed_ < 2 ^ 32.
Proof.
  unfold PacRogue.seededRng.
  assert (H : forall l x, 0 <= x < 2 ^ 32 ->
            0 <= fold_left (fun x c => u32 (imul (Z.lxor x c) 16777619)) l x < 2 ^ 32).
  { induction l as [|c l IH]; intros x Hx; [exact Hx|]. simpl. apply IH. apply u32_range. }
  specialize (H (charCodes seed_) 2166136261 ltac:(lia)).
  destruct (_ =? 0) eqn:H0; lia.
Qed.

(** The first [n] draws of a stream. *)
Fixpoint draws (next : Z -> float * Z) (n : nat) (st : Z) : list float :=
  match n with
  | O => []
  | S n' => let '(f, st') := next st in f :: draws next n' st'
  end.

Fixpoint floats_eqb (l1 l2 : list float) : bool :=
  match l1, l2 with
  | [], [] => true
  | f1 :: l1', f2 :: l2' => PrimFloat.eqb f1 f2 && floats_eqb l1' l2'
  | _, _ => false
  end.

(** The string that [generatePacRogueLevel] seeds its stream with. *)
Definition generator_seed (d : Difficulty) (seed_ : string) : string :=
  PacRogue.toLowerCase (PacRogue.trim (show_difficulty d ++ "|" ++ seed_))%string.

(** C6, as amended (the two generators).  The level generator draws from
    its own stream, not from [createRng]: the state is the 32-bit FNV-1a hash
    of the seed string (0x12345678 in place of 0), stepped by xorshift32, and
    a draw is the state divided by 0xffffffff; the state is never zero.  The
    mutation engine's [createRng] hashes with xmur3 into a 32-bit state of
    mulberry32 and a draw is a 32-bit number divided by 2^32.  Both are
    functions of the seed string alone. *)
Theorem prng_constructions (seedString : string) :
  (0 < PacRogue.seededRng seedString < 2 ^ 32
   /\ forall x, 0 < x < 2 ^ 32 ->
        0 < snd (PacRogue.rng_next x) < 2 ^ 32
        /\ fst (PacRogue.rng_next x)
           = PrimFloat.div (float_of_Z (snd (PacRogue.rng_next x))) (float_of_Z 4294967295))
  /\ (0 <= snd (createRng seedString) < 2 ^ 32
      /\ forall a, 0 <= snd (mulberry32_next a) < 2 ^ 32
           /\ exists t, 0 <= t < 2 ^ 32
                /\ fst (mulberry32_next a) = PrimFloat.div (float_of_Z t) (float_of_Z 4294967296)).
Proof.
  split; [split|split].
  - apply seededRng_state.
  - intros x Hx. split; [apply rng_next_state, Hx|reflexivity].
  - unfold createRng, mulberry32. cbn [snd]. apply u32_range.
  - intros a. unfold mulberry32_next. cbv zeta. cbn [fst snd]. split; [apply u32_range|].
    eexists. split; [|reflexivity]. apply u32_range.
Qed.

(** C6 as stated fails: for the seed string "abc" the draws of the
    generator's stream differ from those of [createRng], whether the stream
    is seeded with the same string or with the string the generator builds
    from it. *)
Lemma prng_constructions_counterexample :
  PacRogue.seededRng "abc" = 440920331
  /\ snd (createRng "abc") = 1792905582
  /\ fst (PacRogue.rng_next (PacRogue.seededRng "abc"))
     = PrimFloat.div (float_of_Z 196718008) (float_of_Z 4294967295)
  /\ fst (nextFloat (fst (createRng "abc")) (snd (createRng "abc")))
     = PrimFloat.div (float_of_Z 3807890421) (float_of_Z 4294967296)
  /\ floats_eqb (draws PacRogue.rng_next 5 (PacRogue.seededRng "abc"))
       (draws mulberry32_next 5 (snd (createRng "abc"))) = false
  /\ floats_eqb (draws PacRogue.rng_next 5 (PacRogue.seededRng (generator_seed normal "abc")))
       (draws mulberry32_next 5 (snd (createRng "abc"))) = false
  /\ floats_eqb (draws PacRogue.rng_next 5 (PacRogue.seededRng (generator_seed normal "abc")))
       (draws mulberry32_next 5 (snd (createRng (generator_seed normal "abc")))) = false.
Proof. repeat split; vm_compute; reflexivity. Qed.

(** ** pacRogue.ts: the grid under the passes *)

Module PacRogueFacts.
Import PacRogue.

Section GridFacts.
Variables (width height : Z).

Local Abbreviation get := (PacRogue.get width height).
Local Abbreviation set := (PacRogue.set width height).
Local Abbreviation out_of_grid := (PacRogue.out_of_grid width height).
Local Abbreviation setPellet := (PacRogue.setPellet width height).
Local Abbreviation get_is := (PacRogue.get_is width height).
Local Abbreviation isWall := (PacRogue.isWall width height).

(** [height] rows of [width] characters. *)
Definition grid_shape (g : list (list ascii)) : Prop :=
  Grid2.shape (Z.to_nat height) (Z.to_nat width) g.

Lemma out_of_grid_false x y :
  out_of_grid x y = false <-> 0 <= x < width /\ 0 <= y < height.
Proof. unfold PacRogue.out_of_grid. rewrite !orb_false_iff. lia. Qed.

Lemma get_out x y g : out_of_grid x y = true -> get g x y = None.
Proof. intros H. unfold PacRogue.get. rewrite H. reflexivity. Qed.

Lemma get_in_grid g x y :
  grid_shape g -> out_of_grid x y = false -> is_Some (get g x y).
Proof.
  intros Hs Hb. unfold PacRogue.get. rewrite Hb. apply out_of_grid_false in Hb.
  eapply Grid2Facts.lookup2_shape; [exact Hs|lia..].
Qed.

Lemma get_Some_in_grid g x y c : get g x y = Some c -> out_of_grid x y = false.
Proof. unfold PacRogue.get. destruct (out_of_grid x y); [discriminate|reflexivity]. Qed.

Lemma shape_set g x y v : grid_shape g -> grid_shape (set g x y v).
Proof.
  intros Hs. unfold PacRogue.set. destruct (out_of_grid x y); [exact Hs|].
  apply Grid2Facts.shape_insert2, Hs.
Qed.

Lemma get_set_eq g x y v :
  grid_shape g -> out_of_grid x y = false -> get (set g x y v) x y = Some v.
Proof.
  intros Hs Hb. pose proof (get_in_grid g x y Hs Hb) as Hsome.
  unfold PacRogue.get, PacRogue.set in *. rewrite Hb in *.
  apply Grid2Facts.lookup2_insert2_eq, Hsome.
Qed.

Lemma get_set_ne g x y v x' y' :
  (x, y) <> (x', y') -> get (set g x y v) x' y' = get g x' y'.
Proof.
  intros Hne. unfold PacRogue.get, PacRogue.set.
  destruct (out_of_grid x' y') eqn:Hb'; [reflexivity|].
  destruct (out_of_grid x y) eqn:Hb; [reflexivity|].
  apply out_of_grid_false in Hb, Hb'.
  apply Grid2Facts.lookup2_insert2_ne. intros [= Hy Hx]. apply Hne. f_equal; lia.
Qed.

(** [writes S g g']: a grid [g] of the right shape has become [g'], of the
    same shape, and the tiles that differ hold a character of [S]. *)
Definition writes (S : ascii -> Prop) (g g' : list (list ascii)) : Prop :=
  grid_shape g ->
  grid_shape g' /\ forall x y, get g' x y = get g x y \/ exists c, get g' x y = Some c /\ S c.

Lemma writes_refl S g : writes S g g.
Proof. intros Hs. split; [exact Hs|]. intros x y. left. reflexivity. Qed.

Lemma writes_trans S g1 g2 g3 : writes S g1 g2 -> writes S g2 g3 -> writes S g1 g3.
Proof.
  intros H12 H23 Hs. destruct (H12 Hs) as [Hs2 H2]. destruct (H23 Hs2) as [Hs3 H3].
  split; [exact Hs3|]. intros x y.
  destruct (H3 x y) as [-> | Hc]; [apply H2|right; exact Hc].
Qed.

Lemma writes_weaken (S S' : ascii -> Prop) g g' :
  (forall c, S c -> S' c) -> writes S g g' -> writes S' g g'.
Proof.
  intros Hsub H Hs. destruct (H Hs) as [Hs' Hg]. split; [exact Hs'|].
  intros x y. destruct (Hg x y) as [Heq|(c & Hc & HS)]; [left; exact Heq|right; eauto].
Qed.

Lemma writes_set (S : ascii -> Prop) g x y v : S v -> writes S g (set g x y v).
Proof.
  intros Hv Hs. split; [apply shape_set, Hs|]. intros x' y'.
  destruct (decide ((x, y) = (x', y'))) as [[= <- <-]|Hne].
  - destruct (out_of_grid x y) eqn:Hb.
    + left. rewrite !get_out by exact Hb. reflexivity.
    + right. exists v. split; [apply get_set_eq; assumption|exact Hv].
  - left. apply get_set_ne, Hne.
Qed.

Lemma writes_setPellet (S : ascii -> Prop) g x y : S "."%char -> writes S g (setPellet g x y).
Proof.
  intros Hv. unfold PacRogue.setPellet. destruct (get g x y) as [c|]; [|apply writes_refl].
  destruct (Ascii.eqb c "#"); [apply writes_set, Hv|apply writes_refl].
Qed.

(** A loop whose every turn writes characters of [S] writes characters of
    [S]. *)
Lemma writes_fold {A} (S : ascii -> Prop) (f : list (list ascii) -> A -> list (list ascii)) l g :
  (forall g a, writes S g (f g a)) -> writes S g (fold_left f l g).
Proof.
  intros Hf. revert g. induction l as [|a l IH]; intros g; [apply writes_refl|].
  simpl. eapply writes_trans; [apply Hf|apply IH].
Qed.

Lemma writes_fold_fst {A B} (S : ascii -> Prop)
    (f : list (list ascii) * B -> A -> list (list ascii) * B) l st :
  (forall st a, writes S (fst st) (fst (f st a))) ->
  writes S (fst st) (fst (fold_left f l st)).
Proof.
  intros Hf. revert st. induction l as [|a l IH]; intros st; [apply writes_refl|].
  simpl. eapply writes_trans; [apply Hf|apply IH].
Qed.

(** Every character of the grid satisfies [S]. *)
Definition all_in (S : ascii -> Prop) (g : list (list ascii)) : Prop :=
  forall x y c, get g x y = Some c -> S c.

Lemma all_in_writes (S S' : ascii -> Prop) g g' :
  (forall c, S c -> S' c) -> grid_shape g -> writes S g g' -> all_in S' g -> all_in S' g'.
Proof.
  intros Hsub Hs Hw Hall x y c Hc. destruct (Hw Hs) as [_ Hg].
  destruct (Hg x y) as [Heq|(c' & Hc' & HS)].
  - apply (Hall x y). congruence.
  - apply Hsub. congruence.
Qed.

(** Tiles that are no wall stay so when no wall is written. *)
Lemma open_writes (S : ascii -> Prop) g g' x y :
  ~ S "#"%char -> grid_shape g -> writes S g g' ->
  get_is g x y "#" = false -> out_of_grid x y = false -> get_is g' x y "#" = false.
Proof.
  intros Hno Hs Hw Hopen Hb. destruct (Hw Hs) as [Hs' Hg]. unfold PacRogue.get_is in *.
  destruct (Hg x y) as [-> |(c & -> & HS)]; [exact Hopen|].
  destruct (Ascii.eqb_spec c "#"); [subst; contradiction|reflexivity].
Qed.

End GridFacts.

Section PassFacts.
Variables (width height : Z).

Local Abbreviation get := (PacRogue.get width height).
Local Abbreviation set := (PacRogue.set width height).
Local Abbreviation out_of_grid := (PacRogue.out_of_grid width height).
Local Abbreviation setPellet := (PacRogue.setPellet width height).
Local Abbreviation get_is := (PacRogue.get_is width height).
Local Abbreviation writes := (writes width height).
Local Abbreviation grid_shape := (grid_shape width height).

Section Opening.
Variable S : ascii -> Prop.
Hypothesis S_pellet : S "."%char.

Lemma writes_then_set g g1 x y v : writes S g g1 -> S v -> writes S g (set g1 x y v).
Proof. intros H Hv. eapply writes_trans; [exact H|apply writes_set, Hv]. Qed.

Lemma writes_then_setPellet g g1 x y : writes S g g1 -> writes S g (setPellet g1 x y).
Proof. intros H. eapply writes_trans; [exact H|apply writes_setPellet, S_pellet]. Qed.

Lemma writes_then_fold {A} (f : list (list ascii) -> A -> list (list ascii)) l g g1 :
  writes S g g1 -> (forall g a, writes S g (f g a)) -> writes S g (fold_left f l g1).
Proof. intros H Hf. eapply writes_trans; [exact H|apply writes_fold, Hf]. Qed.

Lemma writes_then_fold_fst {A B} (f : list (list ascii) * B -> A -> list (list ascii) * B) l g st :
  writes S g (fst st) -> (forall st a, writes S (fst st) (fst (f st a))) ->
  writes S g (fst (fold_left f l st)).
Proof. intros H Hf. eapply writes_trans; [exact H|apply writes_fold_fst, Hf]. Qed.

Ltac writes_auto :=
  repeat first
    [ assumption
    | apply writes_refl
    | apply writes_then_setPellet
    | apply writes_then_set
    | exact S_pellet
    | progress cbn [fst snd]
    | match goal with
      | |- writes _ _ (fst (if ?c then _ else _)) => destruct c
      | |- writes _ _ (if ?c then _ else _) => destruct c
      | |- writes _ _ (match ?o with Some _ => _ | None => _ end) => destruct o
      | |- writes _ _ (fst (match ?o with Some _ => _ | None => _ end)) => destruct o
      | |- writes _ _ (fst (let '(_, _) := ?p in _)) => destruct p
      | |- writes _ _ (let '(_, _) := ?p in _) => destruct p
      end ].

Lemma writes_width_sweep g : writes S g (fst (width_sweep width height g)).
Proof.
  unfold width_sweep. apply (writes_then_fold_fst _ _ g (g, false)); [apply writes_refl|].
  intros [g0 re] [x y]. writes_auto.
Qed.

Lemma writes_addPelletsToWidth fuel g : writes S g (addPelletsToWidth width height fuel g).
Proof.
  revert g. induction fuel as [|fuel IH]; intros g; [apply writes_refl|].
  cbn [addPelletsToWidth]. pose proof (writes_width_sweep g) as Hs.
  destruct (width_sweep width height g) as [g1 re]. cbn [fst] in Hs.
  destruct re; [|exact Hs]. eapply writes_trans; [exact Hs|apply IH].
Qed.

Lemma writes_open_southward fuel g x cy : writes S g (open_southward width height fuel g x cy).
Proof.
  revert g cy. induction fuel as [|fuel IH]; intros g cy; [apply writes_refl|].
  cbn [open_southward]. cbv zeta.
  destruct (cy - 1 <=? 0); [apply writes_refl|].
  destruct (negb _); [apply writes_refl|].
  destruct (negb _); [writes_auto|].
  eapply writes_trans; [|apply IH]. writes_auto.
Qed.

Lemma writes_open_northward fuel g x cy : writes S g (open_northward width height fuel g x cy).
Proof.
  revert g cy. induction fuel as [|fuel IH]; intros g cy; [apply writes_refl|].
  cbn [open_northward]. cbv zeta.
  destruct (height - 1 <=? cy + 1); [apply writes_refl|].
  destruct (negb _); [apply writes_refl|].
  destruct (negb _); [writes_auto|].
  eapply writes_trans; [|apply IH]. writes_auto.
Qed.

Lemma writes_height_sweep g : writes S g (fst (height_sweep width height g)).
Proof.
  unfold height_sweep. apply (writes_then_fold_fst _ _ g (g, false)); [apply writes_refl|].
  intros [g0 re] [x y]. cbn [fst snd].
  destruct (negb _); [apply writes_refl|]. cbv zeta.
  destruct (String.eqb _ _).
  { cbn [fst]. eapply writes_trans; [|apply writes_open_southward]. writes_auto. }
  destruct (String.eqb _ _).
  { cbn [fst]. eapply writes_trans; [|apply writes_open_northward]. writes_auto. }
  apply writes_refl.
Qed.

Lemma writes_addPelletsToHeight fuel g : writes S g (addPelletsToHeight width height fuel g).
Proof.
  revert g. induction fuel as [|fuel IH]; intros g; [apply writes_refl|].
  cbn [addPelletsToHeight]. pose proof (writes_height_sweep g) as Hs.
  destruct (height_sweep width height g) as [g1 re]. cbn [fst] in Hs.
  destruct re; [|exact Hs]. eapply writes_trans; [exact Hs|apply IH].
Qed.

Lemma writes_addMissingPellets g : writes S g (addMissingPellets width height g).
Proof.
  unfold addMissingPellets.
  eapply writes_trans; [apply writes_addPelletsToWidth|apply writes_addPelletsToHeight].
Qed.

Lemma writes_removeIncorrectTiles g ghostSpace :
  writes S g (removeIncorrectTiles width height g ghostSpace).
Proof.
  unfold removeIncorrectTiles. cbv zeta. apply writes_fold.
  intros g0 [x y]. writes_auto.
Qed.

Lemma writes_mirrorAndPellet g g1 x y :
  writes S g g1 -> writes S g (mirrorAndPellet width height g1 x y).
Proof. intros H. unfold mirrorAndPellet. cbv zeta. writes_auto. Qed.

Lemma writes_fallbackConnectComponents g connected disconnected :
  writes S g (fst (fallbackConnectComponents width height g connected disconnected)).
Proof.
  unfold fallbackConnectComponents. cbv zeta.
  destruct (take 250 connected) as [|a0 ?]; [apply writes_refl|].
  destruct (take 250 disconnected) as [|b0 ?]; [apply writes_refl|].
  destruct (fold_left _ _ _) as [[bestA bestB] ?].
  apply (writes_then_fold_fst _ _ g (g, false)); [apply writes_refl|].
  intros [g0 ch] [x y]. cbn [fst snd].
  destruct (on_or_outside_border _ _ _ _); [apply writes_refl|].
  destruct (PacRogue.get_is _ _ _ _ _ _); [|apply writes_refl].
  cbn [fst]. apply writes_mirrorAndPellet. writes_auto.
Qed.

Lemma writes_placePelletsForDisconnectedPath g connected disconnected :
  writes S g (fst (placePelletsForDisconnectedPath width height g connected disconnected)).
Proof.
  unfold placePelletsForDisconnectedPath. cbv zeta.
  set (eligible := filter _ connected).
  match goal with |- context [fold_left ?f eligible (g, false)] =>
    assert (Hfold : writes S g (fst (fold_left f eligible (g, false))))
  end.
  { apply (writes_then_fold_fst _ _ g (g, false)); [apply writes_refl|].
    intros [g0 ch] [sx sy]. cbn [fst snd].
    destruct (best_candidate _) as [[bestDir bestLen]|]; [|apply writes_refl].
    apply (writes_then_fold_fst _ _ g0 (g0, ch)); [apply writes_refl|].
    intros [g1 ch1] i. cbn [fst snd].
    destruct (on_or_outside_border _ _ _ _); [apply writes_refl|].
    destruct (PacRogue.get_is _ _ g1 _ _ _); cbn [fst snd].
    - destruct (_ || _); [writes_auto|].
      destruct (PacRogue.get_is _ _ _ _ _ _); cbn [fst]; [|writes_auto].
      apply writes_mirrorAndPellet. writes_auto.
    - destruct (_ || _); [writes_auto|].
      destruct (PacRogue.get_is _ _ _ _ _ _); cbn [fst]; [|writes_auto].
      apply writes_mirrorAndPellet. writes_auto. }
  destruct (fold_left _ eligible (g, false)) as [g1 changed]. cbn [fst] in Hfold.
  destruct changed; [exact Hfold|].
  eapply writes_trans; [exact Hfold|apply writes_fallbackConnectComponents].
Qed.

Lemma writes_connected_scan cells g visited connected :
  writes S g (fst (connected_scan width height cells g visited connected)).
Proof.
  revert visited connected. induction cells as [|[x y] cells IH]; intros visited connected;
    [apply writes_refl|].
  cbn [connected_scan].
  destruct (is_visited _ _ _); [apply IH|].
  destruct (PacRogue.isWall _ _ _ _ _); [apply IH|].
  destruct connected as [conn|].
  - destruct (findComponent _ _ _ _ _ _) as [visited' disc]. cbn [fst].
    apply writes_placePelletsForDisconnectedPath.
  - destruct (findComponent _ _ _ _ _ _) as [visited' comp]. apply IH.
Qed.

Lemma writes_connect_loop guard g ghostSpace :
  writes S g (connect_loop width height guard g ghostSpace).
Proof.
  revert g. induction guard as [|guard IH]; intros g; [apply writes_refl|].
  cbn [connect_loop]. unfold checkForConnectedPath.
  pose proof (writes_connected_scan (cells_yx 1 (width - 1) 1 (height - 1)) g
                (replicate (Z.to_nat height) (replicate (Z.to_nat width) false)) None) as Hs.
  destruct (connected_scan _ _ _ _ _ _) as [g1 connected]. cbn [fst] in Hs.
  assert (H1 : writes S g (removeIncorrectTiles width height g1 ghostSpace))
    by (eapply writes_trans; [exact Hs|apply writes_removeIncorrectTiles]).
  destruct connected; [exact H1|]. eapply writes_trans; [exact H1|apply IH].
Qed.

Lemma writes_fillPelletsOutsideGhostBox g ghostBox :
  writes S g (fillPelletsOutsideGhostBox width height g ghostBox).
Proof.
  unfold fillPelletsOutsideGhostBox. apply writes_fold. intros g0 [x y]. writes_auto.
Qed.

Hypothesis S_power : S "o"%char.

Lemma writes_placeMirrored g x y : writes S g (placeMirrored width height g x y).
Proof.
  unfold placeMirrored. cbv zeta.
  destruct (PacRogue.get_is _ _ g x y _).
  - destruct (PacRogue.get_is _ _ _ _ _ _); [|writes_auto].
    apply writes_then_set; [|exact S_power]. apply writes_set, S_power.
  - destruct (PacRogue.get_is _ _ _ _ _ _); [|writes_auto]. apply writes_set, S_power.
Qed.

Lemma writes_place_power_band g ghostBox ys :
  writes S g (place_power_band width height g ghostBox ys).
Proof.
  unfold place_power_band. cbv zeta. destruct (filter _ _) as [|[x y] ?]; [apply writes_refl|].
  apply writes_placeMirrored.
Qed.

Lemma writes_placePowerPellets g ghostBox : writes S g (placePowerPellets width height g ghostBox).
Proof.
  unfold placePowerPellets. cbv zeta.
  eapply writes_trans; apply writes_place_power_band.
Qed.

End Opening.

End PassFacts.

Section WriteLists.
Variables (width height : Z).

Local Abbreviation get := (PacRogue.get width height).
Local Abbreviation set := (PacRogue.set width height).
Local Abbreviation out_of_grid := (PacRogue.out_of_grid width height).
Local Abbreviation grid_shape := (grid_shape width height).

(** A list of writes [set(x, y, v)], done in order. *)
Definition apply_writes (ws : list (Z * Z * ascii)) (g : list (list ascii)) : list (list ascii) :=
  fold_left (fun g w => set g (fst (fst w)) (snd (fst w)) (snd w)) ws g.

Lemma apply_writes_app ws1 ws2 g :
  apply_writes (ws1 ++ ws2) g = apply_writes ws2 (apply_writes ws1 g).
Proof. unfold apply_writes. apply fold_left_app. Qed.

Lemma shape_apply_writes ws g : grid_shape g -> grid_shape (apply_writes ws g).
Proof.
  revert g. induction ws as [|w ws IH]; intros g Hs; [exact Hs|].
  simpl. apply IH, shape_set, Hs.
Qed.

(** A tile that no write names keeps its character. *)
Lemma get_apply_writes_other ws g x y :
  (forall v, (x, y, v) ∉ ws) -> get (apply_writes ws g) x y = get g x y.
Proof.
  revert g. induction ws as [|[[x' y'] v'] ws IH]; intros g Hnot; [reflexivity|].
  simpl. rewrite IH.
  - apply get_set_ne. intros [= -> ->]. apply (Hnot v'). left.
  - intros v Hin. apply (Hnot v). right. exact Hin.
Qed.

(** A tile of the grid that is written, and only ever with [v], holds
    [v]. *)
Lemma get_apply_writes_written ws g x y v :
  grid_shape g -> out_of_grid x y = false ->
  (x, y, v) ∈ ws -> (forall v', (x, y, v') ∈ ws -> v' = v) ->
  get (apply_writes ws g) x y = Some v.
Proof.
  intros Hs Hb. induction ws as [|[[x' y'] v'] ws IH] using rev_ind; intros Hin Hsame.
  - inversion Hin.
  - rewrite apply_writes_app. simpl.
    destruct (decide ((x', y') = (x, y))) as [[= -> ->]|Hne].
    + rewrite (Hsame v') by (apply elem_of_app; right; left).
      apply get_set_eq; [apply shape_apply_writes, Hs|exact Hb].
    + rewrite get_set_ne by exact Hne. apply IH.
      * apply elem_of_app in Hin as [Hin|Hin]; [exact Hin|].
        apply list_elem_of_singleton in Hin. congruence.
      * intros v'' Hv''. apply Hsame. apply elem_of_app. left. exact Hv''.
Qed.

Lemma fold_left_bind {A B C} (h : C -> B -> C) (k : A -> list B) (l : list A) (c : C) :
  fold_left (fun c a => fold_left h (k a) c) l c = fold_left h (l ≫= k) c.
Proof.
  revert c. induction l as [|a l IH]; intros c; [reflexivity|].
  rewrite bind_cons, fold_left_app. simpl. apply IH.
Qed.

(** The writes of [enforceBorderWalls]. *)
Definition border_writes : list (Z * Z * ascii) :=
  (seqZ 0 width ≫= fun x => [(x, 0, "#"%char); (x, height - 1, "#"%char)])
  ++ (seqZ 0 height ≫= fun y => [(0, y, "#"%char); (width - 1, y, "#"%char)]).

Lemma enforceBorderWalls_writes g :
  enforceBorderWalls width height g = apply_writes border_writes g.
Proof.
  unfold enforceBorderWalls, border_writes. rewrite apply_writes_app.
  unfold apply_writes. rewrite <- !fold_left_bind. reflexivity.
Qed.

Definition on_border (x y : Z) : Prop :=
  x = 0 \/ x = width - 1 \/ y = 0 \/ y = height - 1.

Lemma border_writes_wall x y v : (x, y, v) ∈ border_writes -> v = "#"%char.
Proof.
  unfold border_writes. rewrite elem_of_app, !list_elem_of_bind.
  intros [(x' & Hin & _)|(y' & Hin & _)];
    apply list_elem_of_In in Hin; simpl in Hin;
    destruct Hin as [[= <- <- <-]|[[= <- <- <-]|[]]]; reflexivity.
Qed.

Lemma elem_of_border_writes x y :
  0 < width -> 0 < height ->
  (x, y, "#"%char) ∈ border_writes <-> 0 <= x < width /\ 0 <= y < height /\ on_border x y.
Proof.
  intros Hw Hh. unfold border_writes, on_border. rewrite elem_of_app, !list_elem_of_bind. split.
  - intros [(x' & Hin & Hx')|(y' & Hin & Hy')].
    + apply elem_of_seqZ in Hx'.
      apply list_elem_of_In in Hin. simpl in Hin. destruct Hin as [[= <- <-]|[[= <- <-]|[]]]; lia.
    + apply elem_of_seqZ in Hy'.
      apply list_elem_of_In in Hin. simpl in Hin. destruct Hin as [[= <- <-]|[[= <- <-]|[]]]; lia.
  - intros (Hx & Hy & Hb).
    destruct (decide (y = 0 \/ y = height - 1)) as [Hy'|Hy'].
    + left. exists x. split; [|apply elem_of_seqZ; lia].
      destruct Hy' as [-> | ->]; [left|right; left].
    + right. exists y. split; [|apply elem_of_seqZ; lia].
      assert (x = 0 \/ x = width - 1) as [-> | ->] by lia; [left|right; left].
Qed.

(** After [enforceBorderWalls] every border tile is a wall and every other
    tile is as before. *)
Lemma enforceBorderWalls_get g x y :
  grid_shape g -> out_of_grid x y = false ->
  get (enforceBorderWalls width height g) x y =
    if decide (on_border x y) then Some "#"%char else get g x y.
Proof.
  intros Hs Hb. rewrite enforceBorderWalls_writes. pose proof Hb as Hb'.
  apply out_of_grid_false in Hb'. case_decide as Hon.
  - apply get_apply_writes_written; [exact Hs|exact Hb| |].
    + apply elem_of_border_writes; [lia..|]. tauto.
    + intros v' Hv'. apply border_writes_wall in Hv'. exact Hv'.
  - apply get_apply_writes_other. intros v Hv.
    pose proof (border_writes_wall _ _ _ Hv) as ->.
    apply elem_of_border_writes in Hv; [tauto|lia..].
Qed.

Lemma shape_enforceBorderWalls g : grid_shape g -> grid_shape (enforceBorderWalls width height g).
Proof. intros Hs. rewrite enforceBorderWalls_writes. apply shape_apply_writes, Hs. Qed.

Lemma writes_apply_writes (S : ascii -> Prop) ws g :
  (forall w, w ∈ ws -> S (snd w)) -> writes width height S g (apply_writes ws g).
Proof.
  revert g. induction ws as [|w ws IH]; intros g Hall; [apply writes_refl|].
  simpl. eapply writes_trans.
  - apply writes_set. apply Hall. left.
  - apply IH. intros w' Hw'. apply Hall. right. exact Hw'.
Qed.

Lemma writes_enforceBorderWalls (S : ascii -> Prop) g :
  S "#"%char -> writes width height S g (enforceBorderWalls width height g).
Proof.
  intros HS. rewrite enforceBorderWalls_writes. apply writes_apply_writes.
  intros [[x y] v] Hw. apply border_writes_wall in Hw as ->. exact HS.
Qed.

End WriteLists.

Section EarlyPasses.
Variables (width height : Z).

Local Abbreviation get := (PacRogue.get width height).
Local Abbreviation set := (PacRogue.set width height).
Local Abbreviation out_of_grid := (PacRogue.out_of_grid width height).
Local Abbreviation get_is := (PacRogue.get_is width height).
Local Abbreviation writes := (writes width height).
Local Abbreviation grid_shape := (grid_shape width height).
Local Abbreviation all_in := (all_in width height).
Local Abbreviation apply_writes := (apply_writes width height).

(** The characters of the grid before the spawns are placed. *)
Definition base_char (c : ascii) : Prop := c = "#"%char \/ c = "."%char \/ c = " "%char.
Definition pre_spawn (c : ascii) : Prop := base_char c \/ c = "o"%char.
(** What the passes after the ghost box write. *)
Definition opening (c : ascii) : Prop := c = "."%char \/ c = "o"%char.

Lemma writes_expandGroups groupWidth groupHeight groupDefs g :
  writes base_char g (expandGroups width height groupWidth groupHeight groupDefs g).
Proof.
  unfold expandGroups. apply writes_fold. intros g0 [gx gy].
  apply writes_fold. intros g1 [lx ly].
  destruct (PacRogue.out_of_grid _ _ _ _); [apply writes_refl|].
  apply writes_set. destruct (default false _); unfold base_char; auto.
Qed.

Lemma mirrorLeftToRight_inv (S : ascii -> Prop) g :
  grid_shape g -> all_in S g ->
  grid_shape (mirrorLeftToRight width height g) /\ all_in S (mirrorLeftToRight width height g).
Proof.
  unfold mirrorLeftToRight. generalize (cells_yx 0 width 0 height). intros cells.
  revert g. induction cells as [|[x y] cells IH]; intros g Hs Hall; [done|].
  simpl. apply IH.
  - destruct (_ <? _); [exact Hs|]. destruct (PacRogue.get _ _ g x y); [|exact Hs].
    apply shape_set, Hs.
  - destruct (_ <? _); [exact Hall|]. destruct (PacRogue.get _ _ g x y) as [v|] eqn:Hv; [|exact Hall].
    eapply (all_in_writes _ _ (fun c => c = v)); [| exact Hs | apply writes_set; reflexivity | exact Hall].
    intros c ->. eapply Hall, Hv.
Qed.

(** The writes of [carveGhostBox]. *)
Definition carve_writes : list (Z * Z * ascii) :=
  let b := ghostBoxOf width height in
  map (fun c =>
         let onBorder := (fst c =? x0 b) || (fst c =? x1 b) || (snd c =? y0 b) || (snd c =? y1 b) in
         (fst c, snd c, if onBorder then "#"%char else " "%char))
    (cells_yx (x0 b) (x1 b + 1) (y0 b) (y1 b + 1))
  ++ [((x0 b + x1 b) / 2, y1 b, " "%char); ((x0 b + x1 b) / 2, y1 b + 1, "."%char);
      ((x0 b + x1 b) / 2, y1 b + 2, "."%char)].

Lemma carveGhostBox_writes g ghostSpace :
  fst (fst (carveGhostBox width height g ghostSpace)) = apply_writes carve_writes g.
Proof.
  unfold carveGhostBox, carve_writes. cbv zeta.
  generalize (ghostBoxOf width height). intros b.
  generalize (cells_yx (x0 b) (x1 b + 1) (y0 b) (y1 b + 1)). intros cells.
  rewrite apply_writes_app.
  match goal with |- context [fold_left ?f cells (g, ghostSpace)] =>
    assert (Hfold : forall st, fst (fold_left f cells st)
              = apply_writes (map (fun c => (fst c, snd c,
                    if (fst c =? x0 b) || (fst c =? x1 b) || (snd c =? y0 b) || (snd c =? y1 b)
                    then "#"%char else " "%char)) cells) (fst st))
  end.
  { induction cells as [|[x y] cells IH]; intros st; [reflexivity|].
    cbn [fold_left map]. rewrite IH. reflexivity. }
  specialize (Hfold (g, ghostSpace)). destruct (fold_left _ cells (g, ghostSpace)) as [g1 gs1].
  cbn [fst] in Hfold. cbn [fst]. rewrite <- Hfold. reflexivity.
Qed.

Lemma carveGhostBox_box g ghostSpace :
  snd (carveGhostBox width height g ghostSpace) = ghostBoxOf width height.
Proof.
  unfold carveGhostBox. cbv zeta. destruct (fold_left _ _ _) as [g1 gs1]. reflexivity.
Qed.

Lemma writes_carveGhostBox g ghostSpace :
  writes base_char g (fst (fst (carveGhostBox width height g ghostSpace))).
Proof.
  rewrite carveGhostBox_writes. apply writes_apply_writes.
  intros [[x y] v] Hw. unfold carve_writes in Hw. cbv zeta in Hw.
  apply elem_of_app in Hw as [Hw|Hw].
  - apply list_elem_of_In, in_map_iff in Hw as (c & [= <- <- <-] & _).
    simpl. destruct (_ || _ || _ || _); unfold base_char; auto.
  - apply list_elem_of_In in Hw. simpl in Hw.
    destruct Hw as [[= <- <- <-]|[[= <- <- <-]|[[= <- <- <-]|[]]]]; unfold base_char; simpl; auto.
Qed.

Lemma elem_of_cells_yx xa xb ya yb x y :
  (x, y) ∈ cells_yx xa xb ya yb <-> xa <= x < xb /\ ya <= y < yb.
Proof.
  unfold cells_yx. rewrite list_elem_of_bind. split.
  - intros (y' & Hin & Hy). apply list_elem_of_bind in Hin as (x' & Hin & Hx).
    apply list_elem_of_singleton in Hin as [= -> ->]. apply elem_of_seqZ in Hx, Hy. lia.
  - intros [Hx Hy]. exists y. split; [|apply elem_of_seqZ; lia].
    apply list_elem_of_bind. exists x. split; [apply list_elem_of_here|apply elem_of_seqZ; lia].
Qed.

Hypothesis width_range : 15 <= width <= 41.
Hypothesis height_range : 15 <= height <= 45.

(** The ghost box lies inside the border ring; it is 13 or 14 tiles wide
    and 11 tiles high. *)
Lemma ghostBox_bounds :
  let b := ghostBoxOf width height in
  1 <= x0 b /\ x0 b + 12 <= x1 b <= x0 b + 13 /\ x1 b <= width - 2
  /\ 1 <= y0 b /\ y0 b + 10 = y1 b /\ y1 b <= height - 2.
Proof.
  unfold ghostBoxOf. cbv zeta. cbn [x0 x1 y0 y1].
  assert (Hbh : clampInt 11 7 (Z.max 7 (height - 2)) = 11) by (unfold clampInt; lia).
  rewrite Hbh. change ((11 - 1) / 2) with 5.
  pose proof (Z.div_mod (height - 1) 2 ltac:(lia)) as Hd1.
  pose proof (Z.mod_pos_bound (height - 1) 2 ltac:(lia)) as Hm1.
  pose proof (Z.div_mod width 2 ltac:(lia)) as Hd2.
  pose proof (Z.mod_pos_bound width 2 ltac:(lia)) as Hm2.
  set (hh := (height - 1) / 2) in *. set (hw := width / 2) in *.
  assert (Hbw : clampInt 14 7 (Z.max 7 (width - 2)) = 13 /\ width = 15
                \/ clampInt 14 7 (Z.max 7 (width - 2)) = 14 /\ 16 <= width)
    by (unfold clampInt; lia).
  destruct Hbw as [[-> Hw15]|[-> Hw16]].
  - change (13 / 2) with 6. unfold clampInt. lia.
  - change (14 / 2) with 7. unfold clampInt. lia.
Qed.

(** After [carveGhostBox] the tiles strictly inside the box are empty. *)
Lemma carveGhostBox_interior g ghostSpace x y :
  grid_shape g ->
  x0 (ghostBoxOf width height) < x < x1 (ghostBoxOf width height) ->
  y0 (ghostBoxOf width height) < y < y1 (ghostBoxOf width height) ->
  get (fst (fst (carveGhostBox width height g ghostSpace))) x y = Some " "%char.
Proof.
  intros Hs Hx Hy. pose proof ghostBox_bounds as Hb. cbv zeta in Hb.
  rewrite carveGhostBox_writes. unfold carve_writes. cbv zeta.
  remember (ghostBoxOf width height) as b eqn:Eb.
  set (ws := map _ _ ++ _).
  assert (Hin : forall v, (x, y, v) ∈ ws -> v = " "%char).
  { intros v Hw. subst ws. apply elem_of_app in Hw as [Hw|Hw].
    - apply list_elem_of_In, in_map_iff in Hw as ([x' y'] & Heq & _).
      cbn [fst snd] in Heq. injection Heq as -> -> <-.
      replace ((x =? x0 b) || (x =? x1 b) || (y =? y0 b) || (y =? y1 b)) with false by lia.
      reflexivity.
    - apply list_elem_of_In in Hw. cbn [In] in Hw.
      destruct Hw as [Heq|[Heq|[Heq|[]]]]; injection Heq as ? ? ?; lia. }
  apply get_apply_writes_written; [exact Hs|apply out_of_grid_false; lia| |exact Hin].
  subst ws. apply elem_of_app. left.
  apply list_elem_of_In, in_map_iff. exists (x, y). split.
  - cbn [fst snd].
    replace ((x =? x0 b) || (x =? x1 b) || (y =? y0 b) || (y =? y1 b)) with false by lia.
    reflexivity.
  - apply list_elem_of_In, elem_of_cells_yx. lia.
Qed.

End EarlyPasses.

(** *** The loops of the passes run to their end

    The [while] loops of the passes are recursive functions on a bound; the
    lemmas of this section show that each bound is large enough: a larger
    one gives the same result. *)

Section PassFuel.
Variables (width height : Z).

Local Abbreviation get := (PacRogue.get width height).
Local Abbreviation set := (PacRogue.set width height).
Local Abbreviation out_of_grid := (PacRogue.out_of_grid width height).
Local Abbreviation setPellet := (PacRogue.setPellet width height).
Local Abbreviation get_is := (PacRogue.get_is width height).
Local Abbreviation isWall := (PacRogue.isWall width height).
Local Abbreviation grid_shape := (grid_shape width height).

(** The number of wall tiles. *)
Definition walls (g : list (list ascii)) : nat :=
  Grid2.count2 (fun c => Ascii.eqb c "#") g.

(** A pass that keeps the shape of the grid and builds no wall. *)
Definition opens (g g' : list (list ascii)) : Prop :=
  grid_shape g -> grid_shape g' /\ (walls g' <= walls g)%nat.

Lemma opens_refl g : opens g g.
Proof. intros Hs. split; [exact Hs|lia]. Qed.

Lemma opens_trans g1 g2 g3 : opens g1 g2 -> opens g2 g3 -> opens g1 g3.
Proof.
  intros H12 H23 Hs. destruct (H12 Hs) as [Hs2 Hle]. destruct (H23 Hs2) as [Hs3 Hle'].
  split; [exact Hs3|lia].
Qed.

Lemma walls_le g : grid_shape g -> (walls g <= Z.to_nat (width * height))%nat.
Proof.
  intros Hs. pose proof (count2_le (fun c => Ascii.eqb c "#") _ _ g Hs) as Hle. fold (walls g) in Hle.
  destruct (Z.le_gt_cases 0 width); destruct (Z.le_gt_cases 0 height); nia.
Qed.

(** [setPellet] on a wall takes one wall away; elsewhere it does nothing. *)
Lemma setPellet_wall g x y :
  grid_shape g -> isWall g x y = true ->
  grid_shape (setPellet g x y) /\ (walls (setPellet g x y) + 1 = walls g)%nat.
Proof.
  intros Hs Hw. unfold PacRogue.isWall, PacRogue.get_is in Hw. unfold PacRogue.setPellet.
  destruct (get g x y) as [c|] eqn:Hc; [|discriminate]. rewrite Hw.
  split; [apply shape_set, Hs|].
  apply Ascii.eqb_eq in Hw as ->. unfold PacRogue.get in Hc. unfold PacRogue.set.
  destruct (out_of_grid x y); [discriminate|].
  pose proof (Grid2Facts.count2_insert2 (fun c => Ascii.eqb c "#") g _ _ _ "."%char Hc) as Hcount.
  unfold walls. simpl in Hcount. lia.
Qed.

Lemma opens_setPellet g x y : opens g (setPellet g x y).
Proof.
  intros Hs. destruct (isWall g x y) eqn:Hw.
  - destruct (setPellet_wall g x y Hs Hw) as [Hs' Hc]. split; [exact Hs'|lia].
  - unfold PacRogue.isWall, PacRogue.get_is in Hw. unfold PacRogue.setPellet.
    destruct (get g x y) as [c|]; [rewrite Hw|]; (split; [exact Hs|lia]).
Qed.

(** **** [addPelletsToWidth] *)

(** The state of a sweep: the grid has at most [n] walls, and fewer once
    [reUpdate] is set. *)
Definition sweep_inv (n : nat) (st : list (list ascii) * bool) : Prop :=
  grid_shape (fst st) /\ (walls (fst st) <= n)%nat /\ (snd st = true -> (walls (fst st) < n)%nat).

Lemma sweep_inv_opens n st g' :
  sweep_inv n st -> opens (fst st) g' -> sweep_inv n (g', snd st).
Proof.
  intros (Hs & Hle & Hlt) Ho. destruct (Ho Hs) as [Hs' Hle']. unfold sweep_inv. cbn [fst snd].
  split; [exact Hs'|]. split; [lia|]. intros Hre. specialize (Hlt Hre). lia.
Qed.

Lemma sweep_inv_wall n st x y g' :
  sweep_inv n st -> isWall (fst st) x y = true ->
  opens (setPellet (fst st) x y) g' -> sweep_inv n (g', true).
Proof.
  intros (Hs & Hle & _) Hw Ho. destruct (setPellet_wall _ x y Hs Hw) as [Hs1 Hc].
  destruct (Ho Hs1) as [Hs' Hle']. unfold sweep_inv. cbn [fst snd].
  split; [exact Hs'|]. split; lia.
Qed.

Lemma sweep_inv_fold {A} n (f : list (list ascii) * bool -> A -> list (list ascii) * bool) l st :
  (forall st a, sweep_inv n st -> sweep_inv n (f st a)) ->
  sweep_inv n st -> sweep_inv n (fold_left f l st).
Proof. intros Hf. revert st. induction l as [|a l IH]; intros st Hst; [exact Hst|]. apply IH, Hf, Hst. Qed.

Lemma sweep_inv_start g : grid_shape g -> sweep_inv (walls g) (g, false).
Proof. intros Hs. split; [exact Hs|]. split; [cbn [fst]; lia|discriminate]. Qed.

Lemma width_sweep_inv g :
  grid_shape g -> sweep_inv (walls g) (width_sweep width height g).
Proof.
  intros Hs. unfold width_sweep. apply sweep_inv_fold; [|apply sweep_inv_start, Hs].
  intros [g0 re] [x y] Hst. cbn [fst snd].
  destruct (PacRogue.isWall width height g0 x y) eqn:Hw; cbn [negb]; [|exact Hst].
  destruct (String.eqb _ INCORRECT_BIG_C).
  { apply (sweep_inv_wall _ _ x y _ Hst Hw), opens_setPellet. }
  destruct (code_in _ _).
  { apply (sweep_inv_opens _ (g0, re) _ Hst), opens_setPellet. }
  destruct (String.eqb _ INCORRECT_BIG_C_REVERSE).
  { apply (sweep_inv_opens _ (g0, re) _ Hst).
    eapply opens_trans; apply opens_setPellet. }
  destruct (code_in _ _); [|exact Hst].
  apply (sweep_inv_opens _ (g0, re) _ Hst), opens_setPellet.
Qed.

(** [do ... while (reUpdate)]: one more sweep than there are walls is
    enough. *)
Lemma addPelletsToWidth_fuel fuel fuel' g :
  grid_shape g -> (walls g < fuel)%nat -> (fuel <= fuel')%nat ->
  addPelletsToWidth width height fuel' g = addPelletsToWidth width height fuel g.
Proof.
  revert fuel' g. induction fuel as [|fuel IH]; intros fuel' g Hs Hlt Hle; [lia|].
  destruct fuel' as [|fuel']; [lia|]. cbn [addPelletsToWidth].
  destruct (width_sweep_inv g Hs) as (Hs1 & Hle1 & Hlt1).
  destruct (width_sweep width height g) as [g1 re]. cbn [fst snd] in *.
  destruct re; [|reflexivity]. apply IH; [exact Hs1| |lia]. specialize (Hlt1 eq_refl). lia.
Qed.

Lemma opens_addPelletsToWidth fuel g : opens g (addPelletsToWidth width height fuel g).
Proof.
  revert g. induction fuel as [|fuel IH]; intros g; [apply opens_refl|].
  cbn [addPelletsToWidth]. intros Hs. destruct (width_sweep_inv g Hs) as (Hs1 & Hle1 & _).
  destruct (width_sweep width height g) as [g1 re]. cbn [fst snd] in *.
  destruct re; [|split; assumption].
  destruct (IH g1 Hs1) as [Hs2 Hle2]. split; [exact Hs2|lia].
Qed.

(** **** [addPelletsToHeight] *)

(** The [while (true)] loop going south from row [cy] takes at most
    [cy - 1] turns that go on. *)
Lemma open_southward_fuel fuel fuel' g x cy :
  (Z.to_nat (cy - 1) <= fuel)%nat -> (fuel <= fuel')%nat ->
  open_southward width height fuel' g x cy = open_southward width height fuel g x cy.
Proof.
  revert fuel' g cy. induction fuel as [|fuel IH]; intros fuel' g cy Hm Hle.
  - destruct fuel' as [|fuel']; [reflexivity|]. cbn [open_southward]. cbv zeta.
    destruct (Z.leb_spec (cy - 1) 0); [reflexivity|lia].
  - destruct fuel' as [|fuel']; [lia|]. cbn [open_southward]. cbv zeta.
    destruct (cy - 1 <=? 0); [reflexivity|].
    destruct (negb _); [reflexivity|]. destruct (negb _); [reflexivity|].
    apply IH; lia.
Qed.

(** Going north from row [cy]: at most [height - 2 - cy] turns that go on. *)
Lemma open_northward_fuel fuel fuel' g x cy :
  (Z.to_nat (height - 2 - cy) <= fuel)%nat -> (fuel <= fuel')%nat ->
  open_northward width height fuel' g x cy = open_northward width height fuel g x cy.
Proof.
  revert fuel' g cy. induction fuel as [|fuel IH]; intros fuel' g cy Hm Hle.
  - destruct fuel' as [|fuel']; [reflexivity|]. cbn [open_northward]. cbv zeta.
    destruct (Z.leb_spec (height - 1) (cy + 1)); [reflexivity|lia].
  - destruct fuel' as [|fuel']; [lia|]. cbn [open_northward]. cbv zeta.
    destruct (height - 1 <=? cy + 1); [reflexivity|].
    destruct (negb _); [reflexivity|]. destruct (negb _); [reflexivity|].
    apply IH; lia.
Qed.

Lemma opens_open_southward fuel g x cy : opens g (open_southward width height fuel g x cy).
Proof.
  revert g cy. induction fuel as [|fuel IH]; intros g cy; [apply opens_refl|].
  cbn [open_southward]. cbv zeta. destruct (cy - 1 <=? 0); [apply opens_refl|].
  destruct (negb _); [apply opens_refl|].
  destruct (negb _); [apply opens_setPellet|].
  eapply opens_trans; [apply opens_setPellet|apply IH].
Qed.

Lemma opens_open_northward fuel g x cy : opens g (open_northward width height fuel g x cy).
Proof.
  revert g cy. induction fuel as [|fuel IH]; intros g cy; [apply opens_refl|].
  cbn [open_northward]. cbv zeta. destruct (height - 1 <=? cy + 1); [apply opens_refl|].
  destruct (negb _); [apply opens_refl|].
  destruct (negb _); [apply opens_setPellet|].
  eapply opens_trans; [apply opens_setPellet|apply IH].
Qed.

(** [height_sweep] starts the two loops from a row of the grid, with
    [height] as their bound. *)
Lemma open_southward_enough g x y k :
  y <= height ->
  open_southward width height (Z.to_nat height + k) g x y
  = open_southward width height (Z.to_nat height) g x y.
Proof. intros Hy. apply open_southward_fuel; lia. Qed.

Lemma open_northward_enough g x y k :
  0 <= y ->
  open_northward width height (Z.to_nat height + k) g x y
  = open_northward width height (Z.to_nat height) g x y.
Proof. intros Hy. apply open_northward_fuel; lia. Qed.

Lemma height_sweep_inv g :
  grid_shape g -> sweep_inv (walls g) (height_sweep width height g).
Proof.
  intros Hs. unfold height_sweep. apply sweep_inv_fold; [|apply sweep_inv_start, Hs].
  intros [g0 re] [x y] Hst. cbn [fst snd].
  destruct (PacRogue.isWall width height g0 x y) eqn:Hw; cbn [negb]; [|exact Hst].
  destruct (String.eqb _ INCORRECT_U).
  { apply (sweep_inv_wall _ _ x y _ Hst Hw), opens_open_southward. }
  destruct (String.eqb _ INCORRECT_U_UPSIDEDOWN); [|exact Hst].
  apply (sweep_inv_wall _ _ x y _ Hst Hw), opens_open_northward.
Qed.

Lemma addPelletsToHeight_fuel fuel fuel' g :
  grid_shape g -> (walls g < fuel)%nat -> (fuel <= fuel')%nat ->
  addPelletsToHeight width height fuel' g = addPelletsToHeight width height fuel g.
Proof.
  revert fuel' g. induction fuel as [|fuel IH]; intros fuel' g Hs Hlt Hle; [lia|].
  destruct fuel' as [|fuel']; [lia|]. cbn [addPelletsToHeight].
  destruct (height_sweep_inv g Hs) as (Hs1 & Hle1 & Hlt1).
  destruct (height_sweep width height g) as [g1 re]. cbn [fst snd] in *.
  destruct re; [|reflexivity]. apply IH; [exact Hs1| |lia]. specialize (Hlt1 eq_refl). lia.
Qed.

(** [addMissingPellets] with any larger bounds is [addMissingPellets]. *)
Lemma addMissingPellets_fuel g n m :
  grid_shape g -> (sweep_fuel width height <= n)%nat -> (sweep_fuel width height <= m)%nat ->
  addPelletsToHeight width height n (addPelletsToWidth width height m g)
  = addMissingPellets width height g.
Proof.
  intros Hs Hn Hm. unfold addMissingPellets. pose proof (walls_le g Hs) as Hw.
  rewrite (addPelletsToWidth_fuel (sweep_fuel width height) m g Hs)
    by (unfold sweep_fuel in *; lia).
  destruct (opens_addPelletsToWidth (sweep_fuel width height) g Hs) as [Hs1 Hle1].
  apply addPelletsToHeight_fuel; [exact Hs1| |exact Hn].
  pose proof (walls_le _ Hs1). unfold sweep_fuel in *. lia.
Qed.

End PassFuel.

(** **** [updateNeighbors] *)

Section GroupFuel.
Variables (groupWidth groupHeight : Z).

Lemma options_size_insert2 (options : list (list (list Shape))) r c old v :
  Grid2.lookup2 options r c = Some old ->
  (options_size (Grid2.insert2 options r c v) + length old = options_size options + length v)%nat.
Proof.
  unfold Grid2.lookup2, Grid2.insert2, options_size.
  destruct (options !! r) as [col|] eqn:Hr; [|discriminate]. intros Hc.
  revert r Hr. induction options as [|col0 options IH]; intros r Hr; [discriminate|].
  destruct r as [|r]; simpl in *.
  - injection Hr as ->. 
    assert (Hcol : (list_sum (map (fun cell : list Shape => length cell) (<[c:=v]> col)) + length old
                    = list_sum (map (fun cell : list Shape => length cell) col) + length v)%nat).
    { clear -Hc. revert c Hc. induction col as [|cell col IH]; intros c Hc; [discriminate|].
      destruct c as [|c]; simpl in *.
      - injection Hc as ->. lia.
      - specialize (IH c Hc). lia. }
    lia.
  - specialize (IH r Hr). lia.
Qed.

Lemma length_removeAll target toRemove : (length (removeAll target toRemove) <= length target)%nat.
Proof. unfold removeAll. apply length_filter. Qed.

(** A turn of the inner loop pushes a tile only when it has made the option
    list of that tile shorter. *)
Lemma update_neighbor_measure currentOpts st n :
  (options_size (fst (update_neighbor groupWidth groupHeight currentOpts st n))
   + length (snd (update_neighbor groupWidth groupHeight currentOpts st n))
   <= options_size (fst st) + length (snd st))%nat.
Proof.
  destruct st as [options queue]. destruct n as [[dir nx] ny]. unfold update_neighbor.
  destruct (inBoundsG groupWidth groupHeight nx ny) eqn:Hb; cbn [negb]; [|lia].
  destruct (length (opt_get options nx ny) <=? 1)%nat eqn:Hlen; [lia|]. cbv zeta.
  destruct (length (intersectRemovals _ _) =? 0)%nat; [lia|].
  destruct (length (removeAll _ _) =? 0)%nat; cbn [orb]; [lia|].
  destruct (Nat.eqb_spec (length (removeAll (opt_get options nx ny)
                                     (intersectRemovals currentOpts (opposite dir))))
              (length (opt_get options nx ny))) as [|Hne]; [lia|].
  pose proof (length_removeAll (opt_get options nx ny)
                (intersectRemovals currentOpts (opposite dir))) as Hle.
  apply Nat.leb_gt in Hlen. unfold opt_get, opt_set in *.
  destruct ((nx <? 0) || (ny <? 0)); [simpl in Hlen; lia|].
  destruct (Grid2.lookup2 options (Z.to_nat nx) (Z.to_nat ny)) as [old|] eqn:Hold;
    [|simpl in Hlen; lia].
  cbn [default from_option id] in *. unfold id in *.
  pose proof (options_size_insert2 options _ _ old
                (removeAll old (intersectRemovals currentOpts (opposite dir))) Hold) as Hsize.
  cbn [fst snd]. rewrite length_app. cbn [length]. lia.
Qed.

Lemma update_neighbors_measure currentOpts neighbors st :
  (options_size (fst (fold_left (update_neighbor groupWidth groupHeight currentOpts) neighbors st))
   + length (snd (fold_left (update_neighbor groupWidth groupHeight currentOpts) neighbors st))
   <= options_size (fst st) + length (snd st))%nat.
Proof.
  revert st. induction neighbors as [|n neighbors IH]; intros st; [simpl; lia|].
  cbn [fold_left]. etransitivity; [apply IH|apply update_neighbor_measure].
Qed.

(** The [while (queue.length > 0)] loop is over after at most
    [options_size options + length queue] turns. *)
Lemma updateNeighbors_loop_fuel fuel fuel' options queue :
  (options_size options + length queue <= fuel)%nat -> (fuel <= fuel')%nat ->
  updateNeighbors_loop groupWidth groupHeight fuel' options queue
  = updateNeighbors_loop groupWidth groupHeight fuel options queue.
Proof.
  revert fuel' options queue. induction fuel as [|fuel IH]; intros fuel' options queue Hm Hle.
  - destruct queue; [|simpl in Hm; lia]. destruct fuel'; reflexivity.
  - destruct fuel' as [|fuel']; [lia|]. cbn [updateNeighbors_loop].
    destruct queue as [|[cx cy] rest]; [reflexivity|]. cbv zeta.
    match goal with |- context [fold_left ?f ?l (options, rest)] =>
      pose proof (update_neighbors_measure (opt_get options cx cy) l (options, rest)) as Hstep;
      destruct (fold_left f l (options, rest)) as [options' queue'] end.
    cbn [fst snd length] in *. apply IH; lia.
Qed.

Lemma updateNeighbors_fuel options x y k :
  updateNeighbors_loop groupWidth groupHeight (options_size options + 2 + k) options [(x, y)]
  = updateNeighbors groupWidth groupHeight options x y.
Proof. unfold updateNeighbors. apply updateNeighbors_loop_fuel; cbn [length]; lia. Qed.

End GroupFuel.

(** **** [findComponent] and [validate] *)

Section ConnectFuel.
Variables (width height : Z).

Local Abbreviation out_of_grid := (PacRogue.out_of_grid width height).
Local Abbreviation isWall := (PacRogue.isWall width height).

Definition visited_shape (visited : list (list bool)) : Prop :=
  Grid2.shape (Z.to_nat height) (Z.to_nat width) visited.

Lemma component_visit_measure grid st n :
  visited_shape (fst (fst st)) ->
  visited_shape (fst (fst (component_visit width height grid st n)))
  /\ (unvisited (fst (fst (component_visit width height grid st n)))
      + length (snd (component_visit width height grid st n))
      <= unvisited (fst (fst st)) + length (snd st))%nat.
Proof.
  destruct st as [[visited comp] q]. destruct n as [nx ny]. cbn [fst snd]. intros Hs.
  unfold component_visit.
  destruct (on_or_outside_border width height nx ny) eqn:Hb;
    [cbn [fst snd]; split; [exact Hs|lia]|].
  destruct (PacRogue.isWall width height grid nx ny); [cbn [fst snd]; split; [exact Hs|lia]|].
  destruct (is_visited visited nx ny) eqn:Hv; [cbn [fst snd]; split; [exact Hs|lia]|].
  cbn [fst snd]. split; [apply shape_mark, Hs|].
  unfold on_or_outside_border in Hb. rewrite !orb_false_iff in Hb.
  pose proof (unvisited_mark _ _ visited nx ny Hs ltac:(lia) ltac:(lia) Hv) as Hm.
  rewrite length_app. cbn [length]. lia.
Qed.

Lemma component_visits_measure grid neigh st :
  visited_shape (fst (fst st)) ->
  visited_shape (fst (fst (fold_left (component_visit width height grid) neigh st)))
  /\ (unvisited (fst (fst (fold_left (component_visit width height grid) neigh st)))
      + length (snd (fold_left (component_visit width height grid) neigh st))
      <= unvisited (fst (fst st)) + length (snd st))%nat.
Proof.
  revert st. induction neigh as [|n neigh IH]; intros st Hs; [split; [exact Hs|simpl; lia]|].
  cbn [fold_left]. destruct (component_visit_measure grid st n Hs) as [Hs1 Hm1].
  destruct (IH _ Hs1) as [Hs2 Hm2]. split; [exact Hs2|lia].
Qed.

(** Every tile enters the queue at most once. *)
Lemma findComponent_loop_fuel fuel fuel' grid visited comp q :
  visited_shape visited ->
  (unvisited visited + length q <= fuel)%nat -> (fuel <= fuel')%nat ->
  findComponent_loop width height fuel' grid visited comp q
  = findComponent_loop width height fuel grid visited comp q.
Proof.
  revert fuel' visited comp q. induction fuel as [|fuel IH]; intros fuel' visited comp q Hs Hm Hle.
  - destruct q; [|simpl in Hm; lia]. destruct fuel'; reflexivity.
  - destruct fuel' as [|fuel']; [lia|]. cbn [findComponent_loop].
    destruct q as [|[x y] rest]; [reflexivity|]. cbv zeta.
    match goal with |- context [fold_left ?f ?l (visited, comp, rest)] =>
      pose proof (component_visits_measure grid l (visited, comp, rest) Hs) as [Hs' Hstep];
      destruct (fold_left f l (visited, comp, rest)) as [[visited' comp'] q'] end.
    cbn [fst snd length] in *. apply IH; [exact Hs'|lia|lia].
Qed.

Lemma findComponent_fuel grid visited sx sy k :
  visited_shape visited ->
  findComponent_loop width height (Z.to_nat (width * height) + 2 + k) grid
    (mark_visited visited sx sy) [(sx, sy)] [(sx, sy)]
  = findComponent width height grid visited sx sy.
Proof.
  intros Hs. unfold findComponent. apply findComponent_loop_fuel; [apply shape_mark, Hs| |lia].
  pose proof (count2_le negb _ _ _ (shape_mark _ _ visited sx sy Hs)) as Hle.
  fold (unvisited (mark_visited visited sx sy)) in Hle. cbn [length].
  destruct (Z.le_gt_cases 0 width); destruct (Z.le_gt_cases 0 height); nia.
Qed.

(** The number of tiles from [(nx, ny)] to the edge of the grid, going
    [dir]. *)
Definition run_length (dir : Dir) (nx ny : Z) : Z :=
  match dir with
  | north => height - ny
  | south => ny + 1
  | east => width - nx
  | west => nx + 1
  end.

Lemma validate_from_fuel dir fuel fuel' grid nx ny len :
  (Z.to_nat (run_length dir nx ny) <= fuel)%nat -> (fuel <= fuel')%nat ->
  validate_from width height fuel' grid (dirVec dir) nx ny len
  = validate_from width height fuel grid (dirVec dir) nx ny len.
Proof.
  revert fuel' nx ny len. induction fuel as [|fuel IH]; intros fuel' nx ny len Hm Hle.
  - destruct fuel' as [|fuel']; [reflexivity|]. cbn [validate_from].
    replace (out_of_grid nx ny) with true; [reflexivity|].
    symmetry. unfold PacRogue.out_of_grid. rewrite !orb_true_iff.
    destruct dir; unfold run_length in Hm; lia.
  - destruct fuel' as [|fuel']; [lia|]. cbn [validate_from].
    destruct (out_of_grid nx ny) eqn:Hout; [reflexivity|].
    destruct (PacRogue.isWall width height grid nx ny); [|reflexivity].
    apply IH; [|lia]. destruct dir; unfold run_length in *; cbn [dirVec fst snd]; lia.
Qed.

Lemma validate_fuel grid x y dir k :
  0 <= width -> 0 <= height ->
  validate_from width height (Z.to_nat (width + height) + 1 + k) grid (dirVec dir)
    (x + fst (dirVec dir)) (y + snd (dirVec dir)) 0
  = validate width height grid x y dir.
Proof.
  intros Hw Hh. unfold validate. cbv zeta.
  destruct (out_of_grid (x + fst (dirVec dir)) (y + snd (dirVec dir))) eqn:Hout.
  - replace (Z.to_nat (width + height) + 1 + k)%nat with (S (Z.to_nat (width + height) + k)) by lia.
    replace (Z.to_nat (width + height) + 1)%nat with (S (Z.to_nat (width + height))) by lia.
    cbn [validate_from]. rewrite Hout. reflexivity.
  - apply validate_from_fuel; [|lia]. apply out_of_grid_false in Hout.
    destruct dir; unfold run_length; cbn [dirVec fst snd] in *; lia.
Qed.

End ConnectFuel.

(** *** [placeSpawns] *)

Section Spawns.
Variables (width height : Z).

Local Abbreviation get := (PacRogue.get width height).
Local Abbreviation set := (PacRogue.set width height).
Local Abbreviation out_of_grid := (PacRogue.out_of_grid width height).
Local Abbreviation get_is := (PacRogue.get_is width height).
Local Abbreviation writes := (writes width height).
Local Abbreviation grid_shape := (grid_shape width height).
Local Abbreviation all_in := (all_in width height).
Local Abbreviation apply_writes := (apply_writes width height).

Definition ghost_writes (slots : list (Z * Z)) : list (Z * Z * ascii) :=
  map (fun s => (fst s, snd s, "G"%char)) slots.

(** The [for (const p of slots)] loop of [placeSpawns], on slots that are
    distinct open tiles of the grid: the first [wanted - placed] of them
    become ghost starts. *)
Lemma ghost_loop_spec (wanted : Z) (slots : list (Z * Z)) (g : list (list ascii)) (placed : Z) :
  grid_shape g -> NoDup slots -> placed <= wanted ->
  (forall s, s ∈ slots -> out_of_grid (fst s) (snd s) = false /\ get_is g (fst s) (snd s) "#" = false) ->
  fold_left (fun (st : list (list ascii) * Z) p =>
      if wanted <=? snd st then st
      else if get_is (fst st) (fst p) (snd p) "#" then st
      else (set (fst st) (fst p) (snd p) "G", snd st + 1)) slots (g, placed)
  = (apply_writes (ghost_writes (take (Z.to_nat (wanted - placed)) slots)) g,
     Z.min wanted (placed + Z.of_nat (length slots))).
Proof.
  revert g placed. induction slots as [|s slots IH]; intros g placed Hs Hnd Hle Hopen.
  - simpl. rewrite take_nil. simpl. f_equal. lia.
  - apply NoDup_cons in Hnd as [Hnotin Hnd]. cbn [fold_left snd fst].
    destruct (wanted <=? placed) eqn:Hfull.
    + assert (placed = wanted) as -> by lia.
      rewrite IH; [|exact Hs|exact Hnd|lia|intros s' Hs'; apply Hopen; right; exact Hs'].
      rewrite Z.sub_diag. change (Z.to_nat 0) with 0%nat. rewrite !take_0. cbn [ghost_writes map length]. f_equal. lia.
    + destruct (Hopen s ltac:(left)) as [Hin Hnw]. rewrite Hnw.
      rewrite IH; [|apply shape_set, Hs|exact Hnd|lia|].
      * replace (Z.to_nat (wanted - placed)) with (S (Z.to_nat (wanted - (placed + 1)))) by lia.
        cbn [take ghost_writes map]. f_equal. cbn [length]. lia.
      * intros s' Hs'. destruct (Hopen s' ltac:(right; exact Hs')) as [Hin' Hnw'].
        split; [exact Hin'|]. unfold PacRogue.get_is in *.
        rewrite get_set_ne; [exact Hnw'|].
        intros Heq. apply Hnotin. destruct s, s'. simpl in Heq. injection Heq as -> ->. exact Hs'.
Qed.

Lemma wantedGhosts_range d : 1 <= wantedGhosts d <= 3.
Proof. destruct d; simpl; lia. Qed.

Lemma placeSpawns_spec g d ghostBox :
  grid_shape g -> NoDup (ghostSlots ghostBox) ->
  let p := playerSpawn width height g ghostBox in
  (forall s, s ∈ ghostSlots ghostBox ->
     out_of_grid (fst s) (snd s) = false
     /\ get_is (set g (fst p) (snd p) "P") (fst s) (snd s) "#" = false) ->
  placeSpawns width height g d ghostBox
  = apply_writes (ghost_writes (take (Z.to_nat (wantedGhosts d)) (ghostSlots ghostBox)))
      (set g (fst p) (snd p) "P").
Proof.
  intros Hs Hnd p Hopen. unfold placeSpawns. cbv zeta. fold p.
  pose proof (wantedGhosts_range d) as Hw.
  rewrite (ghost_loop_spec (wantedGhosts d) (ghostSlots ghostBox) _ 0);
    [|apply shape_set, Hs|exact Hnd|lia|exact Hopen].
  rewrite Z.sub_0_r.
  assert (Hlen : length (ghostSlots ghostBox) = 4%nat) by reflexivity.
  rewrite Hlen.
  destruct (Z.eqb_spec (Z.min (wantedGhosts d) (0 + Z.of_nat 4)) 0) as [H0|_]; [lia|].
  reflexivity.
Qed.

End Spawns.

(** ** pacRogue.ts: the generated grid *)

Section Generated.
Variables (width height : Z).
Hypothesis width_range : 15 <= width <= 41.
Hypothesis height_range : 15 <= height <= 45.

Local Abbreviation get := (PacRogue.get width height).
Local Abbreviation set := (PacRogue.set width height).
Local Abbreviation out_of_grid := (PacRogue.out_of_grid width height).
Local Abbreviation get_is := (PacRogue.get_is width height).
Local Abbreviation writes := (writes width height).
Local Abbreviation grid_shape := (grid_shape width height).
Local Abbreviation all_in := (all_in width height).
Local Abbreviation apply_writes := (apply_writes width height).

Let box := ghostBoxOf width height.

(** The ghost slots are four distinct tiles strictly inside the ghost box. *)
Lemma ghostSlots_inside :
  NoDup (ghostSlots box)
  /\ forall s, s ∈ ghostSlots box ->
       x0 box < fst s < x1 box /\ y0 box < snd s < y1 box.
Proof.
  pose proof (ghostBox_bounds width height width_range height_range) as Hb.
  cbv zeta in Hb. fold box in Hb. unfold ghostSlots.
  assert (Hgx : x0 box + 6 <= (x0 box + x1 box) / 2 <= x0 box + 6)
    by (split; [apply Z.div_le_lower_bound|apply Z.lt_succ_r, Z.div_lt_upper_bound]; lia).
  assert (Hgy : (y0 box + y1 box) / 2 = y0 box + 5)
    by (replace (y0 box + y1 box) with ((y0 box + 5) * 2) by lia; apply Z.div_mul; lia).
  rewrite Hgy. set (gx := (x0 box + x1 box) / 2) in *. clearbody box. split.
  - repeat apply NoDup_cons_2; try apply NoDup_nil_2;
      rewrite ?not_elem_of_cons; repeat split; try apply not_elem_of_nil;
      intros Heq; injection Heq; intros; lia.
  - intros s Hs. apply list_elem_of_In in Hs. simpl in Hs.
    destruct Hs as [<-|[<-|[<-|[<-|[]]]]]; cbn [fst snd]; lia.
Qed.

(** The grid when [placeSpawns] is called: only walls, pellets, power
    pellets and empty tiles, the ghost slots being no walls. *)
Definition before_spawns (g : list (list ascii)) : Prop :=
  grid_shape g /\ all_in pre_spawn g
  /\ forall s, s ∈ ghostSlots box -> get_is g (fst s) (snd s) "#" = false.

Lemma buildGrid_stages groupWidth groupHeight groupDefs d :
  exists g, before_spawns g
    /\ buildGrid width height groupWidth groupHeight groupDefs d
       = enforceBorderWalls width height (placeSpawns width height g d box).
Proof.
  unfold buildGrid. cbv zeta.
  set (g0 := replicate (Z.to_nat height) (replicate (Z.to_nat width) "#"%char)).
  set (g1 := expandGroups width height groupWidth groupHeight groupDefs g0).
  set (g2 := mirrorLeftToRight width height g1).
  set (g3 := enforceBorderWalls width height g2).
  pose proof (carveGhostBox_writes width height g3 []) as Hcw.
  pose proof (carveGhostBox_box width height g3 []) as Hcb.
  pose proof (writes_carveGhostBox width height g3 []) as Hcarve.
  pose proof (fun x y Hs => carveGhostBox_interior width height width_range height_range g3 [] x y Hs)
    as Hinterior.
  destruct (carveGhostBox width height g3 []) as [[g4 ghostSpace] ghostBox].
  cbn [fst snd] in Hcw, Hcb, Hcarve, Hinterior. subst ghostBox. fold box.
  set (g5 := addMissingPellets width height g4).
  set (g6 := removeIncorrectTiles width height g5 ghostSpace).
  set (g7 := connect_loop width height 80 g6 ghostSpace).
  set (g8 := removeIncorrectTiles width height g7 ghostSpace).
  set (g9 := placePowerPellets width height g8 box).
  set (g10 := fillPelletsOutsideGhostBox width height g9 box).
  exists g10. split; [|reflexivity].
  (* the grid up to the ghost box *)
  assert (Hs0 : grid_shape g0) by apply Grid2Facts.shape_replicate.
  assert (Ha0 : all_in pre_spawn g0).
  { intros x y c Hc. unfold PacRogue.get in Hc. destruct (PacRogue.out_of_grid _ _ _ _); [discriminate|].
    unfold Grid2.lookup2 in Hc. destruct (g0 !! _) as [row|] eqn:Hrow; [|discriminate].
    apply lookup_replicate in Hrow as [-> _]. apply lookup_replicate in Hc as [-> _].
    left. left. reflexivity. }
  assert (Hbase : forall c, base_char c -> pre_spawn c) by (intros c Hc; left; exact Hc).
  assert (Hw1 := writes_expandGroups width height groupWidth groupHeight groupDefs g0). fold g1 in Hw1.
  destruct (Hw1 Hs0) as [Hs1 _].
  assert (Ha1 : all_in pre_spawn g1)
    by exact (all_in_writes width height base_char pre_spawn g0 g1 Hbase Hs0 Hw1 Ha0).
  destruct (mirrorLeftToRight_inv width height pre_spawn g1 Hs1 Ha1) as [Hs2 Ha2]. fold g2 in Hs2, Ha2.
  assert (Hw3 : writes base_char g2 g3)
    by (apply writes_enforceBorderWalls; left; reflexivity).
  destruct (Hw3 Hs2) as [Hs3 _].
  assert (Ha3 : all_in pre_spawn g3)
    by exact (all_in_writes width height base_char pre_spawn g2 g3 Hbase Hs2 Hw3 Ha2).
  destruct (Hcarve Hs3) as [Hs4 _].
  assert (Ha4 : all_in pre_spawn g4)
    by exact (all_in_writes width height base_char pre_spawn g3 g4 Hbase Hs3 Hcarve Ha3).
  (* from the ghost box to the spawns only pellets and power pellets are written *)
  assert (Hopen : writes opening g4 g10).
  { assert (Hp : opening "."%char) by (left; reflexivity).
    assert (Ho : opening "o"%char) by (right; reflexivity).
    eapply writes_trans; [apply (writes_addMissingPellets width height opening Hp)|]. fold g5.
    eapply writes_trans; [apply (writes_removeIncorrectTiles width height opening Hp)|]. fold g6.
    eapply writes_trans; [apply (writes_connect_loop width height opening Hp)|]. fold g7.
    eapply writes_trans; [apply (writes_removeIncorrectTiles width height opening Hp)|]. fold g8.
    eapply writes_trans; [apply (writes_placePowerPellets width height opening); assumption|]. fold g9.
    apply (writes_fillPelletsOutsideGhostBox width height opening Hp). }
  destruct (Hopen Hs4) as [Hs10 _].
  split; [exact Hs10|]. split.
  - eapply (all_in_writes _ _ opening); [|exact Hs4|exact Hopen|exact Ha4].
    intros c [-> | ->]; [left; right; left|right]; reflexivity.
  - intros s Hs. destruct ghostSlots_inside as [_ Hin]. destruct (Hin s Hs) as [Hx Hy].
    pose proof (ghostBox_bounds width height width_range height_range) as Hb.
    cbv zeta in Hb. fold box in Hb.
    apply (open_writes width height opening g4 g10); [|exact Hs4|exact Hopen| |].
    + intros [H|H]; discriminate H.
    + unfold PacRogue.get_is. rewrite (Hinterior _ _ Hs3 Hx Hy). reflexivity.
    + apply out_of_grid_false. lia.
Qed.

End Generated.

Section FinalGrid.
Variables (width height : Z).
Hypothesis width_range : 15 <= width <= 41.
Hypothesis height_range : 15 <= height <= 45.

Local Abbreviation get := (PacRogue.get width height).
Local Abbreviation set := (PacRogue.set width height).
Local Abbreviation out_of_grid := (PacRogue.out_of_grid width height).
Local Abbreviation get_is := (PacRogue.get_is width height).
Local Abbreviation grid_shape := (grid_shape width height).
Local Abbreviation all_in := (all_in width height).
Local Abbreviation apply_writes := (apply_writes width height).

(** The tiles that get a ghost start: the first [wantedGhosts] slots. *)
Definition ghost_tiles (d : Difficulty) : list (Z * Z) :=
  take (Z.to_nat (wantedGhosts d)) (ghostSlots (ghostBoxOf width height)).

Lemma ghost_tiles_slots d s : s ∈ ghost_tiles d -> s ∈ ghostSlots (ghostBoxOf width height).
Proof. unfold ghost_tiles. intros Hs. eapply subseteq_take, Hs. Qed.

Lemma ghost_tiles_length d : Z.of_nat (length (ghost_tiles d)) = wantedGhosts d.
Proof.
  unfold ghost_tiles. rewrite length_take.
  assert (Hlen : length (ghostSlots (ghostBoxOf width height)) = 4%nat) by reflexivity.
  rewrite Hlen. destruct d; reflexivity.
Qed.

Lemma ghost_tiles_inside d s :
  s ∈ ghost_tiles d ->
  x0 (ghostBoxOf width height) < fst s < x1 (ghostBoxOf width height)
  /\ y0 (ghostBoxOf width height) < snd s < y1 (ghostBoxOf width height).
Proof.
  intros Hs. apply (ghostSlots_inside width height width_range height_range), ghost_tiles_slots with d, Hs.
Qed.

Lemma ghost_tiles_off_border d s :
  s ∈ ghost_tiles d -> out_of_grid (fst s) (snd s) = false /\ ~ on_border width height (fst s) (snd s).
Proof.
  intros Hs. destruct (ghost_tiles_inside d s Hs) as [Hx Hy].
  pose proof (ghostBox_bounds width height width_range height_range) as Hb. cbv zeta in Hb.
  split; [apply out_of_grid_false; lia|]. unfold on_border. lia.
Qed.

Lemma ghost_tiles_NoDup d : NoDup (ghost_tiles d).
Proof.
  unfold ghost_tiles. eapply sublist_NoDup; [|apply sublist_take].
  apply (ghostSlots_inside width height width_range height_range).
Qed.

(** What [buildGrid] returns, tile by tile: a wall on the border ring, a
    ghost start on the ghost tiles, the player start on one tile, and
    elsewhere what the earlier passes left (no start marker). *)
Lemma buildGrid_get groupWidth groupHeight groupDefs d :
  grid_shape (buildGrid width height groupWidth groupHeight groupDefs d)
  /\ exists g p, grid_shape g /\ all_in pre_spawn g
     /\ forall x y, out_of_grid x y = false ->
          get (buildGrid width height groupWidth groupHeight groupDefs d) x y =
            if decide (on_border width height x y) then Some "#"%char
            else if decide ((x, y) ∈ ghost_tiles d) then Some "G"%char
            else if decide ((x, y) = p) then Some "P"%char
            else get g x y.
Proof.
  destruct (buildGrid_stages width height width_range height_range groupWidth groupHeight groupDefs d)
    as (g & (Hs & Hall & Hslots) & ->).
  set (box := ghostBoxOf width height) in *.
  set (p := playerSpawn width height g box).
  assert (Hsp : grid_shape (set g (fst p) (snd p) "P")) by apply shape_set, Hs.
  assert (Hin : forall s, s ∈ ghostSlots box -> out_of_grid (fst s) (snd s) = false).
  { intros s Hs'. destruct (ghostSlots_inside width height width_range height_range) as [_ Hi].
    destruct (Hi s Hs') as [Hx Hy].
    pose proof (ghostBox_bounds width height width_range height_range) as Hb. cbv zeta in Hb.
    apply out_of_grid_false. fold box in Hb, Hx, Hy. lia. }
  rewrite placeSpawns_spec;
    [|exact Hs|apply (ghostSlots_inside width height width_range height_range)|].
  2:{ intros s Hs'. split; [apply Hin, Hs'|].
      apply (open_writes width height (fun c => c = "P"%char) g); [discriminate|exact Hs| | |].
      - apply writes_set. reflexivity.
      - apply Hslots, Hs'.
      - apply Hin, Hs'. }
  fold p. fold (ghost_tiles d).
  assert (Hsg : grid_shape (apply_writes (ghost_writes (ghost_tiles d)) (set g (fst p) (snd p) "P")))
    by apply shape_apply_writes, Hsp.
  split; [apply shape_enforceBorderWalls, Hsg|].
  exists g, p. split; [exact Hs|]. split; [exact Hall|].
  intros x y Hxy. rewrite enforceBorderWalls_get by assumption.
  destruct (decide (on_border width height x y)) as [|_]; [reflexivity|].
  destruct (decide ((x, y) ∈ ghost_tiles d)) as [Hg|Hg].
  - apply get_apply_writes_written; [exact Hsp|exact Hxy| |].
    + unfold ghost_writes. apply list_elem_of_In, in_map_iff. exists (x, y).
      split; [reflexivity|apply list_elem_of_In, Hg].
    + intros v' Hv'. unfold ghost_writes in Hv'.
      apply list_elem_of_In, in_map_iff in Hv' as (s & [= _ _ <-] & _). reflexivity.
  - rewrite get_apply_writes_other.
    + destruct (decide ((x, y) = p)) as [<-|Hp].
      * apply get_set_eq; assumption.
      * apply get_set_ne. destruct p. exact (fun H => Hp (eq_sym H)).
    + intros v Hv. unfold ghost_writes in Hv.
      apply list_elem_of_In, in_map_iff in Hv as ([sx sy] & [= -> -> _] & Hs').
      apply Hg, list_elem_of_In, Hs'.
Qed.

(** Every tile of the border ring is a wall. *)
Lemma buildGrid_border groupWidth groupHeight groupDefs d x y :
  out_of_grid x y = false -> on_border width height x y ->
  get (buildGrid width height groupWidth groupHeight groupDefs d) x y = Some "#"%char.
Proof.
  intros Hxy Hb. destruct (buildGrid_get groupWidth groupHeight groupDefs d) as (_ & g & p & _ & _ & Hget).
  rewrite Hget by exact Hxy. destruct (decide (on_border width height x y)); [reflexivity|contradiction].
Qed.

(** The ghost starts are exactly the ghost tiles. *)
Lemma buildGrid_ghosts groupWidth groupHeight groupDefs d x y :
  out_of_grid x y = false ->
  get (buildGrid width height groupWidth groupHeight groupDefs d) x y = Some "G"%char
  <-> (x, y) ∈ ghost_tiles d.
Proof.
  intros Hxy. destruct (buildGrid_get groupWidth groupHeight groupDefs d) as (_ & g & p & _ & Hall & Hget).
  rewrite Hget by exact Hxy. split.
  - destruct (decide (on_border width height x y)); [discriminate|].
    destruct (decide ((x, y) ∈ ghost_tiles d)) as [Hg|_]; [intros _; exact Hg|].
    destruct (decide ((x, y) = p)); [discriminate|].
    intros Hc. apply Hall in Hc. destruct Hc as [[Hc|[Hc|Hc]]|Hc]; discriminate Hc.
  - intros Hg. destruct (ghost_tiles_off_border d (x, y) Hg) as [_ Hnb]. cbn [fst snd] in Hnb.
    destruct (decide (on_border width height x y)); [contradiction|].
    destruct (decide ((x, y) ∈ ghost_tiles d)); [reflexivity|contradiction].
Qed.

End FinalGrid.

(** *** The rows of the returned level *)

Lemma get_string_of_list_ascii (l : list ascii) (n : nat) :
  String.get n (string_of_list_ascii l) = l !! n.
Proof.
  revert n. induction l as [|c l IH]; intros [|n]; simpl; try reflexivity. apply IH.
Qed.

Lemma length_string_of_list_ascii (l : list ascii) :
  String.length (string_of_list_ascii l) = length l.
Proof. induction l as [|c l IH]; simpl; [reflexivity|]. rewrite IH. reflexivity. Qed.

(** Row [r] of the output is row [height - 1 - r] of the generator's
    coordinate system (origin bottom-left). *)
Lemma rows_get width height (g : list (list ascii)) (x r : Z) :
  0 <= x < width -> 0 <= r < height -> grid_shape width height g ->
  PacRogue.get width height g x (height - 1 - r)
  = Some (char_at (grid_row (map string_of_list_ascii g) r) x).
Proof.
  intros Hx Hr Hs.
  assert (Hin : PacRogue.out_of_grid width height x (height - 1 - r) = false)
    by (apply out_of_grid_false; lia).
  destruct (get_in_grid width height g x (height - 1 - r) Hs Hin) as [c Hc]. rewrite Hc.
  unfold PacRogue.get in Hc. rewrite Hin in Hc.
  replace (height - 1 - (height - 1 - r)) with r in Hc by lia.
  unfold Grid2.lookup2 in Hc. destruct (g !! Z.to_nat r) as [row|] eqn:Hrow; [|discriminate].
  unfold grid_row, char_at.
  destruct (Z.ltb_spec r 0); [lia|]. destruct (Z.ltb_spec x 0); [lia|].
  rewrite list_lookup_fmap, Hrow. cbn [fmap option_fmap option_map default].
  unfold id. rewrite get_string_of_list_ascii, Hc. reflexivity.
Qed.

Lemma rows_shape width height (g : list (list ascii)) :
  0 <= width -> 0 <= height -> grid_shape width height g ->
  Z.of_nat (length (map string_of_list_ascii g)) = height
  /\ forall row, row ∈ map string_of_list_ascii g -> str_length row = width.
Proof.
  intros Hw Hh [Hlen Hrows]. split; [rewrite length_map; lia|].
  intros row Hrow. apply list_elem_of_In, in_map_iff in Hrow as (l & <- & Hl).
  unfold str_length. rewrite length_string_of_list_ascii.
  rewrite Forall_forall in Hrows. rewrite (Hrows l); [lia|]. apply list_elem_of_In, Hl.
Qed.

(** ** pacRogue.ts: the player start *)

Section PlayerStart.
Variables (width height : Z).
Hypothesis width_range : 15 <= width <= 41.
Hypothesis height_range : 15 <= height <= 45.

Local Abbreviation get := (PacRogue.get width height).
Local Abbreviation set := (PacRogue.set width height).
Local Abbreviation out_of_grid := (PacRogue.out_of_grid width height).
Local Abbreviation get_is := (PacRogue.get_is width height).
Local Abbreviation grid_shape := (grid_shape width height).
Local Abbreviation all_in := (all_in width height).
Local Abbreviation apply_writes := (apply_writes width height).

(** The bottom row of the ghost box is at least three rows up. *)
Lemma ghostBox_y0 : 3 <= y0 (ghostBoxOf width height).
Proof.
  unfold ghostBoxOf. cbv zeta. cbn [y0].
  assert (Hbh : clampInt 11 7 (Z.max 7 (height - 2)) = 11) by (unfold clampInt; lia).
  rewrite Hbh. change ((11 - 1) / 2) with 5.
  pose proof (Z.div_mod (height - 1) 2 ltac:(lia)) as Hd1.
  pose proof (Z.mod_pos_bound (height - 1) 2 ltac:(lia)) as Hm1.
  unfold clampInt. lia.
Qed.

(** Where the player start may go: strictly inside the border ring, and in
    one of the seven lowest rows or outside the ghost box. *)
Definition player_spot (p : Z * Z) : Prop :=
  (1 <= fst p <= width - 2 /\ 1 <= snd p <= height - 2)
  /\ (snd p <= 7 \/ inGhostBox (ghostBoxOf width height) (fst p) (snd p) = false).

Lemma head_filter {A} (P : A -> bool) (l : list A) (c : A) (rest : list A) :
  filter (fun a => P a = true) l = c :: rest -> c ∈ l /\ P c = true.
Proof.
  intros Heq. assert (Hin : c ∈ filter (fun a => P a = true) l) by (rewrite Heq; left).
  apply list_elem_of_filter in Hin as [HP Hin]. split; assumption.
Qed.

Lemma playerSpawn_spot g : player_spot (playerSpawn width height g (ghostBoxOf width height)).
Proof.
  pose proof (ghostBox_bounds width height width_range height_range) as Hb. cbv zeta in Hb.
  pose proof ghostBox_y0 as Hy0.
  pose proof (Z.div_mod width 2 ltac:(lia)) as Hd. pose proof (Z.mod_pos_bound width 2 ltac:(lia)) as Hm.
  set (box := ghostBoxOf width height) in *.
  unfold playerSpawn. cbv zeta.
  set (l1 := filter _ (seqZ 1 (Z.max 2 (y0 box) - 1))).
  set (p1 := match l1 with y :: _ => (width / 2, y) | [] => (width / 2, 1) end).
  assert (H1 : player_spot p1).
  { unfold p1. destruct l1 as [|y l1'] eqn:Hl1; unfold player_spot; cbn [fst snd].
    - split; [lia|]. left. lia.
    - apply head_filter in Hl1 as [Hin _]. apply elem_of_seqZ in Hin.
      split; [lia|]. right. fold box. unfold inGhostBox. lia. }
  set (l2 := filter _ (_ ≫= _)).
  set (p2 := if get_is g (fst p1) (snd p1) "#"
             then match l2 with c :: _ => c | [] => p1 end else p1).
  assert (H2 : player_spot p2).
  { unfold p2. destruct (get_is g (fst p1) (snd p1) "#"); [|exact H1].
    destruct l2 as [|c l2'] eqn:Hl2; [exact H1|].
    apply head_filter in Hl2 as [Hin Hc]. apply list_elem_of_bind in Hin as (y & Hin & Hy).
    apply list_elem_of_bind in Hin as (dx & Hin & Hdx).
    apply list_elem_of_singleton in Hin as ->. apply elem_of_seqZ in Hy. cbn [fst snd] in Hc.
    apply andb_true_iff in Hc as [Hc _]. unfold player_spot. cbn [fst snd].
    split; [lia|]. left. lia. }
  destruct (get_is g (fst p2) (snd p2) "#"); [|exact H2].
  match goal with |- player_spot match ?l with _ => _ end => destruct l as [|c l3'] eqn:Hl3 end;
    [exact H2|].
  apply head_filter in Hl3 as [Hin Hc]. destruct c as [x y].
  apply elem_of_cells_yx in Hin. cbn [fst snd] in Hc. apply andb_true_iff in Hc as [Hc _].
  unfold player_spot. cbn [fst snd]. split; [lia|]. right. fold box.
  destruct (inGhostBox box x y); [discriminate Hc|reflexivity].
Qed.

(** The ghost tiles lie in the ghost box, in its middle row, which is the
    eighth row or a higher one. *)
Lemma ghost_tiles_row d s :
  s ∈ ghost_tiles width height d ->
  8 <= snd s /\ inGhostBox (ghostBoxOf width height) (fst s) (snd s) = true.
Proof.
  intros Hs. pose proof (ghost_tiles_inside width height width_range height_range d s Hs) as [Hx Hy].
  pose proof ghostBox_y0 as Hy0.
  pose proof (ghostBox_bounds width height width_range height_range) as Hb. cbv zeta in Hb.
  split; [|unfold inGhostBox; lia].
  unfold ghost_tiles in Hs. apply elem_of_take in Hs as (i & Hi & Hlt).
  assert (Hgy : (y0 (ghostBoxOf width height) + y1 (ghostBoxOf width height)) / 2
                = y0 (ghostBoxOf width height) + 5).
  { replace (y0 (ghostBoxOf width height) + y1 (ghostBoxOf width height))
      with ((y0 (ghostBoxOf width height) + 5) * 2) by lia. apply Z.div_mul. lia. }
  unfold ghostSlots in Hi. cbv zeta in Hi. rewrite Hgy in Hi.
  assert (Hw : (i < 3)%nat) by (destruct d; cbn in Hlt; lia).
  set (box := ghostBoxOf width height) in *. clearbody box.
  destruct i as [|[|[|i]]]; [| | |lia]; cbn in Hi; injection Hi as <-; cbn [snd]; lia.
Qed.

Lemma player_spot_free d p : player_spot p -> p ∉ ghost_tiles width height d.
Proof.
  intros [_ Hp] Hin. apply ghost_tiles_row in Hin as [Hrow Hbox].
  destruct Hp as [Hp|Hp]; [lia|congruence].
Qed.

(** The grid that [buildGrid] returns holds legend characters only, and the
    player start on exactly one tile, strictly inside the border ring. *)
Lemma buildGrid_player groupWidth groupHeight groupDefs d :
  exists p,
    (1 <= fst p <= width - 2 /\ 1 <= snd p <= height - 2)
    /\ forall x y, out_of_grid x y = false ->
         (get (buildGrid width height groupWidth groupHeight groupDefs d) x y = Some "P"%char
          <-> (x, y) = p)
         /\ exists c, get (buildGrid width height groupWidth groupHeight groupDefs d) x y = Some c
                      /\ isLegendChar c = true.
Proof.
  destruct (buildGrid_stages width height width_range height_range groupWidth groupHeight groupDefs d)
    as (g & (Hs & Hall & Hslots) & ->).
  set (box := ghostBoxOf width height) in *.
  pose proof (playerSpawn_spot g) as Hspot. fold box in Hspot.
  set (p := playerSpawn width height g box) in *.
  assert (Hsp : grid_shape (set g (fst p) (snd p) "P")) by apply shape_set, Hs.
  assert (Hin : forall s, s ∈ ghostSlots box -> out_of_grid (fst s) (snd s) = false).
  { intros s Hs'. destruct (ghostSlots_inside width height width_range height_range) as [_ Hi].
    destruct (Hi s Hs') as [Hx Hy].
    pose proof (ghostBox_bounds width height width_range height_range) as Hb. cbv zeta in Hb.
    apply out_of_grid_false. fold box in Hb, Hx, Hy. lia. }
  rewrite placeSpawns_spec;
    [|exact Hs|apply (ghostSlots_inside width height width_range height_range)|].
  2:{ intros s Hs'. split; [apply Hin, Hs'|].
      apply (open_writes width height (fun c => c = "P"%char) g); [discriminate|exact Hs| | |].
      - apply writes_set. reflexivity.
      - apply Hslots, Hs'.
      - apply Hin, Hs'. }
  fold p.
  change (take (Z.to_nat (wantedGhosts d)) (ghostSlots box)) with (ghost_tiles width height d).
  assert (Hsg : grid_shape (apply_writes (ghost_writes (ghost_tiles width height d))
                              (set g (fst p) (snd p) "P")))
    by apply shape_apply_writes, Hsp.
  exists p. split; [apply Hspot|]. intros x y Hxy.
  rewrite enforceBorderWalls_get by assumption.
  destruct (decide (on_border width height x y)) as [Hb|Hb].
  { split; [|exists "#"%char; split; reflexivity].
    split; [discriminate|]. intros <-. destruct Hspot as [Hr _]. cbn [fst snd] in Hr.
    unfold on_border in Hb. lia. }
  destruct (decide ((x, y) ∈ ghost_tiles width height d)) as [Hg|Hg].
  - rewrite (get_apply_writes_written width height _ _ x y "G"%char); [|exact Hsp|exact Hxy| |].
    + split; [|exists "G"%char; split; reflexivity].
      split; [discriminate|]. intros <-. destruct (player_spot_free d _ Hspot Hg).
    + unfold ghost_writes. apply list_elem_of_In, in_map_iff. exists (x, y).
      split; [reflexivity|apply list_elem_of_In, Hg].
    + intros v' Hv'. unfold ghost_writes in Hv'.
      apply list_elem_of_In, in_map_iff in Hv' as (s & [= _ _ <-] & _). reflexivity.
  - rewrite get_apply_writes_other.
    2:{ intros v Hv. unfold ghost_writes in Hv.
        apply list_elem_of_In, in_map_iff in Hv as ([sx sy] & [= -> -> _] & Hs').
        apply Hg, list_elem_of_In, Hs'. }
    destruct (decide ((x, y) = p)) as [<-|Hp].
    + rewrite get_set_eq by assumption. split; [|exists "P"%char; split; reflexivity].
      split; reflexivity.
    + rewrite get_set_ne by (destruct p; exact (fun H => Hp (eq_sym H))).
      destruct (get_in_grid width height g x y Hs Hxy) as [c Hc]. rewrite Hc.
      pose proof (Hall x y c Hc) as Hpre. split.
      * split; [|intros Heq; contradiction].
        intros [= ->]. destruct Hpre as [[Hc'|[Hc'|Hc']]|Hc']; discriminate Hc'.
      * exists c. split; [reflexivity|].
        destruct Hpre as [[-> | [-> | ->]] | ->]; reflexivity.
Qed.

End PlayerStart.

(** ** pacRogue.ts: empty tiles and power pellets of the generated grid *)

Section Layout.
Variables (width height : Z).
Hypothesis width_range : 15 <= width <= 41.
Hypothesis height_range : 15 <= height <= 45.

Local Abbreviation get := (PacRogue.get width height).
Local Abbreviation set := (PacRogue.set width height).
Local Abbreviation out_of_grid := (PacRogue.out_of_grid width height).
Local Abbreviation get_is := (PacRogue.get_is width height).
Local Abbreviation writes := (writes width height).
Local Abbreviation grid_shape := (grid_shape width height).
Local Abbreviation all_in := (all_in width height).

Let box := ghostBoxOf width height.

(** The characters of a generated grid. *)
Definition gen_char (c : ascii) : Prop := pre_spawn c \/ c = "P"%char \/ c = "G"%char.

Lemma get_set_cases g x y v x' y' c :
  grid_shape g -> get (set g x y v) x' y' = Some c ->
  get g x' y' = Some c \/ ((x', y') = (x, y) /\ c = v).
Proof.
  intros Hs Hc. destruct (decide ((x, y) = (x', y'))) as [Heq|Hne].
  - injection Heq as <- <-. right. split; [reflexivity|].
    pose proof (get_Some_in_grid width height _ _ _ _ Hc) as Hin.
    rewrite (get_set_eq width height g x y v Hs Hin) in Hc. congruence.
  - left. rewrite (get_set_ne width height g x y v x' y' Hne) in Hc. exact Hc.
Qed.

Lemma get_is_true g x y c : get_is g x y c = true <-> get g x y = Some c.
Proof.
  unfold PacRogue.get_is. destruct (get g x y) as [c'|]; [|split; discriminate].
  rewrite Ascii.eqb_eq. split; congruence.
Qed.

(** *** [placePowerPellets] *)

Lemma placeMirrored_power g x y x' y' :
  grid_shape g -> get (placeMirrored width height g x y) x' y' = Some "o"%char ->
  get g x' y' = Some "o"%char \/ (x', y') ∈ [(x, y); (width - 1 - x, y)].
Proof.
  intros Hs. unfold placeMirrored. cbv zeta.
  set (g1 := if get_is g x y "." then set g x y "o" else g).
  assert (Hs1 : grid_shape g1) by (unfold g1; destruct (get_is g x y "."); [apply shape_set|]; exact Hs).
  assert (H1 : forall c, get g1 x' y' = Some c -> get g x' y' = Some c \/ (x', y') = (x, y)).
  { intros c Hc. unfold g1 in Hc. destruct (get_is g x y "."); [|left; exact Hc].
    apply get_set_cases in Hc as [Hc|[Hc _]]; [left; exact Hc|right; exact Hc|exact Hs]. }
  intros Hc. destruct (get_is g1 (width - 1 - x) y ".").
  - apply get_set_cases in Hc as [Hc|[Hc _]]; [|right; rewrite Hc; right; left|exact Hs1].
    destruct (H1 _ Hc) as [H|H]; [left; exact H|right; rewrite H; left].
  - destruct (H1 _ Hc) as [H|H]; [left; exact H|right; rewrite H; left].
Qed.

Lemma place_power_band_power g ghostBox ys :
  grid_shape g ->
  exists L, (length L <= 2)%nat
    /\ forall x y, get (place_power_band width height g ghostBox ys) x y = Some "o"%char ->
         get g x y = Some "o"%char \/ (x, y) ∈ L.
Proof.
  intros Hs. unfold place_power_band. cbv zeta. destruct (filter _ _) as [|[x y] ?].
  - exists []. split; [simpl; lia|]. intros x y Hc. left. exact Hc.
  - exists [(x, y); (width - 1 - x, y)]. split; [simpl; lia|].
    intros x' y'. apply placeMirrored_power, Hs.
Qed.

Lemma placePowerPellets_power g ghostBox :
  grid_shape g -> (forall x y, get g x y <> Some "o"%char) ->
  exists L, (length L <= 4)%nat
    /\ forall x y, get (placePowerPellets width height g ghostBox) x y = Some "o"%char -> (x, y) ∈ L.
Proof.
  intros Hs Hno. unfold placePowerPellets. cbv zeta.
  set (ys1 := seqZ 2 (Z.min (height - 2) 8 - 2)).
  set (g1 := place_power_band width height g ghostBox ys1).
  assert (Hw1 : writes opening g g1)
    by (apply (writes_place_power_band width height opening); right; reflexivity).
  destruct (Hw1 Hs) as [Hs1 _].
  destruct (place_power_band_power g ghostBox ys1 Hs) as (L1 & Hlen1 & HL1). fold g1 in HL1.
  destruct (place_power_band_power g1 ghostBox
              (map (fun i => height - 3 - i) (seqZ 0 (height - 3 - Z.max 1 (height - 9)))) Hs1)
    as (L2 & Hlen2 & HL2).
  exists (L1 ++ L2). split; [rewrite length_app; lia|].
  intros x y Hc. apply elem_of_app. destruct (HL2 x y Hc) as [Hc1|Hin]; [|right; exact Hin].
  destruct (HL1 x y Hc1) as [Hc0|Hin]; [|left; exact Hin]. destruct (Hno x y Hc0).
Qed.

(** *** [fillPelletsOutsideGhostBox] *)

Let fill_step (ghostBox : GhostBox) := fun (grid : list (list ascii)) (c : Z * Z) =>
  let '(x, y) := c in
  if inGhostBox ghostBox x y then grid else
  if get_is grid x y " " || get_is grid x y "." then set grid x y "." else grid.

Lemma shape_fill_step ghostBox g a : grid_shape g -> grid_shape (fill_step ghostBox g a).
Proof.
  intros Hs. unfold fill_step. destruct a as [x y]. destruct (inGhostBox ghostBox x y); [exact Hs|].
  destruct (_ || _); [apply shape_set|]; exact Hs.
Qed.

Lemma fill_step_keeps ghostBox g a x y c :
  grid_shape g -> get (fill_step ghostBox g a) x y = Some c -> c <> "."%char -> get g x y = Some c.
Proof.
  intros Hs Hc Hne. unfold fill_step in Hc. destruct a as [ax ay].
  destruct (inGhostBox ghostBox ax ay); [exact Hc|]. destruct (_ || _); [|exact Hc].
  apply get_set_cases in Hc as [Hc|[_ Hc]]; [exact Hc|contradiction|exact Hs].
Qed.

(** The loop overwrites nothing but empty tiles and pellets. *)
Lemma fill_fold_keeps ghostBox cells g x y c :
  grid_shape g -> get (fold_left (fill_step ghostBox) cells g) x y = Some c -> c <> "."%char ->
  get g x y = Some c.
Proof.
  revert g. induction cells as [|a cells IH]; intros g Hs Hc Hne; [exact Hc|].
  cbn [fold_left] in Hc. apply (fill_step_keeps ghostBox g a); [exact Hs| |exact Hne].
  apply IH; [apply shape_fill_step, Hs|exact Hc|exact Hne].
Qed.

(** No tile that the loop visits outside the ghost box is left empty. *)
Lemma fill_fold_no_space ghostBox cells g x y :
  grid_shape g -> (x, y) ∈ cells -> inGhostBox ghostBox x y = false ->
  get (fold_left (fill_step ghostBox) cells g) x y <> Some " "%char.
Proof.
  revert g. induction cells as [|a cells IH]; intros g Hs Hin Hbox Hc.
  - apply elem_of_nil in Hin as [].
  - cbn [fold_left] in Hc. apply elem_of_cons in Hin as [<-|Hin].
    + apply fill_fold_keeps in Hc; [|apply shape_fill_step, Hs|discriminate].
      pose proof (fill_step_keeps ghostBox g (x, y) x y _ Hs Hc ltac:(discriminate)) as Hg.
      unfold fill_step in Hc. rewrite Hbox in Hc.
      apply get_is_true in Hg. rewrite Hg in Hc. cbn [orb] in Hc.
      apply get_is_true in Hg. pose proof (get_Some_in_grid width height _ _ _ _ Hg) as Hgrid.
      rewrite (get_set_eq width height g x y _ Hs Hgrid) in Hc. discriminate Hc.
    + exact (IH (fill_step ghostBox g a) (shape_fill_step ghostBox g a Hs) Hin Hbox Hc).
Qed.

(** *** [placeSpawns] *)

Lemma writes_placeSpawns (S : ascii -> Prop) g d ghostBox :
  S "P"%char -> S "G"%char -> writes S g (placeSpawns width height g d ghostBox).
Proof.
  intros HP HG. unfold placeSpawns. cbv zeta.
  set (p := playerSpawn width height g ghostBox).
  match goal with
  | |- context [fold_left ?f ?l ?st] =>
      pose proof (writes_fold_fst width height S f l st) as Hfold;
      destruct (fold_left f l st) as [g2 placed]
  end.
  cbn [fst] in Hfold.
  assert (H2 : writes S g g2).
  { eapply writes_trans; [apply (writes_set width height S g (fst p) (snd p)), HP|].
    apply Hfold. intros st s. destruct (_ <=? _); [apply writes_refl|].
    destruct (PacRogue.get_is _ _ _ _ _ _); [apply writes_refl|]. apply writes_set, HG. }
  destruct (placed =? 0); [|exact H2]. destruct (negb _); [|exact H2].
  eapply writes_trans; [exact H2|apply writes_set, HG].
Qed.

(** *** The grid that [buildGrid] returns *)

(** Up to [placePowerPellets] the grid holds walls, pellets and empty tiles
    only. *)
Lemma buildGrid_pellet_stage groupWidth groupHeight groupDefs d :
  exists g, grid_shape g /\ all_in base_char g
    /\ buildGrid width height groupWidth groupHeight groupDefs d
       = enforceBorderWalls width height
           (placeSpawns width height
              (fillPelletsOutsideGhostBox width height (placePowerPellets width height g box) box)
              d box).
Proof.
  unfold buildGrid. cbv zeta.
  set (g0 := replicate (Z.to_nat height) (replicate (Z.to_nat width) "#"%char)).
  set (g1 := expandGroups width height groupWidth groupHeight groupDefs g0).
  set (g2 := mirrorLeftToRight width height g1).
  set (g3 := enforceBorderWalls width height g2).
  pose proof (carveGhostBox_box width height g3 []) as Hcb.
  pose proof (writes_carveGhostBox width height g3 []) as Hcarve.
  destruct (carveGhostBox width height g3 []) as [[g4 ghostSpace] ghostBox].
  cbn [fst snd] in Hcb, Hcarve. subst ghostBox. fold box.
  set (g5 := addMissingPellets width height g4).
  set (g6 := removeIncorrectTiles width height g5 ghostSpace).
  set (g7 := connect_loop width height 80 g6 ghostSpace).
  set (g8 := removeIncorrectTiles width height g7 ghostSpace).
  exists g8.
  assert (Hs0 : grid_shape g0) by apply Grid2Facts.shape_replicate.
  assert (Ha0 : all_in base_char g0).
  { intros x y c Hc. unfold PacRogue.get in Hc. destruct (PacRogue.out_of_grid _ _ _ _); [discriminate|].
    unfold Grid2.lookup2 in Hc. destruct (g0 !! _) as [row|] eqn:Hrow; [|discriminate].
    apply lookup_replicate in Hrow as [-> _]. apply lookup_replicate in Hc as [-> _].
    left. reflexivity. }
  assert (Hid : forall c, base_char c -> base_char c) by (intros c Hc; exact Hc).
  assert (Hw1 := writes_expandGroups width height groupWidth groupHeight groupDefs g0). fold g1 in Hw1.
  destruct (Hw1 Hs0) as [Hs1 _].
  assert (Ha1 : all_in base_char g1)
    by exact (all_in_writes width height base_char base_char g0 g1 Hid Hs0 Hw1 Ha0).
  destruct (mirrorLeftToRight_inv width height base_char g1 Hs1 Ha1) as [Hs2 Ha2]. fold g2 in Hs2, Ha2.
  assert (Hw3 : writes base_char g2 g3)
    by (apply writes_enforceBorderWalls; left; reflexivity).
  destruct (Hw3 Hs2) as [Hs3 _].
  assert (Ha3 : all_in base_char g3)
    by exact (all_in_writes width height base_char base_char g2 g3 Hid Hs2 Hw3 Ha2).
  destruct (Hcarve Hs3) as [Hs4 _].
  assert (Ha4 : all_in base_char g4)
    by exact (all_in_writes width height base_char base_char g3 g4 Hid Hs3 Hcarve Ha3).
  assert (Hp : base_char "."%char) by (right; left; reflexivity).
  assert (Hw8 : writes base_char g4 g8).
  { eapply writes_trans; [apply (writes_addMissingPellets width height base_char Hp)|]. fold g5.
    eapply writes_trans; [apply (writes_removeIncorrectTiles width height base_char Hp)|]. fold g6.
    eapply writes_trans; [apply (writes_connect_loop width height base_char Hp)|]. fold g7.
    apply (writes_removeIncorrectTiles width height base_char Hp). }
  destruct (Hw8 Hs4) as [Hs8 _].
  split; [exact Hs8|]. split; [|reflexivity].
  exact (all_in_writes width height base_char base_char g4 g8 Hid Hs4 Hw8 Ha4).
Qed.

(** The grid that [buildGrid] returns holds walls, pellets, power pellets,
    empty tiles and the two start markers; its empty tiles lie in the
    rectangle of the ghost box; its power pellets lie on four tiles at
    most. *)
Lemma buildGrid_layout groupWidth groupHeight groupDefs d :
  all_in gen_char (buildGrid width height groupWidth groupHeight groupDefs d)
  /\ (forall x y,
        get (buildGrid width height groupWidth groupHeight groupDefs d) x y = Some " "%char ->
        inGhostBox box x y = true)
  /\ exists L, (length L <= 4)%nat
       /\ forall x y,
            get (buildGrid width height groupWidth groupHeight groupDefs d) x y = Some "o"%char ->
            (x, y) ∈ L.
Proof.
  destruct (buildGrid_pellet_stage groupWidth groupHeight groupDefs d) as (g8 & Hs8 & Ha8 & ->).
  set (g9 := placePowerPellets width height g8 box).
  set (g10 := fillPelletsOutsideGhostBox width height g9 box).
  set (g11 := placeSpawns width height g10 d box).
  assert (Hw9 : writes opening g8 g9)
    by (apply (writes_placePowerPellets width height opening); right; reflexivity).
  destruct (Hw9 Hs8) as [Hs9 _].
  assert (Hw10 : writes opening g9 g10)
    by (apply (writes_fillPelletsOutsideGhostBox width height opening); left; reflexivity).
  destruct (Hw10 Hs9) as [Hs10 _].
  assert (Hw11 : writes (fun c => c = "P"%char \/ c = "G"%char) g10 g11)
    by (apply writes_placeSpawns; [left|right]; reflexivity).
  destruct (Hw11 Hs10) as [Hs11 H11].
  assert (Ha10 : all_in pre_spawn g10).
  { apply (all_in_writes width height opening pre_spawn g9 g10); [|exact Hs9|exact Hw10|].
    - intros c [-> | ->]; [left; right; left|right]; reflexivity.
    - apply (all_in_writes width height opening pre_spawn g8 g9); [|exact Hs8|exact Hw9|].
      + intros c [-> | ->]; [left; right; left|right]; reflexivity.
      + intros x y c Hc. left. exact (Ha8 x y c Hc). }
  (* a tile of the returned grid that holds no wall and no start marker *)
  assert (Hold : forall x y c,
            get (enforceBorderWalls width height g11) x y = Some c ->
            c <> "#"%char -> c <> "P"%char -> c <> "G"%char ->
            ~ on_border width height x y /\ get g10 x y = Some c).
  { intros x y c Hc Hwall HP HG.
    pose proof (get_Some_in_grid width height _ _ _ _ Hc) as Hin.
    rewrite (enforceBorderWalls_get width height g11 x y Hs11 Hin) in Hc.
    destruct (decide (on_border width height x y)) as [|Hnb]; [congruence|].
    split; [exact Hnb|]. destruct (H11 x y) as [Heq|(c' & Hc' & [-> | ->])]; congruence. }
  split; [|split].
  - intros x y c Hc.
    destruct (Ascii.eqb_spec c "#") as [->|Hwall]; [left; left; left; reflexivity|].
    destruct (Ascii.eqb_spec c "P") as [->|HP]; [right; left; reflexivity|].
    destruct (Ascii.eqb_spec c "G") as [->|HG]; [right; right; reflexivity|].
    left. destruct (Hold x y c Hc Hwall HP HG) as [_ Hc10]. exact (Ha10 x y c Hc10).
  - intros x y Hc.
    destruct (Hold x y _ Hc ltac:(discriminate) ltac:(discriminate) ltac:(discriminate))
      as [Hnb Hc10].
    destruct (inGhostBox box x y) eqn:Hbox; [reflexivity|exfalso].
    pose proof (get_Some_in_grid width height _ _ _ _ Hc10) as Hin.
    apply out_of_grid_false in Hin. unfold on_border in Hnb.
    refine (fill_fold_no_space box (cells_yx 1 (width - 1) 1 (height - 1)) g9 x y Hs9 _ Hbox Hc10).
    apply elem_of_cells_yx. lia.
  - destruct (placePowerPellets_power g8 box Hs8) as (L & Hlen & HL).
    { intros x y Hc. destruct (Ha8 x y _ Hc) as [H|[H|H]]; discriminate H. }
    exists L. split; [exact Hlen|]. intros x y Hc.
    destruct (Hold x y _ Hc ltac:(discriminate) ltac:(discriminate) ltac:(discriminate))
      as [_ Hc10].
    apply HL. exact (fill_fold_keeps box _ g9 x y _ Hs9 Hc10 ltac:(discriminate)).
Qed.

End Layout.

(** ** pacRogue.ts: the tile groups *)

Lemma Shape_eqb_eq (a b : Shape) : Shape_eqb a b = true <-> a = b.
Proof. destruct a, b; simpl; split; intros H; try reflexivity; discriminate H. Qed.

Lemma has_shape_true (l : list Shape) (s : Shape) : has_shape l s = true <-> s ∈ l.
Proof.
  unfold has_shape. rewrite existsb_exists. split.
  - intros (s' & Hin & Heq). apply Shape_eqb_eq in Heq as ->. apply list_elem_of_In, Hin.
  - intros Hin. exists s. split; [apply list_elem_of_In, Hin|apply Shape_eqb_eq; reflexivity].
Qed.

Lemma has_shape_false (l : list Shape) (s : Shape) : has_shape l s = false <-> s ∉ l.
Proof.
  rewrite <- has_shape_true. destruct (has_shape l s); intuition congruence.
Qed.

Lemma elem_of_removeAll (target toRemove : list Shape) (s : Shape) :
  s ∈ removeAll target toRemove <-> s ∈ target /\ s ∉ toRemove.
Proof.
  unfold removeAll. rewrite list_elem_of_filter, has_shape_false. tauto.
Qed.

(** A filter that drops nothing keeps every element. *)
Lemma filter_all {A} (P : A -> Prop) `{forall x, Decision (P x)} (l : list A) :
  length (filter P l) = length l -> forall x, x ∈ l -> P x.
Proof.
  intros Hlen x Hx. destruct (decide (P x)) as [HP|HP]; [exact HP|].
  pose proof (length_filter_lt P l x Hx HP). lia.
Qed.

(** The shape without a connection is never invalid for a neighbour of
    itself, so it is not removed while the current tile may take it. *)
Lemma intersectRemovals_empty (currentOptions : list Shape) (d : Dir) :
  PacRogue.empty ∈ currentOptions -> PacRogue.empty ∉ intersectRemovals currentOptions d.
Proof.
  intros Hin Hrem. unfold intersectRemovals in Hrem.
  apply list_elem_of_filter in Hrem as [Hp _]. cbv zeta in Hp.
  apply andb_true_iff in Hp as [_ Hp]. apply Nat.eqb_eq in Hp.
  pose proof (length_filter_lt
                (fun s => has_shape (invalidNeighborShapes s d) PacRogue.empty = true)
                currentOptions PacRogue.empty Hin) as Hlt.
  assert (Hno : has_shape (invalidNeighborShapes PacRogue.empty d) PacRogue.empty <> true)
    by (destruct d; discriminate).
  specialize (Hlt Hno). lia.
Qed.

Lemma intersectRemovals_nil (d : Dir) : intersectRemovals [] d = [].
Proof. destruct d; reflexivity. Qed.

(** *** The option lists *)

Lemma opt_get_set_ne (o : list (list (list Shape))) x y v x' y' :
  (x, y) <> (x', y') -> opt_get (opt_set o x y v) x' y' = opt_get o x' y'.
Proof.
  intros Hne. unfold opt_get, opt_set.
  destruct ((x' <? 0) || (y' <? 0)) eqn:H'; [reflexivity|].
  destruct ((x <? 0) || (y <? 0)) eqn:H0; [reflexivity|].
  rewrite Grid2Facts.lookup2_insert2_ne; [reflexivity|].
  intros [= Hx Hy]. apply Hne. f_equal; lia.
Qed.

Lemma opt_get_set_eq (o : list (list (list Shape))) x y v :
  opt_get o x y <> [] -> opt_get (opt_set o x y v) x y = v.
Proof.
  unfold opt_get, opt_set. destruct ((x <? 0) || (y <? 0)); [intros H; destruct (H eq_refl)|].
  destruct (Grid2.lookup2 o (Z.to_nat x) (Z.to_nat y)) as [old|] eqn:Hold;
    [|intros H; destruct (H eq_refl)].
  intros _. rewrite Grid2Facts.lookup2_insert2_eq by (rewrite Hold; eexists; reflexivity).
  reflexivity.
Qed.

Section TileGroupFacts.
Variables (groupWidth groupHeight : Z).

(** A shape that a group at [(x, y)] may take when it is on the left, bottom
    or top border of the group grid: no connection out of the grid. *)
Definition fits_border (x y : Z) (s : Shape) : Prop :=
  (x = 0 -> s ∉ CONNECTIONS west)
  /\ (y = 0 -> s ∉ CONNECTIONS south)
  /\ (y = groupHeight - 1 -> s ∉ CONNECTIONS north).

Lemma fits_border_empty x y : fits_border x y PacRogue.empty.
Proof. repeat split; intros _; apply has_shape_false; reflexivity. Qed.

(** No option list of [o'] has a shape that the list of [o] has not. *)
Definition narrows (o o' : list (list (list Shape))) : Prop :=
  forall x y s, s ∈ opt_get o' x y -> s ∈ opt_get o x y.

(** Every option list still offers the shape without a connection. *)
Definition keeps_empty (o : list (list (list Shape))) : Prop :=
  forall x y, opt_get o x y = [] \/ PacRogue.empty ∈ opt_get o x y.

Definition groups_shape (o : list (list (list Shape))) : Prop :=
  Grid2.shape (Z.to_nat groupWidth) (Z.to_nat groupHeight) o.

Lemma narrows_refl o : narrows o o.
Proof. intros x y s Hs. exact Hs. Qed.

Lemma narrows_trans o1 o2 o3 : narrows o1 o2 -> narrows o2 o3 -> narrows o1 o3.
Proof. intros H12 H23 x y s Hs. apply H12, H23, Hs. Qed.

Lemma shape_opt_set o x y v : groups_shape o -> groups_shape (opt_set o x y v).
Proof.
  intros Hs. unfold opt_set. destruct ((x <? 0) || (y <? 0)); [exact Hs|].
  apply Grid2Facts.shape_insert2, Hs.
Qed.

(** Replacing a non-empty option list by a part of it. *)
Lemma narrows_opt_set o x y v :
  opt_get o x y <> [] -> (forall s, s ∈ v -> s ∈ opt_get o x y) -> narrows o (opt_set o x y v).
Proof.
  intros Hne Hsub x' y' s Hs. destruct (decide ((x, y) = (x', y'))) as [[= <- <-]|Hxy].
  - rewrite opt_get_set_eq in Hs by exact Hne. apply Hsub, Hs.
  - rewrite opt_get_set_ne in Hs by exact Hxy. exact Hs.
Qed.

Lemma keeps_empty_opt_set o x y v :
  opt_get o x y <> [] -> PacRogue.empty ∈ v -> keeps_empty o -> keeps_empty (opt_set o x y v).
Proof.
  intros Hne Hv Hk x' y'. destruct (decide ((x, y) = (x', y'))) as [[= <- <-]|Hxy].
  - right. rewrite opt_get_set_eq by exact Hne. exact Hv.
  - rewrite opt_get_set_ne by exact Hxy. apply Hk.
Qed.

(** *** [updateNeighbors] *)

Lemma update_neighbor_inv currentOpts st n :
  groups_shape (fst st) ->
  groups_shape (fst (update_neighbor groupWidth groupHeight currentOpts st n))
  /\ narrows (fst st) (fst (update_neighbor groupWidth groupHeight currentOpts st n))
  /\ (currentOpts = [] \/ PacRogue.empty ∈ currentOpts -> keeps_empty (fst st) ->
      keeps_empty (fst (update_neighbor groupWidth groupHeight currentOpts st n))).
Proof.
  destruct st as [options queue]. destruct n as [[dir nx] ny]. cbn [fst]. intros Hs.
  unfold update_neighbor.
  destruct (negb (inBoundsG groupWidth groupHeight nx ny));
    [split; [exact Hs|split; [apply narrows_refl|intros _ Hk; exact Hk]]|].
  destruct (length (opt_get options nx ny) <=? 1)%nat eqn:Hlen;
    [split; [exact Hs|split; [apply narrows_refl|intros _ Hk; exact Hk]]|].
  cbv zeta.
  destruct (length (intersectRemovals currentOpts (opposite dir)) =? 0)%nat eqn:Hrem;
    [split; [exact Hs|split; [apply narrows_refl|intros _ Hk; exact Hk]]|].
  destruct ((length (removeAll _ _) =? 0)%nat || _);
    [split; [exact Hs|split; [apply narrows_refl|intros _ Hk; exact Hk]]|].
  cbn [fst].
  assert (Hne : opt_get options nx ny <> []).
  { intros Hnil. rewrite Hnil in Hlen. discriminate Hlen. }
  split; [apply shape_opt_set, Hs|]. split.
  - apply narrows_opt_set; [exact Hne|]. intros s Hin. apply elem_of_removeAll in Hin as [Hin _].
    exact Hin.
  - intros Hcur Hk. apply keeps_empty_opt_set; [exact Hne| |exact Hk].
    apply elem_of_removeAll. split.
    + destruct (Hk nx ny) as [Hnil|Hin]; [contradiction|exact Hin].
    + destruct Hcur as [->|Hcur]; [|apply intersectRemovals_empty, Hcur].
      rewrite intersectRemovals_nil in Hrem. discriminate Hrem.
Qed.

Lemma update_neighbors_inv currentOpts neighbors st :
  groups_shape (fst st) ->
  groups_shape (fst (fold_left (update_neighbor groupWidth groupHeight currentOpts) neighbors st))
  /\ narrows (fst st)
       (fst (fold_left (update_neighbor groupWidth groupHeight currentOpts) neighbors st))
  /\ (currentOpts = [] \/ PacRogue.empty ∈ currentOpts -> keeps_empty (fst st) ->
      keeps_empty
        (fst (fold_left (update_neighbor groupWidth groupHeight currentOpts) neighbors st))).
Proof.
  revert st. induction neighbors as [|n neighbors IH]; intros st Hs.
  - split; [exact Hs|split; [apply narrows_refl|intros _ Hk; exact Hk]].
  - cbn [fold_left]. destruct (update_neighbor_inv currentOpts st n Hs) as (Hs1 & Hn1 & Hk1).
    destruct (IH _ Hs1) as (Hs2 & Hn2 & Hk2).
    split; [exact Hs2|]. split; [eapply narrows_trans; eassumption|].
    intros Hcur Hk. apply Hk2; [exact Hcur|apply Hk1; assumption].
Qed.

Lemma updateNeighbors_loop_inv fuel options queue :
  groups_shape options ->
  groups_shape (updateNeighbors_loop groupWidth groupHeight fuel options queue)
  /\ narrows options (updateNeighbors_loop groupWidth groupHeight fuel options queue)
  /\ (keeps_empty options ->
      keeps_empty (updateNeighbors_loop groupWidth groupHeight fuel options queue)).
Proof.
  revert options queue. induction fuel as [|fuel IH]; intros options queue Hs;
    [split; [exact Hs|split; [apply narrows_refl|intros Hk; exact Hk]]|].
  cbn [updateNeighbors_loop]. destruct queue as [|[cx cy] rest];
    [split; [exact Hs|split; [apply narrows_refl|intros Hk; exact Hk]]|].
  cbv zeta.
  match goal with |- context [fold_left ?f ?l (options, rest)] =>
    pose proof (update_neighbors_inv (opt_get options cx cy) l (options, rest) Hs)
      as (Hs1 & Hn1 & Hk1);
    destruct (fold_left f l (options, rest)) as [options' queue'] end.
  cbn [fst] in Hs1, Hn1, Hk1. destruct (IH options' queue' Hs1) as (Hs2 & Hn2 & Hk2).
  split; [exact Hs2|]. split; [eapply narrows_trans; eassumption|].
  intros Hk. apply Hk2, Hk1; [apply Hk|exact Hk].
Qed.

Lemma updateNeighbors_inv options x y :
  groups_shape options ->
  groups_shape (updateNeighbors groupWidth groupHeight options x y)
  /\ narrows options (updateNeighbors groupWidth groupHeight options x y)
  /\ (keeps_empty options -> keeps_empty (updateNeighbors groupWidth groupHeight options x y)).
Proof. apply updateNeighbors_loop_inv. Qed.

(** *** The border constraints *)

(** One of the three [if]s of a turn of the border-constraint loops. *)
Definition restrict_step (x y : Z) (cond : bool) (d : Dir)
    (st : list (list (list Shape)) * bool) : list (list (list Shape)) * bool :=
  if cond then
    let before := opt_get (fst st) x y in
    let after := removeAll before (CONNECTIONS d) in
    if (0 <? length after)%nat && negb (length after =? length before)%nat
    then (opt_set (fst st) x y after, true) else st
  else st.

Lemma border_constraint_steps options x y :
  border_constraint groupWidth groupHeight options (x, y) =
    let st := restrict_step x y (x =? 0) west (options, false) in
    let st := restrict_step x y (y =? 0) south st in
    let st := restrict_step x y (y =? groupHeight - 1) north st in
    if snd st then updateNeighbors groupWidth groupHeight (fst st) x y else fst st.
Proof. reflexivity. Qed.

Lemma restrict_step_inv x y cond d st :
  groups_shape (fst st) -> keeps_empty (fst st) ->
  groups_shape (fst (restrict_step x y cond d st))
  /\ keeps_empty (fst (restrict_step x y cond d st))
  /\ narrows (fst st) (fst (restrict_step x y cond d st))
  /\ (cond = true -> forall s, s ∈ opt_get (fst (restrict_step x y cond d st)) x y ->
        s ∉ CONNECTIONS d).
Proof.
  intros Hs Hk. unfold restrict_step.
  destruct cond; [|split; [exact Hs|split; [exact Hk|split; [apply narrows_refl|discriminate]]]].
  cbv zeta. set (before := opt_get (fst st) x y).
  set (after := removeAll before (CONNECTIONS d)).
  assert (Hafter : forall s, s ∈ after -> s ∈ before /\ s ∉ CONNECTIONS d)
    by (intros s; apply elem_of_removeAll).
  destruct (Nat.ltb_spec 0 (length after)) as [Hpos|Hzero]; cbn [andb].
  - destruct (Nat.eqb_spec (length after) (length before)) as [Hsame|Hless]; cbn [negb].
    + split; [exact Hs|]. split; [exact Hk|]. split; [apply narrows_refl|].
      intros _ s Hin. fold before in Hin. apply has_shape_false.
      exact (filter_all _ before Hsame s Hin).
    + assert (Hne : before <> []) by (intros Hnil; unfold after in Hpos; rewrite Hnil in Hpos;
                                         cbn in Hpos; lia).
      cbn [fst]. split; [apply shape_opt_set, Hs|]. split; [|split].
      * apply keeps_empty_opt_set; [exact Hne| |exact Hk].
        apply elem_of_removeAll. split.
        -- destruct (Hk x y) as [Hnil|Hin]; [contradiction|exact Hin].
        -- apply has_shape_false. destruct d; reflexivity.
      * apply narrows_opt_set; [exact Hne|]. intros s Hin. apply Hafter, Hin.
      * intros _ s Hin. rewrite opt_get_set_eq in Hin by exact Hne. apply Hafter, Hin.
  - split; [exact Hs|]. split; [exact Hk|]. split; [apply narrows_refl|].
    intros _ s Hin. fold before in Hin. exfalso.
    destruct (Hk x y) as [Hnil|Hempty].
    + fold before in Hnil. rewrite Hnil in Hin. apply elem_of_nil in Hin as [].
    + fold before in Hempty.
      assert (Hin' : PacRogue.empty ∈ after).
      { apply elem_of_removeAll. split; [exact Hempty|].
        apply has_shape_false. destruct d; reflexivity. }
      destruct after; [apply elem_of_nil in Hin' as []|cbn in Hzero; lia].
Qed.

Lemma border_constraint_inv options x y :
  groups_shape options -> keeps_empty options ->
  groups_shape (border_constraint groupWidth groupHeight options (x, y))
  /\ keeps_empty (border_constraint groupWidth groupHeight options (x, y))
  /\ narrows options (border_constraint groupWidth groupHeight options (x, y))
  /\ forall s, s ∈ opt_get (border_constraint groupWidth groupHeight options (x, y)) x y ->
       fits_border x y s.
Proof.
  intros Hs Hk. rewrite border_constraint_steps. cbv zeta.
  destruct (restrict_step_inv x y (x =? 0) west (options, false) Hs Hk) as (Hs1 & Hk1 & Hn1 & Hc1).
  set (st1 := restrict_step x y (x =? 0) west (options, false)) in *.
  destruct (restrict_step_inv x y (y =? 0) south st1 Hs1 Hk1) as (Hs2 & Hk2 & Hn2 & Hc2).
  set (st2 := restrict_step x y (y =? 0) south st1) in *.
  destruct (restrict_step_inv x y (y =? groupHeight - 1) north st2 Hs2 Hk2)
    as (Hs3 & Hk3 & Hn3 & Hc3).
  set (st3 := restrict_step x y (y =? groupHeight - 1) north st2) in *.
  cbn [fst] in Hn1.
  assert (Hfit : forall s, s ∈ opt_get (fst st3) x y -> fits_border x y s).
  { intros s Hin. split; [|split].
    - intros ->. apply Hc1; [reflexivity|]. apply Hn2, Hn3, Hin.
    - intros ->. apply Hc2; [reflexivity|]. apply Hn3, Hin.
    - intros ->. apply Hc3; [apply Z.eqb_refl|]. exact Hin. }
  assert (Hn : narrows options (fst st3))
    by (eapply narrows_trans; [exact Hn1|eapply narrows_trans; eassumption]).
  destruct (snd st3); [|split; [exact Hs3|split; [exact Hk3|split; [exact Hn|exact Hfit]]]].
  destruct (updateNeighbors_inv (fst st3) x y Hs3) as (Hs4 & Hn4 & Hk4).
  split; [exact Hs4|]. split; [apply Hk4, Hk3|]. split; [eapply narrows_trans; eassumption|].
  intros s Hin. apply Hfit, Hn4, Hin.
Qed.

Lemma border_constraints_inv cells options :
  groups_shape options -> keeps_empty options ->
  groups_shape (fold_left (border_constraint groupWidth groupHeight) cells options)
  /\ narrows options (fold_left (border_constraint groupWidth groupHeight) cells options)
  /\ forall x y s, (x, y) ∈ cells ->
       s ∈ opt_get (fold_left (border_constraint groupWidth groupHeight) cells options) x y ->
       fits_border x y s.
Proof.
  revert options. induction cells as [|[cx cy] cells IH]; intros options Hs Hk.
  - split; [exact Hs|]. split; [apply narrows_refl|]. intros x y s Hin. apply elem_of_nil in Hin as [].
  - cbn [fold_left]. destruct (border_constraint_inv options cx cy Hs Hk) as (Hs1 & Hk1 & Hn1 & Hc1).
    destruct (IH _ Hs1 Hk1) as (Hs2 & Hn2 & Hc2).
    split; [exact Hs2|]. split; [eapply narrows_trans; eassumption|].
    intros x y s Hin Hs'. apply elem_of_cons in Hin as [[= -> ->]|Hin].
    + apply Hc1, Hn2, Hs'.
    + eapply Hc2; eassumption.
Qed.

(** *** The picks *)

Lemma pick_by_weight_elem r available weights last_ :
  pick_by_weight r available weights last_ ∈ available
  \/ pick_by_weight r available weights last_ = last_.
Proof.
  revert r weights. induction available as [|s available IH]; intros r weights; [right; reflexivity|].
  destruct weights as [|w weights]; [right; reflexivity|]. cbn [pick_by_weight]. cbv zeta.
  destruct (PrimFloat.leb (PrimFloat.sub r w) 0); [left; left|].
  destruct (IH (PrimFloat.sub r w) weights) as [Hin|Heq]; [left; right; exact Hin|right; exact Heq].
Qed.

Lemma pickWeightedShape_elem d available rng :
  fst (pickWeightedShape d available rng) ∈ available
  \/ fst (pickWeightedShape d available rng) = PacRogue.empty.
Proof.
  unfold pickWeightedShape. cbv zeta. destruct (PrimFloat.leb _ 0); destruct (rng_next rng) as [f rng'];
    cbn [fst].
  - unfold lookupZ. destruct (_ <? 0); [right; reflexivity|].
    destruct (available !! _) as [s|] eqn:Hs; [left; eapply list_elem_of_lookup_2, Hs|right; reflexivity].
  - match goal with |- context [pick_by_weight ?r ?a ?w ?l] =>
      destruct (pick_by_weight_elem r a w l) as [Hin|Heq]; [left; exact Hin|rewrite Heq] end.
    destruct (last available) as [s|] eqn:Hs; [left; apply last_Some_elem_of, Hs|right; reflexivity].
Qed.

Lemma resolve_remaining_inv d n remaining options rng options' rng' :
  groups_shape options ->
  resolve_remaining groupWidth groupHeight d n remaining options rng = Some (options', rng') ->
  groups_shape options'
  /\ forall x y s, s ∈ opt_get options' x y -> s ∈ opt_get options x y \/ s = PacRogue.empty.
Proof.
  revert remaining options rng. induction n as [|n IH]; intros remaining options rng Hs Hres.
  - cbn in Hres. injection Hres as <- <-. split; [exact Hs|]. intros x y s Hin. left. exact Hin.
  - cbn [resolve_remaining] in Hres. destruct (rng_next rng) as [f rng1].
    cbv zeta in Hres. destruct (lookupZ remaining _) as [[x y]|]; [|discriminate Hres].
    destruct (1 <? length (opt_get options x y))%nat eqn:Hlen; [|exact (IH _ _ _ Hs Hres)].
    pose proof (pickWeightedShape_elem d (opt_get options x y) rng1) as Hpick.
    destruct (pickWeightedShape d (opt_get options x y) rng1) as [pick rng2]. cbn [fst] in Hpick.
    assert (Hne : opt_get options x y <> []).
    { intros Hnil. rewrite Hnil in Hlen. discriminate Hlen. }
    pose proof (shape_opt_set options x y [pick] Hs) as Hs1.
    destruct (updateNeighbors_inv (opt_set options x y [pick]) x y Hs1) as (Hs2 & Hn2 & _).
    destruct (IH _ _ _ Hs2 Hres) as (Hs3 & Hn3). split; [exact Hs3|].
    intros x' y' s Hin. destruct (Hn3 x' y' s Hin) as [Hin2|Hempty]; [|right; exact Hempty].
    apply Hn2 in Hin2. destruct (decide ((x, y) = (x', y'))) as [[= <- <-]|Hxy].
    + rewrite opt_get_set_eq in Hin2 by exact Hne. apply list_elem_of_singleton in Hin2 as ->.
      exact Hpick.
    + rewrite opt_get_set_ne in Hin2 by exact Hxy. left. exact Hin2.
Qed.

(** What [generateTileGroups] returns: [groupWidth] columns of [groupHeight]
    shapes, none of which connects out of the left, bottom or top border of
    the group grid. *)
Lemma generateTileGroups_inv d rng groupDefs rng' :
  generateTileGroups groupWidth groupHeight d rng = Some (groupDefs, rng') ->
  Grid2.shape (Z.to_nat groupWidth) (Z.to_nat groupHeight) groupDefs
  /\ forall (i j : nat) s, Grid2.lookup2 groupDefs i j = Some s ->
       fits_border (Z.of_nat i) (Z.of_nat j) s.
Proof.
  unfold generateTileGroups. cbv zeta.
  set (o0 := replicate (Z.to_nat groupWidth) (replicate (Z.to_nat groupHeight) ALL_SHAPES)).
  set (cells := x ← seqZ 0 groupWidth; y ← seqZ 0 groupHeight; [(x, y)]).
  assert (Hs0 : groups_shape o0) by apply Grid2Facts.shape_replicate.
  assert (Hk0 : keeps_empty o0).
  { intros x y. unfold opt_get. destruct ((x <? 0) || (y <? 0)); [left; reflexivity|].
    destruct (Grid2.lookup2 o0 (Z.to_nat x) (Z.to_nat y)) as [cell|] eqn:Hcell; [|left; reflexivity].
    right. unfold Grid2.lookup2 in Hcell. destruct (o0 !! _) as [col|] eqn:Hcol; [|discriminate].
    apply lookup_replicate in Hcol as [-> _]. apply lookup_replicate in Hcell as [-> _].
    cbn [default from_option id]. apply has_shape_true. reflexivity. }
  destruct (border_constraints_inv cells o0 Hs0 Hk0) as (Hs1 & Hn1 & Hc1).
  set (o1 := fold_left (border_constraint groupWidth groupHeight) cells o0) in *.
  destruct (resolve_remaining _ _ _ _ _ _ _) as [[o2 rng2]|] eqn:Hres; [|discriminate].
  intros [= <- <-]. destruct (resolve_remaining_inv _ _ _ _ _ _ _ Hs1 Hres) as (Hs2 & Hn2).
  split.
  - destruct Hs2 as [Hlen Hcols]. split; [rewrite length_map; exact Hlen|].
    rewrite Forall_forall in Hcols. rewrite Forall_forall. intros col Hcol.
    apply list_elem_of_In, in_map_iff in Hcol as (col' & <- & Hcol').
    rewrite length_map. apply Hcols, list_elem_of_In, Hcol'.
  - intros i j s Hlook. unfold Grid2.lookup2 in Hlook. rewrite list_lookup_fmap in Hlook.
    destruct (o2 !! i) as [col|] eqn:Hcol; [|discriminate]. cbn in Hlook.
    rewrite list_lookup_fmap in Hlook.
    destruct (col !! j) as [cell|] eqn:Hcell; [|discriminate]. cbn in Hlook. injection Hlook as <-.
    assert (Hget : opt_get o2 (Z.of_nat i) (Z.of_nat j) = cell).
    { unfold opt_get. destruct (Z.ltb_spec (Z.of_nat i) 0); [lia|].
      destruct (Z.ltb_spec (Z.of_nat j) 0); [lia|]. cbn [orb].
      unfold Grid2.lookup2. rewrite !Nat2Z.id, Hcol, Hcell. reflexivity. }
    destruct (Grid2Facts.lookup2_Some_lt _ _ o2 i j cell Hs2) as [Hi Hj];
      [unfold Grid2.lookup2; rewrite Hcol; exact Hcell|].
    destruct cell as [|s cell']; [apply fits_border_empty|]. cbn [head default from_option id].
    destruct (Hn2 (Z.of_nat i) (Z.of_nat j) s) as [Hin| ->];
      [rewrite Hget; left| |apply fits_border_empty].
    apply (Hc1 (Z.of_nat i) (Z.of_nat j) s); [|exact Hin].
    unfold cells. apply list_elem_of_bind. exists (Z.of_nat i). split; [|apply elem_of_seqZ; lia].
    apply list_elem_of_bind. exists (Z.of_nat j). split; [left|apply elem_of_seqZ; lia].
Qed.

End TileGroupFacts.

(** ** pacRogue.ts: the ghost box is a room *)

Section Room.
Variables (width height : Z).
Hypothesis width_range : 15 <= width <= 41.
Hypothesis height_range : 15 <= height <= 45.

Local Abbreviation get := (PacRogue.get width height).
Local Abbreviation set := (PacRogue.set width height).
Local Abbreviation out_of_grid := (PacRogue.out_of_grid width height).
Local Abbreviation get_is := (PacRogue.get_is width height).
Local Abbreviation writes := (writes width height).
Local Abbreviation grid_shape := (grid_shape width height).
Local Abbreviation all_in := (all_in width height).
Local Abbreviation apply_writes := (apply_writes width height).

Let box := ghostBoxOf width height.

(** The tiles strictly inside the ghost box, the door in the middle of its
    top edge, and the tiles of the short corridor above the door that are
    not on the border ring. *)
Definition in_room (x y : Z) : Prop :=
  (x0 box < x < x1 box /\ y0 box < y < y1 box)
  \/ (x = (x0 box + x1 box) / 2 /\ y1 box <= y <= y1 box + 2 /\ y <= height - 2).

Lemma in_room_grid x y : in_room x y -> out_of_grid x y = false /\ ~ on_border width height x y.
Proof.
  pose proof (ghostBox_bounds width height width_range height_range) as Hb.
  cbv zeta in Hb. fold box in Hb.
  assert (Hdoor : x0 box + 6 <= (x0 box + x1 box) / 2 <= x0 box + 6)
    by (split; [apply Z.div_le_lower_bound|apply Z.lt_succ_r, Z.div_lt_upper_bound]; lia).
  intros [[Hx Hy]|[-> Hy]]; (split; [apply out_of_grid_false|unfold on_border]; lia).
Qed.

(** After [carveGhostBox] the door and the corridor are open. *)
Lemma carveGhostBox_door g ghostSpace y :
  grid_shape g -> y1 box <= y <= y1 box + 2 -> y <= height - 2 ->
  get_is (fst (fst (carveGhostBox width height g ghostSpace))) ((x0 box + x1 box) / 2) y "#"
  = false.
Proof.
  intros Hs Hy Hy'. rewrite carveGhostBox_writes. unfold carve_writes. cbv zeta. fold box.
  rewrite apply_writes_app. cbn [PacRogueFacts.apply_writes fold_left].
  destruct (in_room_grid ((x0 box + x1 box) / 2) y) as [Hin _];
    [right; split; [reflexivity|split; assumption]|].
  set (g1 := apply_writes _ g).
  assert (Hs1 : grid_shape g1) by apply shape_apply_writes, Hs.
  unfold PacRogue.get_is.
  assert (Hcase : y = y1 box \/ y = y1 box + 1 \/ y = y1 box + 2) by lia.
  destruct Hcase as [->|[->| ->]].
  - rewrite !get_set_ne by (intros Heq; injection Heq; intros; lia).
    rewrite get_set_eq by assumption. reflexivity.
  - rewrite get_set_ne by (intros Heq; injection Heq; intros; lia).
    rewrite get_set_eq; [reflexivity|apply shape_set, Hs1|exact Hin].
  - rewrite get_set_eq; [reflexivity|repeat apply shape_set; exact Hs1|exact Hin].
Qed.

(** No tile of the room is a wall in the grid that [buildGrid] returns. *)
Lemma buildGrid_room groupWidth groupHeight groupDefs d x y :
  in_room x y ->
  get_is (buildGrid width height groupWidth groupHeight groupDefs d) x y "#" = false.
Proof.
  intros Hroom. destruct (in_room_grid x y Hroom) as [Hin Hnb].
  unfold buildGrid. cbv zeta.
  set (g0 := replicate (Z.to_nat height) (replicate (Z.to_nat width) "#"%char)).
  set (g1 := expandGroups width height groupWidth groupHeight groupDefs g0).
  set (g2 := mirrorLeftToRight width height g1).
  set (g3 := enforceBorderWalls width height g2).
  assert (Hs0 : grid_shape g0) by apply Grid2Facts.shape_replicate.
  destruct (writes_expandGroups width height groupWidth groupHeight groupDefs g0 Hs0) as [Hs1 _].
  fold g1 in Hs1.
  assert (Hs2 : grid_shape g2).
  { apply (mirrorLeftToRight_inv width height (fun _ => True) g1 Hs1). intros ? ? ? _. exact I. }
  assert (Hs3 : grid_shape g3) by apply shape_enforceBorderWalls, Hs2.
  pose proof (carveGhostBox_box width height g3 []) as Hcb.
  pose proof (writes_carveGhostBox width height g3 [] Hs3) as [Hs4 _].
  pose proof (fun x y => carveGhostBox_interior width height width_range height_range g3 [] x y Hs3)
    as Hinterior.
  pose proof (fun y => carveGhostBox_door g3 [] y Hs3) as Hdoor.
  destruct (carveGhostBox width height g3 []) as [[g4 ghostSpace] ghostBox].
  cbn [fst snd] in Hcb, Hs4, Hinterior, Hdoor. subst ghostBox. fold box in Hinterior |- *.
  assert (H4 : get_is g4 x y "#" = false).
  { destruct Hroom as [[Hx Hy]|[-> [Hy Hy']]].
    - unfold PacRogue.get_is. rewrite (Hinterior x y Hx Hy). reflexivity.
    - apply Hdoor; assumption. }
  set (g10 := fillPelletsOutsideGhostBox width height _ box).
  assert (Hopen : writes opening g4 g10).
  { assert (Hp : opening "."%char) by (left; reflexivity).
    assert (Ho : opening "o"%char) by (right; reflexivity).
    eapply writes_trans; [apply (writes_addMissingPellets width height opening Hp)|].
    eapply writes_trans; [apply (writes_removeIncorrectTiles width height opening Hp)|].
    eapply writes_trans; [apply (writes_connect_loop width height opening Hp)|].
    eapply writes_trans; [apply (writes_removeIncorrectTiles width height opening Hp)|].
    eapply writes_trans; [apply (writes_placePowerPellets width height opening); assumption|].
    apply (writes_fillPelletsOutsideGhostBox width height opening Hp). }
  destruct (Hopen Hs4) as [Hs10 _].
  assert (H10 : get_is g10 x y "#" = false).
  { apply (open_writes width height opening g4 g10); [|exact Hs4|exact Hopen|exact H4|exact Hin].
    intros [H|H]; discriminate H. }
  set (g11 := placeSpawns width height g10 d box).
  assert (Hw11 : writes (fun c => c = "P"%char \/ c = "G"%char) g10 g11)
    by (apply writes_placeSpawns; [left|right]; reflexivity).
  destruct (Hw11 Hs10) as [Hs11 _].
  assert (H11 : get_is g11 x y "#" = false).
  { apply (open_writes width height (fun c => c = "P"%char \/ c = "G"%char) g10 g11);
      [|exact Hs10|exact Hw11|exact H10|exact Hin].
    intros [H|H]; discriminate H. }
  unfold PacRogue.get_is. rewrite (enforceBorderWalls_get width height g11 x y Hs11 Hin).
  destruct (decide (on_border width height x y)); [contradiction|exact H11].
Qed.

End Room.

End PacRogueFacts.

(** ** pacRogue.ts: the returned level *)

Definition level_width (params : PacRogue.PacRogueParams) : Z :=
  PacRogue.clampInt (default 22 (PacRogue.param_width params)) 15 41.

Definition level_height (params : PacRogue.PacRogueParams) : Z :=
  PacRogue.clampInt (default 31 (PacRogue.param_height params)) 15 45.

Lemma level_width_range params : 15 <= level_width params <= 41.
Proof. unfold level_width, PacRogue.clampInt. lia. Qed.

Lemma level_height_range params : 15 <= level_height params <= 45.
Proof. unfold level_height, PacRogue.clampInt. lia. Qed.

(** The grid that [generateTileGroups] and [buildGrid] compute from the
    state of the random stream, the difficulty and the clamped size. *)
Definition grid_of_stream (rng : Z) (d : Difficulty) (w h : Z) : option (list string) :=
  let groupWidth :=
    Z.max 1 (floor_float (PrimFloat.mul (PrimFloat.div (float_of_Z w)
                                           (float_of_Z PacRogue.TILE_GROUP_DIM)) 0.5%float)) in
  let groupHeight :=
    Z.max 1 (floor_float (PrimFloat.div (float_of_Z h) (float_of_Z PacRogue.TILE_GROUP_DIM))) in
  match PacRogue.generateTileGroups groupWidth groupHeight d rng with
  | None => None
  | Some (groupDefs, _) =>
      Some (map string_of_list_ascii (PacRogue.buildGrid w h groupWidth groupHeight groupDefs d))
  end.

Lemma generatePacRogueLevel_stream params :
  PacRogue.generatePacRogueLevel params =
    match grid_of_stream (PacRogue.seededRng (generator_seed (PacRogue.difficulty params)
                                                 (PacRogue.seed params)))
            (PacRogue.difficulty params) (level_width params) (level_height params) with
    | Some g => Some (mkLevelJson (Some (PacRogue.buildId "ai-rogue" (PacRogue.difficulty params)
                                           (PacRogue.seed params))) g)
    | None => None
    end.
Proof.
  unfold PacRogue.generatePacRogueLevel, grid_of_stream, generator_seed, level_width, level_height.
  cbv zeta. destruct (PacRogue.generateTileGroups _ _ _ _) as [[groupDefs rng']|]; reflexivity.
Qed.

Lemma generatePacRogueLevel_inv params lj :
  PacRogue.generatePacRogueLevel params = Some lj ->
  exists groupWidth groupHeight groupDefs,
    grid lj = map string_of_list_ascii
                (PacRogue.buildGrid (level_width params) (level_height params)
                   groupWidth groupHeight groupDefs (PacRogue.difficulty params))
    /\ json_id lj = Some (PacRogue.buildId "ai-rogue" (PacRogue.difficulty params)
                            (PacRogue.seed params)).
Proof.
  rewrite generatePacRogueLevel_stream. unfold grid_of_stream. cbv zeta.
  destruct (PacRogue.generateTileGroups _ _ _ _) as [[groupDefs rng']|]; [|discriminate].
  intros [= <-]. eexists _, _, _. split; reflexivity.
Qed.

(** The ghost starts of a generated level, as tiles of the returned grid
    (row 0 on top). *)
Definition ghost_start_tiles (params : PacRogue.PacRogueParams) : list GridPos :=
  map (fun s => mkGridPos (fst s) (level_height params - 1 - snd s))
    (PacRogueFacts.ghost_tiles (level_width params) (level_height params)
       (PacRogue.difficulty params)).

(** The seven-character seed on which the first draw of the stream is 1. *)
Definition crash_params : PacRogue.PacRogueParams :=
  PacRogue.mkPacRogueParams "dbkoa9m" normal None None.

(** ** vibeReorgShift.ts: the border ring *)

Definition is_wall (t : TileType) : bool :=
  match t with wall => true | _ => false end.

(** The tile types a tunnel mouth may hold: the legend maps [' '], ['A'] and
    ['5'] to [empty], ['.'] to [pellet] and ['o'] to [power]. *)
Definition tunnel_safe (t : TileType) : bool :=
  match t with empty | pellet | power => true | _ => false end.

Definition border_pair (a b : TileType) : Prop :=
  is_wall a = is_wall b /\ (is_wall a = false -> tunnel_safe a = true /\ tunnel_safe b = true).

(** Every tile of the left column pairs with the tile of its row in the
    right column, and every tile of the top row with the tile of its column
    in the bottom row. *)
Definition border_invariant (level : ParsedLevel) : Prop :=
  forall x y, in_bounds level x y = true ->
    (x = 0 -> border_pair (tileAt level 0 y) (tileAt level (width level - 1) y))
    /\ (y = 0 -> border_pair (tileAt level x 0) (tileAt level x (height level - 1))).

(** The mask protects the whole border ring, as the mask that the game
    scene builds does. *)
Definition border_protected (level : ParsedLevel) (mask : list (list bool)) : Prop :=
  forall x y, in_bounds level x y = true ->
    x = 0 \/ x = width level - 1 \/ y = 0 \/ y = height level - 1 ->
    hasProtected mask x y = true.

Definition open_mask : list (list bool) := replicate 5 (replicate 5 false).

(** ** pacRogue.ts: the characters of the returned level *)

Lemma concat_map_nil {A B} (f : A -> list B) (l : list A) :
  (forall x, x ∈ l -> f x = []) -> concat (map f l) = [].
Proof.
  induction l as [|a l IH]; intros Hf; [reflexivity|]. simpl.
  rewrite (Hf a) by left. apply IH. intros x Hx. apply Hf. right. exact Hx.
Qed.

Section Returned.
Variables (params : PacRogue.PacRogueParams) (lj : LevelJson).
Hypothesis returned : PacRogue.generatePacRogueLevel params = Some lj.

Let w := level_width params.
Let h := level_height params.

Lemma returned_shape :
  Z.of_nat (length (grid lj)) = h /\ forall row, row ∈ grid lj -> str_length row = w.
Proof.
  destruct (generatePacRogueLevel_inv params lj returned) as (gw & gh & defs & -> & _).
  pose proof (level_width_range params). pose proof (level_height_range params).
  apply PacRogueFacts.rows_shape; [unfold w; lia|unfold h; lia|].
  apply PacRogueFacts.buildGrid_get; [apply level_width_range|apply level_height_range].
Qed.

(** Row [r] from the top, column [x]. *)
Lemma returned_border x r :
  0 <= x < w -> 0 <= r < h -> x = 0 \/ x = w - 1 \/ r = 0 \/ r = h - 1 ->
  char_at (grid_row (grid lj) r) x = "#"%char.
Proof.
  intros Hx Hr Hb.
  destruct (generatePacRogueLevel_inv params lj returned) as (gw & gh & defs & -> & _).
  pose proof (level_width_range params) as Hw. pose proof (level_height_range params) as Hh.
  fold w in Hw. fold h in Hh.
  pose proof (PacRogueFacts.buildGrid_get w h Hw Hh gw gh defs (PacRogue.difficulty params)) as [Hs _].
  pose proof (PacRogueFacts.rows_get w h _ x r Hx Hr Hs) as Hrow.
  rewrite (PacRogueFacts.buildGrid_border w h Hw Hh) in Hrow.
  - fold w h. injection Hrow as Hrow. symmetry. exact Hrow.
  - apply PacRogueFacts.out_of_grid_false. lia.
  - unfold PacRogueFacts.on_border. lia.
Qed.

Lemma returned_ghosts x r :
  0 <= x < w -> 0 <= r < h ->
  char_at (grid_row (grid lj) r) x = "G"%char <-> mkGridPos x r ∈ ghost_start_tiles params.
Proof.
  intros Hx Hr.
  destruct (generatePacRogueLevel_inv params lj returned) as (gw & gh & defs & -> & _).
  pose proof (level_width_range params) as Hw. pose proof (level_height_range params) as Hh.
  fold w in Hw. fold h in Hh.
  pose proof (PacRogueFacts.buildGrid_get w h Hw Hh gw gh defs (PacRogue.difficulty params)) as [Hs _].
  pose proof (PacRogueFacts.rows_get w h _ x r Hx Hr Hs) as Hrow.
  assert (Hin : PacRogue.out_of_grid w h x (h - 1 - r) = false)
    by (apply PacRogueFacts.out_of_grid_false; lia).
  pose proof (PacRogueFacts.buildGrid_ghosts w h Hw Hh gw gh defs (PacRogue.difficulty params)
                x (h - 1 - r) Hin) as Hg.
  rewrite Hrow in Hg. unfold ghost_start_tiles. fold w h. split.
  - intros Hc. apply list_elem_of_In, in_map_iff. exists (x, h - 1 - r).
    split; [cbn [fst snd]; f_equal; lia|]. apply list_elem_of_In, Hg. f_equal. exact Hc.
  - intros Hp. apply list_elem_of_In, in_map_iff in Hp as ([sx sy] & Heq & Hs').
    cbn [fst snd] in Heq. injection Heq as -> Hy.
    assert (sy = h - 1 - r) as -> by lia.
    apply list_elem_of_In, Hg in Hs'. injection Hs' as ->. reflexivity.
Qed.

Lemma returned_borderRules : borderRules (grid lj) w h = [].
Proof.
  pose proof (level_width_range params) as Hw. pose proof (level_height_range params) as Hh.
  fold w in Hw. fold h in Hh. unfold borderRules.
  destruct (Z.ltb_spec w 3); [lia|]. destruct (Z.ltb_spec h 3); [lia|]. cbn [orb].
  rewrite !concat_map_nil; [reflexivity| |].
  - intros x Hx. apply elem_of_seqZ in Hx.
    rewrite !returned_border by lia. reflexivity.
  - intros y Hy. apply elem_of_seqZ in Hy. cbv zeta.
    rewrite !returned_border by lia. reflexivity.
Qed.

End Returned.

Lemma ghost_start_tiles_spec params :
  NoDup (ghost_start_tiles params)
  /\ Z.of_nat (length (ghost_start_tiles params)) = PacRogue.wantedGhosts (PacRogue.difficulty params)
  /\ forall p, p ∈ ghost_start_tiles params ->
       let b := PacRogue.ghostBoxOf (level_width params) (level_height params) in
       (0 <= pos_x p < level_width params /\ 0 <= pos_y p < level_height params)
       /\ PacRogue.x0 b < pos_x p < PacRogue.x1 b
       /\ level_height params - 1 - PacRogue.y1 b < pos_y p < level_height params - 1 - PacRogue.y0 b.
Proof.
  pose proof (level_width_range params) as Hw. pose proof (level_height_range params) as Hh.
  unfold ghost_start_tiles. split; [|split].
  - apply NoDup_fmap_2_strong; [|apply PacRogueFacts.ghost_tiles_NoDup; assumption].
    intros [x1 y1] [x2 y2] _ _ Heq. cbn [fst snd] in Heq. injection Heq as -> Hy. f_equal. lia.
  - rewrite length_map. apply PacRogueFacts.ghost_tiles_length.
  - intros p Hp. apply list_elem_of_In, in_map_iff in Hp as (s & <- & Hs).
    apply list_elem_of_In in Hs. cbn [pos_x pos_y].
    destruct (PacRogueFacts.ghost_tiles_inside _ _ Hw Hh _ _ Hs) as [Hx Hy].
    pose proof (PacRogueFacts.ghostBox_bounds _ _ Hw Hh) as Hb. cbv zeta in Hb. lia.
Qed.

(** ** The generator and the border ring: the claims *)

Definition abc_params : PacRogue.PacRogueParams :=
  PacRogue.mkPacRogueParams "abc" normal None None.

(** The same request written another way: the seed string is trimmed and
    lower-cased, and 22 by 31 is the default size. *)
Definition abc_params' : PacRogue.PacRogueParams :=
  PacRogue.mkPacRogueParams "ABC " normal (Some 22) (Some 31).

(** C3 (generator determinism).  The returned grid is a function of the
    state that the seed string hashes to, the difficulty and the clamped
    size, and of nothing else; two calls with the same seed, difficulty and
    size therefore return the same level, grid and id (or both throw). *)
Theorem generator_deterministic (p1 p2 : PacRogue.PacRogueParams) :
  PacRogue.difficulty p1 = PacRogue.difficulty p2 ->
  level_width p1 = level_width p2 ->
  level_height p1 = level_height p2 ->
  PacRogue.seededRng (generator_seed (PacRogue.difficulty p1) (PacRogue.seed p1))
    = PacRogue.seededRng (generator_seed (PacRogue.difficulty p2) (PacRogue.seed p2)) ->
  option_map grid (PacRogue.generatePacRogueLevel p1)
    = option_map grid (PacRogue.generatePacRogueLevel p2)
  /\ (PacRogue.seed p1 = PacRogue.seed p2 ->
      PacRogue.generatePacRogueLevel p1 = PacRogue.generatePacRogueLevel p2).
Proof.
  intros Hd Hw Hh Hrng. rewrite !generatePacRogueLevel_stream.
  rewrite <- Hrng, <- Hw, <- Hh, <- Hd. split.
  - destruct (grid_of_stream _ _ _ _); reflexivity.
  - intros <-. reflexivity.
Qed.

Lemma generator_deterministic_witness :
  option_map grid (PacRogue.generatePacRogueLevel abc_params)
    = option_map grid (PacRogue.generatePacRogueLevel abc_params')
  /\ PacRogue.generatePacRogueLevel abc_params = PacRogue.generatePacRogueLevel abc_params.
Proof.
  split.
  - refine (proj1 (generator_deterministic abc_params abc_params' _ _ _ _));
      vm_compute; reflexivity.
  - refine (proj2 (generator_deterministic abc_params abc_params _ _ _ _) _); reflexivity.
Defined.

(** C9 (ghost spawns).  Whenever [generatePacRogueLevel] returns, the 'G'
    tiles of the grid are exactly the first one (easy), two (normal) or
    three (hard) ghost slots, distinct tiles strictly inside the ghost box.
    It does not always return: the stream divides its 32-bit state by
    0xffffffff, so a draw can be 1, and on the seed of [crash_params] the
    first draw is 1, the index [Math.floor(rng() * remaining.length)] is
    [remaining.length], [splice] yields nothing and the destructuring
    throws. *)
Theorem ghost_spawn_guarantee :
  (PacRogue.rng_next (PacRogue.seededRng (generator_seed normal "dbkoa9m")) = (1%float, 4294967295)
   /\ PacRogue.generatePacRogueLevel crash_params = None)
  /\ (PacRogue.wantedGhosts easy = 1 /\ PacRogue.wantedGhosts normal = 2
      /\ PacRogue.wantedGhosts hard = 3)
  /\ forall params lj, PacRogue.generatePacRogueLevel params = Some lj ->
       (forall x y, 0 <= x < level_width params -> 0 <= y < level_height params ->
          char_at (grid_row (grid lj) y) x = "G"%char <-> mkGridPos x y ∈ ghost_start_tiles params)
       /\ NoDup (ghost_start_tiles params)
       /\ Z.of_nat (length (ghost_start_tiles params))
          = PacRogue.wantedGhosts (PacRogue.difficulty params)
       /\ forall p, p ∈ ghost_start_tiles params ->
            let b := PacRogue.ghostBoxOf (level_width params) (level_height params) in
            (0 <= pos_x p < level_width params /\ 0 <= pos_y p < level_height params)
            /\ PacRogue.x0 b < pos_x p < PacRogue.x1 b
            /\ level_height params - 1 - PacRogue.y1 b < pos_y p
               < level_height params - 1 - PacRogue.y0 b.
Proof.
  split; [split; vm_compute; reflexivity|]. split; [repeat split|].
  intros params lj Hret. destruct (ghost_start_tiles_spec params) as (Hnd & Hlen & Hin).
  split; [|split; [exact Hnd|split; [exact Hlen|exact Hin]]].
  intros x y Hx Hy. apply returned_ghosts; assumption.
Qed.

Lemma border_invariant_tunnel_level : border_invariant tunnel_level.
Proof.
  intros x y Hb. apply in_bounds_spec in Hb.
  change (width tunnel_level) with 5 in *. change (height tunnel_level) with 5 in *.
  split; intros ->.
  - assert (y = 0 \/ y = 1 \/ y = 2 \/ y = 3 \/ y = 4) as [->|[->|[->|[->| ->]]]] by lia;
      vm_compute; split; (reflexivity || (intros _; split; reflexivity) || discriminate).
  - assert (x = 0 \/ x = 1 \/ x = 2 \/ x = 3 \/ x = 4) as [->|[->|[->|[->| ->]]]] by lia;
      vm_compute; split; (reflexivity || (intros _; split; reflexivity) || discriminate).
Qed.

Lemma border_protected_ring_mask : border_protected tunnel_level ring_mask.
Proof.
  intros x y Hb Hring. apply in_bounds_spec in Hb.
  change (width tunnel_level) with 5 in *. change (height tunnel_level) with 5 in *.
  assert (x = 0 \/ x = 1 \/ x = 2 \/ x = 3 \/ x = 4) as [->|[->|[->|[->| ->]]]] by lia;
    assert (y = 0 \/ y = 1 \/ y = 2 \/ y = 3 \/ y = 4) as [->|[->|[->|[->| ->]]]] by lia;
    try reflexivity; lia.
Qed.

(** C5, as amended (border ring).  In a level that [generatePacRogueLevel]
    returns every tile of the border ring is a wall, so [borderRules] finds
    nothing.  [applyReorgShift] changes no tile that the mask protects: when
    the mask protects the whole border ring, as the mask of the game scene
    does, a level whose border tiles pair with their mirror tiles and whose
    tunnel mouths are tunnel-safe is left with that property, whatever the
    call returns. *)
Theorem border_tunnel_invariant :
  (forall params lj, PacRogue.generatePacRogueLevel params = Some lj ->
     (forall x y, 0 <= x < level_width params -> 0 <= y < level_height params ->
        x = 0 \/ x = level_width params - 1 \/ y = 0 \/ y = level_height params - 1 ->
        char_at (grid_row (grid lj) y) x = "#"%char)
     /\ borderRules (grid lj) (level_width params) (level_height params) = [])
  /\ (forall (S : Type) (R : Rng S) level rng cfg mask starts critical level' rng' out,
        wf_level level -> border_protected level mask -> border_invariant level ->
        applyReorgShift R level rng cfg mask starts critical = (level', rng', out) ->
        border_invariant level').
Proof.
  split.
  - intros params lj Hret. split; [|apply returned_borderRules, Hret].
    intros x y Hx Hy Hb. apply (returned_border params lj Hret); assumption.
  - intros S R level rng cfg mask starts critical level' rng' out Hwf Hprot Hinv Hcall.
    destruct (reorg_shift_dims S R _ _ _ _ _ _ _ _ _ Hwf Hcall) as (Hw & Hh & _).
    assert (Hkeep : forall x y, in_bounds level x y = true ->
              x = 0 \/ x = width level - 1 \/ y = 0 \/ y = height level - 1 ->
              tileAt level' x y = tileAt level x y).
    { intros x y Hb Hring. eapply reorg_shift_keeps_protected; [exact Hwf|exact Hcall|].
      apply Hprot; assumption. }
    intros x y Hb'.
    assert (Hb : in_bounds level x y = true) by (unfold in_bounds in *; rewrite <- Hw, <- Hh; exact Hb').
    destruct (Hinv x y Hb) as [Hx Hy]. pose proof Hb as Hxy. apply in_bounds_spec in Hxy.
    rewrite Hw, Hh. split; intros ->.
    + rewrite (Hkeep 0 y) by (try exact Hb; left; reflexivity).
      rewrite (Hkeep (width level - 1) y)
        by (try (apply in_bounds_spec; lia); right; left; reflexivity).
      apply Hx. reflexivity.
    + rewrite (Hkeep x 0) by (try exact Hb; right; right; left; reflexivity).
      rewrite (Hkeep x (height level - 1))
        by (try (apply in_bounds_spec; lia); right; right; right; reflexivity).
      apply Hy. reflexivity.
Qed.

Lemma border_tunnel_invariant_witness :
  (exists lj, PacRogue.generatePacRogueLevel abc_params = Some lj
              /\ borderRules (grid lj) 22 31 = [])
  /\ border_invariant
       (fst (fst (applyReorgShift createRng_ops tunnel_level (snd (createRng "abc")) (shift_cfg 1)
                    ring_mask [mkGridPos 1 1] [mkGridPos 3 1]))).
Proof.
  split.
  - destruct (PacRogue.generatePacRogueLevel abc_params) as [lj|] eqn:Hret.
    + exists lj. split; [reflexivity|].
      exact (proj2 (proj1 border_tunnel_invariant abc_params lj Hret)).
    + vm_compute in Hret. discriminate Hret.
  - destruct (applyReorgShift createRng_ops tunnel_level (snd (createRng "abc")) (shift_cfg 1)
                ring_mask [mkGridPos 1 1] [mkGridPos 3 1]) as [[level' rng'] out] eqn:Hcall.
    exact (proj2 border_tunnel_invariant Z createRng_ops tunnel_level _ _ _ _ _ level' rng' out
             wf_tunnel_level border_protected_ring_mask border_invariant_tunnel_level Hcall).
Defined.

(** C5 as stated fails for [applyReorgShift] alone: under a mask that
    protects nothing the swap of (3,3) with (4,3) is accepted, which puts a
    pellet on the right border opposite a wall on the left border. *)
Lemma border_tunnel_invariant_counterexample :
  let call := applyReorgShift createRng_ops tunnel_level (snd (createRng "abc")) (shift_cfg 2)
                open_mask [mkGridPos 1 1] [mkGridPos 3 1] in
  wf_level tunnel_level /\ border_invariant tunnel_level
  /\ snd call = Returned true [mkGridPos 3 3; mkGridPos 4 3; mkGridPos 1 2; mkGridPos 2 2]
  /\ tileAt (fst (fst call)) 0 3 = wall
  /\ tileAt (fst (fst call)) 4 3 = pellet
  /\ ~ border_invariant (fst (fst call)).
Proof.
  split; [exact wf_tunnel_level|]. split; [exact border_invariant_tunnel_level|].
  split; [vm_compute; reflexivity|]. split; [vm_compute; reflexivity|].
  split; [vm_compute; reflexivity|].
  intros Hinv. destruct (Hinv 0 3 eq_refl) as [Hx _].
  destruct (Hx eq_refl) as [Hwall _]. vm_compute in Hwall. discriminate Hwall.
Qed.

(** * Further properties *)

(** ** directions.ts and wrapTunnels.ts: moves can be taken back *)

Lemma opposite_involutive d : Directions.opposite (Directions.opposite d) = d.
Proof. destruct d; reflexivity. Qed.

Lemma vec_opposite d :
  vec (Directions.opposite d) = (- fst (vec d), - snd (vec d)).
Proof. destruct d; reflexivity. Qed.

(** The move in the opposite direction leads back. *)
Lemma nextTileWithWrap_back level x y d q :
  in_bounds level x y = true ->
  isWalkable (tileAt level x y) = true ->
  nextTileWithWrap level x y d = Some q ->
  nextTileWithWrap level (pos_x q) (pos_y q) (Directions.opposite d) = Some (mkGridPos x y).
Proof.
  intros Hb Hw Hmove.
  pose proof (nextTileWithWrap_in_bounds level x y d q Hb Hmove) as Hq.
  rewrite nextTileWithWrap_legal in Hmove by exact Hb.
  rewrite nextTileWithWrap_legal by exact Hq.
  pose proof Hb as Hxy. apply in_bounds_spec in Hxy.
  unfold legal_move in *.
  destruct d; try discriminate; cbn [vec fst snd Directions.opposite mirror_tile] in *;
    match type of Hmove with
    | context [in_bounds _ ?a ?b] => destruct (in_bounds level a b) eqn:Hin
    end.
  (* a move inside the grid *)
  1, 3, 5, 7:
    match type of Hmove with
    | context [isWalkable (tileAt _ ?a ?b)] =>
        destruct (isWalkable (tileAt level a b)) eqn:Hwq; [|discriminate]
    end;
    injection Hmove as <-; cbn [pos_x pos_y];
    match goal with
    | |- context [in_bounds _ ?a ?b] =>
        replace a with x by lia; replace b with y by lia
    end; rewrite Hb, Hw; reflexivity.
  (* a wrap *)
  all: rewrite Hw in Hmove; cbn [andb] in Hmove;
    match type of Hmove with
    | context [isWalkable (tileAt _ ?a ?b)] =>
        destruct (isWalkable (tileAt level a b)) eqn:Hwq; [|discriminate]
    end;
    injection Hmove as <-; cbn [pos_x pos_y] in *;
    apply in_bounds_spec in Hq; apply not_true_iff_false in Hin; rewrite in_bounds_spec in Hin;
    match goal with
    | |- context [if in_bounds _ ?a ?b then _ else _] =>
        replace (in_bounds level a b) with false
          by (symmetry; apply not_true_iff_false; rewrite in_bounds_spec; lia)
    end;
    rewrite Hwq; cbn [andb].
  - assert (y = 0) as -> by lia. rewrite Hw. reflexivity.
  - assert (y = height level - 1) as -> by lia. rewrite Hw. reflexivity.
  - assert (x = 0) as -> by lia. rewrite Hw. reflexivity.
  - assert (x = width level - 1) as -> by lia. rewrite Hw. reflexivity.
Qed.


(** X1.  On a well-formed level a legal move from a walkable tile of the
    grid, wrap-around included, is undone by the move in the opposite
    direction. *)
Theorem move_back (level : ParsedLevel) (x y : Z) (d : Direction.t) (q : GridPos) :
  wf_level level ->
  in_bounds level x y = true ->
  isWalkable (tileAt level x y) = true ->
  nextTileWithWrap level x y d = Some q ->
  nextTileWithWrap level (pos_x q) (pos_y q) (Directions.opposite d) = Some (mkGridPos x y).
Proof.
  intros Hwf Hb Hw Hmove.
  pose proof (nextTileWithWrap_in_bounds level x y d q Hb Hmove) as Hq.
  pose proof (nextTileWithWrap_walkable level x y d q Hb Hmove) as Hwq.
  apply nextTileWithWrap_back; assumption.
Qed.

Lemma move_back_witness :
  nextTileWithWrap tunnel_level 4 2 Direction.Right = Some (mkGridPos 0 2)
  /\ nextTileWithWrap tunnel_level 0 2 Direction.Left = Some (mkGridPos 4 2).
Proof.
  split; [reflexivity|].
  exact (move_back tunnel_level 4 2 Direction.Right (mkGridPos 0 2) wf_tunnel_level
           eq_refl eq_refl eq_refl).
Defined.

(** ** vibeReorgShift.ts and levelValidation.ts: the searches find every
       reachable tile *)

Lemma is_visited_mark_same h w visited x y :
  Grid2.shape h w visited -> 0 <= x < Z.of_nat w -> 0 <= y < Z.of_nat h ->
  is_visited (mark_visited visited x y) x y = true.
Proof.
  intros Hs Hx Hy. unfold is_visited, mark_visited.
  replace ((x <? 0) || (y <? 0)) with false by lia.
  destruct (Grid2Facts.lookup2_shape _ _ _ (Z.to_nat y) (Z.to_nat x) Hs) as [b Hb]; [lia..|].
  rewrite Grid2Facts.lookup2_insert2_eq by (rewrite Hb; eauto). reflexivity.
Qed.

Section FloodComplete.
Context (level : ParsedLevel).

Definition seen (visited : list (list bool)) (p : GridPos) : Prop :=
  is_visited visited (pos_x p) (pos_y p) = true.

(** From one state of the search to a later one: marks stay, queued tiles
    stay, and a newly marked tile is in the queue. *)
Definition flood_later (st0 st : list (list bool) * list GridPos) : Prop :=
  (forall p, seen (fst st0) p -> seen (fst st) p)
  /\ (forall p, p ∈ snd st0 -> p ∈ snd st)
  /\ (forall p, seen (fst st) p -> seen (fst st0) p \/ p ∈ snd st).

Lemma flood_later_refl st : flood_later st st.
Proof. split; [auto|]. split; auto. Qed.

Lemma flood_later_trans st0 st1 st2 :
  flood_later st0 st1 -> flood_later st1 st2 -> flood_later st0 st2.
Proof.
  intros (Ha & Hb & Hc) (Ha' & Hb' & Hc'). split; [auto|]. split; [auto|].
  intros p Hp. destruct (Hc' p Hp) as [H1|H2]; [|auto].
  destruct (Hc p H1) as [H0|Hq]; auto.
Qed.

Lemma flood_visit_later cur st d : flood_later st (flood_visit level cur st d).
Proof.
  unfold flood_visit.
  destruct (nextTileWithWrap level (pos_x cur) (pos_y cur) d) as [next|]; [|apply flood_later_refl].
  destruct (is_visited st.1 (pos_x next) (pos_y next)) eqn:Hv; [apply flood_later_refl|].
  split; [|split]; cbn [fst snd].
  - intros p Hp. apply is_visited_mark_mono, Hp.
  - intros p Hp. apply elem_of_app. left. exact Hp.
  - intros p Hp. unfold seen in Hp. apply is_visited_mark in Hp as [Heq|Hold]; [|left; exact Hold].
    right. apply elem_of_app. right. apply list_elem_of_singleton.
    destruct p, next. cbn [pos_x pos_y] in *. injection Heq as -> ->. reflexivity.
Qed.

Lemma flood_visits_later cur dirs st :
  flood_later st (fold_left (flood_visit level cur) dirs st).
Proof.
  revert st. induction dirs as [|d dirs IH]; intros st; [apply flood_later_refl|].
  cbn [fold_left]. eapply flood_later_trans; [apply flood_visit_later|apply IH].
Qed.

(** After the turn of direction [d] the tile that [d] leads to is marked. *)
Lemma flood_visit_marks cur st d q :
  in_level level cur -> flood_ok level st ->
  nextTileWithWrap level (pos_x cur) (pos_y cur) d = Some q ->
  seen (fst (flood_visit level cur st d)) q.
Proof.
  intros Hcur [Hs _] Hq. unfold flood_visit. rewrite Hq.
  destruct (is_visited st.1 (pos_x q) (pos_y q)) eqn:Hv; [exact Hv|].
  cbn [fst]. pose proof (nextTileWithWrap_in_bounds _ _ _ _ _ Hcur Hq) as Hin.
  apply in_bounds_spec in Hin.
  apply (is_visited_mark_same _ _ _ _ _ Hs); lia.
Qed.

Lemma flood_visits_marks cur dirs st d q :
  in_level level cur -> flood_ok level st -> d ∈ dirs ->
  nextTileWithWrap level (pos_x cur) (pos_y cur) d = Some q ->
  seen (fst (fold_left (flood_visit level cur) dirs st)) q.
Proof.
  intros Hcur. revert st. induction dirs as [|d0 dirs IH]; intros st Hok Hd Hq.
  - apply elem_of_nil in Hd as [].
  - cbn [fold_left]. destruct (flood_visit_measure level cur st d0 Hcur Hok) as [Hok' _].
    apply elem_of_cons in Hd as [->|Hd].
    + apply (flood_visits_later cur dirs). apply flood_visit_marks; assumption.
    + apply IH; assumption.
Qed.

Lemma step_search_dir p q :
  step level p q -> exists d, d ∈ search_dirs /\ nextTileWithWrap level (pos_x p) (pos_y p) d = Some q.
Proof.
  intros [d Hd]. exists d. split; [|exact Hd].
  destruct d; [discriminate Hd| | | |]; unfold search_dirs;
    rewrite !elem_of_cons; auto 6.
Qed.

(** Every marked tile of the grid is waiting in the queue or has all the
    tiles it leads to marked. *)
Definition flood_closed (st : list (list bool) * list GridPos) : Prop :=
  forall p q, in_level level p -> seen (fst st) p -> step level p q ->
    p ∈ snd st \/ seen (fst st) q.

Lemma flood_turn_closed cur visited rest :
  flood_ok level (visited, cur :: rest) ->
  flood_closed (visited, cur :: rest) ->
  flood_closed (fold_left (flood_visit level cur) search_dirs (visited, rest)).
Proof.
  intros [Hs Hq] Hclosed. cbn [fst snd] in *. apply Forall_cons in Hq as [Hcur Hrest].
  assert (Hok : flood_ok level (visited, rest)) by (split; assumption).
  pose proof (flood_visits_later cur search_dirs (visited, rest)) as (Hmono & Hqueue & Hnew).
  cbn [fst snd] in *.
  intros p q Hp Hseen Hstep.
  destruct (decide (p = cur)) as [->|Hne].
  - right. destruct (step_search_dir _ _ Hstep) as (d & Hd & Hq').
    apply (flood_visits_marks cur search_dirs (visited, rest) d q); assumption.
  - destruct (Hnew p Hseen) as [Hold|Hin]; [|left; exact Hin].
    destruct (Hclosed p q Hp Hold Hstep) as [Hin|Hq'].
    + left. apply Hqueue. apply elem_of_cons in Hin as [->|Hin]; [contradiction|exact Hin].
    + right. apply Hmono, Hq'.
Qed.

(** With fuel beyond the measure the loop ends on an empty queue: what is
    marked then is closed under legal moves. *)
Lemma flood_loop_closed fuel visited queue :
  flood_ok level (visited, queue) ->
  (flood_measure (visited, queue) < fuel)%nat ->
  flood_closed (visited, queue) ->
  (forall p, seen visited p -> seen (flood_loop fuel level visited queue) p)
  /\ flood_closed (flood_loop fuel level visited queue, []).
Proof.
  revert visited queue. induction fuel as [|fuel IH]; intros visited queue Hok Hm Hclosed; [lia|].
  cbn [flood_loop]. destruct queue as [|cur rest].
  - split; [auto|exact Hclosed].
  - pose proof (flood_turn_closed cur visited rest Hok Hclosed) as Hclosed'.
    pose proof (flood_visits_later cur search_dirs (visited, rest)) as (Hmono & _ & _).
    destruct Hok as [Hs Hq]. cbn [fst snd] in Hs, Hq. apply Forall_cons in Hq as [Hcur Hrest].
    destruct (flood_visits_measure level cur search_dirs (visited, rest) Hcur (conj Hs Hrest))
      as [Hok' Hm'].
    destruct (fold_left (flood_visit level cur) search_dirs (visited, rest)) as [visited' queue'].
    unfold flood_measure in *. cbn [fst snd length] in *.
    destruct (IH visited' queue' Hok' ltac:(lia) Hclosed') as [Hmono' Hfinal].
    split; [|exact Hfinal]. intros p Hp. apply Hmono', Hmono, Hp.
Qed.

(** A closed marking holds every tile reachable from a marked tile of the
    grid. *)
Lemma flood_closed_reachable visited p q :
  flood_closed (visited, []) -> in_level level p -> seen visited p ->
  reachable level p q -> seen visited q.
Proof.
  intros Hclosed Hp Hseen [n Hpath]. 
  assert (Hboth : in_level level q /\ seen visited q); [|apply Hboth].
  induction Hpath as [|n p q r Hpath IH Hstep]; [split; assumption|].
  destruct (IH Hp Hseen) as [Hq Hsq]. split.
  - destruct Hstep as [d Hd]. eapply nextTileWithWrap_in_bounds; [exact Hq|exact Hd].
  - destruct (Hclosed q r Hq Hsq Hstep) as [Hin|Hr]; [|exact Hr].
    apply elem_of_nil in Hin as [].
Qed.

End FloodComplete.

Lemma seen_new_visited level p : ~ seen (new_visited level) p.
Proof. unfold seen, new_visited. rewrite is_visited_replicate. discriminate. Qed.

(** Every tile reached by legal moves from a walkable start of the grid is
    marked. *)
Lemma reachableFromStart_complete level start q :
  in_bounds level (pos_x start) (pos_y start) = true ->
  isWalkable (tileAt level (pos_x start) (pos_y start)) = true ->
  reachable level start q ->
  is_visited (reachableFromStart level start) (pos_x q) (pos_y q) = true.
Proof.
  intros Hb Hw Hr. unfold reachableFromStart.
  pose proof Hb as Hb'. apply in_bounds_spec in Hb'.
  replace (_ || _ || _ || _ || _) with false
    by (rewrite Hw; simpl; symmetry; rewrite !orb_false_iff; lia).
  rewrite GridPos_eta.
  set (visited := mark_visited (new_visited level) (pos_x start) (pos_y start)).
  assert (Hshape : Grid2.shape (Z.to_nat (height level)) (Z.to_nat (width level)) visited)
    by apply shape_mark, shape_new_visited.
  assert (Hok : flood_ok level (visited, [start])).
  { split; cbn [fst snd]; [exact Hshape|]. apply Forall_singleton. exact Hb. }
  assert (Hstart : seen visited start)
    by (apply (is_visited_mark_same _ _ _ _ _ (shape_new_visited level)); lia).
  assert (Hclosed : flood_closed level (visited, [start])).
  { intros p r _ Hp _. left. cbn [fst snd] in *. unfold seen, visited in Hp.
    apply is_visited_mark in Hp as [Heq|Hold]; [|apply seen_new_visited in Hold as []].
    apply list_elem_of_singleton. destruct p, start. cbn [pos_x pos_y] in Heq.
    injection Heq as -> ->. reflexivity. }
  destruct (flood_loop_closed level (flood_fuel level [start]) visited [start] Hok
              (flood_fuel_enough level _ _ Hok) Hclosed) as [Hmono Hfinal].
  apply (flood_closed_reachable level _ start q Hfinal Hb (Hmono _ Hstart) Hr).
Qed.


(** X2.  On a well-formed level [reachableFromStart] marks exactly the tiles
    that legal moves reach from [start], when [start] is a walkable tile of
    the grid, and marks nothing otherwise. *)
Theorem reachableFromStart_exact (level : ParsedLevel) (start q : GridPos) :
  wf_level level ->
  is_visited (reachableFromStart level start) (pos_x q) (pos_y q) = true
  <-> in_bounds level (pos_x start) (pos_y start) = true
      /\ isWalkable (tileAt level (pos_x start) (pos_y start)) = true
      /\ reachable level start q.
Proof.
  intros Hwf. split.
  - intros Hq. pose proof Hq as Hr. destruct q as [x y]. apply reachableFromStart_sound in Hr.
    unfold reachableFromStart in Hq.
    destruct (_ || _ || _ || _ || _) eqn:Hc; [apply seen_new_visited in Hq as []|].
    rewrite !orb_false_iff, negb_false_iff in Hc. split; [apply in_bounds_spec; lia|].
    split; [apply Hc|exact Hr].
  - intros (Hb & Hw & Hr). unfold reachableFromStart.
    pose proof Hb as Hb'. apply in_bounds_spec in Hb'.
    replace (_ || _ || _ || _ || _) with false
      by (rewrite Hw; simpl; symmetry; rewrite !orb_false_iff; lia).
    rewrite GridPos_eta.
    set (visited := mark_visited (new_visited level) (pos_x start) (pos_y start)).
    assert (Hshape : Grid2.shape (Z.to_nat (height level)) (Z.to_nat (width level)) visited)
      by apply shape_mark, shape_new_visited.
    assert (Hok : flood_ok level (visited, [start])).
    { split; cbn [fst snd]; [exact Hshape|]. apply Forall_singleton. exact Hb. }
    assert (Hstart : seen visited start)
      by (apply (is_visited_mark_same _ _ _ _ _ (shape_new_visited level)); lia).
    assert (Hclosed : flood_closed level (visited, [start])).
    { intros p r _ Hp _. left. cbn [fst snd] in *. unfold seen, visited in Hp.
      apply is_visited_mark in Hp as [Heq|Hold]; [|apply seen_new_visited in Hold as []].
      apply list_elem_of_singleton. destruct p, start. cbn [pos_x pos_y] in Heq.
      injection Heq as -> ->. reflexivity. }
    destruct (flood_loop_closed level (flood_fuel level [start]) visited [start] Hok
                (flood_fuel_enough level _ _ Hok) Hclosed) as [Hmono Hfinal].
    apply (flood_closed_reachable level _ start q Hfinal Hb (Hmono _ Hstart) Hr).
Qed.

(** From the player tile (1, 1) of [tunnel_level] the pellet at (3, 3) is
    reached. *)
Lemma reachableFromStart_exact_witness :
  reachable tunnel_level (mkGridPos 1 1) (mkGridPos 3 3).
Proof.
  apply (proj1 (reachableFromStart_exact tunnel_level (mkGridPos 1 1) (mkGridPos 3 3)
                  wf_tunnel_level)).
  vm_compute. reflexivity.
Defined.

(** The start of the validator's search: every start of the grid is marked,
    and what is marked is queued. *)
Lemma pellets_seed_spec parsed starts :
  wf_level parsed ->
  (forall p, seen (fst (pellets_seed parsed starts)) p -> p ∈ snd (pellets_seed parsed starts))
  /\ (forall s, s ∈ starts -> in_bounds parsed (pos_x s) (pos_y s) = true ->
        seen (fst (pellets_seed parsed starts)) s).
Proof.
  intros Hwf. pose proof Hwf as (Hw & Hh & Hlen & Hrows). unfold pellets_seed.
  set (h := Z.of_nat (length (tileMatrix parsed))).
  set (w := Z.of_nat (length (default [] (head (tileMatrix parsed))))).
  assert (Hh' : h = height parsed) by (unfold h; lia).
  assert (Hw' : 0 < h -> w = width parsed).
  { unfold h, w. destruct (tileMatrix parsed) as [|row m]; [simpl; lia|]. intros _.
    apply Forall_cons in Hrows as [Hrow _]. simpl. lia. }
  set (f := fun (st : list (list bool) * list GridPos) start => _).
  set (A := fun st : list (list bool) * list GridPos =>
              Grid2.shape (Z.to_nat h) (Z.to_nat w) (fst st)
              /\ forall p, seen (fst st) p -> p ∈ snd st).
  assert (Hstep : forall l st, A st ->
            A (fold_left f l st)
            /\ (forall p, seen (fst st) p -> seen (fst (fold_left f l st)) p)
            /\ (forall s, s ∈ l -> in_bounds parsed (pos_x s) (pos_y s) = true ->
                  seen (fst (fold_left f l st)) s)).
  { induction l as [|s l IH]; intros st [Hs Hq].
    - split; [split; assumption|]. split; [auto|]. intros s Hs'. apply elem_of_nil in Hs' as [].
    - cbn [fold_left].
      assert (Hone : A (f st s) /\ (forall p, seen (fst st) p -> seen (fst (f st s)) p)
                     /\ (in_bounds parsed (pos_x s) (pos_y s) = true -> seen (fst (f st s)) s)).
      { unfold f. destruct (_ || _ || _ || _) eqn:Hout.
        - split; [split; assumption|]. split; [auto|]. intros Hb. apply in_bounds_spec in Hb.
          rewrite !orb_true_iff in Hout. specialize (Hw' ltac:(lia)). lia.
        - destruct (is_visited st.1 (pos_x s) (pos_y s)) eqn:Hv.
          + split; [split; assumption|]. split; [auto|]. intros _. exact Hv.
          + rewrite !orb_false_iff in Hout. cbn [fst snd]. split; [split|split].
            * apply shape_mark, Hs.
            * intros p Hp. apply elem_of_app. unfold seen in Hp.
              apply is_visited_mark in Hp as [Heq|Hold]; [right|left; apply Hq, Hold].
              apply list_elem_of_singleton. destruct p. cbn [pos_x pos_y] in Heq.
              injection Heq as -> ->. reflexivity.
            * intros p Hp. apply is_visited_mark_mono, Hp.
            * intros _. apply (is_visited_mark_same _ _ _ _ _ Hs); lia. }
      destruct Hone as (HA & Hmono & Hmark). destruct (IH _ HA) as (HA' & Hmono' & Hmark').
      split; [exact HA'|]. split; [intros p Hp; apply Hmono', Hmono, Hp|].
      intros s' Hs' Hb. apply elem_of_cons in Hs' as [->|Hs'].
      + apply Hmono', Hmark, Hb.
      + apply Hmark'; assumption. }
  destruct (Hstep starts (replicate (Z.to_nat h) (replicate (Z.to_nat w) false), []))
    as ([_ HA] & _ & Hmark).
  - split; cbn [fst snd]; [apply Grid2Facts.shape_replicate|].
    intros p Hp. unfold seen in Hp. rewrite is_visited_replicate in Hp. discriminate.
  - split; [exact HA|exact Hmark].
Qed.

(** What the validator's search marks: the tiles reached from a start. *)
Lemma pellets_visited_exact parsed starts q :
  wf_level parsed ->
  (forall s, s ∈ starts -> in_bounds parsed (pos_x s) (pos_y s) = true) ->
  is_visited (pellets_visited parsed starts) (pos_x q) (pos_y q) = true
  <-> exists s, s ∈ starts /\ reachable parsed s q.
Proof.
  intros Hwf Hstarts. split.
  - intros Hq. destruct q as [x y]. apply pellets_visited_sound in Hq. exact Hq.
  - intros (s & Hs & Hr). unfold pellets_visited.
    pose proof (pellets_seed_ok parsed starts Hwf) as Hok.
    destruct (pellets_seed_spec parsed starts Hwf) as [Hqueued Hmarked].
    specialize (Hmarked s Hs (Hstarts s Hs)).
    destruct (pellets_seed parsed starts) as [visited queue]. cbn [fst snd] in *.
    assert (Hclosed : flood_closed parsed (visited, queue)).
    { intros p r _ Hp _. left. apply Hqueued, Hp. }
    destruct (flood_loop_closed parsed (flood_fuel parsed queue) visited queue Hok
                (flood_fuel_enough parsed _ _ Hok) Hclosed) as [Hmono Hfinal].
    apply (flood_closed_reachable parsed _ s q Hfinal (Hstarts s Hs) (Hmono _ Hmarked) Hr).
Qed.

Lemma concat_map_nil_inv {A B} (f : A -> list B) (l : list A) :
  concat (map f l) = [] -> forall x, x ∈ l -> f x = [].
Proof.
  induction l as [|a l IH]; intros Hnil x Hx; [apply elem_of_nil in Hx as []|].
  simpl in Hnil. apply app_eq_nil in Hnil as [Ha Hl].
  apply elem_of_cons in Hx as [->|Hx]; [exact Ha|apply IH; assumption].
Qed.

(** X3.  On a well-formed level, with starts on the grid,
    [pelletsReachableFromStart] reports nothing exactly when every listed
    pellet is reached by legal moves from one of the starts. *)
Theorem pelletsReachableFromStart_exact (parsed : ParsedLevel) (starts pellets : list GridPos) :
  wf_level parsed ->
  (forall s, s ∈ starts -> in_bounds parsed (pos_x s) (pos_y s) = true) ->
  pelletsReachableFromStart parsed starts pellets = []
  <-> forall p, p ∈ pellets -> exists s, s ∈ starts /\ reachable parsed s p.
Proof.
  intros Hwf Hstarts. unfold pelletsReachableFromStart. cbv zeta. split.
  - intros Hnil p Hp. apply (pellets_visited_exact parsed starts p Hwf Hstarts).
    pose proof (concat_map_nil_inv _ _ Hnil p Hp) as Hone. cbv beta in Hone.
    destruct (is_visited _ _ _); [reflexivity|discriminate Hone].
  - intros Hall. apply concat_map_nil. intros p Hp.
    rewrite (proj2 (pellets_visited_exact parsed starts p Hwf Hstarts) (Hall p Hp)). reflexivity.
Qed.

Lemma tunnel_level_starts s :
  s ∈ playerStarts tunnel_level -> in_bounds tunnel_level (pos_x s) (pos_y s) = true.
Proof. intros Hs. apply list_elem_of_In in Hs. vm_compute in Hs. destruct Hs as [<-|[]]. reflexivity. Qed.

(** The validator reports no pellet of [tunnel_level]; the pellet at (2, 1)
    is among those reached. *)
Lemma pelletsReachableFromStart_exact_witness :
  pelletsReachableFromStart tunnel_level (playerStarts tunnel_level)
    (pelletPositions tunnel_level) = []
  /\ exists s, s ∈ playerStarts tunnel_level /\ reachable tunnel_level s (mkGridPos 2 1).
Proof.
  split; [vm_compute; reflexivity|].
  apply (proj1 (pelletsReachableFromStart_exact tunnel_level (playerStarts tunnel_level)
                  (pelletPositions tunnel_level) wf_tunnel_level tunnel_level_starts)).
  - vm_compute. reflexivity.
  - apply list_elem_of_In. vm_compute. left. reflexivity.
Defined.

(** ** levelParser.ts: when a level parses, and what the parsed level holds *)

Lemma concat_imap_nil {A B} (f : nat -> A -> list B) (l : list A) :
  concat (imap f l) = [] <-> forall i y, l !! i = Some y -> f i y = [].
Proof.
  rewrite concat_nil_Forall, Forall_lookup. split.
  - intros H i y Hy. apply (H i). rewrite list_lookup_imap, Hy. reflexivity.
  - intros H i x Hx. rewrite list_lookup_imap in Hx.
    destruct (l !! i) as [y|] eqn:Hy; [|discriminate]. injection Hx as <-. apply (H i y Hy).
Qed.

(** A grid that [parseLevel] accepts: rows of one positive length, holding
    legend characters only. *)
Definition rectangular (g : list string) (w : Z) : Prop :=
  0 < w
  /\ forall row, row ∈ g ->
       str_length row = w /\ forall ch, ch ∈ list_ascii_of_string row -> isLegendChar ch = true.

Lemma row_errors_nil w y row :
  row_errors w y row = []
  <-> str_length row = w /\ forall ch, ch ∈ list_ascii_of_string row -> isLegendChar ch = true.
Proof.
  unfold row_errors. split.
  - intros H. apply app_eq_nil in H as [Hlen Hch]. split.
    + destruct (bool_decide (str_length row = w)) eqn:Hd; [|discriminate].
      apply bool_decide_eq_true in Hd. exact Hd.
    + intros ch Hin. apply list_elem_of_lookup in Hin as [i Hi].
      pose proof (proj1 (concat_imap_nil _ _) Hch i ch Hi) as Hone. cbv beta in Hone.
      destruct (isLegendChar ch); [reflexivity|discriminate].
  - intros [Hlen Hch]. rewrite bool_decide_eq_true_2 by exact Hlen. cbn [app].
    apply concat_imap_nil. intros i ch Hi.
    rewrite (Hch ch) by (eapply list_elem_of_lookup_2; exact Hi). reflexivity.
Qed.

Lemma parse_errors_rectangular g w :
  0 <= w -> (parse_errors g w = [] <-> rectangular g w).
Proof.
  intros Hw. unfold parse_errors, rectangular. split.
  - intros H. apply app_eq_nil in H as [Hz Hrows]. split.
    + destruct (Z.eqb_spec w 0); [discriminate|lia].
    + intros row Hin. apply list_elem_of_lookup in Hin as [i Hi].
      apply (row_errors_nil w (Z.of_nat i)). exact (proj1 (concat_imap_nil _ _) Hrows i row Hi).
  - intros [Hpos Hrows]. destruct (Z.eqb_spec w 0); [lia|]. cbn [app].
    apply concat_imap_nil. intros i row Hi. apply row_errors_nil, Hrows.
    eapply list_elem_of_lookup_2. exact Hi.
Qed.

(** The tile of a character: the legend's, [empty] for [undefined]. *)
Definition tile_of_char (ch : ascii) : TileType := default empty (LEVEL_LEGEND ch).

(** The fields of the level that [parseLevel] returns. *)
Lemma parseLevel_inv level parsed :
  parseLevel level = inr parsed ->
  exists row0 rest,
    grid level = row0 :: rest
    /\ rectangular (grid level) (str_length row0)
    /\ rawGrid parsed = grid level
    /\ width parsed = str_length row0
    /\ height parsed = Z.of_nat (length (grid level))
    /\ tileMatrix parsed =
         map (fun y => map (fun x => tile_of_char (char_at (grid_row (grid level) y) x))
                         (seqZ 0 (width parsed))) (seqZ 0 (height parsed))
    /\ (let found := positions_where (grid level) (width parsed) (height parsed) in
        playerStarts parsed = found (fun ch => Ascii.eqb ch "P")
        /\ startPos parsed = head (playerStarts parsed)
        /\ playerStartCount parsed = Z.of_nat (length (playerStarts parsed))
        /\ ghostStarts parsed = found (fun ch => Ascii.eqb ch "G")
        /\ pelletCount parsed = Z.of_nat (length (found (fun ch => Ascii.eqb ch ".")))
        /\ powerCount parsed = Z.of_nat (length (found (fun ch => Ascii.eqb ch "o")))
        /\ pelletPositions parsed = found (fun ch => Ascii.eqb ch "." || Ascii.eqb ch "o")
        /\ bombPickupPositions parsed = found (fun ch => Ascii.eqb ch "A")
        /\ boxPositions parsed = found (fun ch => Ascii.eqb ch "B")
        /\ fruitSpawnPositions parsed = found (fun ch => Ascii.eqb ch "5")).
Proof.
  unfold parseLevel. destruct (grid level) as [|row0 rest] eqn:Hgrid; [discriminate|].
  cbv zeta. rewrite <- Hgrid.
  assert (Hw : 0 <= str_length row0) by (unfold str_length; lia).
  destruct (decide (parse_errors (grid level) (str_length row0) = [])) as [Hnil|Herr].
  - rewrite bool_decide_eq_true_2 by exact Hnil. cbn [negb]. intros [= <-].
    exists row0, rest. split; [exact Hgrid|].
    split; [apply parse_errors_rectangular; assumption|].
    cbn [rawGrid width height tileMatrix playerStarts startPos playerStartCount ghostStarts
         pelletCount powerCount pelletPositions bombPickupPositions boxPositions
         fruitSpawnPositions].
    split; [reflexivity|]. split; [reflexivity|]. split; [reflexivity|]. split.
    + apply map_ext_in. intros y Hy. apply map_ext. intros x. unfold tile_of_char, grid_row.
      apply list_elem_of_In, elem_of_seqZ in Hy.
      destruct (Z.ltb_spec y 0); [lia|]. reflexivity.
    + repeat split; reflexivity.
  - rewrite bool_decide_eq_false_2 by exact Herr. discriminate.
Qed.

(** X4.  [parseLevel] returns a level exactly when the grid is not empty,
    its first row is not empty, every row has the length of the first and
    every character is a legend character; it throws a [LevelParseError]
    otherwise.  The parsed level then has the width of the first row and as
    many rows as the grid, and its tile matrix has that size. *)
Theorem parseLevel_succeeds (level : LevelJson) :
  ((exists parsed, parseLevel level = inr parsed)
   <-> exists row0 rest, grid level = row0 :: rest /\ rectangular (grid level) (str_length row0))
  /\ forall parsed, parseLevel level = inr parsed ->
       rawGrid parsed = grid level
       /\ width parsed = str_length (default EmptyString (head (grid level)))
       /\ height parsed = Z.of_nat (length (grid level))
       /\ 0 < width parsed /\ 0 < height parsed /\ wf_level parsed.
Proof.
  split.
  - split.
    + intros [parsed Hparse]. destruct (parseLevel_inv level parsed Hparse) as (row0 & rest & H).
      exists row0, rest. split; apply H.
    + intros (row0 & rest & Hgrid & Hrect). unfold parseLevel. rewrite Hgrid. cbv zeta.
      rewrite <- Hgrid.
      assert (Hw : 0 <= str_length row0) by (unfold str_length; lia).
      rewrite bool_decide_eq_true_2 by (apply parse_errors_rectangular; assumption).
      cbn [negb]. eexists. reflexivity.
  - intros parsed Hparse. destruct (parseLevel_fields level parsed Hparse) as (_ & _ & _ & Hwf).
    destruct (parseLevel_inv level parsed Hparse)
      as (row0 & rest & Hgrid & [Hpos _] & Hraw & Hw & Hh & _).
    split; [exact Hraw|]. rewrite Hw, Hh, Hgrid. cbn [head default from_option id length].
    split; [reflexivity|]. split; [reflexivity|]. split; [exact Hpos|]. split; [lia|exact Hwf].
Qed.

Lemma elem_of_positions_where g w h (pr : ascii -> bool) p :
  p ∈ positions_where g w h pr
  <-> (0 <= pos_x p < w /\ 0 <= pos_y p < h)
      /\ pr (char_at (grid_row g (pos_y p)) (pos_x p)) = true.
Proof.
  unfold positions_where. rewrite list_elem_of_bind. split.
  - intros (y & Hin & Hy). apply list_elem_of_bind in Hin as (x & Hin & Hx).
    apply elem_of_seqZ in Hx, Hy.
    destruct (pr _) eqn:Hpr; [|apply elem_of_nil in Hin as []].
    apply list_elem_of_singleton in Hin as ->. cbn [pos_x pos_y]. split; [lia|].
    unfold grid_row. destruct (Z.ltb_spec y 0); [lia|]. exact Hpr.
  - intros [[Hx Hy] Hpr]. exists (pos_y p). split; [|apply elem_of_seqZ; lia].
    apply list_elem_of_bind. exists (pos_x p). split; [|apply elem_of_seqZ; lia].
    unfold grid_row in Hpr. destruct (Z.ltb_spec (pos_y p) 0); [lia|]. rewrite Hpr.
    rewrite GridPos_eta. apply list_elem_of_here.
Qed.

Lemma NoDup_positions_where g w h (pr : ascii -> bool) : NoDup (positions_where g w h pr).
Proof.
  unfold positions_where. apply NoDup_bind; [| |apply NoDup_seqZ].
  - intros y1 y2 p _ _ H1 H2.
    apply list_elem_of_bind in H1 as (x1 & H1 & _), H2 as (x2 & H2 & _).
    destruct (pr _); [|apply elem_of_nil in H1 as []].
    destruct (pr _); [|apply elem_of_nil in H2 as []].
    apply list_elem_of_singleton in H1, H2. subst p. injection H2 as _ ->. reflexivity.
  - intros y _. apply NoDup_bind; [| |apply NoDup_seqZ].
    + intros x1 x2 p _ _ H1 H2.
      destruct (pr _); [|apply elem_of_nil in H1 as []].
      destruct (pr _); [|apply elem_of_nil in H2 as []].
      apply list_elem_of_singleton in H1, H2. subst p. injection H2 as ->. reflexivity.
    + intros x _. destruct (pr _); [apply NoDup_singleton|apply NoDup_nil_2].
Qed.

(** The legend sends no two characters to a start, a pellet or a power
    pellet. *)
Lemma tile_of_char_marker ch :
  (tile_of_char ch = playerStart <-> ch = "P"%char)
  /\ (tile_of_char ch = ghostStart <-> ch = "G"%char)
  /\ (tile_of_char ch = pellet <-> ch = "."%char)
  /\ (tile_of_char ch = power <-> ch = "o"%char)
  /\ (tile_of_char ch = wall <-> ch = "#"%char).
Proof.
  destruct ch as [[] [] [] [] [] [] [] []]; vm_compute;
    repeat split; intros H; try reflexivity; discriminate H.
Qed.

Lemma tileAt_parsed level parsed x y :
  parseLevel level = inr parsed -> in_bounds parsed x y = true ->
  tileAt parsed x y = tile_of_char (char_at (grid_row (grid level) y) x).
Proof.
  intros Hparse Hb. destruct (parseLevel_inv level parsed Hparse)
    as (row0 & rest & _ & _ & _ & _ & _ & Hm & _).
  apply in_bounds_spec in Hb. unfold tileAt. replace ((x <? 0) || (y <? 0)) with false by lia.
  rewrite Hm. unfold Grid2.lookup2.
  rewrite list_lookup_fmap, (lookup_seqZ_lt 0 (height parsed) (Z.to_nat y)) by lia.
  cbn [fmap option_fmap option_map].
  rewrite list_lookup_fmap, (lookup_seqZ_lt 0 (width parsed) (Z.to_nat x)) by lia.
  cbn [fmap option_fmap option_map default from_option id]. unfold id.
  rewrite !Z.add_0_l, !Z2Nat.id by lia. reflexivity.
Qed.

Lemma length_row_where (row : string) (pr : ascii -> bool) (t : TileType) (y : Z) (xs : list Z) :
  (forall ch, pr ch = bool_decide (tile_of_char ch = t)) ->
  length (x ← xs; if pr (char_at row x) then [mkGridPos x y] else [])
  = length (filter (fun c => bool_decide (c = t) = true)
              (map (fun x => tile_of_char (char_at row x)) xs)).
Proof.
  intros Hpr. induction xs as [|x xs IHx]; [reflexivity|].
  rewrite bind_cons, length_app, IHx. cbn [map]. rewrite filter_cons, Hpr.
  destruct (bool_decide (tile_of_char _ = t)) eqn:Hd.
  - rewrite decide_True by reflexivity. reflexivity.
  - rewrite decide_False by discriminate. reflexivity.
Qed.

(** The tiles found by a character test are as many as the tiles of the
    matrix that the test stands for. *)
Lemma length_positions_where g w h (pr : ascii -> bool) (t : TileType) :
  (forall ch, pr ch = bool_decide (tile_of_char ch = t)) ->
  length (positions_where g w h pr)
  = Grid2.count2 (fun u => bool_decide (u = t))
      (map (fun y => map (fun x => tile_of_char (char_at (grid_row g y) x)) (seqZ 0 w)) (seqZ 0 h)).
Proof.
  intros Hpr. unfold positions_where, Grid2.count2.
  assert (Hrows : forall ys, Forall (fun y => 0 <= y) ys ->
            length (y ← ys; x ← seqZ 0 w;
                    if pr (char_at (default EmptyString (g !! Z.to_nat y)) x)
                    then [mkGridPos x y] else [])
            = list_sum (map (fun row => length (filter (fun c => bool_decide (c = t) = true) row))
                          (map (fun y => map (fun x => tile_of_char (char_at (grid_row g y) x))
                                           (seqZ 0 w)) ys))).
  { induction ys as [|y ys IH]; intros Hys; [reflexivity|].
    apply Forall_cons in Hys as [Hy Hys]. rewrite bind_cons, length_app, IH by exact Hys.
    assert (default EmptyString (g !! Z.to_nat y) = grid_row g y) as ->.
    { unfold grid_row. destruct (Z.ltb_spec y 0); [lia|reflexivity]. }
    rewrite (length_row_where _ pr t y (seqZ 0 w) Hpr). reflexivity. }
  apply Hrows. apply Forall_forall. intros y Hy. apply elem_of_seqZ in Hy. lia.
Qed.

Lemma length_row_where_or (row : string) (p q : ascii -> bool) (y : Z) (xs : list Z) :
  (forall ch, p ch && q ch = false) ->
  length (x ← xs; if p (char_at row x) || q (char_at row x) then [mkGridPos x y] else [])
  = (length (x ← xs; if p (char_at row x) then [mkGridPos x y] else [])
     + length (x ← xs; if q (char_at row x) then [mkGridPos x y] else []))%nat.
Proof.
  intros Hpq. induction xs as [|x xs IHx]; [reflexivity|].
  rewrite !bind_cons, !length_app, IHx. specialize (Hpq (char_at row x)).
  destruct (p _), (q _); try discriminate Hpq; cbn [orb length]; lia.
Qed.

Lemma length_positions_where_or g w h (p q : ascii -> bool) :
  (forall ch, p ch && q ch = false) ->
  length (positions_where g w h (fun ch => p ch || q ch))
  = (length (positions_where g w h p) + length (positions_where g w h q))%nat.
Proof.
  intros Hpq. unfold positions_where. induction (seqZ 0 h) as [|y ys IHy]; [reflexivity|].
  rewrite !bind_cons, !length_app, IHy.
  rewrite (length_row_where_or _ p q y (seqZ 0 w) Hpq). lia.
Qed.

(** A position found by a character test is in bounds and its tile is the
    one the test stands for. *)
Lemma found_tile level parsed (pr : ascii -> bool) (t : TileType) p :
  parseLevel level = inr parsed ->
  (forall ch, pr ch = bool_decide (tile_of_char ch = t)) ->
  p ∈ positions_where (grid level) (width parsed) (height parsed) pr
  <-> in_bounds parsed (pos_x p) (pos_y p) = true /\ tileAt parsed (pos_x p) (pos_y p) = t.
Proof.
  intros Hparse Hpr. rewrite elem_of_positions_where, in_bounds_spec, Hpr.
  split.
  - intros [Hb Ht]. split; [exact Hb|]. apply bool_decide_eq_true_1 in Ht.
    rewrite (tileAt_parsed level parsed _ _ Hparse) by (apply in_bounds_spec; exact Hb). exact Ht.
  - intros [Hb Ht]. split; [exact Hb|]. apply bool_decide_eq_true_2.
    rewrite <- (tileAt_parsed level parsed _ _ Hparse) by (apply in_bounds_spec; exact Hb). exact Ht.
Qed.

Lemma marker_test (c : ascii) (t : TileType) :
  (forall ch, tile_of_char ch = t <-> ch = c) ->
  forall ch, Ascii.eqb ch c = bool_decide (tile_of_char ch = t).
Proof.
  intros Hc ch. destruct (Ascii.eqb_spec ch c) as [->|Hne].
  - symmetry. apply bool_decide_eq_true_2, Hc. reflexivity.
  - symmetry. apply bool_decide_eq_false_2. intros Ht. apply Hne, Hc, Ht.
Qed.

Lemma test_P ch : Ascii.eqb ch "P" = bool_decide (tile_of_char ch = playerStart).
Proof. apply marker_test. intros c. apply tile_of_char_marker. Qed.

Lemma test_G ch : Ascii.eqb ch "G" = bool_decide (tile_of_char ch = ghostStart).
Proof. apply marker_test. intros c. apply tile_of_char_marker. Qed.

Lemma test_pellet ch : Ascii.eqb ch "." = bool_decide (tile_of_char ch = pellet).
Proof. apply marker_test. intros c. apply tile_of_char_marker. Qed.

Lemma test_power ch : Ascii.eqb ch "o" = bool_decide (tile_of_char ch = power).
Proof. apply marker_test. intros c. apply tile_of_char_marker. Qed.

Lemma countTile_parsed level parsed (pr : ascii -> bool) (t : TileType) :
  parseLevel level = inr parsed ->
  (forall ch, pr ch = bool_decide (tile_of_char ch = t)) ->
  length (positions_where (grid level) (width parsed) (height parsed) pr) = countTile t parsed.
Proof.
  intros Hparse Hpr. destruct (parseLevel_inv level parsed Hparse)
    as (row0 & rest & _ & _ & _ & _ & _ & Hm & _).
  unfold countTile. rewrite Hm. apply length_positions_where, Hpr.
Qed.

(** X5.  The lists and counters of a parsed level agree with its tile
    matrix: the player starts, ghost starts and pellet positions are exactly
    the in-bounds tiles of that kind (power pellets count as pellet
    positions), each listed once; the counters are the numbers of such
    tiles; the start position is the first player start; and the bomb, box
    and fruit markers sit on empty tiles. *)
Theorem parseLevel_consistent (level : LevelJson) (parsed : ParsedLevel) :
  parseLevel level = inr parsed ->
  (forall p, p ∈ playerStarts parsed
     <-> in_bounds parsed (pos_x p) (pos_y p) = true
         /\ tileAt parsed (pos_x p) (pos_y p) = playerStart)
  /\ (forall p, p ∈ ghostStarts parsed
        <-> in_bounds parsed (pos_x p) (pos_y p) = true
            /\ tileAt parsed (pos_x p) (pos_y p) = ghostStart)
  /\ (forall p, p ∈ pelletPositions parsed
        <-> in_bounds parsed (pos_x p) (pos_y p) = true
            /\ (tileAt parsed (pos_x p) (pos_y p) = pellet
                \/ tileAt parsed (pos_x p) (pos_y p) = power))
  /\ (NoDup (playerStarts parsed) /\ NoDup (ghostStarts parsed) /\ NoDup (pelletPositions parsed))
  /\ playerStartCount parsed = Z.of_nat (countTile playerStart parsed)
  /\ pelletCount parsed = Z.of_nat (countTile pellet parsed)
  /\ powerCount parsed = Z.of_nat (countTile power parsed)
  /\ Z.of_nat (length (pelletPositions parsed)) = pelletCount parsed + powerCount parsed
  /\ startPos parsed = head (playerStarts parsed)
  /\ (forall p, p ∈ bombPickupPositions parsed ++ boxPositions parsed ++ fruitSpawnPositions parsed ->
        in_bounds parsed (pos_x p) (pos_y p) = true
        /\ tileAt parsed (pos_x p) (pos_y p) = empty).
Proof.
  intros Hparse. destruct (parseLevel_inv level parsed Hparse)
    as (row0 & rest & _ & _ & _ & _ & _ & _ & HP & Hstart & HnP & HG & Hnp & Hno & Hpp & HA & HB & H5).
  cbv zeta in *.
  split; [intros p; rewrite HP; apply (found_tile level parsed _ _ p Hparse test_P)|].
  split; [intros p; rewrite HG; apply (found_tile level parsed _ _ p Hparse test_G)|].
  split.
  { intros p. rewrite Hpp, elem_of_positions_where, in_bounds_spec. split.
    - intros [Hb Ht]. split; [exact Hb|].
      rewrite (tileAt_parsed level parsed _ _ Hparse) by (apply in_bounds_spec; exact Hb).
      apply orb_true_iff in Ht as [Ht|Ht]; [left|right].
      + rewrite test_pellet in Ht. apply bool_decide_eq_true_1 in Ht. exact Ht.
      + rewrite test_power in Ht. apply bool_decide_eq_true_1 in Ht. exact Ht.
    - intros [Hb Ht]. split; [exact Hb|].
      rewrite (tileAt_parsed level parsed _ _ Hparse) in Ht by (apply in_bounds_spec; exact Hb).
      rewrite test_pellet, test_power. apply orb_true_iff.
      destruct Ht as [Ht|Ht]; [left|right]; apply bool_decide_eq_true_2; exact Ht. }
  split.
  { rewrite HP, HG, Hpp. repeat split; apply NoDup_positions_where. }
  split; [rewrite HnP, HP, (countTile_parsed level parsed _ playerStart Hparse test_P); reflexivity|].
  split; [rewrite Hnp, (countTile_parsed level parsed _ pellet Hparse test_pellet); reflexivity|].
  split; [rewrite Hno, (countTile_parsed level parsed _ power Hparse test_power); reflexivity|].
  split.
  { rewrite Hpp, Hnp, Hno, length_positions_where_or; [lia|].
    intros ch. destruct (Ascii.eqb_spec ch ".") as [->|]; [reflexivity|reflexivity]. }
  split; [exact Hstart|].
  intros p Hin. rewrite HA, HB, H5, !elem_of_app, !elem_of_positions_where in Hin.
  assert (Hb : in_bounds parsed (pos_x p) (pos_y p) = true)
    by (apply in_bounds_spec; destruct Hin as [[Hb _]|[[Hb _]|[Hb _]]]; exact Hb).
  split; [exact Hb|]. rewrite (tileAt_parsed level parsed _ _ Hparse Hb).
  destruct Hin as [[_ Hc]|[[_ Hc]|[_ Hc]]]; apply Ascii.eqb_eq in Hc; rewrite Hc; reflexivity.
Qed.

(** The consistency facts on a five by five level with a tunnel row. *)
Lemma parseLevel_consistent_witness :
  parseLevel (mkLevelJson None ["#####"; "#P.G#"; " .#. "; "#...#"; "#####"]%string)
    = inr tunnel_level
  /\ NoDup (pelletPositions tunnel_level)
  /\ pelletCount tunnel_level = Z.of_nat (countTile pellet tunnel_level).
Proof.
  assert (Hparse : parseLevel (mkLevelJson None ["#####"; "#P.G#"; " .#. "; "#...#"; "#####"]%string)
                   = inr tunnel_level) by (vm_compute; reflexivity).
  split; [exact Hparse|].
  pose proof (parseLevel_consistent _ _ Hparse) as (_ & _ & _ & (_ & _ & Hnd) & _ & Hc & _).
  split; [exact Hnd|exact Hc].
Defined.

(** ** levelValidation.ts: the levels that pass *)

(** Two tiles of opposite edges pair up when both are walls or both are
    tunnel mouths holding an allowed character. *)
Definition pair_ok (a b : ascii) : Prop :=
  (a = "#"%char /\ b = "#"%char)
  \/ (isAllowedBorderTunnelChar a = true /\ isAllowedBorderTunnelChar b = true).

Definition border_ok (g : list string) (w h : Z) : Prop :=
  3 <= w /\ 3 <= h
  /\ (forall y, 0 <= y < h -> pair_ok (char_at (grid_row g y) 0) (char_at (grid_row g y) (w - 1)))
  /\ (forall x, 0 <= x < w -> pair_ok (char_at (grid_row g 0) x) (char_at (grid_row g (h - 1)) x)).

(** The levels that [validateLevel] accepts, stated without the search. *)
Definition valid_level (parsed : ParsedLevel) : Prop :=
  border_ok (rawGrid parsed) (width parsed) (height parsed)
  /\ 1 <= playerStartCount parsed <= 2
  /\ 1 <= pelletCount parsed
  /\ ghostStarts parsed <> []
  /\ forall p, p ∈ pelletPositions parsed ->
       exists s, s ∈ playerStarts parsed /\ reachable parsed s p.

Lemma checkPair_nil a ax ay b bx by_ axis :
  checkPair a ax ay b bx by_ axis = [] <-> pair_ok a b.
Proof.
  unfold checkPair, pair_ok. cbv zeta.
  destruct (Ascii.eqb_spec a "#") as [->|Ha], (Ascii.eqb_spec b "#") as [->|Hb]; cbn.
  - split; [intros _; left; split; reflexivity|reflexivity].
  - split; [discriminate|]. intros [[_ H]|[H _]]; [contradiction|discriminate H].
  - split; [discriminate|]. intros [[H _]|[_ H]]; [contradiction|discriminate H].
  - destruct (isAllowedBorderTunnelChar a), (isAllowedBorderTunnelChar b); cbn;
      (split; [try discriminate; intros _; right; split; reflexivity
              |intros [[H _]|[H1 H2]]; [contradiction|try discriminate; reflexivity]]).
Qed.

Lemma borderRules_nil g w h : borderRules g w h = [] <-> border_ok g w h.
Proof.
  unfold borderRules, border_ok. destruct ((w <? 3) || (h <? 3)) eqn:Hsmall.
  - split; [discriminate|]. intros (Hw & Hh & _). lia.
  - cbv zeta. split.
    + intros Hnil. apply app_eq_nil in Hnil as [Hrows Hcols].
      split; [lia|]. split; [lia|]. split.
      * intros y Hy. eapply checkPair_nil.
        apply (concat_map_nil_inv _ _ Hrows y). apply elem_of_seqZ. lia.
      * intros x Hx. eapply checkPair_nil.
        apply (concat_map_nil_inv _ _ Hcols x). apply elem_of_seqZ. lia.
    + intros (_ & _ & Hrows & Hcols).
      rewrite !concat_map_nil; [reflexivity| |].
      * intros x Hx. apply elem_of_seqZ in Hx. apply checkPair_nil, Hcols. lia.
      * intros y Hy. apply elem_of_seqZ in Hy. apply checkPair_nil, Hrows. lia.
Qed.

Lemma parseLevel_errors_nonempty level errs : parseLevel level = inl errs -> errs <> [].
Proof.
  unfold parseLevel. destruct (grid level) as [|row0 rest]; [intros [= <-]; discriminate|].
  cbv zeta. destruct (bool_decide _) eqn:Hd; cbn [negb]; [discriminate|].
  intros [= <-]. apply bool_decide_eq_false_1 in Hd. exact Hd.
Qed.

Lemma playerStarts_in_bounds level parsed s :
  parseLevel level = inr parsed -> s ∈ playerStarts parsed ->
  in_bounds parsed (pos_x s) (pos_y s) = true.
Proof.
  intros Hparse Hs. destruct (parseLevel_inv level parsed Hparse)
    as (row0 & rest & _ & _ & _ & _ & _ & _ & HP & _).
  cbv zeta in HP. rewrite HP in Hs. apply elem_of_positions_where in Hs as [Hb _].
  apply in_bounds_spec. exact Hb.
Qed.

(** The errors that [validateLevel] collects for a parsed level are none
    exactly for a valid level. *)
Lemma validate_errors_nil level parsed :
  parseLevel level = inr parsed ->
  errors (validateLevel level) = [] <-> valid_level parsed.
Proof.
  intros Hparse. unfold validateLevel. rewrite Hparse. cbv zeta. cbn [errors].
  destruct (parseLevel_fields level parsed Hparse) as (_ & _ & _ & Hwf).
  pose proof (playerStarts_in_bounds level parsed) as Hin.
  destruct (parseLevel_inv level parsed Hparse)
    as (row0 & rest & _ & _ & _ & _ & _ & _ & _ & _ & HnP & _).
  cbv zeta in HnP. unfold valid_level. split.
  - intros Hnil. apply app_eq_nil in Hnil as [Hborder Hnil].
    apply app_eq_nil in Hnil as [Hplayers Hnil].
    apply app_eq_nil in Hnil as [Hpellets Hnil].
    apply app_eq_nil in Hnil as [Hghosts Hreach].
    split; [apply borderRules_nil, Hborder|].
    destruct ((playerStartCount parsed <? 1) || (2 <? playerStartCount parsed)) eqn:Hp;
      [discriminate Hplayers|].
    destruct (pelletCount parsed <? 1) eqn:Hc; [discriminate Hpellets|].
    destruct (Z.of_nat (length (ghostStarts parsed)) <? 1) eqn:Hg; [discriminate Hghosts|].
    split; [lia|]. split; [lia|]. split.
    { intros Hempty. rewrite Hempty in Hg. discriminate Hg. }
    replace ((0 <? Z.of_nat (length (playerStarts parsed))) && (0 <? pelletCount parsed))
      with true in Hreach by lia.
    intros p Hp'.
    apply (pellets_visited_exact parsed (playerStarts parsed) p Hwf (fun s Hs => Hin s Hparse Hs)).
    unfold pelletsReachableFromStart in Hreach. cbv zeta in Hreach.
    pose proof (concat_map_nil_inv _ _ Hreach p Hp') as Hone. cbv beta in Hone.
    destruct (is_visited _ _ _); [reflexivity|discriminate Hone].
  - intros (Hborder & Hplayers & Hpellets & Hghosts & Hreach).
    rewrite (proj2 (borderRules_nil _ _ _) Hborder).
    replace ((playerStartCount parsed <? 1) || (2 <? playerStartCount parsed)) with false by lia.
    replace (pelletCount parsed <? 1) with false by lia.
    assert (Hg : (Z.of_nat (length (ghostStarts parsed)) <? 1) = false).
    { apply Z.ltb_ge. destruct (ghostStarts parsed); [congruence|]. cbn [length]. lia. }
    rewrite Hg.
    replace ((0 <? Z.of_nat (length (playerStarts parsed))) && (0 <? pelletCount parsed))
      with true by lia.
    cbn [app]. unfold pelletsReachableFromStart. cbv zeta. apply concat_map_nil. intros p Hp.
    rewrite (proj2 (pellets_visited_exact parsed (playerStarts parsed) p Hwf
                      (fun s Hs => Hin s Hparse Hs)) (Hreach p Hp)).
    reflexivity.
Qed.

(** X6.  [validateLevel] answers [ok] exactly when the level parses and the
    parsed level is valid: at least three by three, every pair of opposite
    border tiles both walls or both allowed tunnel characters, one or two
    player starts, a pellet, a ghost start, and every pellet and power pellet
    reached by legal moves from a player start.  It answers [ok] exactly
    when it reports no error. *)
Theorem validateLevel_ok (level : LevelJson) :
  (ok (validateLevel level) = true
   <-> exists parsed, parseLevel level = inr parsed /\ valid_level parsed)
  /\ (ok (validateLevel level) = true <-> errors (validateLevel level) = []).
Proof.
  assert (Hok : ok (validateLevel level) = true <-> errors (validateLevel level) = []).
  { unfold validateLevel. destruct (parseLevel level) as [errs|parsed] eqn:Hparse.
    - cbn [ok errors]. split; [discriminate|].
      intros Hnil. destruct (parseLevel_errors_nonempty level errs Hparse Hnil).
    - cbv zeta. cbn [ok errors]. apply bool_decide_eq_true. }
  split; [|exact Hok]. rewrite Hok. split.
  - intros Hnil. destruct (parseLevel level) as [errs|parsed] eqn:Hparse.
    + unfold validateLevel in Hnil. rewrite Hparse in Hnil. cbn [errors] in Hnil.
      destruct (parseLevel_errors_nonempty level errs Hparse Hnil).
    + exists parsed. split; [reflexivity|].
      apply (validate_errors_nil level parsed Hparse), Hnil.
  - intros (parsed & Hparse & Hvalid). apply (validate_errors_nil level parsed Hparse), Hvalid.
Qed.

(** ** pacRogue.ts and levelParser.ts: parsing a generated level *)

Lemma rectangular_chars (g : list string) (w h : Z) :
  0 < w -> Z.of_nat (length g) = h ->
  (forall row, row ∈ g -> str_length row = w) ->
  (forall x r, 0 <= x < w -> 0 <= r < h -> isLegendChar (char_at (grid_row g r) x) = true) ->
  rectangular g w.
Proof.
  intros Hw Hh Hlen Hch. split; [exact Hw|]. intros row Hrow. split; [apply Hlen, Hrow|].
  intros ch Hin. apply list_elem_of_lookup in Hrow as [r Hr]. apply list_elem_of_lookup in Hin as [i Hi].
  pose proof (lookup_lt_Some _ _ _ Hr) as Hrlt. pose proof (lookup_lt_Some _ _ _ Hi) as Hilt.
  pose proof (Hlen row (list_elem_of_lookup_2 _ _ _ Hr)) as Hrowlen.
  rewrite <- (string_of_list_ascii_of_string row) in Hrowlen.
  unfold str_length in Hrowlen. rewrite PacRogueFacts.length_string_of_list_ascii in Hrowlen.
  specialize (Hch (Z.of_nat i) (Z.of_nat r) ltac:(lia) ltac:(lia)).
  unfold grid_row, char_at in Hch.
  destruct (Z.ltb_spec (Z.of_nat r) 0); [lia|]. destruct (Z.ltb_spec (Z.of_nat i) 0); [lia|].
  rewrite !Nat2Z.id, Hr in Hch. cbn [default from_option id] in Hch. unfold id in Hch.
  rewrite <- (string_of_list_ascii_of_string row), PacRogueFacts.get_string_of_list_ascii, Hi in Hch.
  exact Hch.
Qed.

Lemma NoDup_singleton_eq {A} (l : list A) (a : A) :
  NoDup l -> (forall x, x ∈ l <-> x = a) -> l = [a].
Proof.
  intros Hnd Hl. apply Permutation_singleton_r, NoDup_Permutation; [exact Hnd|apply NoDup_singleton|].
  intros x. rewrite Hl, list_elem_of_singleton. reflexivity.
Qed.

Section ReturnedParse.
Variables (params : PacRogue.PacRogueParams) (lj : LevelJson).
Hypothesis returned : PacRogue.generatePacRogueLevel params = Some lj.

Let w := level_width params.
Let h := level_height params.

(** The characters of the returned grid: legend characters, with 'P' on one
    tile strictly inside the border ring. *)
Lemma returned_chars :
  exists p,
    (1 <= pos_x p <= w - 2 /\ 1 <= pos_y p <= h - 2)
    /\ forall x r, 0 <= x < w -> 0 <= r < h ->
         (char_at (grid_row (grid lj) r) x = "P"%char <-> mkGridPos x r = p)
         /\ isLegendChar (char_at (grid_row (grid lj) r) x) = true.
Proof.
  destruct (generatePacRogueLevel_inv params lj returned) as (gw & gh & defs & -> & _).
  pose proof (level_width_range params) as Hw. pose proof (level_height_range params) as Hh.
  fold w in Hw. fold h in Hh.
  pose proof (PacRogueFacts.buildGrid_get w h Hw Hh gw gh defs (PacRogue.difficulty params)) as [Hs _].
  destruct (PacRogueFacts.buildGrid_player w h Hw Hh gw gh defs (PacRogue.difficulty params))
    as ([px py] & Hp & Hget).
  cbn [fst snd] in Hp. exists (mkGridPos px (h - 1 - py)). cbn [pos_x pos_y]. split; [lia|].
  intros x r Hx Hr. fold w h.
  pose proof (PacRogueFacts.rows_get w h _ x r Hx Hr Hs) as Hrow.
  assert (Hin : PacRogue.out_of_grid w h x (h - 1 - r) = false)
    by (apply PacRogueFacts.out_of_grid_false; lia).
  destruct (Hget x (h - 1 - r) Hin) as [HP (c & Hc & Hleg)]. rewrite Hrow in HP, Hc.
  injection Hc as <-. split; [|exact Hleg]. split.
  - intros Heq. assert (HP' : (x, h - 1 - r) = (px, py)) by (apply HP; rewrite Heq; reflexivity).
    injection HP' as Hx' Hy'. f_equal; lia.
  - intros Heq. injection Heq as Hx' Hr'.
    assert (HP' : Some (char_at (grid_row (map string_of_list_ascii
                          (PacRogue.buildGrid w h gw gh defs (PacRogue.difficulty params))) r) x)
                  = Some "P"%char) by (apply HP; f_equal; lia).
    injection HP' as HP'. exact HP'.
Qed.

Lemma returned_rectangular : rectangular (grid lj) w.
Proof.
  destruct (returned_shape params lj returned) as [Hlen Hrows]. fold w h in Hlen, Hrows.
  destruct returned_chars as (p & _ & Hch).
  pose proof (level_width_range params) as Hw. fold w in Hw.
  apply (rectangular_chars _ w h); [lia|exact Hlen|exact Hrows|].
  intros x r Hx Hr. apply Hch; assumption.
Qed.

Lemma returned_head : exists row0 rest, grid lj = row0 :: rest /\ str_length row0 = w.
Proof.
  destruct (returned_shape params lj returned) as [Hlen Hrows]. fold w h in Hlen, Hrows.
  pose proof (level_height_range params) as Hh. fold h in Hh.
  destruct (grid lj) as [|row0 rest]; [cbn in Hlen; lia|].
  exists row0, rest. split; [reflexivity|]. apply Hrows. left.
Qed.

End ReturnedParse.

(** X7.  A level that [generatePacRogueLevel] returns parses.  The parsed
    level has the clamped width and height, one player start, strictly
    inside the border ring, and one, two or three ghost starts by
    difficulty.  [validateLevel] can therefore only object to its pellets:
    it reports that there is none, or which ones the player cannot reach. *)
Theorem generated_level_parses (params : PacRogue.PacRogueParams) (lj : LevelJson) :
  PacRogue.generatePacRogueLevel params = Some lj ->
  exists parsed p,
    parseLevel lj = inr parsed
    /\ width parsed = level_width params /\ height parsed = level_height params
    /\ playerStarts parsed = [p] /\ startPos parsed = Some p /\ playerStartCount parsed = 1
    /\ (1 <= pos_x p <= width parsed - 2 /\ 1 <= pos_y p <= height parsed - 2)
    /\ Z.of_nat (length (ghostStarts parsed)) = PacRogue.wantedGhosts (PacRogue.difficulty params)
    /\ errors (validateLevel lj)
       = if pelletCount parsed <? 1 then [err_no_pellet]
         else pelletsReachableFromStart parsed [p] (pelletPositions parsed).
Proof.
  intros Hret.
  destruct (returned_head params lj Hret) as (row0 & rest & Hgrid & Hrow0).
  pose proof (returned_rectangular params lj Hret) as Hrect.
  destruct (returned_chars params lj Hret) as (p & Hp & Hch).
  destruct (returned_shape params lj Hret) as [Hlen _].
  assert (Hparse : exists parsed, parseLevel lj = inr parsed).
  { unfold parseLevel. rewrite Hgrid. cbv zeta. rewrite <- Hgrid, Hrow0.
    rewrite bool_decide_eq_true_2
      by (apply parse_errors_rectangular; [pose proof (level_width_range params); lia|exact Hrect]).
    cbn [negb]. eexists. reflexivity. }
  destruct Hparse as [parsed Hparse]. exists parsed, p. split; [exact Hparse|].
  destruct (parseLevel_inv lj parsed Hparse)
    as (row0' & rest' & Hgrid' & _ & Hraw & Hw & Hh & _ & HP & Hstart & HnP & HG & _).
  cbv zeta in HP, Hstart, HnP, HG.
  rewrite Hgrid in Hgrid'. injection Hgrid' as <- <-. rewrite Hrow0 in Hw. rewrite Hlen in Hh.
  assert (Hstarts : playerStarts parsed = [p]).
  { apply NoDup_singleton_eq; [rewrite HP; apply NoDup_positions_where|].
    intros q. rewrite HP, elem_of_positions_where, Hw, Hh. split.
    - intros [[Hx Hy] Hc]. apply Ascii.eqb_eq in Hc.
      rewrite <- (GridPos_eta q). apply (Hch _ _ Hx Hy), Hc.
    - intros ->. split; [pose proof (level_width_range params);
                         pose proof (level_height_range params); lia|].
      apply Ascii.eqb_eq. apply Hch; [pose proof (level_width_range params); lia
                                     |pose proof (level_height_range params); lia
                                     |apply GridPos_eta]. }
  assert (Hghosts : Z.of_nat (length (ghostStarts parsed))
                    = PacRogue.wantedGhosts (PacRogue.difficulty params)).
  { destruct (ghost_start_tiles_spec params) as (Hnd & Hcount & Hin).
    rewrite <- Hcount. f_equal. apply Permutation_length, NoDup_Permutation;
      [rewrite HG; apply NoDup_positions_where|exact Hnd|].
    intros q. rewrite HG, elem_of_positions_where, Hw, Hh. split.
    - intros [[Hx Hy] Hc]. apply Ascii.eqb_eq in Hc.
      rewrite <- (GridPos_eta q). apply (returned_ghosts params lj Hret); assumption.
    - intros Hq. destruct (Hin q Hq) as [[Hx Hy] _]. split; [split; assumption|].
      apply Ascii.eqb_eq. apply (returned_ghosts params lj Hret); [assumption..|].
      rewrite GridPos_eta. exact Hq. }
  split; [exact Hw|]. split; [exact Hh|]. split; [exact Hstarts|].
  split; [rewrite Hstart, Hstarts; reflexivity|].
  split; [rewrite HnP, Hstarts; reflexivity|].
  split; [rewrite Hw, Hh; exact Hp|]. split; [exact Hghosts|].
  unfold validateLevel. rewrite Hparse. cbv zeta. cbn [errors].
  rewrite Hraw, Hw, Hh, (returned_borderRules params lj Hret), HnP, Hstarts, Hghosts.
  cbn [length app]. change (Z.of_nat 1) with 1.
  pose proof (PacRogueFacts.wantedGhosts_range (PacRogue.difficulty params)) as Hwanted.
  replace (PacRogue.wantedGhosts (PacRogue.difficulty params) <? 1) with false by lia.
  cbn [orb Z.ltb Z.compare Pos.compare Pos.compare_cont andb app].
  destruct (Z.ltb_spec (pelletCount parsed) 1) as [Hlt|Hge].
  - replace (0 <? pelletCount parsed) with false by lia. reflexivity.
  - replace (0 <? pelletCount parsed) with true by lia. reflexivity.
Qed.

(** The level generated for the seed [abc] at normal difficulty. *)
Lemma generated_level_parses_witness :
  exists lj parsed,
    PacRogue.generatePacRogueLevel abc_params = Some lj
    /\ parseLevel lj = inr parsed /\ width parsed = 22 /\ height parsed = 31
    /\ playerStartCount parsed = 1 /\ Z.of_nat (length (ghostStarts parsed)) = 2.
Proof.
  destruct (PacRogue.generatePacRogueLevel abc_params) as [lj|] eqn:Hret.
  - destruct (generated_level_parses abc_params lj Hret)
      as (parsed & p & Hparse & Hw & Hh & _ & _ & Hn & _ & Hg & _).
    exists lj, parsed. split; [reflexivity|]. split; [exact Hparse|].
    split; [exact Hw|]. split; [exact Hh|]. split; [exact Hn|exact Hg].
  - vm_compute in Hret. discriminate Hret.
Defined.

(** ** vibeReorgShift.ts: the tiles of an accepted batch *)

Definition pos_key (p : GridPos) : Z * Z := tileKey (pos_x p) (pos_y p).

(** The keys and the tiles of the accepted swaps, in the order in which the
    loop adds them to its sets. *)
Definition pair_keys (accepted : list (GridPos * GridPos)) : list (Z * Z) :=
  ab ← accepted; [pos_key (fst ab); pos_key (snd ab)].

Definition pair_tiles (accepted : list (GridPos * GridPos)) : list GridPos :=
  ab ← accepted; [fst ab; snd ab].

(** One of the two tiles is a wall and the other one a walkable tile that is
    no start marker. *)
Definition wall_and_floor (level : ParsedLevel) (ab : GridPos * GridPos) : Prop :=
  (tile_of level (fst ab) = wall /\ isMutableWalkable (tile_of level (snd ab)) = true)
  \/ (tile_of level (snd ab) = wall /\ isMutableWalkable (tile_of level (fst ab)) = true).

(** The pair [ab] of [level0] has exchanged its tiles in [level]. *)
Definition exchanged (level0 level : ParsedLevel) (mask : list (list bool))
    (ab : GridPos * GridPos) : Prop :=
  free_pair level0 mask ab
  /\ tile_of level (fst ab) = tile_of level0 (snd ab)
  /\ tile_of level (snd ab) = tile_of level0 (fst ab)
  /\ wall_and_floor level0 ab.

Lemma pair_keys_app acc ab :
  pair_keys (acc ++ [ab]) = pair_keys acc ++ [pos_key (fst ab); pos_key (snd ab)].
Proof. unfold pair_keys. rewrite bind_app. cbn. reflexivity. Qed.

Lemma pair_keys_tiles acc : map (fun k => mkGridPos (fst k) (snd k)) (pair_keys acc) = pair_tiles acc.
Proof.
  induction acc as [|[a b] acc IH]; [reflexivity|].
  unfold pair_keys, pair_tiles in *. rewrite !bind_cons. cbn [app map fst snd pos_key tileKey].
  rewrite !GridPos_eta. f_equal. f_equal. exact IH.
Qed.

Lemma set_add_new s k : k ∉ s -> set_add s k = s ++ [k].
Proof. intros Hk. unfold set_add, set_has. rewrite bool_decide_eq_false_2 by exact Hk. reflexivity. Qed.

Lemma pair_keys_elem acc ab :
  ab ∈ acc -> pos_key (fst ab) ∈ pair_keys acc /\ pos_key (snd ab) ∈ pair_keys acc.
Proof.
  intros Hin. unfold pair_keys. rewrite !list_elem_of_bind.
  split; exists ab; (split; [|exact Hin]); rewrite !elem_of_cons; auto.
Qed.

Lemma tileAt_swap_other level a b x y :
  wf_level level ->
  in_bounds level (pos_x a) (pos_y a) = true -> in_bounds level (pos_x b) (pos_y b) = true ->
  (x, y) <> pos_key a -> (x, y) <> pos_key b ->
  tileAt (swapTiles level a b) x y = tileAt level x y.
Proof.
  intros Hwf Ha Hb Hna Hnb. rewrite tileAt_swapTiles by assumption.
  rewrite !bool_decide_eq_false_2; [reflexivity|exact Hna|exact Hnb].
Qed.

Lemma tileAt_swap_fst level a b :
  wf_level level ->
  in_bounds level (pos_x a) (pos_y a) = true -> in_bounds level (pos_x b) (pos_y b) = true ->
  pos_key a <> pos_key b ->
  tile_of (swapTiles level a b) a = tile_of level b.
Proof.
  intros Hwf Ha Hb Hne. unfold tile_of. rewrite tileAt_swapTiles by assumption.
  rewrite bool_decide_eq_false_2 by exact Hne. rewrite bool_decide_eq_true_2 by reflexivity.
  reflexivity.
Qed.

Lemma tileAt_swap_snd level a b :
  wf_level level ->
  in_bounds level (pos_x a) (pos_y a) = true -> in_bounds level (pos_x b) (pos_y b) = true ->
  tile_of (swapTiles level a b) b = tile_of level a.
Proof.
  intros Hwf Ha Hb. unfold tile_of. rewrite tileAt_swapTiles by assumption.
  rewrite bool_decide_eq_true_2 by reflexivity. reflexivity.
Qed.

Section ShiftTiles.
Context {S : Type} (R : Rng S).

(** The swap that a mutation slot accepts. *)
Lemma tryMutation_pick tries level rng mask used starts critical steps :
  wf_level level ->
  match tryMutation R tries level rng mask used starts critical steps with
  | Applied level' _ a b =>
      level' = swapTiles level a b /\ free_pair level mask (a, b)
      /\ (pos_key a ∉ used) /\ (pos_key b ∉ used) /\ pos_key a <> pos_key b
      /\ wall_and_floor level (a, b)
  | NotApplied _ _ => True
  | AttemptThrew _ _ => True
  end.
Proof.
  intros Hwf. revert level rng Hwf.
  induction tries as [|tries IH]; intros level rng Hwf; simpl; [exact I|].
  case_bool_decide as Hnil; [exact I|].
  destruct (nextInt R 0 _ rng) as [i rng'].
  destruct (lookupZ _ i) as [pick|] eqn:Hpick; [|exact I].
  apply lookupZ_elem_of, collect_spec in Hpick.
  destruct Hpick as (Ha & Hb & Hpa & Hpb & Hua & Hub & Hne & Hadj & Hwall).
  destruct (negb _) eqn:Hok; [apply IH, Hwf|].
  destruct (passesChecks _ _ _ _) eqn:Hpass.
  - split; [reflexivity|]. split; [repeat split; assumption|].
    unfold set_has in Hua, Hub. apply bool_decide_eq_false_1 in Hua, Hub.
    split; [exact Hua|]. split; [exact Hub|]. split; [exact Hne|exact Hwall].
  - rewrite swapTiles_involutive by assumption. apply IH, Hwf.
Qed.

Lemma shiftLoop_tiles n cfg level0 level rng mask starts critical accepted level' rng' tiles :
  wf_level level0 -> wf_level level ->
  width level = width level0 -> height level = height level0 ->
  NoDup (pair_keys accepted) ->
  Forall (exchanged level0 level mask) accepted ->
  (forall x y, (x, y) ∉ pair_keys accepted -> tileAt level x y = tileAt level0 x y) ->
  shiftLoop R n cfg level rng mask starts critical (pair_keys accepted) accepted (pair_keys accepted)
    = (level', rng', Returned true tiles) ->
  exists swaps,
    length swaps = (length accepted + n)%nat
    /\ tiles = pair_tiles swaps
    /\ NoDup (pair_keys swaps)
    /\ Forall (exchanged level0 level' mask) swaps
    /\ forall x y, (x, y) ∉ pair_keys swaps -> tileAt level' x y = tileAt level0 x y.
Proof.
  intros Hwf0. revert level rng accepted.
  induction n as [|n IH]; intros level rng accepted Hwf Hw Hh Hnd Hall Hrest; simpl.
  - intros [= <- <- <-]. exists accepted. split; [lia|]. split; [apply pair_keys_tiles|].
    split; [exact Hnd|]. split; [exact Hall|exact Hrest].
  - pose proof (tryMutation_pick (Z.to_nat (maxTriesPerMutation cfg)) level rng mask
                  (pair_keys accepted) starts critical (softlockMaxSteps cfg) Hwf) as Hpick.
    destruct (tryMutation _ _ _ _ _ _ _ _ _) as [l1 rng1 a b|l1 rng1|l1 rng1]; [|discriminate..].
    destruct Hpick as (-> & Hfree & Hua & Hub & Hne & Hwall).
    destruct Hfree as (Ha & Hb & Hpa & Hpb & Hadj). cbn [fst snd] in Ha, Hb, Hpa, Hpb, Hadj.
    fold (pos_key a) (pos_key b).
    rewrite (set_add_new _ (pos_key a)) by exact Hua.
    rewrite (set_add_new _ (pos_key b))
      by (rewrite elem_of_app, list_elem_of_singleton; intros [H|H]; [exact (Hub H)|exact (Hne (eq_sym H))]).
    replace ((pair_keys accepted ++ [pos_key a]) ++ [pos_key b])
      with (pair_keys (accepted ++ [(a, b)]))
      by (rewrite pair_keys_app, <- app_assoc; reflexivity).
    intros Hloop. apply IH in Hloop.
    + destruct Hloop as (swaps & Hlen & Htiles & Hnd' & Hall' & Hrest').
      exists swaps. rewrite length_app in Hlen. cbn [length] in Hlen.
      split; [lia|]. split; [exact Htiles|]. split; [exact Hnd'|]. split; [exact Hall'|exact Hrest'].
    + apply wf_swapTiles, Hwf.
    + rewrite swapTiles_width. exact Hw.
    + rewrite swapTiles_height. exact Hh.
    + rewrite pair_keys_app. apply NoDup_app. split; [exact Hnd|]. split.
      * intros k Hk Hk'. apply elem_of_cons in Hk' as [->|Hk'];
          [exact (Hua Hk)|apply list_elem_of_singleton in Hk' as ->; exact (Hub Hk)].
      * apply NoDup_cons_2; [|apply NoDup_singleton].
        rewrite list_elem_of_singleton. exact Hne.
    + assert (Hin0 : forall x y, in_bounds level x y = in_bounds level0 x y)
        by (intros x y; unfold in_bounds; rewrite Hw, Hh; reflexivity).
      apply Forall_app. split.
      * rewrite Forall_forall in Hall |- *. intros [c d] Hin.
        destruct (Hall _ Hin) as (Hfree & Hc & Hd & Hcd).
        destruct (pair_keys_elem _ _ Hin) as [Hkc Hkd]. unfold exchanged. cbn [fst snd] in *.
        split; [exact Hfree|]. split; [|split; [|exact Hcd]].
        -- rewrite <- Hc. unfold tile_of. apply tileAt_swap_other; try assumption;
             intros Heq; [apply Hua|apply Hub]; rewrite <- Heq; exact Hkc.
        -- rewrite <- Hd. unfold tile_of. apply tileAt_swap_other; try assumption;
             intros Heq; [apply Hua|apply Hub]; rewrite <- Heq; exact Hkd.
      * apply Forall_singleton. unfold exchanged, free_pair, wall_and_floor. cbn [fst snd].
        rewrite <- !Hin0. split; [repeat split; assumption|].
        rewrite tileAt_swap_fst, tileAt_swap_snd by assumption.
        unfold wall_and_floor in Hwall. cbn [fst snd] in Hwall. unfold tile_of in *.
        rewrite <- !(Hrest (pos_x a) (pos_y a)) by exact Hua.
        rewrite <- !(Hrest (pos_x b) (pos_y b)) by exact Hub.
        split; [reflexivity|]. split; [reflexivity|exact Hwall].
    + intros x y Hxy. rewrite pair_keys_app, elem_of_app, !elem_of_cons, elem_of_nil in Hxy.
      cbn [fst snd] in Hxy.
      rewrite tileAt_swap_other; try assumption; [apply Hrest; tauto| |];
        intros Heq; apply Hxy; tauto.
Qed.

End ShiftTiles.

Lemma pair_keys_fmap acc : pair_keys acc = map pos_key (pair_tiles acc).
Proof.
  induction acc as [|[a b] acc IH]; [reflexivity|].
  unfold pair_keys, pair_tiles in *. rewrite !bind_cons. cbn [app map fst snd]. rewrite IH. reflexivity.
Qed.

(** X8.  When [applyReorgShift] returns [ok: true], it has accepted exactly
    [mutations] swaps.  [mutatedTiles] lists their tiles pair by pair, no
    tile twice.  Each pair is two neighbouring unprotected tiles of the grid,
    a wall and a walkable tile that is no start marker, and the two have
    exchanged their tiles; every tile that is not listed is as it was. *)
Theorem reorg_shift_mutated_tiles (S : Type) (R : Rng S) (level : ParsedLevel) (rng : S)
    (cfg : ReorgShiftConfig) (protectedMask : list (list bool)) (starts critical : list GridPos)
    (level' : ParsedLevel) (rng' : S) (mutatedTiles : list GridPos) :
  wf_level level ->
  applyReorgShift R level rng cfg protectedMask starts critical
    = (level', rng', Returned true mutatedTiles) ->
  exists swaps,
    length swaps = Z.to_nat (mutations cfg)
    /\ mutatedTiles = pair_tiles swaps
    /\ NoDup mutatedTiles
    /\ Forall (exchanged level level' protectedMask) swaps
    /\ forall x y, mkGridPos x y ∉ mutatedTiles -> tileAt level' x y = tileAt level x y.
Proof.
  intros Hwf Hcall. unfold applyReorgShift in Hcall.
  apply (shiftLoop_tiles R _ cfg level level rng protectedMask starts critical []) in Hcall;
    [|exact Hwf|exact Hwf|reflexivity|reflexivity|apply NoDup_nil_2|constructor|reflexivity].
  destruct Hcall as (swaps & Hlen & Htiles & Hnd & Hall & Hrest).
  exists swaps. rewrite pair_keys_fmap, <- Htiles in Hnd, Hrest.
  split; [exact Hlen|]. split; [exact Htiles|].
  split; [exact (NoDup_fmap_1 pos_key _ Hnd)|]. split; [exact Hall|].
  intros x y Hxy. apply Hrest. intros Hin. apply Hxy.
  apply list_elem_of_In, in_map_iff in Hin as ([px py] & Hkey & Hin).
  injection Hkey as -> ->. apply list_elem_of_In, Hin.
Qed.

(** One accepted mutation on [tunnel_level]: the wall at (2, 2) and the
    pellet at (2, 3) exchange their tiles. *)
Lemma reorg_shift_mutated_tiles_witness :
  exists level' swaps,
    fst (fst (applyReorgShift createRng_ops tunnel_level (snd (createRng "abc")) (shift_cfg 1)
                ring_mask [mkGridPos 1 1] [mkGridPos 3 1])) = level'
    /\ length swaps = 1%nat
    /\ [mkGridPos 2 2; mkGridPos 2 3] = pair_tiles swaps
    /\ Forall (exchanged tunnel_level level' ring_mask) swaps.
Proof.
  destruct (applyReorgShift createRng_ops tunnel_level (snd (createRng "abc")) (shift_cfg 1)
              ring_mask [mkGridPos 1 1] [mkGridPos 3 1]) as [[level' rng'] out] eqn:Hcall.
  assert (Hout : out = Returned true [mkGridPos 2 2; mkGridPos 2 3]).
  { apply (f_equal snd) in Hcall. cbn [snd] in Hcall. rewrite <- Hcall. vm_compute. reflexivity. }
  rewrite Hout in Hcall.
  destruct (reorg_shift_mutated_tiles Z createRng_ops tunnel_level _ _ _ _ _ level' rng' _
              wf_tunnel_level Hcall) as (swaps & Hlen & Htiles & _ & Hall & _).
  exists level', swaps. split; [reflexivity|]. split; [exact Hlen|]. split; [exact Htiles|exact Hall].
Defined.

(** ** GameScene.ts: what the mask protects *)

Lemma hasProtected_is_visited mask x y : hasProtected mask x y = is_visited mask x y.
Proof. reflexivity. Qed.

Lemma setMask_mark mask x y : 0 <= x -> 0 <= y -> GameScene.setMask mask x y = mark_visited mask x y.
Proof.
  intros Hx Hy. unfold GameScene.setMask, mark_visited.
  replace ((x <? 0) || (y <? 0)) with false by lia. reflexivity.
Qed.

(** The border ring of a level. *)
Definition on_ring (level : ParsedLevel) (x y : Z) : Prop :=
  x = 0 \/ x = width level - 1 \/ y = 0 \/ y = height level - 1.

(** The tiles that [buildProtectedMaskForShift] marks after the ring. *)
Definition marked_tiles (scene : GameScene.Scene) (level : ParsedLevel) : list GridPos :=
  playerStarts level ++ option_list (startPos level) ++ ghostStarts level
  ++ GameScene.sceneTiles scene ++ GameScene.ghostHouse level.

Section Mask.
Context (level : ParsedLevel).

Let h := Z.to_nat (height level).
Let w := Z.to_nat (width level).

Lemma is_visited_mark_iff mask x y x' y' :
  Grid2.shape h w mask -> in_bounds level x y = true ->
  is_visited (mark_visited mask x y) x' y' = true
  <-> (x', y') = (x, y) \/ is_visited mask x' y' = true.
Proof.
  intros Hs Hb. apply in_bounds_spec in Hb. split; [apply is_visited_mark|].
  intros [Heq|Hold]; [|apply is_visited_mark_mono, Hold].
  injection Heq as -> ->. apply (is_visited_mark_same h w); [exact Hs|unfold w; lia|unfold h; lia].
Qed.

Lemma markProtected_spec mask p :
  Grid2.shape h w mask ->
  Grid2.shape h w (GameScene.markProtected mask level (pos_x p) (pos_y p))
  /\ forall x y,
       is_visited (GameScene.markProtected mask level (pos_x p) (pos_y p)) x y = true
       <-> (in_bounds level x y = true /\ mkGridPos x y = p) \/ is_visited mask x y = true.
Proof.
  intros Hs. unfold GameScene.markProtected.
  destruct (_ || _ || _ || _) eqn:Hout.
  - split; [exact Hs|]. intros x y. split; [auto|]. intros [[Hb <-]|Hold]; [|exact Hold].
    apply in_bounds_spec in Hb. cbn [pos_x pos_y] in Hout. lia.
  - assert (Hb : in_bounds level (pos_x p) (pos_y p) = true) by (apply in_bounds_spec; lia).
    rewrite setMask_mark by lia. split; [apply shape_mark, Hs|]. intros x y.
    rewrite (is_visited_mark_iff _ _ _ _ _ Hs Hb). split.
    + intros [[= -> ->]|Hold]; [left|right; exact Hold]. split; [exact Hb|apply GridPos_eta].
    + intros [[_ <-]|Hold]; [left; reflexivity|right; exact Hold].
Qed.

Lemma fold_markProtected l mask :
  Grid2.shape h w mask ->
  let mask' := fold_left (fun m p => GameScene.markProtected m level (pos_x p) (pos_y p)) l mask in
  Grid2.shape h w mask'
  /\ forall x y, is_visited mask' x y = true
       <-> (in_bounds level x y = true /\ mkGridPos x y ∈ l) \/ is_visited mask x y = true.
Proof.
  revert mask. induction l as [|p l IH]; intros mask Hs; cbn [fold_left].
  - split; [exact Hs|]. intros x y. rewrite elem_of_nil. tauto.
  - destruct (markProtected_spec mask p Hs) as [Hs' Hp].
    destruct (IH _ Hs') as [Hs'' Hl]. split; [exact Hs''|].
    intros x y. cbv zeta in Hl. rewrite Hl, Hp, elem_of_cons. tauto.
Qed.

Lemma fold_ring_rows xs mask :
  0 < height level -> (forall x, x ∈ xs -> 0 <= x < width level) ->
  Grid2.shape h w mask ->
  let mask' := fold_left (fun m x => GameScene.setMask (GameScene.setMask m x 0) x (height level - 1))
                 xs mask in
  Grid2.shape h w mask'
  /\ forall x y, is_visited mask' x y = true
       <-> (x ∈ xs /\ (y = 0 \/ y = height level - 1)) \/ is_visited mask x y = true.
Proof.
  intros Hh. revert mask. induction xs as [|x0 xs IH]; intros mask Hxs Hs; cbn [fold_left].
  - split; [exact Hs|]. intros x y. rewrite elem_of_nil. tauto.
  - assert (Hx0 : 0 <= x0 < width level) by (apply Hxs; left).
    rewrite !setMask_mark by lia.
    assert (Hs1 : Grid2.shape h w (mark_visited mask x0 0)) by apply shape_mark, Hs.
    destruct (IH (mark_visited (mark_visited mask x0 0) x0 (height level - 1)))
      as [Hs'' Hl]; [intros x Hx; apply Hxs; right; exact Hx|apply shape_mark, Hs1|].
    split; [exact Hs''|]. intros x y. cbv zeta in Hl.
    rewrite Hl, (is_visited_mark_iff _ _ _ _ _ Hs1), (is_visited_mark_iff _ _ _ _ _ Hs),
      elem_of_cons by (apply in_bounds_spec; lia).
    split.
    + intros [H|[[= -> ->]|[[= -> ->]|H]]]; tauto.
    + intros [[[->|H] [->| ->]]|H]; tauto.
Qed.

Lemma fold_ring_cols ys mask :
  0 < width level -> (forall y, y ∈ ys -> 0 <= y < height level) ->
  Grid2.shape h w mask ->
  let mask' := fold_left (fun m y => GameScene.setMask (GameScene.setMask m 0 y) (width level - 1) y)
                 ys mask in
  Grid2.shape h w mask'
  /\ forall x y, is_visited mask' x y = true
       <-> (y ∈ ys /\ (x = 0 \/ x = width level - 1)) \/ is_visited mask x y = true.
Proof.
  intros Hw. revert mask. induction ys as [|y0 ys IH]; intros mask Hys Hs; cbn [fold_left].
  - split; [exact Hs|]. intros x y. rewrite elem_of_nil. tauto.
  - assert (Hy0 : 0 <= y0 < height level) by (apply Hys; left).
    rewrite !setMask_mark by lia.
    assert (Hs1 : Grid2.shape h w (mark_visited mask 0 y0)) by apply shape_mark, Hs.
    destruct (IH (mark_visited (mark_visited mask 0 y0) (width level - 1) y0))
      as [Hs'' Hl]; [intros y Hy; apply Hys; right; exact Hy|apply shape_mark, Hs1|].
    split; [exact Hs''|]. intros x y. cbv zeta in Hl.
    rewrite Hl, (is_visited_mark_iff _ _ _ _ _ Hs1), (is_visited_mark_iff _ _ _ _ _ Hs),
      elem_of_cons by (apply in_bounds_spec; lia).
    split.
    + intros [H|[[= -> ->]|[[= -> ->]|H]]]; tauto.
    + intros [[[->|H] [->| ->]]|H]; tauto.
Qed.

(** The mask, tile by tile. *)
Lemma buildProtectedMaskForShift_spec scene mask :
  GameScene.buildProtectedMaskForShift scene level = Some mask ->
  Grid2.shape h w mask
  /\ forall x y, hasProtected mask x y = true
       <-> in_bounds level x y = true
           /\ (on_ring level x y \/ mkGridPos x y ∈ marked_tiles scene level).
Proof.
  unfold GameScene.buildProtectedMaskForShift. cbv zeta.
  destruct (_ || _) eqn:Hdims; [discriminate|]. intros [= <-].
  set (m0 := replicate (Z.to_nat (height level)) (replicate (Z.to_nat (width level)) false)).
  assert (Hs0 : Grid2.shape h w m0) by apply Grid2Facts.shape_replicate.
  assert (Hm0 : forall x y, is_visited m0 x y = false) by (intros; apply is_visited_replicate).
  assert (Hrows : exists m1, fold_left (fun m x => GameScene.setMask (GameScene.setMask m x 0) x
                                                     (height level - 1)) (seqZ 0 (width level)) m0 = m1
            /\ Grid2.shape h w m1
            /\ forall x y, is_visited m1 x y = true
                 <-> 0 <= x < width level /\ 0 < height level /\ (y = 0 \/ y = height level - 1)).
  { eexists. split; [reflexivity|]. destruct (Z.ltb_spec 0 (width level)) as [Hw|Hw].
    - assert (Hh : 0 < height level) by lia.
      destruct (fold_ring_rows (seqZ 0 (width level)) m0 Hh) as [Hs Hl];
        [intros x Hx; apply elem_of_seqZ in Hx; lia|exact Hs0|].
      split; [exact Hs|]. intros x y. cbv zeta in Hl. rewrite Hl, Hm0, elem_of_seqZ.
      split; [intros [[Hx Hy]|H]; [lia|discriminate H]|intros (Hx & _ & Hy); left; lia].
    - rewrite seqZ_nil by lia. cbn [fold_left]. split; [exact Hs0|].
      intros x y. rewrite Hm0. split; [discriminate|lia]. }
  destruct Hrows as (m1 & -> & Hs1 & Hm1).
  assert (Hcols : exists m2, fold_left (fun m y => GameScene.setMask (GameScene.setMask m 0 y)
                                                     (width level - 1) y) (seqZ 0 (height level)) m1 = m2
            /\ Grid2.shape h w m2
            /\ forall x y, is_visited m2 x y = true
                 <-> in_bounds level x y = true /\ on_ring level x y).
  { eexists. split; [reflexivity|]. destruct (Z.ltb_spec 0 (height level)) as [Hh|Hh].
    - assert (Hw : 0 < width level) by lia.
      destruct (fold_ring_cols (seqZ 0 (height level)) m1 Hw) as [Hs Hl];
        [intros y Hy; apply elem_of_seqZ in Hy; lia|exact Hs1|].
      split; [exact Hs|]. intros x y. cbv zeta in Hl.
      rewrite Hl, Hm1, elem_of_seqZ, in_bounds_spec. unfold on_ring. lia.
    - rewrite seqZ_nil by lia. cbn [fold_left]. split; [exact Hs1|].
      intros x y. rewrite Hm1, in_bounds_spec. lia. }
  destruct Hcols as (m2 & -> & Hs2 & Hm2).
  destruct (fold_markProtected (playerStarts level) m2 Hs2) as [Hs3 Hm3]. cbv zeta in Hs3, Hm3.
  set (m3 := fold_left _ (playerStarts level) m2) in *.
  assert (Hstart : exists m4,
            match startPos level with
            | Some p => GameScene.markProtected m3 level (pos_x p) (pos_y p)
            | None => m3
            end = m4
            /\ Grid2.shape h w m4
            /\ forall x y, is_visited m4 x y = true
                 <-> (in_bounds level x y = true /\ mkGridPos x y ∈ option_list (startPos level))
                     \/ is_visited m3 x y = true).
  { eexists. split; [reflexivity|]. destruct (startPos level) as [p|].
    - destruct (markProtected_spec m3 p Hs3) as [Hs4 Hm4]. split; [exact Hs4|].
      intros x y. rewrite Hm4. change (option_list (Some p)) with [p].
      rewrite list_elem_of_singleton. tauto.
    - split; [exact Hs3|]. intros x y. change (option_list (@None GridPos)) with (@nil GridPos).
      rewrite elem_of_nil. tauto. }
  destruct Hstart as (m4 & -> & Hs4 & Hm4).
  destruct (fold_markProtected (ghostStarts level) m4 Hs4) as [Hs5 Hm5]. cbv zeta in Hs5, Hm5.
  set (m5 := fold_left _ (ghostStarts level) m4) in *.
  destruct (fold_markProtected (GameScene.sceneTiles scene) m5 Hs5) as [Hs6 Hm6].
  cbv zeta in Hs6, Hm6.
  set (m6 := fold_left _ (GameScene.sceneTiles scene) m5) in *.
  destruct (fold_markProtected (GameScene.ghostHouse level) m6 Hs6) as [Hs7 Hm7].
  cbv zeta in Hs7, Hm7.
  split; [exact Hs7|]. intros x y.
  rewrite hasProtected_is_visited, Hm7, Hm6, Hm5, Hm4, Hm3, Hm2.
  unfold marked_tiles. rewrite !elem_of_app. tauto.
Qed.

End Mask.


Definition empty_scene : GameScene.Scene := GameScene.mkScene [] [] [] [] None None None [].


(** A mask over the border ring keeps the pairing of the border tiles. *)
Lemma border_invariant_kept (S : Type) (R : Rng S) level rng cfg mask starts critical level' rng' out :
  wf_level level -> border_protected level mask -> border_invariant level ->
  applyReorgShift R level rng cfg mask starts critical = (level', rng', out) ->
  border_invariant level'.
Proof.
  intros Hwf Hprot Hinv Hcall.
  destruct (reorg_shift_dims S R _ _ _ _ _ _ _ _ _ Hwf Hcall) as (Hw & Hh & _).
  assert (Hkeep : forall x y, in_bounds level x y = true ->
            x = 0 \/ x = width level - 1 \/ y = 0 \/ y = height level - 1 ->
            tileAt level' x y = tileAt level x y).
  { intros x y Hb Hring. eapply reorg_shift_keeps_protected; [exact Hwf|exact Hcall|].
    apply Hprot; assumption. }
  intros x y Hb'.
  assert (Hb : in_bounds level x y = true) by (unfold in_bounds in *; rewrite <- Hw, <- Hh; exact Hb').
  destruct (Hinv x y Hb) as [Hx Hy]. pose proof Hb as Hxy. apply in_bounds_spec in Hxy.
  rewrite Hw, Hh. split; intros ->.
  - rewrite (Hkeep 0 y) by (try exact Hb; left; reflexivity).
    rewrite (Hkeep (width level - 1) y)
      by (try (apply in_bounds_spec; lia); right; left; reflexivity).
    apply Hx. reflexivity.
  - rewrite (Hkeep x 0) by (try exact Hb; right; right; left; reflexivity).
    rewrite (Hkeep x (height level - 1))
      by (try (apply in_bounds_spec; lia); right; right; right; reflexivity).
    apply Hy. reflexivity.
Qed.

(** X10.  A reorg shift run with the mask of the game scene, whatever it
    returns, changes no tile of the border ring, no start marker, no tile
    under a dynamic object or an entity and no tile of the ghost house block;
    it keeps the pairing of opposite border tiles, so tunnels stay tunnels;
    and the start markers stay where the level lists them. *)
Theorem game_shift_keeps_protected (S : Type) (R : Rng S) (scene : GameScene.Scene)
    (level : ParsedLevel) (rng : S) (cfg : ReorgShiftConfig) (mask : list (list bool))
    (starts critical : list GridPos) (level' : ParsedLevel) (rng' : S) (out : Outcome) :
  wf_level level ->
  GameScene.buildProtectedMaskForShift scene level = Some mask ->
  applyReorgShift R level rng cfg mask starts critical = (level', rng', out) ->
  (forall x y, in_bounds level x y = true ->
     on_ring level x y \/ mkGridPos x y ∈ marked_tiles scene level ->
     tileAt level' x y = tileAt level x y)
  /\ (border_invariant level -> border_invariant level')
  /\ (forall p, p ∈ playerStarts level ++ ghostStarts level ->
        in_bounds level (pos_x p) (pos_y p) = true -> tile_of level' p = tile_of level p).
Proof.
  intros Hwf Hmask Hcall.
  destruct (buildProtectedMaskForShift_spec level scene mask Hmask) as [_ Hprot].
  assert (Hkeep : forall x y, in_bounds level x y = true ->
            on_ring level x y \/ mkGridPos x y ∈ marked_tiles scene level ->
            tileAt level' x y = tileAt level x y).
  { intros x y Hb Hxy. eapply reorg_shift_keeps_protected; [exact Hwf|exact Hcall|].
    apply Hprot. split; assumption. }
  split; [exact Hkeep|]. split.
  - intros Hinv. apply (border_invariant_kept S R level rng cfg mask starts critical level' rng' out);
      try assumption.
    intros x y Hb Hring. apply Hprot. split; [exact Hb|]. left. exact Hring.
  - intros p Hp Hb. unfold tile_of. apply Hkeep; [exact Hb|]. right. rewrite GridPos_eta.
    unfold marked_tiles. rewrite !elem_of_app. rewrite elem_of_app in Hp. tauto.
Qed.

(** A shift of [tunnel_level] under the mask of the empty scene: the player
    start at (1, 1) stays. *)
Lemma game_shift_keeps_protected_witness :
  exists mask,
    GameScene.buildProtectedMaskForShift empty_scene tunnel_level = Some mask
    /\ tileAt (fst (fst (applyReorgShift createRng_ops tunnel_level (snd (createRng "abc"))
                           (shift_cfg 1) mask [mkGridPos 1 1] [mkGridPos 3 1]))) 1 1
       = playerStart.
Proof.
  destruct (GameScene.buildProtectedMaskForShift empty_scene tunnel_level) as [mask|] eqn:Hmask;
    [|vm_compute in Hmask; discriminate Hmask].
  exists mask. split; [reflexivity|].
  destruct (applyReorgShift createRng_ops tunnel_level (snd (createRng "abc")) (shift_cfg 1) mask
              [mkGridPos 1 1] [mkGridPos 3 1]) as [[level' rng'] out] eqn:Hcall.
  cbn [fst].
  rewrite (proj1 (game_shift_keeps_protected Z createRng_ops empty_scene tunnel_level _ _ mask _ _
                    level' rng' out wf_tunnel_level Hmask Hcall) 1 1);
    [reflexivity|reflexivity|].
  right. apply list_elem_of_In. vm_compute. left. reflexivity.
Defined.

(** ** pelletSystem.ts: the counters *)

Lemma countRemaining_row row (acc : Z * Z) :
  fold_left (fun (acc : Z * Z) tile =>
      if bool_decide (tile = pellet) then (fst acc + 1, snd acc)
      else if bool_decide (tile = power) then (fst acc, snd acc + 1)
      else acc) row acc
  = (fst acc + Z.of_nat (length (filter (fun u => bool_decide (u = pellet) = true) row)),
     snd acc + Z.of_nat (length (filter (fun u => bool_decide (u = power) = true) row))).
Proof.
  revert acc. induction row as [|tile row IH]; intros [a b]; cbn [fold_left fst snd].
  - cbn. f_equal; lia.
  - rewrite IH, !filter_cons.
    destruct tile;
      repeat first [rewrite bool_decide_eq_true_2 by reflexivity
                   |rewrite bool_decide_eq_false_2 by discriminate];
      repeat first [rewrite decide_True by reflexivity|rewrite decide_False by discriminate];
      cbn [fst snd length]; f_equal; lia.
Qed.

Lemma countRemaining_counts m :
  PelletSystem.countRemaining m
  = (Z.of_nat (Grid2.count2 (fun u => bool_decide (u = pellet)) m),
     Z.of_nat (Grid2.count2 (fun u => bool_decide (u = power)) m)).
Proof.
  unfold PelletSystem.countRemaining, Grid2.count2.
  enough (H : forall acc : Z * Z,
            fold_left (fun acc row =>
                fold_left (fun (acc : Z * Z) tile =>
                    if bool_decide (tile = pellet) then (fst acc + 1, snd acc)
                    else if bool_decide (tile = power) then (fst acc, snd acc + 1)
                    else acc) row acc) m acc
            = (fst acc + Z.of_nat (list_sum (map (fun row =>
                   length (filter (fun u => bool_decide (u = pellet) = true) row)) m)),
               snd acc + Z.of_nat (list_sum (map (fun row =>
                   length (filter (fun u => bool_decide (u = power) = true) row)) m))))
    by (rewrite H; reflexivity).
  induction m as [|row m IH]; intros [a b]; cbn [fold_left map fst snd]; unfold list_sum;
    cbn [fold_right]; fold list_sum.
  - f_equal; lia.
  - rewrite countRemaining_row, IH. cbn [fst snd]. unfold list_sum. f_equal; lia.
Qed.

(** The counters of the system are the numbers of pellet and power tiles of
    its level. *)
Definition in_sync (s : PelletSystem.t) : Prop :=
  PelletSystem.pellets s = Z.of_nat (countTile pellet (PelletSystem.level s))
  /\ PelletSystem.powers s = Z.of_nat (countTile power (PelletSystem.level s)).

Lemma countTile_setTile_lookup t level x y old u :
  0 <= x -> 0 <= y ->
  PelletSystem.tileOrUndefined level x y = Some old ->
  (countTile t (setTile level x y u) + Grid2Facts.b2n (bool_decide (old = t))
   = countTile t level + Grid2Facts.b2n (bool_decide (u = t)))%nat.
Proof.
  intros Hx Hy Hold. unfold countTile, setTile.
  replace ((x <? 0) || (y <? 0)) with false by lia. cbn [tileMatrix with_tileMatrix].
  apply (Grid2Facts.count2_insert2 (fun v => bool_decide (v = t)) _ _ _ old u Hold).
Qed.

Lemma countTile_with_pelletPositions t level l :
  countTile t (PelletSystem.with_pelletPositions level l) = countTile t level.
Proof. reflexivity. Qed.

(** Decides the tile tests of a counting equation. *)
Ltac tile_tests H :=
  repeat first [rewrite bool_decide_eq_true_2 in H by reflexivity
               |rewrite bool_decide_eq_false_2 in H by discriminate];
  unfold Grid2Facts.b2n in H.

Lemma tryCollectAt_sync s x y : in_sync s -> in_sync (snd (PelletSystem.tryCollectAt s x y)).
Proof.
  intros [Hp Ho]. unfold PelletSystem.tryCollectAt.
  destruct (PelletSystem.outside _ x y) eqn:Hout; [split; assumption|].
  unfold PelletSystem.outside in Hout.
  destruct (PelletSystem.tileOrUndefined _ x y) as [tile|] eqn:Htile; [|split; assumption].
  pose proof (countTile_setTile_lookup pellet _ x y tile empty ltac:(lia) ltac:(lia) Htile) as H1.
  pose proof (countTile_setTile_lookup power _ x y tile empty ltac:(lia) ltac:(lia) Htile) as H2.
  destruct tile; try (split; assumption); tile_tests H1; tile_tests H2; cbv zeta; cbn [snd];
    unfold in_sync; cbn [PelletSystem.pellets PelletSystem.powers PelletSystem.level]; lia.
Qed.

Lemma spawnPowerPelletAt_sync s x y :
  in_sync s -> in_sync (snd (PelletSystem.spawnPowerPelletAt s x y)).
Proof.
  intros [Hp Ho]. unfold PelletSystem.spawnPowerPelletAt.
  destruct (PelletSystem.outside _ x y) eqn:Hout; [split; assumption|].
  unfold PelletSystem.outside in Hout.
  destruct (PelletSystem.tileOrUndefined _ x y) as [tile|] eqn:Htile; [|split; assumption].
  pose proof (countTile_setTile_lookup pellet _ x y tile power ltac:(lia) ltac:(lia) Htile) as H1.
  pose proof (countTile_setTile_lookup power _ x y tile power ltac:(lia) ltac:(lia) Htile) as H2.
  destruct tile;
    repeat first [rewrite bool_decide_eq_true_2 by reflexivity
                 |rewrite bool_decide_eq_false_2 by discriminate];
    cbn [negb andb]; try (split; assumption);
    tile_tests H1; tile_tests H2; cbv zeta; cbn [snd]; unfold in_sync;
    cbn [PelletSystem.pellets PelletSystem.powers PelletSystem.level];
    destruct (existsb _ _); rewrite ?countTile_with_pelletPositions; lia.
Qed.

Lemma count2_zero {A} (p : A -> bool) (m : list (list A)) :
  Grid2.count2 p m = 0%nat
  <-> forall r c v, Grid2.lookup2 m r c = Some v -> p v = false.
Proof.
  unfold Grid2.count2, Grid2.lookup2. induction m as [|row m IH]; cbn [map].
  - split; [intros _ r c v Hv; rewrite lookup_nil in Hv; discriminate|reflexivity].
  - change (list_sum (?a :: ?l)) with (a + list_sum l)%nat. split.
    + intros Hsum r c v Hv. destruct r as [|r]; cbn in Hv.
      * assert (Hrow : length (filter (fun x => p x = true) row) = 0%nat) by lia.
        apply length_zero_iff_nil in Hrow. destruct (p v) eqn:Hpv; [|reflexivity].
        assert (Hin : v ∈ filter (fun x => p x = true) row)
          by (apply list_elem_of_filter; split; [exact Hpv|eapply list_elem_of_lookup_2, Hv]).
        rewrite Hrow in Hin. apply elem_of_nil in Hin as [].
      * apply (proj1 IH ltac:(lia) r c v). exact Hv.
    + intros Hall. assert (Hrow : filter (fun x => p x = true) row = []).
      { destruct (filter (fun x => p x = true) row) as [|v l] eqn:Hf; [reflexivity|].
        assert (Hin : v ∈ filter (fun x => p x = true) row) by (rewrite Hf; left).
        apply list_elem_of_filter in Hin as [Hpv Hin]. apply list_elem_of_lookup in Hin as [c Hc].
        rewrite (Hall 0%nat c v Hc) in Hpv. discriminate Hpv. }
      rewrite Hrow. cbn [length]. rewrite (proj2 IH); [reflexivity|].
      intros r c v Hv. apply (Hall (Datatypes.S r) c v). exact Hv.
Qed.

(** No tile of kind [t] is left on a well-formed level exactly when its
    count is zero. *)
Lemma countTile_zero t level :
  wf_level level ->
  countTile t level = 0%nat
  <-> forall x y, in_bounds level x y = true -> tileAt level x y <> t.
Proof.
  intros Hwf. unfold countTile. rewrite count2_zero. split.
  - intros Hall x y Hb Ht. pose proof (tileAt_lookup level x y Hwf Hb) as Hlk.
    apply Hall in Hlk. apply bool_decide_eq_false_1 in Hlk. contradiction.
  - intros Hall r c v Hv. apply bool_decide_eq_false_2. intros ->.
    destruct Hwf as (Hw & Hh & Hs). pose proof Hs as [Hlen Hrows].
    destruct (Grid2Facts.lookup2_Some_lt _ _ _ _ _ _ Hs Hv) as [Hr Hc].
    assert (Hb : in_bounds level (Z.of_nat c) (Z.of_nat r) = true) by (apply in_bounds_spec; lia).
    apply (Hall _ _ Hb). unfold tileAt.
    replace ((Z.of_nat c <? 0) || (Z.of_nat r <? 0)) with false by lia.
    rewrite !Nat2Z.id, Hv. reflexivity.
Qed.

(** X11.  The counters of a [PelletSystem] are the numbers of pellet and
    power tiles of its level: they are so after the constructor, which finds
    the counts of [parseLevel] on a parsed level, and [tryCollectAt] and
    [spawnPowerPelletAt] keep them so; a reorg shift of the shared level
    keeps them so, too.  Hence [getRemainingCount] is 0 exactly when no
    pellet and no power pellet is left on the grid. *)
Theorem pellet_counters_in_sync :
  (forall lv, in_sync (PelletSystem.create lv))
  /\ (forall level parsed, parseLevel level = inr parsed ->
        PelletSystem.pellets (PelletSystem.create parsed) = pelletCount parsed
        /\ PelletSystem.powers (PelletSystem.create parsed) = powerCount parsed)
  /\ (forall s x y, in_sync s ->
        in_sync (snd (PelletSystem.tryCollectAt s x y))
        /\ in_sync (snd (PelletSystem.spawnPowerPelletAt s x y)))
  /\ (forall (S : Type) (R : Rng S) s rng cfg mask starts critical level' rng' out,
        in_sync s -> wf_level (PelletSystem.level s) ->
        applyReorgShift R (PelletSystem.level s) rng cfg mask starts critical = (level', rng', out) ->
        in_sync (PelletSystem.mkPelletSystem level' (PelletSystem.pellets s) (PelletSystem.powers s)))
  /\ (forall s, in_sync s -> wf_level (PelletSystem.level s) ->
        PelletSystem.getRemainingCount s = 0
        <-> forall x y, in_bounds (PelletSystem.level s) x y = true ->
              tileAt (PelletSystem.level s) x y <> pellet
              /\ tileAt (PelletSystem.level s) x y <> power).
Proof.
  assert (Hcreate : forall lv, in_sync (PelletSystem.create lv)).
  { intros lv. unfold in_sync, PelletSystem.create. cbv zeta.
    rewrite countRemaining_counts. split; reflexivity. }
  split; [exact Hcreate|]. split.
  { intros level parsed Hparse. destruct (Hcreate parsed) as [Hp Ho].
    cbn [PelletSystem.create PelletSystem.level] in Hp, Ho. rewrite Hp, Ho.
    destruct (parseLevel_inv level parsed Hparse)
      as (row0 & rest & _ & _ & _ & _ & _ & _ & _ & _ & _ & _ & Hnp & Hno & _).
    cbv zeta in Hnp, Hno. rewrite Hnp, Hno.
    rewrite (countTile_parsed level parsed _ pellet Hparse test_pellet).
    rewrite (countTile_parsed level parsed _ power Hparse test_power). split; reflexivity. }
  split; [intros s x y Hs; split; [apply tryCollectAt_sync|apply spawnPowerPelletAt_sync]; exact Hs|].
  split.
  { intros S R s rng cfg mask starts critical level' rng' out [Hp Ho] Hwf Hcall.
    unfold applyReorgShift in Hcall.
    eapply shiftLoop_spec in Hcall as [(acc & Hall & ->) _]; [|exact Hwf|constructor|reflexivity].
    unfold in_sync. cbn [PelletSystem.pellets PelletSystem.powers PelletSystem.level].
    rewrite !(countTile_apply_swaps _ _ mask acc Hwf Hall). split; assumption. }
  intros s [Hp Ho] Hwf. unfold PelletSystem.getRemainingCount. rewrite Hp, Ho. split.
  - intros Hzero x y Hb. split.
    + apply (proj1 (countTile_zero pellet _ Hwf)); [lia|exact Hb].
    + apply (proj1 (countTile_zero power _ Hwf)); [lia|exact Hb].
  - intros Hnone.
    rewrite (proj2 (countTile_zero pellet _ Hwf)) by (intros x y Hb; apply Hnone, Hb).
    rewrite (proj2 (countTile_zero power _ Hwf)) by (intros x y Hb; apply Hnone, Hb).
    reflexivity.
Qed.

Lemma tryCollectAt_none s x y :
  wf_level (PelletSystem.level s) ->
  ~ (in_bounds (PelletSystem.level s) x y = true
     /\ (tileAt (PelletSystem.level s) x y = pellet \/ tileAt (PelletSystem.level s) x y = power)) ->
  PelletSystem.tryCollectAt s x y = (None, s).
Proof.
  intros Hwf Hnot. unfold PelletSystem.tryCollectAt.
  destruct (PelletSystem.outside _ x y) eqn:Hout; [reflexivity|].
  assert (Hb : in_bounds (PelletSystem.level s) x y = true)
    by (unfold PelletSystem.outside in Hout; apply in_bounds_spec; lia).
  unfold PelletSystem.tileOrUndefined. rewrite (tileAt_lookup _ x y Hwf Hb).
  destruct (tileAt (PelletSystem.level s) x y) eqn:Ht; try reflexivity;
    exfalso; apply Hnot; split; auto.
Qed.

Lemma tryCollectAt_pellet s x y :
  wf_level (PelletSystem.level s) -> in_bounds (PelletSystem.level s) x y = true ->
  tileAt (PelletSystem.level s) x y = pellet ->
  PelletSystem.tryCollectAt s x y
  = (Some (PelletSystem.mkCollectResult PelletSystem.item_pellet 10
             (Z.max 0 (PelletSystem.pellets s - 1) + PelletSystem.powers s)
             (Z.max 0 (PelletSystem.pellets s - 1)) (PelletSystem.powers s)),
     PelletSystem.mkPelletSystem (setTile (PelletSystem.level s) x y empty)
       (Z.max 0 (PelletSystem.pellets s - 1)) (PelletSystem.powers s)).
Proof.
  intros Hwf Hb Ht. unfold PelletSystem.tryCollectAt, PelletSystem.outside.
  apply in_bounds_spec in Hb as Hxy.
  replace ((x <? 0) || (y <? 0) || (width (PelletSystem.level s) <=? x)
           || (height (PelletSystem.level s) <=? y)) with false by lia.
  unfold PelletSystem.tileOrUndefined. rewrite (tileAt_lookup _ x y Hwf Hb), Ht. reflexivity.
Qed.

Lemma tryCollectAt_power s x y :
  wf_level (PelletSystem.level s) -> in_bounds (PelletSystem.level s) x y = true ->
  tileAt (PelletSystem.level s) x y = power ->
  PelletSystem.tryCollectAt s x y
  = (Some (PelletSystem.mkCollectResult PelletSystem.item_power 50
             (PelletSystem.pellets s + Z.max 0 (PelletSystem.powers s - 1))
             (PelletSystem.pellets s) (Z.max 0 (PelletSystem.powers s - 1))),
     PelletSystem.mkPelletSystem (setTile (PelletSystem.level s) x y empty)
       (PelletSystem.pellets s) (Z.max 0 (PelletSystem.powers s - 1))).
Proof.
  intros Hwf Hb Ht. unfold PelletSystem.tryCollectAt, PelletSystem.outside.
  apply in_bounds_spec in Hb as Hxy.
  replace ((x <? 0) || (y <? 0) || (width (PelletSystem.level s) <=? x)
           || (height (PelletSystem.level s) <=? y)) with false by lia.
  unfold PelletSystem.tileOrUndefined. rewrite (tileAt_lookup _ x y Hwf Hb), Ht. reflexivity.
Qed.

(** Nothing is left to collect on a tile that has just been emptied. *)
Lemma tryCollectAt_emptied lv p o x y :
  wf_level lv -> in_bounds lv x y = true ->
  fst (PelletSystem.tryCollectAt (PelletSystem.mkPelletSystem (setTile lv x y empty) p o) x y) = None.
Proof.
  intros Hwf Hb. rewrite tryCollectAt_none; [reflexivity|apply wf_setTile, Hwf|].
  cbn [PelletSystem.level]. rewrite (tileAt_setTile_eq _ x y empty Hwf Hb).
  intros [_ [H|H]]; discriminate H.
Qed.

(** X12.  On a well-formed level whose counters are in sync, [tryCollectAt]
    returns [null] and changes nothing unless the tile is a pellet or a power
    pellet of the grid.  Otherwise that tile becomes empty and no other tile
    changes, the result reports 10 points for a pellet and 50 for a power
    pellet, the remaining count drops by exactly one, and a second call on
    the same tile returns [null]. *)
Theorem tryCollectAt_spec (s : PelletSystem.t) (x y : Z) :
  wf_level (PelletSystem.level s) -> in_sync s ->
  match PelletSystem.tryCollectAt s x y with
  | (None, s') =>
      s' = s
      /\ ~ (in_bounds (PelletSystem.level s) x y = true
            /\ (tileAt (PelletSystem.level s) x y = pellet
                \/ tileAt (PelletSystem.level s) x y = power))
  | (Some res, s') =>
      in_bounds (PelletSystem.level s) x y = true
      /\ ((tileAt (PelletSystem.level s) x y = pellet
           /\ PelletSystem.collected res = PelletSystem.item_pellet
           /\ PelletSystem.scoreDelta res = 10)
          \/ (tileAt (PelletSystem.level s) x y = power
              /\ PelletSystem.collected res = PelletSystem.item_power
              /\ PelletSystem.scoreDelta res = 50))
      /\ tileAt (PelletSystem.level s') x y = empty
      /\ (forall x' y', (x', y') <> (x, y) ->
            tileAt (PelletSystem.level s') x' y' = tileAt (PelletSystem.level s) x' y')
      /\ PelletSystem.remainingCount res = PelletSystem.getRemainingCount s - 1
      /\ PelletSystem.getRemainingCount s' = PelletSystem.remainingCount res
      /\ PelletSystem.remainingPellets res = PelletSystem.getRemainingPellets s'
      /\ PelletSystem.remainingPowers res = PelletSystem.getRemainingPowers s'
      /\ fst (PelletSystem.tryCollectAt s' x y) = None
  end.
Proof.
  intros Hwf [Hp Ho].
  destruct (in_bounds (PelletSystem.level s) x y) eqn:Hb.
  2:{ rewrite tryCollectAt_none; [|exact Hwf|intros [H _]; congruence].
      split; [reflexivity|]. intros [H _]. congruence. }
  pose proof (countTile_setTile pellet _ x y empty Hwf Hb) as H1.
  pose proof (countTile_setTile power _ x y empty Hwf Hb) as H2.
  destruct (tileAt (PelletSystem.level s) x y) eqn:Ht;
    try (rewrite tryCollectAt_none; [|exact Hwf|intros [_ [H|H]]; congruence];
         split; [reflexivity|]; intros [_ [H|H]]; discriminate H).
  - rewrite tryCollectAt_pellet by assumption. tile_tests H1.
    unfold PelletSystem.getRemainingCount, PelletSystem.getRemainingPellets,
      PelletSystem.getRemainingPowers.
    cbn [PelletSystem.pellets PelletSystem.powers PelletSystem.level PelletSystem.collected
         PelletSystem.scoreDelta PelletSystem.remainingCount PelletSystem.remainingPellets
         PelletSystem.remainingPowers].
    split; [reflexivity|]. split; [left; repeat split; reflexivity|].
    split; [apply tileAt_setTile_eq; assumption|].
    split; [intros x' y' Hne; apply tileAt_setTile_ne; congruence|].
    split; [lia|]. split; [reflexivity|]. split; [reflexivity|]. split; [reflexivity|].
    apply tryCollectAt_emptied; assumption.
  - rewrite tryCollectAt_power by assumption. tile_tests H2.
    unfold PelletSystem.getRemainingCount, PelletSystem.getRemainingPellets,
      PelletSystem.getRemainingPowers.
    cbn [PelletSystem.pellets PelletSystem.powers PelletSystem.level PelletSystem.collected
         PelletSystem.scoreDelta PelletSystem.remainingCount PelletSystem.remainingPellets
         PelletSystem.remainingPowers].
    split; [reflexivity|]. split; [right; repeat split; reflexivity|].
    split; [apply tileAt_setTile_eq; assumption|].
    split; [intros x' y' Hne; apply tileAt_setTile_ne; congruence|].
    split; [lia|]. split; [reflexivity|]. split; [reflexivity|]. split; [reflexivity|].
    apply tryCollectAt_emptied; assumption.
Qed.

(** Collecting the pellet at (2, 1) of [tunnel_level] leaves five. *)
Lemma tryCollectAt_spec_witness :
  match PelletSystem.tryCollectAt (PelletSystem.create tunnel_level) 2 1 with
  | (Some res, s') =>
      PelletSystem.remainingCount res = 5 /\ tileAt (PelletSystem.level s') 2 1 = empty
  | (None, _) => False
  end.
Proof.
  assert (Hsync : in_sync (PelletSystem.create tunnel_level)) by (split; vm_compute; reflexivity).
  pose proof (tryCollectAt_spec (PelletSystem.create tunnel_level) 2 1 wf_tunnel_level Hsync) as H.
  destruct (PelletSystem.tryCollectAt (PelletSystem.create tunnel_level) 2 1) as [[res|] s'] eqn:Hcall.
  - destruct H as (_ & _ & Hempty & _ & Hcount & _). split; [|exact Hempty].
    rewrite Hcount. vm_compute. reflexivity.
  - vm_compute in Hcall. discriminate Hcall.
Defined.

Lemma spawnPowerPelletAt_refused s x y :
  wf_level (PelletSystem.level s) ->
  ~ (in_bounds (PelletSystem.level s) x y = true
     /\ (tileAt (PelletSystem.level s) x y = empty \/ tileAt (PelletSystem.level s) x y = wall)) ->
  PelletSystem.spawnPowerPelletAt s x y = (false, s).
Proof.
  intros Hwf Hnot. unfold PelletSystem.spawnPowerPelletAt.
  destruct (PelletSystem.outside _ x y) eqn:Hout; [reflexivity|].
  assert (Hb : in_bounds (PelletSystem.level s) x y = true)
    by (unfold PelletSystem.outside in Hout; apply in_bounds_spec; lia).
  unfold PelletSystem.tileOrUndefined. rewrite (tileAt_lookup _ x y Hwf Hb).
  destruct (tileAt (PelletSystem.level s) x y) eqn:Ht;
    repeat first [rewrite bool_decide_eq_true_2 by reflexivity
                 |rewrite bool_decide_eq_false_2 by discriminate];
    cbn [negb andb]; try reflexivity; exfalso; apply Hnot; split; auto.
Qed.

Lemma spawnPowerPelletAt_done s x y :
  wf_level (PelletSystem.level s) -> in_bounds (PelletSystem.level s) x y = true ->
  tileAt (PelletSystem.level s) x y = empty \/ tileAt (PelletSystem.level s) x y = wall ->
  PelletSystem.spawnPowerPelletAt s x y
  = (true,
     PelletSystem.mkPelletSystem
       (let lv := setTile (PelletSystem.level s) x y power in
        if existsb (fun p => (pos_x p =? x) && (pos_y p =? y)) (pelletPositions lv) then lv
        else PelletSystem.with_pelletPositions lv (pelletPositions lv ++ [mkGridPos x y]))
       (PelletSystem.pellets s) (PelletSystem.powers s + 1)).
Proof.
  intros Hwf Hb Ht. unfold PelletSystem.spawnPowerPelletAt, PelletSystem.outside.
  apply in_bounds_spec in Hb as Hxy.
  replace ((x <? 0) || (y <? 0) || (width (PelletSystem.level s) <=? x)
           || (height (PelletSystem.level s) <=? y)) with false by lia.
  unfold PelletSystem.tileOrUndefined. rewrite (tileAt_lookup _ x y Hwf Hb).
  destruct Ht as [-> | ->]; reflexivity.
Qed.

Lemma pelletPositions_setTile lv x y t : pelletPositions (setTile lv x y t) = pelletPositions lv.
Proof. unfold setTile. destruct ((x <? 0) || (y <? 0)); reflexivity. Qed.

Lemma existsb_position (l : list GridPos) x y :
  existsb (fun p => (pos_x p =? x) && (pos_y p =? y)) l = true <-> mkGridPos x y ∈ l.
Proof.
  rewrite existsb_exists. split.
  - intros (p & Hin & Hp). apply andb_true_iff in Hp as [Hx Hy].
    apply Z.eqb_eq in Hx, Hy. subst x y. rewrite GridPos_eta. apply list_elem_of_In, Hin.
  - intros Hin. exists (mkGridPos x y). split; [apply list_elem_of_In, Hin|].
    cbn [pos_x pos_y]. rewrite !Z.eqb_refl. reflexivity.
Qed.

(** X13.  On a well-formed level [spawnPowerPelletAt] succeeds exactly on an
    empty or wall tile of the grid, and changes nothing otherwise.  When it
    succeeds the tile is a power pellet and no other tile changes, the tile
    is among [pelletPositions], which gains no duplicate, and the power
    counter is one higher; collecting there next yields the power pellet and
    brings both counters back. *)
Theorem spawnPowerPelletAt_spec (s : PelletSystem.t) (x y : Z) :
  wf_level (PelletSystem.level s) ->
  match PelletSystem.spawnPowerPelletAt s x y with
  | (false, s') =>
      s' = s
      /\ ~ (in_bounds (PelletSystem.level s) x y = true
            /\ (tileAt (PelletSystem.level s) x y = empty
                \/ tileAt (PelletSystem.level s) x y = wall))
  | (true, s') =>
      in_bounds (PelletSystem.level s) x y = true
      /\ (tileAt (PelletSystem.level s) x y = empty \/ tileAt (PelletSystem.level s) x y = wall)
      /\ tileAt (PelletSystem.level s') x y = power
      /\ (forall x' y', (x', y') <> (x, y) ->
            tileAt (PelletSystem.level s') x' y' = tileAt (PelletSystem.level s) x' y')
      /\ (forall p, p ∈ pelletPositions (PelletSystem.level s')
            <-> p = mkGridPos x y \/ p ∈ pelletPositions (PelletSystem.level s))
      /\ (NoDup (pelletPositions (PelletSystem.level s)) ->
          NoDup (pelletPositions (PelletSystem.level s')))
      /\ PelletSystem.pellets s' = PelletSystem.pellets s
      /\ PelletSystem.powers s' = PelletSystem.powers s + 1
      /\ exists res s'',
           PelletSystem.tryCollectAt s' x y = (Some res, s'')
           /\ PelletSystem.collected res = PelletSystem.item_power
           /\ PelletSystem.scoreDelta res = 50
           /\ (0 <= PelletSystem.powers s ->
               PelletSystem.pellets s'' = PelletSystem.pellets s
               /\ PelletSystem.powers s'' = PelletSystem.powers s)
  end.
Proof.
  intros Hwf.
  destruct (in_bounds (PelletSystem.level s) x y) eqn:Hb.
  2:{ rewrite spawnPowerPelletAt_refused; [|exact Hwf|intros [H _]; congruence].
      split; [reflexivity|]. intros [H _]. congruence. }
  destruct (decide (tileAt (PelletSystem.level s) x y = empty
                    \/ tileAt (PelletSystem.level s) x y = wall)) as [Ht|Ht].
  2:{ rewrite spawnPowerPelletAt_refused; [|exact Hwf|intros [_ H]; exact (Ht H)].
      split; [reflexivity|]. intros [_ H]. exact (Ht H). }
  rewrite spawnPowerPelletAt_done by assumption. cbv zeta.
  cbn [PelletSystem.pellets PelletSystem.powers PelletSystem.level].
  rewrite pelletPositions_setTile.
  set (lv1 := setTile (PelletSystem.level s) x y power).
  assert (Hwf1 : wf_level lv1) by apply wf_setTile, Hwf.
  assert (Hpow : tileAt lv1 x y = power) by (apply tileAt_setTile_eq; assumption).
  assert (Hothers : forall x' y', (x', y') <> (x, y) -> tileAt lv1 x' y' = tileAt (PelletSystem.level s) x' y')
    by (intros x' y' Hne; apply tileAt_setTile_ne; congruence).
  assert (Hb1 : in_bounds lv1 x y = true) by (unfold lv1; rewrite in_bounds_setTile; exact Hb).
  set (lv2 := if existsb _ (pelletPositions (PelletSystem.level s)) then lv1
              else PelletSystem.with_pelletPositions lv1
                     (pelletPositions (PelletSystem.level s) ++ [mkGridPos x y])).
  assert (Hm : tileMatrix lv2 = tileMatrix lv1 /\ width lv2 = width lv1 /\ height lv2 = height lv1)
    by (unfold lv2; destruct (existsb _ _); repeat split; reflexivity).
  destruct Hm as (Hm & Hw2 & Hh2).
  assert (Htile2 : forall x' y', tileAt lv2 x' y' = tileAt lv1 x' y')
    by (intros x' y'; unfold tileAt; rewrite Hm; reflexivity).
  assert (Hwf2 : wf_level lv2) by (unfold wf_level; rewrite Hm, Hw2, Hh2; exact Hwf1).
  assert (Hb2 : in_bounds lv2 x y = true) by (unfold in_bounds; rewrite Hw2, Hh2; exact Hb1).
  split; [reflexivity|]. split; [exact Ht|]. split; [rewrite Htile2; exact Hpow|].
  split; [intros x' y' Hne; rewrite Htile2; apply Hothers, Hne|].
  split.
  { intros p. unfold lv2.
    destruct (existsb _ (pelletPositions (PelletSystem.level s))) eqn:Hex.
    - apply existsb_position in Hex. unfold lv1. rewrite pelletPositions_setTile.
      split; [auto|]. intros [->|H]; assumption.
    - cbn [pelletPositions PelletSystem.with_pelletPositions].
      rewrite elem_of_app, list_elem_of_singleton. tauto. }
  split.
  { intros Hnd. unfold lv2.
    destruct (existsb _ (pelletPositions (PelletSystem.level s))) eqn:Hex.
    - unfold lv1. rewrite pelletPositions_setTile. exact Hnd.
    - cbn [pelletPositions PelletSystem.with_pelletPositions].
      apply NoDup_app. split; [exact Hnd|]. split; [|apply NoDup_singleton].
      intros p Hp Hp'. apply list_elem_of_singleton in Hp' as ->.
      apply existsb_position in Hp. rewrite Hp in Hex. discriminate Hex. }
  split; [reflexivity|]. split; [reflexivity|].
  eexists _, _. split.
  { apply tryCollectAt_power; cbn [PelletSystem.level]; [exact Hwf2|exact Hb2|].
    rewrite Htile2. exact Hpow. }
  cbn [PelletSystem.collected PelletSystem.scoreDelta PelletSystem.pellets PelletSystem.powers].
  split; [reflexivity|]. split; [reflexivity|]. intros Hpos. split; [reflexivity|lia].
Qed.

(** A power pellet spawned on the wall at (2, 2) of [tunnel_level]. *)
Lemma spawnPowerPelletAt_spec_witness :
  match PelletSystem.spawnPowerPelletAt (PelletSystem.create tunnel_level) 2 2 with
  | (true, s') => tileAt (PelletSystem.level s') 2 2 = power /\ PelletSystem.powers s' = 1
  | (false, _) => False
  end.
Proof.
  pose proof (spawnPowerPelletAt_spec (PelletSystem.create tunnel_level) 2 2 wf_tunnel_level) as H.
  destruct (PelletSystem.spawnPowerPelletAt (PelletSystem.create tunnel_level) 2 2)
    as [[|] s'] eqn:Hcall.
  - destruct H as (_ & _ & Hpow & _ & _ & _ & _ & Hcount & _). split; [exact Hpow|].
    rewrite Hcount. vm_compute. reflexivity.
  - vm_compute in Hcall. discriminate Hcall.
Defined.

(** ** ghostAI.ts: the rules of [chooseDirection] *)

(** A legal move of a ghost on [tile]. *)
Definition ghost_move (level : ParsedLevel) (tile : GridPos) (d : Direction.t) : Prop :=
  GhostAI.canMove level tile d = true.


Lemma elem_of_availableDirections level tile d :
  d ∈ GhostAI.availableDirections level tile <-> ghost_move level tile d.
Proof.
  unfold GhostAI.availableDirections, ghost_move. rewrite list_elem_of_bind. split.
  - intros (d' & Hin & _). destruct (GhostAI.canMove level tile d') eqn:Hd';
      [|apply elem_of_nil in Hin as []].
    apply list_elem_of_singleton in Hin as ->. exact Hd'.
  - intros Hd. exists d. rewrite Hd. split; [apply list_elem_of_here|].
    destruct d; [discriminate Hd|..]; rewrite !elem_of_cons; auto.
Qed.













(** ** vibeReorgShift.ts: the dead-end search finds every nearby branch *)

Section BranchComplete.
Context (level : ParsedLevel) (start : GridPos) (maxSteps : Z).

Let h := Z.to_nat (height level).
Let w := Z.to_nat (width level).

Definition on_grid (p : GridPos) : Prop := in_bounds level (pos_x p) (pos_y p) = true.

(** The tiles that the search has taken from its queue, with the distance
    it recorded for them: none of them ended the search, and the search has
    looked at every neighbour of those below the step budget. *)
Definition branch_done (all done : list (GridPos * Z)) : Prop :=
  forall e, e ∈ done ->
    ~ (0 < snd e /\ 3 <= degree level (fst e))
    /\ (snd e < maxSteps ->
        forall q, step level (fst e) q -> exists l, (q, l) ∈ all /\ l <= snd e + 1).

(** The state of the search: the queue holds tiles of at most two
    consecutive distances, the nearer ones first. *)
Definition branch_state (done : list (GridPos * Z)) (visited : list (list bool))
    (queue : list (GridPos * Z)) : Prop :=
  Grid2.shape h w visited
  /\ (forall p, seen visited p <-> exists l, (p, l) ∈ done ++ queue)
  /\ Forall (fun e => on_grid (fst e)) queue
  /\ (forall e, e ∈ done ++ queue -> 0 <= snd e /\ (snd e = 0 -> fst e = start))
  /\ branch_done (done ++ queue) done
  /\ exists k A B,
       queue = A ++ B /\ Forall (fun e => snd e = k) A /\ Forall (fun e => snd e = k + 1) B
       /\ Forall (fun e => snd e <= k) done.

(** One turn of the loop over the directions. *)
Lemma branch_visits_spec cur k dirs visited rest :
  Grid2.shape h w visited -> on_grid cur ->
  exists new,
    snd (fold_left (branch_visit level cur k) dirs (visited, rest)) = rest ++ new
    /\ Grid2.shape h w (fst (fold_left (branch_visit level cur k) dirs (visited, rest)))
    /\ Forall (fun e => snd e = k + 1 /\ on_grid (fst e)) new
    /\ (forall p, seen (fst (fold_left (branch_visit level cur k) dirs (visited, rest))) p
          <-> seen visited p \/ exists l, (p, l) ∈ new)
    /\ (forall d q, d ∈ dirs -> nextTileWithWrap level (pos_x cur) (pos_y cur) d = Some q ->
          seen (fst (fold_left (branch_visit level cur k) dirs (visited, rest))) q)
    /\ (unvisited (fst (fold_left (branch_visit level cur k) dirs (visited, rest))) + length new
        = unvisited visited)%nat.
Proof.
  intros Hs Hcur. revert visited rest Hs.
  induction dirs as [|d dirs IH]; intros visited rest Hs; cbn [fold_left].
  - exists []. rewrite app_nil_r. cbn [fst snd length]. split; [reflexivity|]. split; [exact Hs|].
    split; [constructor|]. split.
    + intros p. split; [auto|]. intros [H|(l & H)]; [exact H|apply elem_of_nil in H as []].
    + split; [intros d q Hd; apply elem_of_nil in Hd as []|lia].
  - unfold branch_visit at 2 4 6 8 10. cbn [fst snd].
    destruct (nextTileWithWrap level (pos_x cur) (pos_y cur) d) as [next|] eqn:Hnext.
    2:{ destruct (IH visited rest Hs) as (new & Hq & Hs' & Hnew & Hseen & Hdirs & Hm).
        exists new. split; [exact Hq|]. split; [exact Hs'|]. split; [exact Hnew|].
        split; [exact Hseen|]. split; [|exact Hm].
        intros d' q Hd' Hq'. apply elem_of_cons in Hd' as [->|Hd']; [congruence|].
        apply (Hdirs d' q Hd' Hq'). }
    pose proof (nextTileWithWrap_in_bounds level _ _ d next Hcur Hnext) as Hb.
    destruct (is_visited visited (pos_x next) (pos_y next)) eqn:Hv.
    + destruct (IH visited rest Hs) as (new & Hq & Hs' & Hnew & Hseen & Hdirs & Hm).
      exists new. split; [exact Hq|]. split; [exact Hs'|]. split; [exact Hnew|].
      split; [exact Hseen|]. split; [|exact Hm].
      intros d' q Hd' Hq'. apply elem_of_cons in Hd' as [->|Hd'].
      * rewrite Hnext in Hq'. injection Hq' as <-. apply Hseen. left. exact Hv.
      * apply (Hdirs d' q Hd' Hq').
    + assert (Hs1 : Grid2.shape h w (mark_visited visited (pos_x next) (pos_y next)))
        by apply shape_mark, Hs.
      destruct (IH _ (rest ++ [(next, k + 1)]) Hs1) as (new & Hq & Hs' & Hnew & Hseen & Hdirs & Hm).
      exists ((next, k + 1) :: new). split; [rewrite Hq, <- app_assoc; reflexivity|].
      split; [exact Hs'|]. split; [apply Forall_cons; split; [split; [reflexivity|exact Hb]|exact Hnew]|].
      apply in_bounds_spec in Hb as Hxy.
      assert (Hmark : forall p, seen (mark_visited visited (pos_x next) (pos_y next)) p
                        <-> p = next \/ seen visited p).
      { intros p. unfold seen. split.
        - intros Hp. apply is_visited_mark in Hp as [Heq|Hold]; [left|right; exact Hold].
          destruct p, next. cbn [pos_x pos_y] in Heq. injection Heq as -> ->. reflexivity.
        - intros [->|Hold]; [|apply is_visited_mark_mono, Hold].
          apply (is_visited_mark_same h w); [exact Hs|unfold w; lia|unfold h; lia]. }
      split; [|split].
      * intros p. rewrite Hseen, Hmark. split.
        -- intros [[->|Hp]|(l & Hl)]; [right; exists (k + 1); left|left; exact Hp|].
           right. exists l. right. exact Hl.
        -- intros [Hp|(l & Hl)]; [left; right; exact Hp|].
           apply elem_of_cons in Hl as [[= -> _]|Hl]; [left; left; reflexivity|].
           right. exists l. exact Hl.
      * intros d' q Hd' Hq'. apply elem_of_cons in Hd' as [->|Hd'].
        -- rewrite Hnext in Hq'. injection Hq' as <-. apply Hseen. left. apply Hmark. left. reflexivity.
        -- apply (Hdirs d' q Hd' Hq').
      * pose proof (unvisited_mark h w visited (pos_x next) (pos_y next) Hs
                      ltac:(unfold w; lia) ltac:(unfold h; lia) Hv) as Hum.
        cbn [length]. lia.
Qed.

(** A search that gives up leaves a set of taken tiles that holds all it has
    queued and is closed under the moves within the budget. *)
Lemma branch_loop_closed fuel done visited queue :
  branch_state done visited queue ->
  (unvisited visited + length queue < fuel)%nat ->
  branch_loop fuel level maxSteps visited queue = false ->
  exists done',
    (forall e, e ∈ done ++ queue -> e ∈ done')
    /\ (forall e, e ∈ done' -> 0 <= snd e /\ (snd e = 0 -> fst e = start))
    /\ branch_done done' done'.
Proof.
  revert done visited queue.
  induction fuel as [|fuel IH]; intros done visited queue Hst Hfuel; [lia|].
  cbn [branch_loop]. destruct queue as [|[cur k] rest].
  { intros _. destruct Hst as (_ & _ & _ & Hlab & Hdone & _). rewrite app_nil_r in *.
    exists done. split; [auto|]. split; [exact Hlab|exact Hdone]. }
  destruct Hst as (Hs & Hseen & Hgrid & Hlab & Hdone & k0 & A & B & Hq & HA & HB & Hle).
  apply Forall_cons in Hgrid as [Hcur Hgrid]. cbn [fst] in Hcur.
  (* the two distances of the queue, counted from its head *)
  assert (Hlevels : Forall (fun e => k <= snd e <= k + 1) rest /\ Forall (fun e => snd e <= k) done
                    /\ exists A' B', rest = A' ++ B' /\ Forall (fun e => snd e = k) A'
                                     /\ Forall (fun e => snd e = k + 1) B').
  { destruct A as [|a A'].
    - cbn [app] in Hq. subst B. apply Forall_cons in HB as [Hk HB]. cbn [snd] in Hk. split; [|split].
      + eapply Forall_impl; [exact HB|]. intros e He. cbn beta in He. lia.
      + eapply Forall_impl; [exact Hle|]. intros e He. cbn beta in He. lia.
      + exists rest, []. rewrite app_nil_r. split; [reflexivity|]. split; [|constructor].
        eapply Forall_impl; [exact HB|]. intros e He. cbn beta in He. lia.
    - cbn [app] in Hq. injection Hq as <- ->. apply Forall_cons in HA as [Hk HA]. cbn [snd] in Hk.
      subst k0. split; [|split; [exact Hle|]].
      + apply Forall_app. split; (eapply Forall_impl; [eassumption|]); intros e He; cbn beta in He; lia.
      + exists A', B. split; [reflexivity|]. split; assumption. }
  destruct Hlevels as (Hrest & Hdone_le & A' & B' & Hsplit & HA' & HB').
  assert (Hle' : Forall (fun e => snd e <= k) (done ++ [(cur, k)])).
  { apply Forall_app. split; [exact Hdone_le|]. apply Forall_singleton. cbn [snd]. lia. }
  destruct ((0 <? k) && (3 <=? neighborCount level (pos_x cur) (pos_y cur))) eqn:Hbranch;
    [discriminate|].
  assert (Hnot : ~ (0 < k /\ 3 <= degree level cur)).
  { intros [Hk Hd]. unfold degree in Hd. apply andb_false_iff in Hbranch as [H|H]; lia. }
  destruct (Z.leb_spec maxSteps k) as [Hmax|Hmax].
  - intros Hloop.
    destruct (IH (done ++ [(cur, k)]) visited rest) as (done' & Hsub & Hlab' & Hclosed);
      [|cbn [length] in Hfuel; lia|exact Hloop|].
    + split; [exact Hs|]. split; [intros p; rewrite Hseen, <- app_assoc; reflexivity|].
      split; [exact Hgrid|]. split; [intros e He; apply Hlab; rewrite <- app_assoc in He; exact He|].
      split.
      * intros e He. rewrite <- app_assoc. cbn [app].
        apply elem_of_app in He as [He|He]; [apply Hdone, He|].
        apply list_elem_of_singleton in He as ->. cbn [fst snd]. split; [exact Hnot|lia].
      * exists k, A', B'. split; [exact Hsplit|]. split; [exact HA'|]. split; [exact HB'|exact Hle'].
    + exists done'. split; [|split; [exact Hlab'|exact Hclosed]].
      intros e He. apply Hsub. rewrite <- app_assoc. exact He.
  - destruct (branch_visits_spec cur k search_dirs visited rest Hs Hcur)
      as (new & Hqueue & Hs' & Hnew & Hseen' & Hdirs & Hm).
    destruct (fold_left (branch_visit level cur k) search_dirs (visited, rest))
      as [visited' queue'] eqn:Hfold.
    cbn [fst snd] in *. subst queue'. intros Hloop.
    assert (Hall : forall e, e ∈ (done ++ [(cur, k)]) ++ rest ++ new -> snd e <= k + 1).
    { intros e He. rewrite !elem_of_app in He. destruct He as [[He|He]|[He|He]].
      - rewrite Forall_forall in Hdone_le. specialize (Hdone_le e He). lia.
      - apply list_elem_of_singleton in He as ->. cbn [snd]. lia.
      - rewrite Forall_forall in Hrest. specialize (Hrest e He). lia.
      - rewrite Forall_forall in Hnew. destruct (Hnew e He) as [-> _]. lia. }
    destruct (IH (done ++ [(cur, k)]) visited' (rest ++ new)) as (done' & Hsub & Hlab' & Hclosed);
      [|rewrite length_app; cbn [length] in Hfuel; lia|exact Hloop|].
    + split; [exact Hs'|]. split.
      { intros p. rewrite Hseen', Hseen. split.
        - intros [(l & Hl)|(l & Hl)]; exists l; rewrite !elem_of_app in *; cbn [app] in *.
          + rewrite elem_of_cons in Hl. rewrite list_elem_of_singleton. tauto.
          + tauto.
        - intros (l & Hl). rewrite !elem_of_app, list_elem_of_singleton in Hl.
          destruct Hl as [[Hl|Hl]|[Hl|Hl]].
          + left. exists l. apply elem_of_app. left. exact Hl.
          + left. exists l. apply elem_of_app. right. rewrite Hl. left.
          + left. exists l. apply elem_of_app. right. right. exact Hl.
          + right. exists l. exact Hl. }
      split.
      { apply Forall_app. split; [exact Hgrid|].
        eapply Forall_impl; [exact Hnew|]. intros e [_ He]. exact He. }
      split.
      { intros e He. rewrite !elem_of_app, list_elem_of_singleton in He.
        destruct He as [[He|He]|[He|He]].
        - apply Hlab. apply elem_of_app. left. exact He.
        - apply Hlab. apply elem_of_app. right. rewrite He. left.
        - apply Hlab. apply elem_of_app. right. right. exact He.
        - rewrite Forall_forall in Hnew. destruct (Hnew e He) as [Hk _].
          destruct (Hlab (cur, k)) as [Hk0 _]; [apply elem_of_app; right; left|].
          cbn [snd] in Hk0. lia. }
      split.
      { intros e He. apply elem_of_app in He as [He|He].
        - destruct (Hdone e He) as [Hb Hc]. split; [exact Hb|].
          intros Hlt q Hstep. destruct (Hc Hlt q Hstep) as (l & Hl & Hle1). exists l.
          split; [|exact Hle1]. rewrite !elem_of_app, list_elem_of_singleton.
          rewrite elem_of_app, elem_of_cons in Hl. tauto.
        - apply list_elem_of_singleton in He as ->. cbn [fst snd]. split; [exact Hnot|].
          intros _ q Hstep. destruct (step_search_dir level cur q Hstep) as (d & Hd & Hnext).
          pose proof (Hdirs d q Hd Hnext) as Hqs. apply Hseen' in Hqs.
          assert (Hin : exists l, (q, l) ∈ (done ++ [(cur, k)]) ++ rest ++ new).
          { destruct Hqs as [Hqs|(l & Hl)].
            - apply Hseen in Hqs as (l & Hl). exists l.
              rewrite !elem_of_app, list_elem_of_singleton.
              rewrite elem_of_app, elem_of_cons in Hl. tauto.
            - exists l. rewrite !elem_of_app. tauto. }
          destruct Hin as (l & Hl). exists l. split; [exact Hl|]. apply (Hall _ Hl). }
      exists k, A', (B' ++ new). split; [rewrite Hsplit, <- app_assoc; reflexivity|].
      split; [exact HA'|]. split; [|exact Hle'].
      apply Forall_app. split; [exact HB'|].
      eapply Forall_impl; [exact Hnew|]. intros e [He _]. exact He.
    + exists done'. split; [|split; [exact Hlab'|exact Hclosed]].
      intros e He. apply Hsub. rewrite !elem_of_app, list_elem_of_singleton.
      rewrite elem_of_app, elem_of_cons in He. tauto.
Qed.

(** In a closed set every tile within the budget is recorded at a distance
    that is no longer than the path to it. *)
Lemma branch_done_path done n p :
  (start, 0) ∈ done -> branch_done done done ->
  path level n start p -> Z.of_nat n <= maxSteps ->
  exists l, (p, l) ∈ done /\ l <= Z.of_nat n.
Proof.
  intros Hstart Hclosed Hpath. induction Hpath as [|n p q r Hpath IH Hstep]; intros Hn.
  - exists 0. split; [exact Hstart|lia].
  - destruct (IH Hstart ltac:(lia)) as (l & Hl & Hle).
    destruct (Hclosed _ Hl) as [_ Hnext]. cbn [fst snd] in Hnext.
    destruct (Hnext ltac:(lia) r Hstep) as (l' & Hl' & Hle'). exists l'. split; [exact Hl'|lia].
Qed.

End BranchComplete.

(** A tile of degree three or more that lies within the budget of a start
    of lower degree ends the search. *)
Lemma hasNearbyBranch_complete level start maxSteps :
  in_bounds level (pos_x start) (pos_y start) = true ->
  degree level start < 3 ->
  (exists (n : nat) (t : GridPos),
      (1 <= n)%nat /\ Z.of_nat n <= maxSteps /\ path level n start t
      /\ 3 <= neighborCount level (pos_x t) (pos_y t)) ->
  hasNearbyBranch level start maxSteps = true.
Proof.
  intros Hb Hdeg (n & t & Hn & Hmax & Hpath & Ht).
  destruct (hasNearbyBranch level start maxSteps) eqn:Hsearch; [reflexivity|exfalso].
  unfold hasNearbyBranch in Hsearch. cbv zeta in Hsearch. rewrite GridPos_eta in Hsearch.
  set (visited := mark_visited (new_visited level) (pos_x start) (pos_y start)) in *.
  assert (Hs : Grid2.shape (Z.to_nat (height level)) (Z.to_nat (width level)) visited)
    by apply shape_mark, shape_new_visited.
  apply in_bounds_spec in Hb as Hxy.
  assert (Hstate : branch_state level start maxSteps [] visited [(start, 0)]).
  { split; [exact Hs|]. split.
    { intros p. cbn [app]. unfold seen, visited. split.
      - intros Hp. apply is_visited_mark in Hp as [Heq|Hold]; [|apply seen_new_visited in Hold as []].
        exists 0. apply list_elem_of_singleton. destruct p, start. cbn [pos_x pos_y] in Heq.
        injection Heq as -> ->. reflexivity.
      - intros (l & Hl). apply list_elem_of_singleton in Hl as [= -> _].
        apply (is_visited_mark_same _ _ _ _ _ (shape_new_visited level)); lia. }
    split; [apply Forall_singleton; exact Hb|]. split.
    { intros e He. apply list_elem_of_singleton in He as ->. cbn [fst snd]. split; [lia|reflexivity]. }
    split; [intros e He; apply elem_of_nil in He as []|].
    exists 0, [(start, 0)], []. split; [reflexivity|]. split; [apply Forall_singleton; reflexivity|].
    split; constructor. }
  destruct (branch_loop_closed level start maxSteps (flood_fuel level [] + 1) [] visited
              [(start, 0)] Hstate)
    as (done & Hsub & Hlab & Hclosed); [|exact Hsearch|].
  { pose proof (count2_le negb _ _ _ Hs) as Hle. unfold flood_fuel, unvisited. cbn [length]. lia. }
  assert (Hstart : (start, 0) ∈ done) by (apply Hsub; left).
  destruct (branch_done_path level start maxSteps done n t Hstart Hclosed Hpath Hmax)
    as (l & Hl & Hle).
  destruct (Hclosed _ Hl) as [Hnot _]. destruct (Hlab _ Hl) as [Hl0 Hzero]. cbn [fst snd] in *.
  destruct (Z.eq_dec l 0) as [->|Hne].
  - rewrite (Hzero eq_refl) in Ht. unfold degree in Hdeg. lia.
  - apply Hnot. unfold degree. lia.
Qed.

(** What [passesChecks] accepts is exactly the fair levels. *)
Lemma fair_passesChecks level starts critical maxSteps :
  fair level starts critical maxSteps -> passesChecks level starts critical maxSteps = true.
Proof.
  intros (start0 & rest & -> & Hpellets & Hstarts & Hcritical & Hsoft).
  unfold passesChecks. set (starts := start0 :: rest) in *.
  destruct (Hstarts start0 ltac:(left)) as (Hb0 & Hw0 & _). unfold tile_of in Hw0.
  assert (Hvis : forall q, reachable level start0 q ->
            is_visited (reachableFromStart level start0) (pos_x q) (pos_y q) = true)
    by (intros q; apply reachableFromStart_complete; assumption).
  rewrite !andb_true_iff. split; [split; [split|]|].
  - apply forallb_forall. intros y Hy. apply forallb_forall. intros x Hx. cbv zeta.
    apply list_elem_of_In, elem_of_seqZ in Hx, Hy.
    destruct (negb _ && negb _) eqn:Htile; [reflexivity|].
    apply (Hvis (mkGridPos x y)), Hpellets; [apply in_bounds_spec; lia|].
    apply andb_false_iff in Htile as [H|H]; apply negb_false_iff, bool_decide_eq_true_1 in H; auto.
  - apply forallb_forall. intros s Hs. apply list_elem_of_In in Hs.
    destruct (Hstarts s Hs) as (Hb & Hw & Hr). unfold tile_of in Hw.
    rewrite (proj2 (out_of_level_false level s) Hb), Hw, (Hvis s Hr). reflexivity.
  - apply forallb_forall. intros c Hc. apply list_elem_of_In in Hc.
    destruct (out_of_level level c) eqn:Hout; [reflexivity|].
    apply out_of_level_false in Hout. destruct (Hcritical c Hc Hout) as [Hw Hr].
    unfold tile_of in Hw. rewrite Hw, (Hvis c Hr). reflexivity.
  - apply forallb_forall. intros s Hs. apply list_elem_of_In in Hs.
    destruct (Hstarts s Hs) as (Hb & Hw & _). unfold tile_of in Hw.
    rewrite (proj2 (out_of_level_false level s) Hb), Hw. cbn [negb]. cbv zeta.
    destruct (Hsoft s Hs) as [Hdeg Hone]. unfold degree in Hdeg, Hone.
    destruct (Z.eqb_spec (neighborCount level (pos_x s) (pos_y s)) 0); [lia|].
    destruct (Z.leb_spec 2 (neighborCount level (pos_x s) (pos_y s))); [reflexivity|].
    apply hasNearbyBranch_complete; [exact Hb|unfold degree; lia|].
    apply Hone. lia.
Qed.

(** X15.  On a well-formed level [passesChecks] accepts exactly the fair
    levels: every pellet and power tile is reached by legal moves from the
    first start, every start is a walkable, reached tile of the grid, every
    critical tile of the grid is walkable and reached, and every start has a
    neighbour and, when it has only one, a tile of degree three or more
    within [softlockMaxSteps] moves.  So a swap is undone only when it would
    break one of these. *)
Theorem passesChecks_exact (level : ParsedLevel) (starts critical : list GridPos)
    (softlockMaxSteps : Z) :
  wf_level level ->
  passesChecks level starts critical softlockMaxSteps = true
  <-> fair level starts critical softlockMaxSteps.
Proof.
  intros _. split.
  - apply passesChecks_fair.
  - apply fair_passesChecks.
Qed.

(** [tunnel_level] is fair for the player at (1, 1) and the ghost at (3, 1),
    and is accepted. *)
Lemma passesChecks_exact_witness :
  fair tunnel_level [mkGridPos 1 1] [mkGridPos 3 1] 20
  /\ passesChecks tunnel_level [mkGridPos 1 1] [mkGridPos 3 1] 20 = true.
Proof.
  assert (Hpass : passesChecks tunnel_level [mkGridPos 1 1] [mkGridPos 3 1] 20 = true)
    by (vm_compute; reflexivity).
  split; [|exact Hpass].
  apply (proj1 (passesChecks_exact tunnel_level [mkGridPos 1 1] [mkGridPos 3 1] 20 wf_tunnel_level)).
  exact Hpass.
Defined.

(** ** vibeReorgShift.ts: nobody is walled in *)

Lemma path_tiles level n start q :
  in_bounds level (pos_x start) (pos_y start) = true ->
  isWalkable (tileAt level (pos_x start) (pos_y start)) = true ->
  path level n start q ->
  in_bounds level (pos_x q) (pos_y q) = true
  /\ isWalkable (tileAt level (pos_x q) (pos_y q)) = true.
Proof.
  intros Hb Hw Hpath. induction Hpath as [|n p q r Hpath IH Hstep]; [split; assumption|].
  destruct (IH Hb Hw) as [Hbq _]. destruct Hstep as [d Hd].
  split; [eapply nextTileWithWrap_in_bounds|eapply nextTileWithWrap_walkable]; eassumption.
Qed.

Lemma degree_step level p : 1 <= degree level p -> exists q, step level p q.
Proof.
  unfold degree, neighborCount, step. cbn [fold_left]. intros Hdeg.
  destruct (nextTileWithWrap level (pos_x p) (pos_y p) Direction.Up) as [q|] eqn:Hu; [eauto|].
  destruct (nextTileWithWrap level (pos_x p) (pos_y p) Direction.Down) as [q|] eqn:Hd; [eauto|].
  destruct (nextTileWithWrap level (pos_x p) (pos_y p) Direction.Left) as [q|] eqn:Hl; [eauto|].
  destruct (nextTileWithWrap level (pos_x p) (pos_y p) Direction.Right) as [q|] eqn:Hr; [eauto|].
  lia.
Qed.

(** On a fair level every start and every critical tile of the grid has a
    legal move. *)
Lemma fair_moves level starts critical maxSteps :
  fair level starts critical maxSteps ->
  (forall s, s ∈ starts -> exists q, step level s q)
  /\ (forall c, c ∈ critical -> in_bounds level (pos_x c) (pos_y c) = true ->
        exists q, step level c q).
Proof.
  intros (start0 & rest & -> & _ & Hstarts & Hcritical & Hsoft).
  assert (Hs : forall s, s ∈ start0 :: rest -> exists q, step level s q).
  { intros s Hs. apply degree_step. destruct (Hsoft s Hs) as [Hdeg _]. exact Hdeg. }
  split; [exact Hs|]. intros c Hc Hb.
  destruct (Hstarts start0 ltac:(left)) as (Hb0 & Hw0 & _). unfold tile_of in Hw0.
  destruct (Hcritical c Hc Hb) as [_ [n Hpath]].
  inversion Hpath as [p Hp|m p q r Hprev [d Hd]]; subst.
  - apply Hs. left.
  - destruct (path_tiles level m start0 q Hb0 Hw0 Hprev) as [Hbq Hwq].
    exists q. exists (Directions.opposite d).
    rewrite (nextTileWithWrap_back level _ _ d c Hbq Hwq Hd), GridPos_eta. reflexivity.
Qed.

(** X16.  After a reorg shift of at least one mutation that returns
    [ok: true] nobody is walled in: every player tile passed as a start and
    every critical tile of the grid (the ghost starts and the tiles of the
    ghosts) has a legal move, so [availableDirections] is not empty there. *)
Theorem shift_leaves_moves (S : Type) (R : Rng S) (level : ParsedLevel) (rng : S)
    (cfg : ReorgShiftConfig) (protectedMask : list (list bool)) (starts critical : list GridPos)
    (level' : ParsedLevel) (rng' : S) (mutatedTiles : list GridPos) :
  wf_level level ->
  1 <= mutations cfg ->
  applyReorgShift R level rng cfg protectedMask starts critical
    = (level', rng', Returned true mutatedTiles) ->
  (forall s, s ∈ starts ->
     (exists q, step level' s q) /\ GhostAI.availableDirections level' s <> [])
  /\ (forall c, c ∈ critical -> in_bounds level' (pos_x c) (pos_y c) = true ->
        (exists q, step level' c q) /\ GhostAI.availableDirections level' c <> []).
Proof.
  intros Hwf Hn Hcall. unfold applyReorgShift in Hcall.
  apply shiftLoop_checks in Hcall as [[H0 _]|Hpass]; [lia| |exact Hwf].
  apply passesChecks_fair, fair_moves in Hpass as [Hstarts Hcritical].
  assert (Hdirs : forall p, (exists q, step level' p q) -> GhostAI.availableDirections level' p <> []).
  { intros p [q [d Hd]] Hnil.
    assert (Hin : d ∈ GhostAI.availableDirections level' p).
    { apply elem_of_availableDirections. unfold ghost_move, GhostAI.canMove. rewrite Hd. reflexivity. }
    rewrite Hnil in Hin. apply elem_of_nil in Hin as []. }
  split.
  - intros s Hs. split; [apply Hstarts, Hs|apply Hdirs, Hstarts, Hs].
  - intros c Hc Hb. split; [apply Hcritical; assumption|apply Hdirs, Hcritical; assumption].
Qed.

(** One accepted mutation on [tunnel_level]: the player on (1, 1) and the
    ghost start on (3, 1) keep a legal move. *)
Lemma shift_leaves_moves_witness :
  let call := applyReorgShift createRng_ops tunnel_level (snd (createRng "abc")) (shift_cfg 1)
                ring_mask [mkGridPos 1 1] [mkGridPos 3 1] in
  snd call = Returned true [mkGridPos 2 2; mkGridPos 2 3]
  /\ GhostAI.availableDirections (fst (fst call)) (mkGridPos 3 1) <> [].
Proof.
  split; [vm_compute; reflexivity|].
  refine (proj2 (proj2 (shift_leaves_moves Z createRng_ops tunnel_level (snd (createRng "abc"))
                          (shift_cfg 1) ring_mask [mkGridPos 1 1] [mkGridPos 3 1]
                          _ 3624471395 [mkGridPos 2 2; mkGridPos 2 3] wf_tunnel_level _ _)
                   (mkGridPos 3 1) _ _)).
  - vm_compute. discriminate.
  - vm_compute. reflexivity.
  - left.
  - vm_compute. reflexivity.
Defined.

(** ** pacRogue.ts: the layout of a generated level *)

Section ReturnedLayout.
Variables (params : PacRogue.PacRogueParams) (lj : LevelJson).
Hypothesis returned : PacRogue.generatePacRogueLevel params = Some lj.

Let w := level_width params.
Let h := level_height params.

(** Row [r] from the top, column [x]: the characters of the returned grid,
    its empty tiles and its power pellets. *)
Lemma returned_layout :
  (forall x r, 0 <= x < w -> 0 <= r < h ->
     PacRogueFacts.gen_char (char_at (grid_row (grid lj) r) x))
  /\ (forall x r, 0 <= x < w -> 0 <= r < h ->
        char_at (grid_row (grid lj) r) x = " "%char ->
        PacRogue.inGhostBox (PacRogue.ghostBoxOf w h) x (h - 1 - r) = true)
  /\ exists L : list GridPos, (length L <= 4)%nat
       /\ forall x r, 0 <= x < w -> 0 <= r < h ->
            char_at (grid_row (grid lj) r) x = "o"%char -> mkGridPos x r ∈ L.
Proof.
  destruct (generatePacRogueLevel_inv params lj returned) as (gw & gh & defs & -> & _).
  pose proof (level_width_range params) as Hw. pose proof (level_height_range params) as Hh.
  fold w in Hw. fold h in Hh.
  pose proof (PacRogueFacts.buildGrid_get w h Hw Hh gw gh defs (PacRogue.difficulty params)) as [Hs _].
  destruct (PacRogueFacts.buildGrid_layout w h gw gh defs (PacRogue.difficulty params))
    as (Hall & Hspace & L & Hlen & HL).
  fold w h.
  assert (Hrow : forall x r, 0 <= x < w -> 0 <= r < h ->
            PacRogue.get w h (PacRogue.buildGrid w h gw gh defs (PacRogue.difficulty params))
              x (h - 1 - r)
            = Some (char_at (grid_row (map string_of_list_ascii
                      (PacRogue.buildGrid w h gw gh defs (PacRogue.difficulty params))) r) x)).
  { intros x r Hx Hr. apply PacRogueFacts.rows_get; assumption. }
  split; [|split].
  - intros x r Hx Hr. exact (Hall _ _ _ (Hrow x r Hx Hr)).
  - intros x r Hx Hr Hc. apply Hspace. rewrite (Hrow x r Hx Hr), Hc. reflexivity.
  - exists (map (fun s => mkGridPos (fst s) (h - 1 - snd s)) L).
    split; [rewrite length_map; exact Hlen|]. intros x r Hx Hr Hc.
    apply list_elem_of_fmap. exists (x, h - 1 - r). cbn [fst snd].
    split; [f_equal; lia|]. apply HL. rewrite (Hrow x r Hx Hr), Hc. reflexivity.
Qed.

End ReturnedLayout.

Lemma positions_where_none g w h (pr : ascii -> bool) :
  (forall x y, 0 <= x < w -> 0 <= y < h -> pr (char_at (grid_row g y) x) = false) ->
  positions_where g w h pr = [].
Proof.
  intros Hno. apply elem_of_nil_inv. intros p Hp.
  apply elem_of_positions_where in Hp as [[Hx Hy] Hpr]. rewrite (Hno _ _ Hx Hy) in Hpr.
  discriminate Hpr.
Qed.

Lemma gen_char_tile (c : ascii) :
  PacRogueFacts.gen_char c ->
  (tile_of_char c = empty -> c = " "%char)
  /\ Ascii.eqb c "A" = false /\ Ascii.eqb c "B" = false /\ Ascii.eqb c "5" = false.
Proof.
  intros [[[->|[->| ->]]| ->]|[->| ->]]; (split; [|repeat split; reflexivity]);
    intros H; try reflexivity; discriminate H.
Qed.

(** X17.  The layout of a level that [generatePacRogueLevel] returns, once
    parsed: every empty tile and every ghost start lies in the rectangle of
    the ghost box, so that outside it every walkable tile carries a pellet, a
    power pellet or the player; there are at most four power pellets; and
    the level has no bomb, box or fruit marker. *)
Theorem generated_level_layout (params : PacRogue.PacRogueParams) (lj : LevelJson)
    (parsed : ParsedLevel) :
  PacRogue.generatePacRogueLevel params = Some lj ->
  parseLevel lj = inr parsed ->
  let b := PacRogue.ghostBoxOf (level_width params) (level_height params) in
  (forall x y, in_bounds parsed x y = true ->
     (PacRogue.x0 b <= x <= PacRogue.x1 b
      /\ level_height params - 1 - PacRogue.y1 b <= y <= level_height params - 1 - PacRogue.y0 b)
     \/ tileAt parsed x y = wall \/ tileAt parsed x y = pellet \/ tileAt parsed x y = power
     \/ tileAt parsed x y = playerStart)
  /\ powerCount parsed <= 4
  /\ bombPickupPositions parsed = [] /\ boxPositions parsed = []
  /\ fruitSpawnPositions parsed = [].
Proof.
  intros Hret Hparse b.
  destruct (returned_head params lj Hret) as (row0 & rest & Hgrid & Hrow0).
  destruct (returned_shape params lj Hret) as [Hlen _].
  destruct (returned_layout params lj Hret) as (Hchars & Hspace & L & HlenL & HL).
  destruct (parseLevel_inv lj parsed Hparse)
    as (row0' & rest' & Hgrid' & _ & _ & Hw & Hh & _ & _ & _ & _ & _ & _ & Hpower & _ & HA & HB & H5).
  rewrite Hgrid in Hgrid'. injection Hgrid' as <- <-. rewrite Hrow0 in Hw. rewrite Hlen in Hh.
  rewrite Hw, Hh in *.
  split; [|split; [|split; [|split]]].
  - intros x y Hb. pose proof Hb as Hxy. apply in_bounds_spec in Hxy. rewrite Hw, Hh in Hxy.
    destruct Hxy as [Hx Hy]. rewrite (tileAt_parsed lj parsed x y Hparse Hb).
    pose proof (Hchars x y Hx Hy) as Hc.
    destruct (tile_of_char (char_at (grid_row (grid lj) y) x)) eqn:Htile; auto.
    + (* ghost start *)
      left. apply tile_of_char_marker in Htile.
      apply (returned_ghosts params lj Hret x y Hx Hy) in Htile.
      destruct (ghost_start_tiles_spec params) as (_ & _ & Hin).
      specialize (Hin _ Htile). cbv zeta in Hin. cbn [pos_x pos_y] in Hin. fold b in Hin. lia.
    + (* empty *)
      left. apply gen_char_tile in Hc as [Hc _]. specialize (Hspace x y Hx Hy (Hc Htile)).
      fold b in Hspace. unfold PacRogue.inGhostBox in Hspace. lia.
  - rewrite Hpower.
    assert (Hle : (length (positions_where (grid lj) (level_width params) (level_height params)
                             (fun ch => Ascii.eqb ch "o")) <= length L)%nat).
    { apply submseteq_length, NoDup_submseteq; [apply NoDup_positions_where|].
      intros p Hp. apply elem_of_positions_where in Hp as [[Hx Hy] Hc].
      apply Ascii.eqb_eq in Hc. rewrite <- (GridPos_eta p). apply HL; assumption. }
    lia.
  - rewrite HA. apply positions_where_none. intros x y Hx Hy.
    apply (gen_char_tile _ (Hchars x y Hx Hy)).
  - rewrite HB. apply positions_where_none. intros x y Hx Hy.
    apply (gen_char_tile _ (Hchars x y Hx Hy)).
  - rewrite H5. apply positions_where_none. intros x y Hx Hy.
    apply (gen_char_tile _ (Hchars x y Hx Hy)).
Qed.

(** The level of seed "abc" with the default size. *)
Lemma generated_level_layout_witness :
  exists lj parsed,
    PacRogue.generatePacRogueLevel abc_params = Some lj /\ parseLevel lj = inr parsed
    /\ powerCount parsed <= 4 /\ bombPickupPositions parsed = [].
Proof.
  destruct (PacRogue.generatePacRogueLevel abc_params) as [lj|] eqn:Hret;
    [|vm_compute in Hret; discriminate Hret].
  destruct (parseLevel lj) as [errs|parsed] eqn:Hparse.
  - exfalso. vm_compute in Hret. injection Hret as <-. vm_compute in Hparse. discriminate Hparse.
  - exists lj, parsed. split; [reflexivity|]. split; [exact Hparse|].
    destruct (generated_level_layout abc_params lj parsed Hret Hparse) as (_ & Hp & HA & _).
    split; [exact Hp|exact HA].
Defined.

(** ** pacRogue.ts: the tile groups on the border *)

(** The middle tile of the edge of a 3x3 group in direction [d]: the indices
    [lx] and [ly] of its [shapeDefinition]. *)
Definition edge_tile (d : PacRogue.Dir) : nat * nat :=
  match d with
  | PacRogue.north => (1, 2) | PacRogue.south => (1, 0)
  | PacRogue.east => (2, 1) | PacRogue.west => (0, 1)
  end%nat.

Definition edge_open (d : PacRogue.Dir) (s : PacRogue.Shape) : bool :=
  default false (Grid2.lookup2 (PacRogue.shapeDefinition s) (fst (edge_tile d)) (snd (edge_tile d))).

(** [CONNECTIONS] and [shapeDefinition] agree. *)
Lemma connections_edges (d : PacRogue.Dir) (s : PacRogue.Shape) :
  edge_open d s = true <-> s ∈ PacRogue.CONNECTIONS d.
Proof.
  rewrite <- PacRogueFacts.has_shape_true. destruct d, s; vm_compute; split; intros H; exact H.
Qed.

(** X18.  When [generateTileGroups] returns, it returns [groupWidth]
    columns of [groupHeight] shapes, and the border constraints hold: no
    group of the first column connects west, none of the bottom row
    connects south and none of the top row connects north.  A shape
    connects in a direction exactly when its 3x3 definition has a pellet in
    the middle of that edge. *)
Theorem tile_groups_fit_border (groupWidth groupHeight : Z) (d : Difficulty) (rng : Z)
    (groupDefs : list (list PacRogue.Shape)) (rng' : Z) :
  PacRogue.generateTileGroups groupWidth groupHeight d rng = Some (groupDefs, rng') ->
  Grid2.shape (Z.to_nat groupWidth) (Z.to_nat groupHeight) groupDefs
  /\ (forall (i j : nat) (s : PacRogue.Shape), Grid2.lookup2 groupDefs i j = Some s ->
        (i = 0%nat -> s ∉ PacRogue.CONNECTIONS PacRogue.west)
        /\ (j = 0%nat -> s ∉ PacRogue.CONNECTIONS PacRogue.south)
        /\ (Z.of_nat j = groupHeight - 1 -> s ∉ PacRogue.CONNECTIONS PacRogue.north))
  /\ forall (dir : PacRogue.Dir) (s : PacRogue.Shape),
       edge_open dir s = true <-> s ∈ PacRogue.CONNECTIONS dir.
Proof.
  intros Hret.
  destruct (PacRogueFacts.generateTileGroups_inv groupWidth groupHeight d rng groupDefs rng' Hret)
    as [Hshape Hfit].
  split; [exact Hshape|]. split; [|exact connections_edges].
  intros i j s Hs. destruct (Hfit i j s Hs) as (Hw & Hs' & Hn).
  split; [intros ->; apply Hw; reflexivity|].
  split; [intros ->; apply Hs'; reflexivity|exact Hn].
Qed.

(** The groups of the level of seed "abc": three columns of ten shapes. *)
Lemma tile_groups_fit_border_witness :
  exists groupDefs rng',
    PacRogue.generateTileGroups 3 10 normal (PacRogue.seededRng "normal|abc")
      = Some (groupDefs, rng')
    /\ Grid2.shape 3 10 groupDefs.
Proof.
  destruct (PacRogue.generateTileGroups 3 10 normal (PacRogue.seededRng "normal|abc"))
    as [[groupDefs rng']|] eqn:Hret; [|vm_compute in Hret; discriminate Hret].
  exists groupDefs, rng'. split; [reflexivity|].
  exact (proj1 (tile_groups_fit_border 3 10 normal _ groupDefs rng' Hret)).
Defined.

(** ** wrapTunnels.ts: walking through a rectangle of walkable tiles *)

(** A move to a walkable neighbour of the grid is legal. *)
Lemma neighbour_step level x y d :
  d <> Direction.None ->
  in_bounds level (x + fst (vec d)) (y + snd (vec d)) = true ->
  isWalkable (tileAt level (x + fst (vec d)) (y + snd (vec d))) = true ->
  step level (mkGridPos x y) (mkGridPos (x + fst (vec d)) (y + snd (vec d))).
Proof.
  intros Hd Hb Hw. exists d. cbn [pos_x pos_y]. unfold nextTileWithWrap.
  rewrite bool_decide_eq_false_2 by exact Hd. cbv zeta. unfold in_bounds in Hb.
  rewrite Hb, Hw. reflexivity.
Qed.

Lemma reachable_trans level p q r :
  reachable level p q -> reachable level q r -> reachable level p r.
Proof.
  intros Hpq [n Hqr]. induction Hqr as [|n q r r' Hqr IH Hstep]; [exact Hpq|].
  eapply reachable_step; [apply IH, Hpq|exact Hstep].
Qed.

Section WalkableRectangle.
Variables (level : ParsedLevel) (xa xb ya yb : Z).
Hypothesis rect_walkable :
  forall x y, xa <= x <= xb -> ya <= y <= yb ->
    in_bounds level x y = true /\ isWalkable (tileAt level x y) = true.

Lemma walk_straight (d : Direction.t) (n : nat) x y :
  d <> Direction.None ->
  xa <= x <= xb -> ya <= y <= yb ->
  xa <= x + Z.of_nat n * fst (vec d) <= xb -> ya <= y + Z.of_nat n * snd (vec d) <= yb ->
  reachable level (mkGridPos x y)
    (mkGridPos (x + Z.of_nat n * fst (vec d)) (y + Z.of_nat n * snd (vec d))).
Proof.
  intros Hd Hx Hy. induction n as [|n IH]; intros Hx' Hy'.
  - rewrite !Z.mul_0_l, !Z.add_0_r. apply reachable_refl.
  - assert (Hmid : xa <= x + Z.of_nat n * fst (vec d) <= xb
                   /\ ya <= y + Z.of_nat n * snd (vec d) <= yb)
      by (destruct d; cbn [vec fst snd] in *; try contradiction; lia).
    destruct Hmid as [Hxm Hym].
    eapply reachable_step; [apply IH; assumption|].
    replace (x + Z.of_nat (S n) * fst (vec d))
      with (x + Z.of_nat n * fst (vec d) + fst (vec d)) by lia.
    replace (y + Z.of_nat (S n) * snd (vec d))
      with (y + Z.of_nat n * snd (vec d) + snd (vec d)) by lia.
    assert (Hx2 : xa <= x + Z.of_nat n * fst (vec d) + fst (vec d) <= xb) by lia.
    assert (Hy2 : ya <= y + Z.of_nat n * snd (vec d) + snd (vec d) <= yb) by lia.
    destruct (rect_walkable _ _ Hx2 Hy2) as [Hb Hw].
    apply neighbour_step; assumption.
Qed.

(** Any two tiles of the rectangle are joined by legal moves: along the row,
    then along the column. *)
Lemma rect_reachable px py qx qy :
  xa <= px <= xb -> ya <= py <= yb -> xa <= qx <= xb -> ya <= qy <= yb ->
  reachable level (mkGridPos px py) (mkGridPos qx qy).
Proof.
  intros Hpx Hpy Hqx Hqy. apply reachable_trans with (mkGridPos qx py).
  - destruct (Z.le_gt_cases px qx) as [Hle|Hgt].
    + pose proof (walk_straight Direction.Right (Z.to_nat (qx - px)) px py) as Hwalk.
      cbn [vec fst snd] in Hwalk.
      replace (px + Z.of_nat (Z.to_nat (qx - px)) * 1) with qx in Hwalk by lia.
      replace (py + Z.of_nat (Z.to_nat (qx - px)) * 0) with py in Hwalk by lia.
      apply Hwalk; [discriminate|assumption..].
    + pose proof (walk_straight Direction.Left (Z.to_nat (px - qx)) px py) as Hwalk.
      cbn [vec fst snd] in Hwalk.
      replace (px + Z.of_nat (Z.to_nat (px - qx)) * -1) with qx in Hwalk by lia.
      replace (py + Z.of_nat (Z.to_nat (px - qx)) * 0) with py in Hwalk by lia.
      apply Hwalk; [discriminate|assumption..].
  - destruct (Z.le_gt_cases py qy) as [Hle|Hgt].
    + pose proof (walk_straight Direction.Down (Z.to_nat (qy - py)) qx py) as Hwalk.
      cbn [vec fst snd] in Hwalk.
      replace (qx + Z.of_nat (Z.to_nat (qy - py)) * 0) with qx in Hwalk by lia.
      replace (py + Z.of_nat (Z.to_nat (qy - py)) * 1) with qy in Hwalk by lia.
      apply Hwalk; [discriminate|assumption..].
    + pose proof (walk_straight Direction.Up (Z.to_nat (py - qy)) qx py) as Hwalk.
      cbn [vec fst snd] in Hwalk.
      replace (qx + Z.of_nat (Z.to_nat (py - qy)) * 0) with qx in Hwalk by lia.
      replace (py + Z.of_nat (Z.to_nat (py - qy)) * -1) with qy in Hwalk by lia.
      apply Hwalk; [discriminate|assumption..].
Qed.

End WalkableRectangle.

(** ** pacRogue.ts: the ghost box of a generated level *)

Section ReturnedRoom.
Variables (params : PacRogue.PacRogueParams) (lj : LevelJson).
Hypothesis returned : PacRogue.generatePacRogueLevel params = Some lj.

Let w := level_width params.
Let h := level_height params.

(** Row [r] from the top, column [x]: no tile inside the ghost box is a
    wall, and neither the door nor the corridor is. *)
Lemma returned_room x r :
  PacRogueFacts.in_room w h x (h - 1 - r) -> 0 <= r ->
  (0 <= x < w /\ r < h) /\ char_at (grid_row (grid lj) r) x <> "#"%char.
Proof.
  intros Hroom Hr.
  destruct (generatePacRogueLevel_inv params lj returned) as (gw & gh & defs & -> & _).
  pose proof (level_width_range params) as Hw. pose proof (level_height_range params) as Hh.
  fold w in Hw. fold h in Hh.
  pose proof (PacRogueFacts.buildGrid_get w h Hw Hh gw gh defs (PacRogue.difficulty params)) as [Hs _].
  destruct (PacRogueFacts.in_room_grid w h Hw Hh _ _ Hroom) as [Hin _].
  apply PacRogueFacts.out_of_grid_false in Hin.
  assert (Hx : 0 <= x < w) by lia. assert (Hr' : 0 <= r < h) by lia.
  split; [lia|].
  pose proof (PacRogueFacts.buildGrid_room w h Hw Hh gw gh defs (PacRogue.difficulty params)
                x (h - 1 - r) Hroom) as Hopen.
  unfold PacRogue.get_is in Hopen. fold w h in Hopen |- *.
  rewrite (PacRogueFacts.rows_get w h _ x r Hx Hr' Hs) in Hopen.
  intros Heq. rewrite Heq in Hopen. discriminate Hopen.
Qed.

End ReturnedRoom.

(** X19.  The ghost box of a generated level is a room with an open door:
    in the parsed level every tile strictly inside the box is walkable; so
    are the door in the middle of its top edge ([k = 0]) and the two tiles
    of the corridor above it ([k = 1] and [k = 2]) unless they fall on the
    border ring; and every ghost start is joined to each of these tiles by
    legal moves. *)
Theorem ghost_box_room (params : PacRogue.PacRogueParams) (lj : LevelJson)
    (parsed : ParsedLevel) :
  PacRogue.generatePacRogueLevel params = Some lj ->
  parseLevel lj = inr parsed ->
  let b := PacRogue.ghostBoxOf (level_width params) (level_height params) in
  let doorX := (PacRogue.x0 b + PacRogue.x1 b) / 2 in
  let doorY := level_height params - 1 - PacRogue.y1 b in
  (forall x y, PacRogue.x0 b < x < PacRogue.x1 b ->
     doorY < y < level_height params - 1 - PacRogue.y0 b ->
     in_bounds parsed x y = true /\ isWalkable (tileAt parsed x y) = true)
  /\ forall k, 0 <= k <= 2 -> 1 <= doorY - k ->
       in_bounds parsed doorX (doorY - k) = true
       /\ isWalkable (tileAt parsed doorX (doorY - k)) = true
       /\ forall g, g ∈ ghostStarts parsed -> reachable parsed g (mkGridPos doorX (doorY - k)).
Proof.
  intros Hret Hparse b doorX doorY.
  pose proof (level_width_range params) as Hwr. pose proof (level_height_range params) as Hhr.
  pose proof (PacRogueFacts.ghostBox_bounds _ _ Hwr Hhr) as Hbox. cbv zeta in Hbox. fold b in Hbox.
  destruct (returned_head params lj Hret) as (row0 & rest & Hgrid & Hrow0).
  destruct (returned_shape params lj Hret) as [Hlen _].
  destruct (parseLevel_inv lj parsed Hparse)
    as (row0' & rest' & Hgrid' & _ & _ & Hw & Hh & _ & _ & _ & _ & HG & _).
  rewrite Hgrid in Hgrid'. injection Hgrid' as <- <-. rewrite Hrow0 in Hw. rewrite Hlen in Hh.
  (* the tiles of the room are walkable *)
  assert (Hroom : forall x y, 0 <= y ->
            PacRogueFacts.in_room (level_width params) (level_height params) x
              (level_height params - 1 - y) ->
            in_bounds parsed x y = true /\ isWalkable (tileAt parsed x y) = true).
  { intros x y Hy Hin. destruct (returned_room params lj Hret x y Hin Hy) as [Hxy Hc].
    assert (Hb : in_bounds parsed x y = true) by (apply in_bounds_spec; rewrite Hw, Hh; lia).
    split; [exact Hb|]. rewrite (tileAt_parsed lj parsed x y Hparse Hb).
    unfold isWalkable. rewrite bool_decide_eq_false_2; [reflexivity|].
    intros Hwall. apply tile_of_char_marker in Hwall. exact (Hc Hwall). }
  assert (Hinterior : forall x y, PacRogue.x0 b + 1 <= x <= PacRogue.x1 b - 1 ->
            doorY + 1 <= y <= level_height params - 1 - PacRogue.y0 b - 1 ->
            in_bounds parsed x y = true /\ isWalkable (tileAt parsed x y) = true).
  { intros x y Hx Hy. apply Hroom; [unfold doorY in Hy; lia|]. left. fold b. unfold doorY in Hy. lia. }
  assert (Hdoor : forall k, 0 <= k <= 2 -> 1 <= doorY - k ->
            in_bounds parsed doorX (doorY - k) = true
            /\ isWalkable (tileAt parsed doorX (doorY - k)) = true).
  { intros k Hk Hk'. apply Hroom; [lia|]. right. fold b. unfold doorY in *.
    split; [reflexivity|lia]. }
  split; [intros x y Hx Hy; apply Hinterior; lia|].
  (* from a ghost start to the tile below the door, then up *)
  assert (Hup : forall y, in_bounds parsed doorX (y - 1) = true ->
            isWalkable (tileAt parsed doorX (y - 1)) = true ->
            step parsed (mkGridPos doorX y) (mkGridPos doorX (y - 1))).
  { intros y Hb Hwalk. pose proof (neighbour_step parsed doorX y Direction.Up) as Hstep.
    cbn [vec fst snd] in Hstep. replace (doorX + 0) with doorX in Hstep by lia.
    replace (y + -1) with (y - 1) in Hstep by lia. apply Hstep; [discriminate|assumption..]. }
  assert (Hreach : forall g, g ∈ ghostStarts parsed ->
            reachable parsed g (mkGridPos doorX (doorY + 1))).
  { intros g Hg. rewrite HG in Hg. apply elem_of_positions_where in Hg as [[Hgx Hgy] Hc].
    rewrite Hw in Hgx. rewrite Hh in Hgy. apply Ascii.eqb_eq in Hc.
    apply (returned_ghosts params lj Hret _ _ Hgx Hgy) in Hc.
    destruct (ghost_start_tiles_spec params) as (_ & _ & Hin).
    specialize (Hin _ Hc). cbv zeta in Hin. cbn [pos_x pos_y] in Hin. fold b in Hin.
    destruct Hin as (_ & Hx & Hy).
    assert (Hmid : PacRogue.x0 b + 6 <= doorX <= PacRogue.x0 b + 6)
      by (unfold doorX; split; [apply Z.div_le_lower_bound|apply Z.lt_succ_r, Z.div_lt_upper_bound];
          lia).
    rewrite <- (GridPos_eta g).
    apply (rect_reachable parsed _ _ _ _ Hinterior (pos_x g) (pos_y g) doorX (doorY + 1));
      unfold doorY; lia. }
  intros k Hk Hk'. destruct (Hdoor k Hk Hk') as [Hb Hwalk].
  split; [exact Hb|]. split; [exact Hwalk|]. intros g Hg.
  assert (Hstep0 : step parsed (mkGridPos doorX (doorY + 1)) (mkGridPos doorX doorY)).
  { replace doorY with (doorY + 1 - 1) at 2 by lia. apply Hup.
    - replace (doorY + 1 - 1) with (doorY - 0) by lia. apply Hdoor; lia.
    - replace (doorY + 1 - 1) with (doorY - 0) by lia. apply Hdoor; lia. }
  pose proof (reachable_step parsed _ _ _ (Hreach g Hg) Hstep0) as Hr0.
  assert (Hcase : k = 0 \/ k = 1 \/ k = 2) by lia.
  destruct Hcase as [->|[->| ->]].
  - rewrite Z.sub_0_r. exact Hr0.
  - eapply reachable_step; [exact Hr0|]. apply Hup; assumption.
  - destruct (Hdoor 1 ltac:(lia) ltac:(lia)) as [Hb1 Hwalk1].
    eapply reachable_step; [eapply reachable_step; [exact Hr0|apply Hup; eassumption]|].
    replace (doorY - 2) with (doorY - 1 - 1) by lia. apply Hup.
    + replace (doorY - 1 - 1) with (doorY - 2) by lia. exact Hb.
    + replace (doorY - 1 - 1) with (doorY - 2) by lia. exact Hwalk.
Qed.

(** The level of seed "abc": its ghost starts reach the end of the
    corridor at (10, 7), two tiles above the door at (10, 9). *)
Lemma ghost_box_room_witness :
  exists lj parsed,
    PacRogue.generatePacRogueLevel abc_params = Some lj /\ parseLevel lj = inr parsed
    /\ forall g, g ∈ ghostStarts parsed -> reachable parsed g (mkGridPos 10 7).
Proof.
  destruct (PacRogue.generatePacRogueLevel abc_params) as [lj|] eqn:Hret;
    [|vm_compute in Hret; discriminate Hret].
  destruct (parseLevel lj) as [errs|parsed] eqn:Hparse.
  - exfalso. vm_compute in Hret. injection Hret as <-. vm_compute in Hparse. discriminate Hparse.
  - exists lj, parsed. split; [reflexivity|]. split; [exact Hparse|].
    refine (proj2 (proj2 (proj2 (ghost_box_room abc_params lj parsed Hret Hparse) 2 _ _)));
      [lia|vm_compute; intros H; discriminate H].
Defined.
